(** * LSTM cell and sequence passes of [Exercise 2a-Building_LSTM.ipynb]

    A shallow embedding of the six functions of the notebook
    ([sigmoid], [rel_error], [lstm_step_forward], [lstm_step_backward],
    [lstm_forward], [lstm_backward]) and the properties stated about them.

    Numbers.  The notebook computes in IEEE double precision; the embedding
    reads every array entry as a real number ([R]), so rounding, overflow and
    NaN are outside the model.  [np.exp] is [exp], [np.tanh] is [tanh].
    Arrays are of dtype float64 throughout, except in the module [IntDtype],
    which follows [sigmoid] on an array of integer dtype.

    Arrays.  A numpy array of rank 1, 2 or 3 is a nested list in row-major
    order.  A nested list cannot record the trailing dimensions of an array
    whose leading dimension is 0, and numpy raises (or broadcasts) where
    operand shapes disagree; the functions below are total on lists and
    coincide with numpy on operands of the documented shapes with positive
    dimensions, which is what the theorems assume.

    Two levels.  The value level treats the functions as maps from array
    values to array values.  [lstm_step_backward] also updates its argument
    [dnext_c] in place, so the module [Store] gives it and its caller
    [lstm_backward] a second embedding over an explicit store of arrays, with
    references and views, where sharing is visible; the module [StoreFwd]
    does the same for the two forward functions, whose caches keep views of
    their arguments. *)

From Stdlib Require Import Reals Lra Lia.
From stdpp Require Import base list gmap.

Open Scope R_scope.

(** ** Arrays as nested lists *)

Abbreviation vec := (list R).
Abbreviation matrix := (list (list R)).
Abbreviation tensor3 := (list (list (list R))).

(** [M[n, k]] and [v[k]], read with a default outside the array. *)
Definition vget (v : vec) (k : nat) : R := nth k v 0.
Definition mget (M : matrix) (n k : nat) : R := nth k (nth n M []) 0.
Definition tget (X : tensor3) (n t d : nat) : R := nth d (nth t (nth n X []) []) 0.

(** [M[n, k] = v] and [v[k] = a], the single-entry updates a finite
    difference makes. *)
Definition vset (v : vec) (k : nat) (a : R) : vec := <[k := a]> v.
Definition mset (M : matrix) (n k : nat) (a : R) : matrix :=
  <[n := <[k := a]> (nth n M [])]> M.

(** [M.shape] for rank 2 and rank 3. *)
Definition nrows (M : matrix) : nat := length M.
Definition ncols (M : matrix) : nat := length (hd [] M).
Definition shape2 (M : matrix) : nat * nat := (nrows M, ncols M).
Definition shape3 (X : tensor3) : nat * nat * nat :=
  (length X, length (hd [] X), length (hd [] (hd [] X))).

(** Decidable shape predicates. *)
Definition has_len (K : nat) (v : vec) : bool := length v =? K.
Definition has_shape (N K : nat) (M : matrix) : bool :=
  (length M =? N) && forallb (has_len K) M.
Definition has_shape3 (N T K : nat) (X : tensor3) : bool :=
  (length X =? N) && forallb (has_shape T K) X.

(** [np.zeros((N, K))], [np.zeros(K)], [np.zeros((N, T, K))],
    [np.zeros_like], [np.ones_like]. *)
Definition zeros1 (K : nat) : vec := replicate K 0.
Definition zeros (N K : nat) : matrix := replicate N (zeros1 K).
Definition zeros3 (N T K : nat) : tensor3 := replicate N (zeros T K).
Definition zeros_like_flat (x : vec) : vec := map (fun _ => 0) x.
Definition ones_like_flat (x : vec) : vec := map (fun _ => 1) x.
Definition zeros_like (M : matrix) : matrix := map zeros_like_flat M.

(** Elementwise arithmetic on operands of one shape. *)
Definition vadd (u v : vec) : vec := zip_with Rplus u v.
Definition madd (A B : matrix) : matrix := zip_with vadd A B.
Definition mmul (A B : matrix) : matrix := zip_with (zip_with Rmult) A B.
(** [A + b] with [b] of rank 1 broadcast over the rows of [A]. *)
Definition madd_row (A : matrix) (b : vec) : matrix := map (fun r => vadd r b) A.
(** [1 - A], [A ** 2], [np.tanh(A)]. *)
Definition one_minus (A : matrix) : matrix := map (map (fun v => 1 - v)) A.
Definition msq (A : matrix) : matrix := map (map (fun v => v ^ 2)) A.
Definition mtanh (A : matrix) : matrix := map (map tanh) A.

(** Sums: [np.sum] of a flat buffer, column [j], [np.sum(A, axis=0)]. *)
Definition Rsum (l : vec) : R := foldr Rplus 0 l.
Definition col (j : nat) (A : matrix) : vec := map (fun r => nth j r 0) A.
Definition sum_axis0 (A : matrix) : vec :=
  map (fun j => Rsum (col j A)) (seq 0 (ncols A)).

(** [A.T] and [A.dot(B)]. *)
Definition transpose (A : matrix) : matrix :=
  map (fun j => col j A) (seq 0 (ncols A)).
Definition inner (u v : vec) : R := Rsum (zip_with Rmult u v).
Definition dot (A B : matrix) : matrix :=
  map (fun a => map (fun j => inner a (col j B)) (seq 0 (ncols B))) A.

(** Column slices [A[:, lo:hi]] and [A[:, lo:]], with Python's clipping. *)
Definition cols_slice (lo hi : nat) (A : matrix) : matrix :=
  map (fun r => take (hi - lo) (drop lo r)) A.
Definition cols_from (lo : nat) (A : matrix) : matrix := map (drop lo) A.

(** Slice assignments [A[:, lo:hi] = V] and [A[:, lo:] = V]. *)
Definition set_cols_slice (lo hi : nat) (A V : matrix) : matrix :=
  zip_with (fun r v => take lo r ++ v ++ drop hi r) A V.
Definition set_cols_from (lo : nat) (A V : matrix) : matrix :=
  zip_with (fun r v => take lo r ++ v) A V.

(** Time slices of a rank-3 array: [X[:, t, :]], [X[:, t, :] = M],
    [X[:, t, :] += M] and [X[:, 1:, :]]. *)
Definition slice_t (X : tensor3) (t : nat) : matrix := map (fun s => nth t s []) X.
Definition set_slice_t (X : tensor3) (t : nat) (M : matrix) : tensor3 :=
  zip_with (fun s r => <[t := r]> s) X M.
Definition add_slice_t (X : tensor3) (t : nat) (M : matrix) : tensor3 :=
  zip_with (fun s r => <[t := vadd (nth t s []) r]> s) X M.
Definition drop_t (k : nat) (X : tensor3) : tensor3 := map (drop k) X.

(** Flat buffer of an array and the way back, for functions that act on the
    buffer and keep the shape. *)
Fixpoint unflatten (szs : list nat) (l : vec) : matrix :=
  match szs with
  | [] => []
  | k :: szs => take k l :: unflatten szs (drop k l)
  end.

(** ** sigmoid *)

(** The boolean masks [x >= 0] and [x < 0]. *)
Definition ge0 (v : R) : bool := if Rge_dec v 0 then true else false.
Definition lt0 (v : R) : bool := if Rlt_dec v 0 then true else false.

(** [x[mask]]: the entries under a true mask, in buffer order. *)
Fixpoint select (mask : list bool) (x : vec) : vec :=
  match mask, x with
  | true :: mask, v :: x => v :: select mask x
  | false :: mask, _ :: x => select mask x
  | _, _ => []
  end.

(** [z[mask] = vals]: the entries of [z] under a true mask are replaced, in
    buffer order, by the successive entries of [vals]. *)
Fixpoint scatter (mask : list bool) (z vals : vec) : vec :=
  match mask, z with
  | true :: mask, zi :: z =>
      match vals with
      | v :: vals => v :: scatter mask z vals
      | [] => zi :: scatter mask z []
      end
  | false :: mask, zi :: z => zi :: scatter mask z vals
  | _, _ => z
  end.

(** The arguments handed to [np.exp] by the two masked assignments. *)
Definition exp_args_pos (x : vec) : vec := map Ropp (select (map ge0 x) x).
Definition exp_args_neg (x : vec) : vec := select (map lt0 x) x.

Definition sigmoid_flat (x : vec) : vec :=
  let pos_mask := map ge0 x in
  let neg_mask := map lt0 x in
  let z := zeros_like_flat x in
  let z := scatter pos_mask z (map exp (exp_args_pos x)) in
  let z := scatter neg_mask z (map exp (exp_args_neg x)) in
  let top := ones_like_flat x in
  let top := scatter neg_mask top (select neg_mask z) in
  zip_with Rdiv top (map (fun v => 1 + v) z).

(** [sigmoid] on a rank-2 array: the same computation on its buffer. *)
Definition sigmoid (M : matrix) : matrix :=
  unflatten (map length M) (sigmoid_flat (concat M)).

(** The value the masked assignments leave at one entry. *)
Definition sigmoid_entry (v : R) : R :=
  if Rge_dec v 0 then 1 / (1 + exp (- v)) else exp v / (1 + exp v).

(** The logistic function [1/(1+e^-x)] the specification names. *)
Definition logistic (v : R) : R := 1 / (1 + exp (- v)).

(** ** lstm_step_forward *)

(** The cache tuple, with the source's variable names as field names. *)
Record step_cache := StepCache {
  c_x : matrix;
  c_prev_h : matrix;
  c_prev_c : matrix;
  c_next_h : matrix;
  c_next_c : matrix;
  c_Wx : matrix;
  c_Wh : matrix;
  c_b : vec;
  c_activation : matrix;
  c_input : matrix;
  c_forget : matrix;
  c_output : matrix;
  c_block_input : matrix
}.

Definition lstm_step_forward (x prev_h prev_c Wx Wh : matrix) (b : vec)
  : matrix * matrix * step_cache :=
  let '(N, H) := shape2 prev_h in
  let activation := madd_row (madd (dot x Wx) (dot prev_h Wh)) b in
  let input := sigmoid (cols_slice 0 H activation) in
  let forget := sigmoid (cols_slice H (2 * H) activation) in
  let output := sigmoid (cols_slice (2 * H) (3 * H) activation) in
  let block_input := mtanh (cols_from (3 * H) activation) in
  let next_c := madd (mmul forget prev_c) (mmul input block_input) in
  let next_h := mmul output (mtanh next_c) in
  let cache := StepCache x prev_h prev_c next_h next_c Wx Wh b activation
                         input forget output block_input in
  (next_h, next_c, cache).

(** ** lstm_step_backward, on array values *)

(** The value [dnext_c] holds after the in-place statement
    [dnext_c += dnext_h*output*(1-np.tanh(next_c)**2)]. *)
Definition dnext_c_updated (dnext_h dnext_c : matrix) (cache : step_cache) : matrix :=
  madd dnext_c
       (mmul (mmul dnext_h (c_output cache)) (one_minus (msq (mtanh (c_next_c cache))))).

(** The right-hand sides of the four block assignments to [dactivation];
    [dnext_c] is the array after its in-place update. *)
Definition da_input_block (dnext_c : matrix) (cache : step_cache) : matrix :=
  let dinput_gate := mmul dnext_c (c_block_input cache) in
  mmul (mmul dinput_gate (c_input cache)) (one_minus (c_input cache)).
Definition da_forget_block (dnext_c : matrix) (cache : step_cache) : matrix :=
  let dforget_gate := mmul dnext_c (c_prev_c cache) in
  mmul (mmul dforget_gate (c_forget cache)) (one_minus (c_forget cache)).
Definition da_output_block (dnext_h : matrix) (cache : step_cache) : matrix :=
  let doutput_gate := mmul dnext_h (mtanh (c_next_c cache)) in
  mmul (mmul doutput_gate (c_output cache)) (one_minus (c_output cache)).
Definition da_block_input_block (dnext_c : matrix) (cache : step_cache) : matrix :=
  let dblock_input := mmul dnext_c (c_input cache) in
  mmul dblock_input (one_minus (msq (c_block_input cache))).

(** The array [dactivation] after its four block assignments. *)
Definition dactivation_of (dnext_h dnext_c : matrix) (cache : step_cache) : matrix :=
  let '(N, H) := shape2 dnext_h in
  let input := c_input cache in
  let forget := c_forget cache in
  let output := c_output cache in
  let block_input := c_block_input cache in
  let dinput_gate := mmul dnext_c block_input in
  let dblock_input := mmul dnext_c input in
  let dforget_gate := mmul dnext_c (c_prev_c cache) in
  let doutput_gate := mmul dnext_h (mtanh (c_next_c cache)) in
  let dactivation := zeros N (4 * H) in
  let dactivation :=
    set_cols_slice 0 H dactivation (mmul (mmul dinput_gate input) (one_minus input)) in
  let dactivation :=
    set_cols_slice H (2 * H) dactivation
                   (mmul (mmul dforget_gate forget) (one_minus forget)) in
  let dactivation :=
    set_cols_slice (2 * H) (3 * H) dactivation
                   (mmul (mmul doutput_gate output) (one_minus output)) in
  set_cols_from (3 * H) dactivation (mmul dblock_input (one_minus (msq block_input))).

(** The six returned arrays [(dx, dprev_h, dprev_c, dWx, dWh, db)]. *)
Definition lstm_step_backward (dnext_h dnext_c : matrix) (cache : step_cache)
  : matrix * matrix * matrix * matrix * matrix * vec :=
  let dnext_c := dnext_c_updated dnext_h dnext_c cache in
  let dprev_c := mmul dnext_c (c_forget cache) in
  let dactivation := dactivation_of dnext_h dnext_c cache in
  let dx := dot dactivation (transpose (c_Wx cache)) in
  let dWx := dot (transpose (c_x cache)) dactivation in
  let dWh := dot (transpose (c_prev_h cache)) dactivation in
  let dprev_h := dot dactivation (transpose (c_Wh cache)) in
  let db := sum_axis0 dactivation in
  (dx, dprev_h, dprev_c, dWx, dWh, db).

(** ** Exceptions *)

(** [KeyError k]: a dictionary has no key [k].  [TypeError]: a reference does
    not hold an array of the rank the statement needs. *)
Inductive exn := KeyError (k : nat) | TypeError.

Inductive result (A : Type) := Ok (a : A) | Raise (e : exn).
Arguments Ok {A} a.
Arguments Raise {A} e.

Definition rbind {A B : Type} (m : result A) (k : A -> result B) : result B :=
  match m with
  | Ok a => k a
  | Raise e => Raise e
  end.

(** A [for] loop whose body may raise. *)
Fixpoint for_each {A S : Type} (body : S -> A -> result S) (s : S) (l : list A)
  : result S :=
  match l with
  | [] => Ok s
  | a :: l => rbind (body s a) (fun s' => for_each body s' l)
  end.

(** [d[k]] on a dictionary with integer keys. *)
Definition dict_get {V : Type} (d : gmap nat V) (k : nat) : result V :=
  match d !! k with
  | Some v => Ok v
  | None => Raise (KeyError k)
  end.

(** ** lstm_forward *)

(** One iteration of the loop: the state is [(h, prev_c, seq_cache)]. *)
Definition lstm_forward_body (x : tensor3) (Wx Wh : matrix) (b : vec)
  (st : tensor3 * matrix * gmap nat step_cache) (i : nat)
  : tensor3 * matrix * gmap nat step_cache :=
  let '(h, prev_c, seq_cache) := st in
  let '(next_h, next_c, cache) :=
    lstm_step_forward (slice_t x i) (slice_t h i) prev_c Wx Wh b in
  (set_slice_t h (i + 1) next_h, next_c, <[i := cache]> seq_cache).

Definition lstm_forward (x : tensor3) (h0 Wx Wh : matrix) (b : vec)
  : tensor3 * gmap nat step_cache :=
  let '(N, T, D) := shape3 x in
  let H := nrows Wh in
  let h := zeros3 N (T + 1) H in
  let seq_cache : gmap nat step_cache := ∅ in
  let h := set_slice_t h 0 h0 in
  let prev_c := zeros_like h0 in
  let '(h, prev_c, seq_cache) :=
    foldl (lstm_forward_body x Wx Wh b) (h, prev_c, seq_cache) (seq 0 T) in
  let h := drop_t 1 h in
  (h, seq_cache).

(** ** lstm_backward, on array values *)

(** One iteration of the loop: the state is
    [(dx, dprev, dprev_c, dWx, dWh, db)]. *)
Definition lstm_backward_body (dh : tensor3) (cache : gmap nat step_cache)
  (st : tensor3 * matrix * matrix * matrix * matrix * vec) (i : nat)
  : result (tensor3 * matrix * matrix * matrix * matrix * vec) :=
  let '(dx, dprev, dprev_c, dWx, dWh, db) := st in
  let dh_current := madd (slice_t dh i) dprev in
  rbind (dict_get cache i) (fun cache_i =>
  let '(dx_t, dprev, dprev_c, dWx_t, dWh_t, db_t) :=
    lstm_step_backward dh_current dprev_c cache_i in
  let dx := add_slice_t dx i dx_t in
  let db := vadd db db_t in
  let dWx := madd dWx dWx_t in
  let dWh := madd dWh dWh_t in
  Ok (dx, dprev, dprev_c, dWx, dWh, db)).

Definition lstm_backward (dh : tensor3) (cache : gmap nat step_cache)
  : result (tensor3 * matrix * matrix * matrix * vec) :=
  let '(N, T, H) := shape3 dh in
  rbind (dict_get cache 0) (fun cache_0 =>
  let '(_, D) := shape2 (c_x cache_0) in
  let dx := zeros3 N T D in
  let dh0 := zeros N H in
  let dWx := zeros D (4 * H) in
  let dWh := zeros H (4 * H) in
  let db := zeros1 (4 * H) in
  let dprev := zeros N H in
  let dprev_c := zeros N H in
  rbind (for_each (lstm_backward_body dh cache)
                  (dx, dprev, dprev_c, dWx, dWh, db) (rev (seq 0 T)))
        (fun '(dx, dprev, dprev_c, dWx, dWh, db) =>
  let dh0 := madd dh0 dprev in
  Ok (dx, dh0, dWx, dWh, db))).

(** ** Index notation of the specification *)

(** [bigsum K f] is [f 0 + ... + f (K-1)], the sum the specification writes
    with an index. *)
Fixpoint bigsum (K : nat) (f : nat -> R) : R :=
  match K with
  | O => 0
  | S K => bigsum K f + f K
  end.

(** The affine combination [x·Wx + prev_h·Wh + b] at row [n], column [k]. *)
Definition act_entry (x prev_h Wx Wh : matrix) (b : vec) (D H n k : nat) : R :=
  bigsum D (fun d => mget x n d * mget Wx d k)
  + bigsum H (fun j => mget prev_h n j * mget Wh j k)
  + vget b k.

(** The shapes of the thirteen cached arrays for batch size [N], input
    width [D] and hidden width [H]. *)
Definition cache_has_shape (N D H : nat) (c : step_cache) : bool :=
  has_shape N D (c_x c) && has_shape N H (c_prev_h c) && has_shape N H (c_prev_c c)
  && has_shape N H (c_next_h c) && has_shape N H (c_next_c c)
  && has_shape D (4 * H) (c_Wx c) && has_shape H (4 * H) (c_Wh c)
  && has_len (4 * H) (c_b c) && has_shape N (4 * H) (c_activation c)
  && has_shape N H (c_input c) && has_shape N H (c_forget c)
  && has_shape N H (c_output c) && has_shape N H (c_block_input c).

(** The scalar cell: next cell state and next hidden state of one unit from
    its four pre-activations and its previous cell state. *)
Definition cell_c (ai af ag c : R) : R := logistic af * c + logistic ai * tanh ag.
Definition cell_h (ai af ao ag c : R) : R := logistic ao * tanh (cell_c ai af ag c).

(** [np.sum(M)] over a rank-2 array. *)
Definition msum (M : matrix) : R := Rsum (concat M).

(** The scalar [sum(next_h * dnext_h) + sum(next_c * dnext_c)] whose gradient
    in the six inputs the backward step is to return: the quantity the
    notebook differentiates numerically in its check of the step. *)
Definition step_loss (dnext_h dnext_c x prev_h prev_c Wx Wh : matrix) (b : vec) : R :=
  let '(next_h, next_c, _) := lstm_step_forward x prev_h prev_c Wx Wh b in
  msum (mmul dnext_h next_h) + msum (mmul dnext_c next_c).

(** ** The recurrences of the specification *)

(** Hidden and cell state after [i] steps of the cell, started from
    [(h0, c0)] and fed the time slices [x[:, 0, :]], [x[:, 1, :]], ... *)
Fixpoint lstm_chain (x : tensor3) (h0 c0 Wx Wh : matrix) (b : vec) (i : nat)
  : matrix * matrix :=
  match i with
  | O => (h0, c0)
  | S i =>
      let '(h, c) := lstm_chain x h0 c0 Wx Wh b i in
      let '(next_h, next_c, _) := lstm_step_forward (slice_t x i) h c Wx Wh b in
      (next_h, next_c)
  end.

(** The cache of step [i] of that chain. *)
Definition chain_cache (x : tensor3) (h0 c0 Wx Wh : matrix) (b : vec) (i : nat)
  : step_cache :=
  let '(h, c) := lstm_chain x h0 c0 Wx Wh b i in
  (lstm_step_forward (slice_t x i) h c Wx Wh b).2.

(** The rank-3 array with [N] rows whose time slice [t] is the [t]-th matrix
    of a list. *)
Definition stack_t (N : nat) (Ms : list matrix) : tensor3 :=
  map (fun n => map (fun M => nth n M []) Ms) (seq 0 N).

(** The sequence forward pass with the initial cell state passed
    explicitly: the hidden states of steps [0 .. T-1] and their caches. *)
Definition lstm_forward_from (c0 : matrix) (x : tensor3) (h0 Wx Wh : matrix) (b : vec)
  : tensor3 * gmap nat step_cache :=
  let '(N, T, _) := shape3 x in
  (stack_t N (map (fun t => (lstm_chain x h0 c0 Wx Wh b (S t)).1) (seq 0 T)),
   map_seq 0 (map (chain_cache x h0 c0 Wx Wh b) (seq 0 T))).

(** Backpropagation through time.  [bptt_carry k] is the pair of carried
    gradients [(dh_carry, dc_carry)] after the [k] latest timesteps
    [T-1, ..., T-k] have been processed, and [bptt_step k] is the result of
    the cell step backward at the next timestep, [T-1-k]. *)
Fixpoint bptt_carry (dh : tensor3) (cs : nat -> step_cache) (N H T : nat) (k : nat)
  : matrix * matrix :=
  match k with
  | O => (zeros N H, zeros N H)
  | S k =>
      let '(dh_carry, dc_carry) := bptt_carry dh cs N H T k in
      let t := (T - 1 - k)%nat in
      let '(_, dprev_h, dprev_c, _, _, _) :=
        lstm_step_backward (madd (slice_t dh t) dh_carry) dc_carry (cs t) in
      (dprev_h, dprev_c)
  end.

Definition bptt_step (dh : tensor3) (cs : nat -> step_cache) (N H T : nat) (k : nat)
  : matrix * matrix * matrix * matrix * matrix * vec :=
  let '(dh_carry, dc_carry) := bptt_carry dh cs N H T k in
  let t := (T - 1 - k)%nat in
  lstm_step_backward (madd (slice_t dh t) dh_carry) dc_carry (cs t).

(** The result of the cell step backward at timestep [t]. *)
Definition bptt_at (dh : tensor3) (cs : nat -> step_cache) (N H T : nat) (t : nat)
  : matrix * matrix * matrix * matrix * matrix * vec :=
  bptt_step dh cs N H T (T - 1 - t).

(** The state [(dx, dprev, dprev_c, dWx, dWh, db)] of the loop of
    [lstm_backward] once the [k] latest timesteps have been processed. *)
Definition bptt_inv (dh : tensor3) (cs : nat -> step_cache) (N T D H : nat) (k : nat)
  (st : tensor3 * matrix * matrix * matrix * matrix * vec) : Prop :=
  let carry := bptt_carry dh cs N H T in
  let step := bptt_step dh cs N H T in
  let '(dx, dprev, dprev_c, dWx, dWh, db) := st in
  (dprev, dprev_c) = carry k
  /\ has_shape3 N T D dx = true
  /\ (forall t, (T - k <= t < T)%nat ->
        slice_t dx t = (step (T - 1 - t)%nat).1.1.1.1.1)
  /\ (forall t, (t < T - k)%nat -> slice_t dx t = zeros N D)
  /\ has_shape D (4 * H) dWx = true
  /\ (forall d c, (d < D)%nat -> (c < 4 * H)%nat ->
        mget dWx d c = bigsum k (fun i => mget (step i).1.1.2 d c))
  /\ has_shape H (4 * H) dWh = true
  /\ (forall j c, (j < H)%nat -> (c < 4 * H)%nat ->
        mget dWh j c = bigsum k (fun i => mget (step i).1.2 j c))
  /\ has_len (4 * H) db = true
  /\ (forall c, (c < 4 * H)%nat -> vget db c = bigsum k (fun i => vget (step i).2 c)).

(** ** A small concrete run *)

(** Batch size, sequence length, input width and hidden width all 1; the
    bias feeds 1 to the block input, so the cell state after the step is
    [tanh 1 / 2]. *)
Definition ex_x : tensor3 := [[[0]]].
Definition ex_h0 : matrix := [[0]].
Definition ex_c0 : matrix := [[0]].
Definition ex_Wx : matrix := [[0; 0; 0; 0]].
Definition ex_Wh : matrix := [[0; 0; 0; 0]].
Definition ex_b : vec := [0; 0; 0; 1].
Definition ex_dh : tensor3 := [[[1]]].
Definition ex_dnext_h : matrix := [[1]].
Definition ex_dnext_c : matrix := [[0]].

(** The thirteen arrays the step caches on that run, written out. *)
Definition ex_cache : step_cache :=
  StepCache [[0]] [[0]] [[0]] [[/ 2 * tanh (/ 2 * tanh 1)]] [[/ 2 * tanh 1]]
            ex_Wx ex_Wh ex_b [[0; 0; 0; 1]] [[/ 2]] [[/ 2]] [[/ 2]] [[tanh 1]].

(** ** The store level: arrays by reference *)

Module Store.

(** A numpy array object of rank 1, 2 or 3. *)
Inductive ndarray := Arr1 (v : vec) | Arr2 (m : matrix) | Arr3 (x : tensor3).

(** The store maps locations to array objects.  A location is an index into
    the list, so allocation appends and a fresh location is the length. *)
Abbreviation store := (list ndarray).

(** A Python reference to a rank-2 array: an array object, or the view
    [X[:, t, :]] of a rank-3 array object, which shares its memory. *)
Inductive ref := Whole (l : nat) | TimeSlice (l : nat) (t : nat).

(** The array object whose memory a reference reads and writes. *)
Definition base (r : ref) : nat :=
  match r with
  | Whole l => l
  | TimeSlice l _ => l
  end.

(** Computations that read and update the store and may raise; the store
    survives an exception, as it does in Python. *)
Definition M (A : Type) : Type := store -> store * result A.

Definition ret {A : Type} (a : A) : M A := fun s => (s, Ok a).
Definition raise {A : Type} (e : exn) : M A := fun s => (s, Raise e).
Definition bind {A B : Type} (m : M A) (k : A -> M B) : M B :=
  fun s =>
    match m s with
    | (s', Ok a) => k a s'
    | (s', Raise e) => (s', Raise e)
    end.

#[export] Instance M_ret : MRet M := @ret.
#[export] Instance M_bind : MBind M := fun A B k m => bind m k.

(** Primitive accesses. *)
Definition alloc (a : ndarray) : M nat := fun s => (s ++ [a], Ok (length s)).
Definition load (l : nat) : M ndarray :=
  fun s =>
    match s !! l with
    | Some a => (s, Ok a)
    | None => (s, Raise TypeError)
    end.
Definition store_at (l : nat) (a : ndarray) : M unit :=
  fun s => (<[l := a]> s, Ok tt).

(** Reading the value of an array of a given rank through a reference. *)
Definition read1 (l : nat) : M vec :=
  a ← load l;
  match a with
  | Arr1 v => mret v
  | _ => raise TypeError
  end.
Definition read3 (l : nat) : M tensor3 :=
  a ← load l;
  match a with
  | Arr3 x => mret x
  | _ => raise TypeError
  end.
Definition read2 (r : ref) : M matrix :=
  match r with
  | Whole l =>
      a ← load l;
      match a with
      | Arr2 m => mret m
      | _ => raise TypeError
      end
  | TimeSlice l t =>
      a ← load l;
      match a with
      | Arr3 x => mret (slice_t x t)
      | _ => raise TypeError
      end
  end.

(** Overwriting the contents of an array in place through a reference. *)
Definition write1 (l : nat) (v : vec) : M unit :=
  a ← load l;
  match a with
  | Arr1 _ => store_at l (Arr1 v)
  | _ => raise TypeError
  end.
Definition write2 (r : ref) (m : matrix) : M unit :=
  match r with
  | Whole l =>
      a ← load l;
      match a with
      | Arr2 _ => store_at l (Arr2 m)
      | _ => raise TypeError
      end
  | TimeSlice l t =>
      a ← load l;
      match a with
      | Arr3 x => store_at l (Arr3 (set_slice_t x t m))
      | _ => raise TypeError
      end
  end.

(** The in-place additions [a += v]. *)
Definition iadd1 (l : nat) (v : vec) : M unit :=
  old ← read1 l; write1 l (vadd old v).
Definition iadd2 (r : ref) (m : matrix) : M unit :=
  old ← read2 r; write2 r (madd old m).

(** The cache tuple holds references. *)
Record cache_refs := CacheRefs {
  r_x : ref;
  r_prev_h : ref;
  r_prev_c : ref;
  r_next_h : ref;
  r_next_c : ref;
  r_Wx : ref;
  r_Wh : ref;
  r_b : nat;
  r_activation : ref;
  r_input : ref;
  r_forget : ref;
  r_output : ref;
  r_block_input : ref
}.

(** [d[k]] on a dictionary of caches. *)
Definition dict_get {V : Type} (d : gmap nat V) (k : nat) : M V :=
  match d !! k with
  | Some v => mret v
  | None => raise (KeyError k)
  end.

(** A [for] loop. *)
Fixpoint for_each {A S : Type} (body : S -> A -> M S) (s : S) (l : list A) : M S :=
  match l with
  | [] => mret s
  | a :: l => s' ← body s a; for_each body s' l
  end.

(** [lstm_step_backward], statement by statement.  Each statement reads its
    operands from the store as it stands then.  The arrays bound to
    [dinput_gate], [dblock_input], [dforget_gate], [doutput_gate] and
    [dactivation] are reachable from no other name, so they are kept as
    values; the six returned arrays are allocated. *)
Definition lstm_step_backward (dnext_h dnext_c : ref) (cache : cache_refs)
  : M (ref * ref * ref * ref * ref * nat) :=
  dh ← read2 dnext_h;
  let '(N, H) := shape2 dh in
  (* dnext_c += dnext_h*output*(1-np.tanh(next_c)**2) *)
  dh ← read2 dnext_h;
  output ← read2 (r_output cache);
  next_c ← read2 (r_next_c cache);
  iadd2 dnext_c (mmul (mmul dh output) (one_minus (msq (mtanh next_c))));;
  (* dprev_c = dnext_c*forget *)
  dc ← read2 dnext_c;
  forget ← read2 (r_forget cache);
  dprev_c ← alloc (Arr2 (mmul dc forget));
  (* dinput_gate = dnext_c*block_input *)
  dc ← read2 dnext_c;
  block_input ← read2 (r_block_input cache);
  let dinput_gate := mmul dc block_input in
  (* dblock_input = dnext_c*input *)
  dc ← read2 dnext_c;
  input ← read2 (r_input cache);
  let dblock_input := mmul dc input in
  (* dforget_gate = dnext_c*prev_c *)
  dc ← read2 dnext_c;
  prev_c ← read2 (r_prev_c cache);
  let dforget_gate := mmul dc prev_c in
  (* doutput_gate = dnext_h*np.tanh(next_c) *)
  dh ← read2 dnext_h;
  next_c ← read2 (r_next_c cache);
  let doutput_gate := mmul dh (mtanh next_c) in
  (* dactivation and its four blocks *)
  let dactivation := zeros N (4 * H) in
  input ← read2 (r_input cache);
  let dactivation :=
    set_cols_slice 0 H dactivation (mmul (mmul dinput_gate input) (one_minus input)) in
  forget ← read2 (r_forget cache);
  let dactivation :=
    set_cols_slice H (2 * H) dactivation
                   (mmul (mmul dforget_gate forget) (one_minus forget)) in
  output ← read2 (r_output cache);
  let dactivation :=
    set_cols_slice (2 * H) (3 * H) dactivation
                   (mmul (mmul doutput_gate output) (one_minus output)) in
  block_input ← read2 (r_block_input cache);
  let dactivation :=
    set_cols_from (3 * H) dactivation
                  (mmul dblock_input (one_minus (msq block_input))) in
  (* the five products and sums *)
  Wx ← read2 (r_Wx cache);
  dx ← alloc (Arr2 (dot dactivation (transpose Wx)));
  x ← read2 (r_x cache);
  dWx ← alloc (Arr2 (dot (transpose x) dactivation));
  prev_h ← read2 (r_prev_h cache);
  dWh ← alloc (Arr2 (dot (transpose prev_h) dactivation));
  Wh ← read2 (r_Wh cache);
  dprev_h ← alloc (Arr2 (dot dactivation (transpose Wh)));
  db ← alloc (Arr1 (sum_axis0 dactivation));
  mret (Whole dx, Whole dprev_h, Whole dprev_c, Whole dWx, Whole dWh, db).

(** One iteration of the loop of [lstm_backward]; [dprev] and [dprev_c] are
    rebound by the iteration, the accumulators are updated in place. *)
Definition lstm_backward_body (dh : nat) (cache : gmap nat cache_refs)
  (dx db : nat) (dWx dWh : ref) (st : ref * ref) (i : nat) : M (ref * ref) :=
  let '(dprev, dprev_c) := st in
  (* dh_current = dh[:,i,:] + dprev *)
  dhv ← read3 dh;
  dpv ← read2 dprev;
  dh_current ← alloc (Arr2 (madd (slice_t dhv i) dpv));
  cache_i ← dict_get cache i;
  '(dx_t, dprev, dprev_c, dWx_t, dWh_t, db_t) ←
    lstm_step_backward (Whole dh_current) dprev_c cache_i;
  (* dx[:,i,:] += dx_t *)
  v ← read2 dx_t;
  iadd2 (TimeSlice dx i) v;;
  (* db += db_t *)
  v ← read1 db_t;
  iadd1 db v;;
  (* dWx += dWx_t *)
  v ← read2 dWx_t;
  iadd2 dWx v;;
  (* dWh += dWh_t *)
  v ← read2 dWh_t;
  iadd2 dWh v;;
  mret (dprev, dprev_c).

Definition lstm_backward (dh : nat) (cache : gmap nat cache_refs)
  : M (nat * ref * ref * ref * nat) :=
  dhv ← read3 dh;
  let '(N, T, H) := shape3 dhv in
  cache_0 ← dict_get cache 0;
  x_0 ← read2 (r_x cache_0);
  let '(_, D) := shape2 x_0 in
  dx ← alloc (Arr3 (zeros3 N T D));
  dh0 ← alloc (Arr2 (zeros N H));
  dWx ← alloc (Arr2 (zeros D (4 * H)));
  dWh ← alloc (Arr2 (zeros H (4 * H)));
  db ← alloc (Arr1 (zeros1 (4 * H)));
  dprev ← alloc (Arr2 (zeros N H));
  dprev_h ← alloc (Arr2 (zeros N H));
  dprev_c ← alloc (Arr2 (zeros N H));
  '(dprev, dprev_c) ←
    for_each (lstm_backward_body dh cache dx db (Whole dWx) (Whole dWh))
             (Whole dprev, Whole dprev_c) (rev (seq 0 T));
  (* dh0 += dprev *)
  v ← read2 dprev;
  iadd2 (Whole dh0) v;;
  mret (dx, Whole dh0, Whole dWx, Whole dWh, db).

End Store.

(** ** A concrete store *)

(** A store that holds the two upstream gradients at locations 0 and 1 and
    the thirteen cached arrays of the concrete run at locations 2 to 14, each
    in an array object of its own. *)
Definition ex_store : Store.store :=
  [ Store.Arr2 ex_dnext_h; Store.Arr2 ex_dnext_c;
    Store.Arr2 (c_x ex_cache); Store.Arr2 (c_prev_h ex_cache);
    Store.Arr2 (c_prev_c ex_cache); Store.Arr2 (c_next_h ex_cache);
    Store.Arr2 (c_next_c ex_cache); Store.Arr2 (c_Wx ex_cache);
    Store.Arr2 (c_Wh ex_cache); Store.Arr1 (c_b ex_cache);
    Store.Arr2 (c_activation ex_cache); Store.Arr2 (c_input ex_cache);
    Store.Arr2 (c_forget ex_cache); Store.Arr2 (c_output ex_cache);
    Store.Arr2 (c_block_input ex_cache) ].

Definition ex_refs : Store.cache_refs :=
  Store.CacheRefs (Store.Whole 2) (Store.Whole 3) (Store.Whole 4) (Store.Whole 5)
                  (Store.Whole 6) (Store.Whole 7) (Store.Whole 8) 9
                  (Store.Whole 10) (Store.Whole 11) (Store.Whole 12)
                  (Store.Whole 13) (Store.Whole 14).

(** [holds2 s r v]: in store [s] the reference [r] reads as the rank-2
    value [v]. *)
Definition holds2 (s : Store.store) (r : Store.ref) (v : matrix) : Prop :=
  Store.read2 r s = (s, Ok v).

(** [cache_holds s cache cv]: the references of [cache] that the backward
    step reads hold the arrays of the value [cv]. *)
Definition cache_holds (s : Store.store) (cache : Store.cache_refs) (cv : step_cache)
  : Prop :=
  holds2 s (Store.r_x cache) (c_x cv)
  /\ holds2 s (Store.r_prev_h cache) (c_prev_h cv)
  /\ holds2 s (Store.r_prev_c cache) (c_prev_c cv)
  /\ holds2 s (Store.r_next_c cache) (c_next_c cv)
  /\ holds2 s (Store.r_Wx cache) (c_Wx cv)
  /\ holds2 s (Store.r_Wh cache) (c_Wh cv)
  /\ holds2 s (Store.r_input cache) (c_input cv)
  /\ holds2 s (Store.r_forget cache) (c_forget cv)
  /\ holds2 s (Store.r_output cache) (c_output cv)
  /\ holds2 s (Store.r_block_input cache) (c_block_input cv).

(** [cache_apart cache l]: none of those references shares the memory of the
    array object at location [l]. *)
Definition cache_apart (cache : Store.cache_refs) (l : nat) : Prop :=
  Store.base (Store.r_x cache) <> l /\ Store.base (Store.r_prev_h cache) <> l
  /\ Store.base (Store.r_prev_c cache) <> l /\ Store.base (Store.r_next_c cache) <> l
  /\ Store.base (Store.r_Wx cache) <> l /\ Store.base (Store.r_Wh cache) <> l
  /\ Store.base (Store.r_input cache) <> l /\ Store.base (Store.r_forget cache) <> l
  /\ Store.base (Store.r_output cache) <> l
  /\ Store.base (Store.r_block_input cache) <> l.

(** [framed n0 Pr m Q]: started in a store with at least [n0] locations, [m]
    leaves every location in [Pr] as it was, whether it returns or raises,
    and a returned value satisfies [Q].  [Pr] is a set of locations below
    [n0], so what [m] allocates is never in it. *)
Definition framed {A : Type} (n0 : nat) (Pr : nat -> Prop)
  (m : Store.M A) (Q : A -> Prop) : Prop :=
  forall s, (n0 <= length s)%nat ->
    (n0 <= length (m s).1)%nat
    /\ (forall l, Pr l -> (m s).1 !! l = s !! l)
    /\ (forall a, (m s).2 = Ok a -> Q a).

(** The references returned by the cell step backward are all at or above
    location [n0]. *)
Definition fresh_results (n0 : nat)
  (res : Store.ref * Store.ref * Store.ref * Store.ref * Store.ref * nat) : Prop :=
  let '(dx, dprev_h, dprev_c, dWx, dWh, db) := res in
  (n0 <= Store.base dx)%nat /\ (n0 <= Store.base dprev_h)%nat
  /\ (n0 <= Store.base dprev_c)%nat /\ (n0 <= Store.base dWx)%nat
  /\ (n0 <= Store.base dWh)%nat /\ (n0 <= db)%nat.

(** [cache_rel s cache cv]: the dictionary of reference tuples [cache] and
    the dictionary of values [cv] have the same keys, and under each key the
    references hold, in store [s], the arrays of the value. *)
Definition cache_rel (s : Store.store) (cache : gmap nat Store.cache_refs)
  (cv : gmap nat step_cache) : Prop :=
  forall i,
    match cache !! i, cv !! i with
    | Some c, Some v => cache_holds s c v
    | None, None => True
    | _, _ => False
    end.

(** The state of the loop of the store-level [lstm_backward], over a store
    [s] that extends [s0]: the accumulators at the fixed locations [ldx],
    [ldb], [lWx], [lWh] and the two carried gradients hold the state [stv] of
    the value-level loop, the array [dh0] at [ldh0] is still as allocated, and
    the carried cell gradient lies above all of these, which are allocated in
    the order [ldx], [ldh0], [lWx], [lWh], [ldb]. *)
Definition loop_inv (s0 : Store.store) (ldx ldb lWx lWh ldh0 : nat) (a0 : Store.ndarray)
  (s : Store.store) (refs : Store.ref * Store.ref)
  (stv : tensor3 * matrix * matrix * matrix * matrix * vec) : Prop :=
  let '(dx, dprev, dprev_c, dWx, dWh, db) := stv in
  exists lp lc,
    refs = (Store.Whole lp, Store.Whole lc)
    /\ (forall l, (l < length s0)%nat -> s !! l = s0 !! l)
    /\ s !! ldx = Some (Store.Arr3 dx) /\ s !! ldb = Some (Store.Arr1 db)
    /\ s !! lWx = Some (Store.Arr2 dWx) /\ s !! lWh = Some (Store.Arr2 dWh)
    /\ s !! lp = Some (Store.Arr2 dprev) /\ s !! lc = Some (Store.Arr2 dprev_c)
    /\ s !! ldh0 = Some a0
    /\ (ldb < lc)%nat.

(** ** rel_error *)

(** [np.max] of the flat buffer of an array; numpy raises [ValueError] on an
    array with no entry, which is [None] here. *)
Definition np_max (l : vec) : option R :=
  match l with
  | [] => None
  | v :: l => Some (foldl Rmax v l)
  end.

(** The literal [1e-8]. *)
Definition tiny : R := / 100000000.

(** [rel_error] on the flat buffers of two arrays of one shape:
    [np.max(np.abs(x - y) / (np.maximum(1e-8, np.abs(x) + np.abs(y))))]. *)
Definition rel_error (x y : vec) : option R :=
  np_max (zip_with Rdiv
            (map Rabs (zip_with Rminus x y))
            (map (Rmax tiny) (zip_with Rplus (map Rabs x) (map Rabs y)))).

(** The quotient [rel_error] forms at one entry. *)
Definition rel_error_entry (a b : R) : R := Rabs (a - b) / Rmax tiny (Rabs a + Rabs b).

(** ** The loss of a sequence pass *)

(** [X[n, t, d] = a], the single-entry update of a rank-3 array. *)
Definition tset (X : tensor3) (n t d : nat) (a : R) : tensor3 :=
  <[n := <[t := <[d := a]> (nth t (nth n X []) [])]> (nth n X [])]> X.

(** Elementwise product and [np.sum] of rank-3 arrays. *)
Definition tmul (A B : tensor3) : tensor3 := zip_with mmul A B.
Definition tsum (X : tensor3) : R := Rsum (concat (concat X)).

(** The scalar [np.sum(h * dh)] for the hidden states [h] that [lstm_forward]
    returns: the quantity the notebook differentiates numerically in its
    check of [lstm_backward]. *)
Definition seq_loss (dh x : tensor3) (h0 Wx Wh : matrix) (b : vec) : R :=
  tsum (tmul (lstm_forward x h0 Wx Wh b).1 dh).

(** Sums of products over the entries of an array: [ip2 N K M M'] is the sum
    of [M[n, k] * M' n k] over [n < N], [k < K]. *)
Definition ip2 (N K : nat) (M : matrix) (M' : nat -> nat -> R) : R :=
  bigsum N (fun n => bigsum K (fun k => mget M n k * M' n k)).
Definition ip1 (K : nat) (v : vec) (v' : nat -> R) : R :=
  bigsum K (fun k => vget v k * v' k).

(** The matrix of shape [(N, K)] with a 1 at [(n, k)] and 0 elsewhere. *)
Definition unit2 (N K n k : nat) : matrix := mset (zeros N K) n k 1.

(** The pairing of the six results of the cell step backward with
    derivatives of the six inputs of the cell step forward. *)
Definition step_pairing (N D H : nat)
  (res : matrix * matrix * matrix * matrix * matrix * vec)
  (X' Hp' C' WX' WH' : nat -> nat -> R) (B' : nat -> R) : R :=
  let '(dx, dprev_h, dprev_c, dWx, dWh, db) := res in
  ip2 N D dx X' + ip2 N H dprev_h Hp' + ip2 N H dprev_c C'
  + ip2 D (4 * H) dWx WX' + ip2 H (4 * H) dWh WH' + ip1 (4 * H) db B'.

(** The derivatives of the entries of the hidden and cell state after [i]
    steps of the chain, along a path of inputs whose entries have the
    derivatives [X' t], [H0'], [WX'], [WH'], [B'] (the cell state starts at a
    constant): entry [(n, j)] of the state after a step is the step loss with
    a unit upstream gradient at [(n, j)], so its derivative is the pairing of
    the backward results for that upstream gradient. *)
Fixpoint chain_tangent (N D H : nat) (cs : nat -> step_cache)
  (X' : nat -> nat -> nat -> R) (H0' WX' WH' : nat -> nat -> R) (B' : nat -> R)
  (i : nat) : (nat -> nat -> R) * (nat -> nat -> R) :=
  match i with
  | O => (H0', fun _ _ => 0)
  | S i =>
      let '(h', c') := chain_tangent N D H cs X' H0' WX' WH' B' i in
      (fun n j =>
         step_pairing N D H
           (lstm_step_backward (unit2 N H n j) (zeros N H) (cs i))
           (X' i) h' c' WX' WH' B',
       fun n j =>
         step_pairing N D H
           (lstm_step_backward (zeros N H) (unit2 N H n j) (cs i))
           (X' i) h' c' WX' WH' B')
  end.

(** The part of the sequence loss contributed by the [k] latest timesteps,
    for hidden states [hs 1], ..., [hs T]. *)
Definition tail_loss (N H T : nat) (dh : tensor3) (hs : nat -> matrix) (k : nat) : R :=
  bigsum k (fun i => ip2 N H (slice_t dh (T - 1 - i)) (mget (hs (T - i)%nat))).

(** The pairing of the results of the backward step at the [i]-th latest
    timestep with the derivatives of the inputs it shares with no other
    step's state: the input slice and the three parameters. *)
Definition bptt_pairing (N D H T : nat) (dh : tensor3) (cs : nat -> step_cache)
  (X' : nat -> nat -> nat -> R) (WX' WH' : nat -> nat -> R) (B' : nat -> R)
  (i : nat) : R :=
  let r := bptt_step dh cs N H T i in
  ip2 N D r.1.1.1.1.1 (X' (T - 1 - i)%nat) + ip2 D (4 * H) r.1.1.2 WX'
  + ip2 H (4 * H) r.1.2 WH' + ip1 (4 * H) r.2 B'.

(** ** The forward passes at the store level *)

Module StoreFwd.
Import Store.

(** A Python reference to a rank-3 array: an array object, or the view
    [X[:, k:, :]] of one, which shares its memory. *)
Inductive ref3 := Whole3 (l : nat) | TimeFrom (l : nat) (k : nat).

Definition base3 (r : ref3) : nat :=
  match r with
  | Whole3 l => l
  | TimeFrom l _ => l
  end.

Definition read3v (r : ref3) : M tensor3 :=
  match r with
  | Whole3 l => read3 l
  | TimeFrom l k => X ← read3 l; mret (drop_t k X)
  end.

(** [lstm_step_forward], statement by statement.  [sigmoid] and [np.tanh]
    only read the views of [activation] they are handed, and the arrays
    that [sigmoid] binds to [pos_mask], [neg_mask], [z] and [top] are
    reachable from no other name, so they are kept as values; the seven
    arrays that end up in the returned tuple are allocated, and the cache
    holds the references the step was given for its six inputs.  Like the
    step on values it is total on lists, and coincides with numpy on
    operands of agreeing shapes. *)
Definition lstm_step_forward (x prev_h prev_c Wx Wh : ref) (b : nat)
  : M (ref * ref * cache_refs) :=
  ph ← read2 prev_h;
  let '(N, H) := shape2 ph in
  (* activation = x.dot(Wx) + prev_h.dot(Wh) + b *)
  xv ← read2 x;
  Wxv ← read2 Wx;
  ph ← read2 prev_h;
  Whv ← read2 Wh;
  bv ← read1 b;
  activation ← alloc (Arr2 (madd_row (madd (dot xv Wxv) (dot ph Whv)) bv));
  (* input, forget, output, block_input = sigmoid(...), ..., np.tanh(...) *)
  a ← read2 (Whole activation);
  input ← alloc (Arr2 (sigmoid (cols_slice 0 H a)));
  a ← read2 (Whole activation);
  forget ← alloc (Arr2 (sigmoid (cols_slice H (2 * H) a)));
  a ← read2 (Whole activation);
  output ← alloc (Arr2 (sigmoid (cols_slice (2 * H) (3 * H) a)));
  a ← read2 (Whole activation);
  block_input ← alloc (Arr2 (mtanh (cols_from (3 * H) a)));
  (* next_c = forget * prev_c + input * block_input *)
  f ← read2 (Whole forget);
  pc ← read2 prev_c;
  i ← read2 (Whole input);
  g ← read2 (Whole block_input);
  next_c ← alloc (Arr2 (madd (mmul f pc) (mmul i g)));
  (* next_h = output * np.tanh(next_c) *)
  o ← read2 (Whole output);
  nc ← read2 (Whole next_c);
  next_h ← alloc (Arr2 (mmul o (mtanh nc)));
  mret (Whole next_h, Whole next_c,
        CacheRefs x prev_h prev_c (Whole next_h) (Whole next_c) Wx Wh b
                  (Whole activation) (Whole input) (Whole forget) (Whole output)
                  (Whole block_input)).

(** One iteration of the loop of [lstm_forward]: the step is handed the
    views [x[:, i, :]] and [h[:, i, :]]; [h[:, i+1, :] = ...] copies the new
    hidden state into [h], and [prev_c] is rebound to the new cell state. *)
Definition lstm_forward_body (x h : nat) (Wx Wh : ref) (b : nat)
  (st : ref * gmap nat cache_refs) (i : nat) : M (ref * gmap nat cache_refs) :=
  let '(prev_c, seq_cache) := st in
  '(next_h, next_c, cache) ←
    lstm_step_forward (TimeSlice x i) (TimeSlice h i) prev_c Wx Wh b;
  v ← read2 next_h;
  write2 (TimeSlice h (i + 1)) v;;
  mret (next_c, <[i := cache]> seq_cache).

Definition lstm_forward (x : nat) (h0 Wx Wh : ref) (b : nat)
  : M (ref3 * gmap nat cache_refs) :=
  xv ← read3 x;
  let '(N, T, D) := shape3 xv in
  Whv ← read2 Wh;
  let H := nrows Whv in
  h ← alloc (Arr3 (zeros3 N (T + 1) H));
  (* h[:,0,:] = h0 *)
  h0v ← read2 h0;
  write2 (TimeSlice h 0) h0v;;
  (* prev_c = np.zeros_like(h0) *)
  h0v ← read2 h0;
  prev_c ← alloc (Arr2 (zeros_like h0v));
  '(prev_c, seq_cache) ←
    for_each (lstm_forward_body x h Wx Wh b) (Whole prev_c, ∅) (seq 0 T);
  (* h = h[:,1:,:] *)
  mret (TimeFrom h 1, seq_cache).

End StoreFwd.

(** [cache_holds_all s cache cv]: all thirteen references of [cache] hold
    the arrays of the value [cv]. *)
Definition cache_holds_all (s : Store.store) (cache : Store.cache_refs) (cv : step_cache)
  : Prop :=
  cache_holds s cache cv
  /\ holds2 s (Store.r_next_h cache) (c_next_h cv)
  /\ s !! Store.r_b cache = Some (Store.Arr1 (c_b cv))
  /\ holds2 s (Store.r_activation cache) (c_activation cv).

(** [cache_views lx lh Wx Wh lb t cache]: the cache of step [t] refers to
    its input as the view [x[:, t, :]] of the array at [lx], to its previous
    hidden state as the view [h[:, t, :]] of the array at [lh], and to the
    parameters by the references [lstm_forward] was given. *)
Definition cache_views (lx lh : nat) (Wx Wh : Store.ref) (lb : nat) (t : nat)
  (cache : Store.cache_refs) : Prop :=
  Store.r_x cache = Store.TimeSlice lx t
  /\ Store.r_prev_h cache = Store.TimeSlice lh t
  /\ Store.r_Wx cache = Wx /\ Store.r_Wh cache = Wh /\ Store.r_b cache = lb.

(** [cache_above lh cache]: the nine references of the cache other than the
    input, the previous hidden state and the parameters are array objects of
    their own, located above [lh]. *)
Definition cache_above (lh : nat) (cache : Store.cache_refs) : Prop :=
  exists lpc lnh lnc la li lf lo lg,
    Store.r_prev_c cache = Store.Whole lpc /\ Store.r_next_h cache = Store.Whole lnh
    /\ Store.r_next_c cache = Store.Whole lnc /\ Store.r_activation cache = Store.Whole la
    /\ Store.r_input cache = Store.Whole li /\ Store.r_forget cache = Store.Whole lf
    /\ Store.r_output cache = Store.Whole lo /\ Store.r_block_input cache = Store.Whole lg
    /\ (lh < lpc)%nat /\ (lh < lnh)%nat /\ (lh < lnc)%nat /\ (lh < la)%nat
    /\ (lh < li)%nat /\ (lh < lf)%nat /\ (lh < lo)%nat /\ (lh < lg)%nat.

(** The state of the loop of the store-level [lstm_forward] after [i]
    iterations, over a store [s] that extends the store [s0] of the call by
    the array [h] at [lh] and what the iterations allocated: [h] and the
    array behind [prev_c] hold the state [(hv, pcv, scv)] of the loop on
    values, the arrays of [s0] are as they were, and under each key below [i]
    the dictionary holds a cache whose references hold, in [s], the arrays
    of the cache on values. *)
Definition fwd_inv (s0 : Store.store) (lx lh : nat) (Wx Wh : Store.ref) (lb : nat)
  (i : nat) (stv : tensor3 * matrix * gmap nat step_cache)
  (s : Store.store) (st : Store.ref * gmap nat Store.cache_refs) : Prop :=
  let '(hv, pcv, scv) := stv in
  exists lc,
    st.1 = Store.Whole lc /\ (lh < lc)%nat /\ s !! lc = Some (Store.Arr2 pcv)
    /\ (forall l, (l < length s0)%nat -> s !! l = s0 !! l)
    /\ s !! lh = Some (Store.Arr3 hv)
    /\ (forall t,
          match st.2 !! t, scv !! t with
          | Some c, Some v =>
              cache_holds_all s c v /\ cache_views lx lh Wx Wh lb t c
              /\ cache_above lh c /\ (t < i)%nat
          | None, None => True
          | _, _ => False
          end).

(** A store that holds the five arguments of the concrete run of
    [lstm_forward], and the upstream gradient [dh], each in an array object
    of its own. *)
Definition ex_fwd_store : Store.store :=
  [ Store.Arr3 ex_x; Store.Arr2 ex_h0; Store.Arr2 ex_Wx; Store.Arr2 ex_Wh;
    Store.Arr1 ex_b; Store.Arr3 ex_dh ].

(** [is_seq_gradient N T D H dh x h0 Wx Wh b g]: the five arrays of [g] hold,
    entry by entry, the partial derivatives of the loss [seq_loss dh] at
    [(x, h0, Wx, Wh, b)]. *)
Definition is_seq_gradient (N T D H : nat) (dh x : tensor3) (h0 Wx Wh : matrix) (b : vec)
  (g : tensor3 * matrix * matrix * matrix * vec) : Prop :=
  let '(dx, dh0, dWx, dWh, db) := g in
  let L := seq_loss dh in
  (forall n t d, (n < N)%nat -> (t < T)%nat -> (d < D)%nat ->
     derivable_pt_lim (fun u => L (tset x n t d u) h0 Wx Wh b)
                      (tget x n t d) (tget dx n t d))
  /\ (forall n j, (n < N)%nat -> (j < H)%nat ->
        derivable_pt_lim (fun u => L x (mset h0 n j u) Wx Wh b)
                         (mget h0 n j) (mget dh0 n j))
  /\ (forall d k, (d < D)%nat -> (k < 4 * H)%nat ->
        derivable_pt_lim (fun u => L x h0 (mset Wx d k u) Wh b)
                         (mget Wx d k) (mget dWx d k))
  /\ (forall j k, (j < H)%nat -> (k < 4 * H)%nat ->
        derivable_pt_lim (fun u => L x h0 Wx (mset Wh j k u) b)
                         (mget Wh j k) (mget dWh j k))
  /\ (forall k, (k < 4 * H)%nat ->
        derivable_pt_lim (fun u => L x h0 Wx Wh (vset b k u))
                         (vget b k) (vget db k)).

(** ** sigmoid, with [np.exp] as a parameter and on integer arrays *)

(** The body of [sigmoid] on a float buffer with the elementwise function
    behind [np.exp] left open: [sigmoid_flat] is [sigmoid_flat_with exp].
    Which arguments the body hands to [np.exp] shows in how the result
    depends on [np_exp]. *)
Definition sigmoid_flat_with (np_exp : R -> R) (x : vec) : vec :=
  let pos_mask := map ge0 x in
  let neg_mask := map lt0 x in
  let z := zeros_like_flat x in
  let z := scatter pos_mask z (map np_exp (map Ropp (select pos_mask x))) in
  let z := scatter neg_mask z (map np_exp (select neg_mask x)) in
  let top := ones_like_flat x in
  let top := scatter neg_mask top (select neg_mask z) in
  zip_with Rdiv top (map (fun v => 1 + v) z).

(** An exponential that is wrong on every positive argument. *)
Definition exp_nonpos_only (a : R) : R := if Rle_dec a 0 then exp a else 0.

(** [sigmoid] on a buffer of dtype [int64].  [np.zeros_like(x)] and
    [np.ones_like(x)] take the dtype of [x], so [z] and [top] are integer
    arrays: the float64 values of [np.exp] are cast to [int64] when they are
    assigned into [z], and only the final true division gives floats. *)
Module IntDtype.

(** Two's-complement wrap-around of [int64] arithmetic. *)
Definition wrap64 (n : Z) : Z :=
  ((n + 9223372036854775808) mod 18446744073709551616 - 9223372036854775808)%Z.

Definition in_int64 (n : Z) : Prop :=
  (-9223372036854775808 <= n < 9223372036854775808)%Z.

(** The cast of a float64 to [int64] on assignment drops the fractional
    part (rounds toward zero); the values cast here lie in [(0, 1]]. *)
Definition trunc (r : R) : Z :=
  if Rle_dec 0 r then Int_part r else (- Int_part (- r))%Z.

(** [x[mask]] and [z[mask] = vals] on integer buffers. *)
Fixpoint select (mask : list bool) (x : list Z) : list Z :=
  match mask, x with
  | true :: mask, v :: x => v :: select mask x
  | false :: mask, _ :: x => select mask x
  | _, _ => []
  end.

Fixpoint scatter (mask : list bool) (z vals : list Z) : list Z :=
  match mask, z with
  | true :: mask, zi :: z =>
      match vals with
      | v :: vals => v :: scatter mask z vals
      | [] => zi :: scatter mask z []
      end
  | false :: mask, zi :: z => zi :: scatter mask z vals
  | _, _ => z
  end.

(** [np.exp] of an [int64] buffer: a float64 buffer. *)
Definition np_exp (x : list Z) : vec := map (fun n => exp (IZR n)) x.

Definition sigmoid (x : list Z) : vec :=
  let pos_mask := map (fun v => (0 <=? v)%Z) x in
  let neg_mask := map (fun v => (v <? 0)%Z) x in
  let z := map (fun _ => 0%Z) x in
  let z := scatter pos_mask z
             (map trunc (np_exp (map (fun v => wrap64 (- v)) (select pos_mask x)))) in
  let z := scatter neg_mask z (map trunc (np_exp (select neg_mask x))) in
  let top := map (fun _ => 1%Z) x in
  let top := scatter neg_mask top (select neg_mask z) in
  zip_with (fun t d => IZR t / IZR d) top (map (fun v => wrap64 (1 + v)) z).

(** What [sigmoid] leaves at one entry of an integer buffer. *)
Definition sigmoid_entry (v : Z) : R :=
  if (v <? 0)%Z then 0 else if (v =? 0)%Z then 1 / 2 else 1.

End IntDtype.

(** * Properties *)

(** ** Shapes *)

Lemma has_len_spec (K : nat) (v : vec) : has_len K v = true <-> length v = K.
Proof. unfold has_len. apply Nat.eqb_eq. Qed.

Lemma has_shape_spec (N K : nat) (M : matrix) :
  has_shape N K M = true <-> length M = N /\ Forall (fun r => length r = K) M.
Proof.
  unfold has_shape. rewrite andb_true_iff, Nat.eqb_eq, forallb_forall, Forall_forall.
  split; intros [HN HK]; split; auto; intros r Hr.
  - apply has_len_spec, HK. by apply list_elem_of_In.
  - apply has_len_spec, HK. by apply list_elem_of_In.
Qed.

Lemma has_shape3_spec (N T K : nat) (X : tensor3) :
  has_shape3 N T K X = true <->
  length X = N /\ Forall (fun s => has_shape T K s = true) X.
Proof.
  unfold has_shape3. rewrite andb_true_iff, Nat.eqb_eq, forallb_forall, Forall_forall.
  split; intros [HN HK]; split; auto; intros r Hr; apply HK; by apply list_elem_of_In.
Qed.

(** ** sigmoid *)

Lemma lt0_ge0 (v : R) : lt0 v = negb (ge0 v).
Proof.
  unfold lt0, ge0. destruct (Rlt_dec v 0), (Rge_dec v 0); simpl; auto; lra.
Qed.

Lemma sigmoid_flat_cons (v : R) (x : vec) :
  sigmoid_flat (v :: x) = sigmoid_entry v :: sigmoid_flat x.
Proof.
  assert (He : sigmoid_entry v
               = if ge0 v then 1 / (1 + exp (- v)) else exp v / (1 + exp v)).
  { unfold sigmoid_entry, ge0. by destruct (Rge_dec v 0). }
  rewrite He. unfold sigmoid_flat, exp_args_pos, exp_args_neg.
  cbn [map zeros_like_flat ones_like_flat].
  rewrite lt0_ge0. destruct (ge0 v); reflexivity.
Qed.

Lemma sigmoid_flat_map (x : vec) : sigmoid_flat x = map sigmoid_entry x.
Proof.
  induction x as [|v x IH]; [reflexivity|].
  rewrite sigmoid_flat_cons, IH. reflexivity.
Qed.

Lemma sigmoid_entry_logistic (v : R) : sigmoid_entry v = logistic v.
Proof.
  unfold sigmoid_entry, logistic. destruct (Rge_dec v 0); [reflexivity|].
  rewrite exp_Ropp. pose proof (exp_pos v). field. split; lra.
Qed.

Lemma exp_args_pos_nonpos (x : vec) : Forall (fun a => a <= 0) (exp_args_pos x).
Proof.
  unfold exp_args_pos. induction x as [|v x IH]; simpl; [constructor|].
  unfold ge0 at 1. destruct (Rge_dec v 0); simpl; auto. constructor; auto. lra.
Qed.

Lemma exp_args_neg_nonpos (x : vec) : Forall (fun a => a <= 0) (exp_args_neg x).
Proof.
  unfold exp_args_neg. induction x as [|v x IH]; simpl; [constructor|].
  unfold lt0 at 1. destruct (Rlt_dec v 0); simpl; auto. constructor; auto. lra.
Qed.

Lemma unflatten_map_concat (f : R -> R) (M : matrix) :
  unflatten (map length M) (map f (concat M)) = map (map f) M.
Proof.
  induction M as [|r M IH]; [reflexivity|].
  cbn [map concat unflatten]. rewrite map_app.
  rewrite take_app_length', drop_app_length' by (by rewrite length_map).
  by rewrite IH.
Qed.

Lemma sigmoid_map (M : matrix) : sigmoid M = map (map logistic) M.
Proof.
  unfold sigmoid. rewrite sigmoid_flat_map, unflatten_map_concat.
  apply map_ext; intros r. apply map_ext; intros v. apply sigmoid_entry_logistic.
Qed.

(** ** Reading entries of list operations *)

Lemma nth_map_lt {A B : Type} (f : A -> B) (l : list A) (n : nat) (d : A) (d' : B) :
  (n < length l)%nat -> nth n (map f l) d' = f (nth n l d).
Proof.
  intros Hn. rewrite (nth_indep _ _ (f d)) by (by rewrite length_map).
  apply map_nth.
Qed.

Lemma nth_zip_with_lt {A B C : Type} (f : A -> B -> C) (l : list A) (k : list B)
  (n : nat) (da : A) (db : B) (dc : C) :
  (n < length l)%nat -> (n < length k)%nat ->
  nth n (zip_with f l k) dc = f (nth n l da) (nth n k db).
Proof.
  revert k n. induction l as [|a l IH]; intros [|b k] [|n]; simpl; try lia; auto.
  intros. apply IH; lia.
Qed.

Lemma nth_replicate_lt {A : Type} (K n : nat) (a d : A) :
  (n < K)%nat -> nth n (replicate K a) d = a.
Proof. intros Hn. apply nth_lookup_Some. by apply lookup_replicate_2. Qed.

Lemma nth_insert_eq {A : Type} (l : list A) (n : nat) (a d : A) :
  (n < length l)%nat -> nth n (<[n := a]> l) d = a.
Proof. intros Hn. apply nth_lookup_Some. by apply list_lookup_insert_eq. Qed.

Lemma nth_insert_ne {A : Type} (l : list A) (n m : nat) (a d : A) :
  n <> m -> nth m (<[n := a]> l) d = nth m l d.
Proof. intros Hn. rewrite !nth_lookup. by rewrite list_lookup_insert_ne. Qed.

(** ** Shapes of the array operations *)

Lemma shape_length (N K : nat) (M : matrix) : has_shape N K M = true -> length M = N.
Proof. intros H. by apply has_shape_spec in H as [? _]. Qed.

Lemma shape_row (N K : nat) (M : matrix) (n : nat) :
  has_shape N K M = true -> (n < N)%nat -> length (nth n M []) = K.
Proof.
  intros H Hn. apply has_shape_spec in H as [HN HK].
  rewrite Forall_forall in HK. apply HK. apply list_elem_of_In, nth_In. lia.
Qed.

Lemma shape_intro (N K : nat) (M : matrix) :
  length M = N -> (forall n, (n < N)%nat -> length (nth n M []) = K) ->
  has_shape N K M = true.
Proof.
  intros HN HK. apply has_shape_spec. split; [done|].
  apply Forall_forall. intros r Hr. apply list_elem_of_In in Hr.
  destruct (In_nth _ _ [] Hr) as (n & Hn & <-). apply HK. lia.
Qed.

Lemma shape_ncols (N K : nat) (M : matrix) :
  has_shape N K M = true -> (0 < N)%nat -> ncols M = K.
Proof.
  intros H HN. unfold ncols. pose proof (shape_row N K M 0 H HN) as Hr.
  destruct M; [apply shape_length in H; simpl in H; lia | exact Hr].
Qed.

Lemma shape3_length (N T K : nat) (X : tensor3) :
  has_shape3 N T K X = true -> length X = N.
Proof. intros H. by apply has_shape3_spec in H as [? _]. Qed.

Lemma shape3_row (N T K : nat) (X : tensor3) (n : nat) :
  has_shape3 N T K X = true -> (n < N)%nat -> has_shape T K (nth n X []) = true.
Proof.
  intros H Hn. apply has_shape3_spec in H as [HN HK].
  rewrite Forall_forall in HK. apply HK. apply list_elem_of_In, nth_In. lia.
Qed.

Lemma shape3_intro (N T K : nat) (X : tensor3) :
  length X = N -> (forall n, (n < N)%nat -> has_shape T K (nth n X []) = true) ->
  has_shape3 N T K X = true.
Proof.
  intros HN HK. apply has_shape3_spec. split; [done|].
  apply Forall_forall. intros r Hr. apply list_elem_of_In in Hr.
  destruct (In_nth _ _ [] Hr) as (n & Hn & <-). apply HK. lia.
Qed.

Lemma shape_zeros (N K : nat) : has_shape N K (zeros N K) = true.
Proof.
  apply shape_intro; [apply length_replicate|].
  intros n Hn. unfold zeros. rewrite nth_replicate_lt by done. apply length_replicate.
Qed.

Lemma mget_zeros (N K n k : nat) : mget (zeros N K) n k = 0.
Proof.
  unfold mget, zeros, zeros1.
  destruct (decide (n < N)%nat) as [Hn|Hn].
  - rewrite nth_replicate_lt by done.
    destruct (decide (k < K)%nat); [by rewrite nth_replicate_lt|].
    apply nth_overflow. rewrite length_replicate. lia.
  - rewrite (nth_overflow (replicate N _)) by (rewrite length_replicate; lia).
    by destruct k.
Qed.

Lemma zeros_like_shape (N K : nat) (M : matrix) :
  has_shape N K M = true -> zeros_like M = zeros N K.
Proof.
  intros H. apply has_shape_spec in H as [HN HK]. subst N.
  unfold zeros_like, zeros. induction M as [|r M IH]; [reflexivity|].
  inversion HK as [|? ? Hr HM]; subst. cbn [map length replicate]. f_equal; [|by apply IH].
  unfold zeros_like_flat, zeros1. clear. induction r; simpl; [done|by f_equal].
Qed.

Section zip_shape.
Context (f : R -> R -> R).

Lemma shape_zip_with (N K : nat) (A B : matrix) :
  has_shape N K A = true -> has_shape N K B = true ->
  has_shape N K (zip_with (zip_with f) A B) = true.
Proof using Type.
  intros HA HB. apply shape_intro.
  - rewrite length_zip_with, (shape_length _ _ _ HA), (shape_length _ _ _ HB). lia.
  - intros n Hn.
    rewrite (nth_zip_with_lt _ _ _ _ [] []) by
      (rewrite ?(shape_length _ _ _ HA), ?(shape_length _ _ _ HB); done).
    rewrite length_zip_with, (shape_row _ _ _ _ HA Hn), (shape_row _ _ _ _ HB Hn). lia.
Qed.

Lemma mget_zip_with (N K : nat) (A B : matrix) (n k : nat) :
  has_shape N K A = true -> has_shape N K B = true -> (n < N)%nat -> (k < K)%nat ->
  mget (zip_with (zip_with f) A B) n k = f (mget A n k) (mget B n k).
Proof using Type.
  intros HA HB Hn Hk. unfold mget.
  rewrite (nth_zip_with_lt _ _ _ _ [] []) by
    (rewrite ?(shape_length _ _ _ HA), ?(shape_length _ _ _ HB); done).
  apply nth_zip_with_lt;
    rewrite ?(shape_row _ _ _ _ HA Hn), ?(shape_row _ _ _ _ HB Hn); done.
Qed.
End zip_shape.

Section map_shape.
Context (f : R -> R).

Lemma shape_map_map (N K : nat) (A : matrix) :
  has_shape N K A = true -> has_shape N K (map (map f) A) = true.
Proof using Type.
  intros HA. apply shape_intro.
  - rewrite length_map. by apply shape_length in HA.
  - intros n Hn. rewrite (nth_map_lt _ _ _ []) by (by rewrite (shape_length _ _ _ HA)).
    rewrite length_map. by apply (shape_row N).
Qed.

Lemma mget_map_map (N K : nat) (A : matrix) (n k : nat) :
  has_shape N K A = true -> (n < N)%nat -> (k < K)%nat ->
  mget (map (map f) A) n k = f (mget A n k).
Proof using Type.
  intros HA Hn Hk. unfold mget.
  rewrite (nth_map_lt _ _ _ []) by (by rewrite (shape_length _ _ _ HA)).
  apply nth_map_lt. by rewrite (shape_row _ _ _ _ HA Hn).
Qed.
End map_shape.

Lemma shape_madd N K A B :
  has_shape N K A = true -> has_shape N K B = true -> has_shape N K (madd A B) = true.
Proof. apply shape_zip_with. Qed.

Lemma shape_mmul N K A B :
  has_shape N K A = true -> has_shape N K B = true -> has_shape N K (mmul A B) = true.
Proof. apply shape_zip_with. Qed.

Lemma mget_madd N K A B n k :
  has_shape N K A = true -> has_shape N K B = true -> (n < N)%nat -> (k < K)%nat ->
  mget (madd A B) n k = mget A n k + mget B n k.
Proof. apply mget_zip_with. Qed.

Lemma mget_mmul N K A B n k :
  has_shape N K A = true -> has_shape N K B = true -> (n < N)%nat -> (k < K)%nat ->
  mget (mmul A B) n k = mget A n k * mget B n k.
Proof. apply mget_zip_with. Qed.

Lemma shape_madd_row N K A (b : vec) :
  has_shape N K A = true -> has_len K b = true -> has_shape N K (madd_row A b) = true.
Proof.
  intros HA Hb. apply has_len_spec in Hb. apply shape_intro.
  - unfold madd_row. rewrite length_map. by apply shape_length in HA.
  - intros n Hn. unfold madd_row.
    rewrite (nth_map_lt _ _ _ []) by (by rewrite (shape_length _ _ _ HA)).
    unfold vadd. rewrite length_zip_with, (shape_row _ _ _ _ HA Hn). lia.
Qed.

Lemma mget_madd_row N K A (b : vec) n k :
  has_shape N K A = true -> has_len K b = true -> (n < N)%nat -> (k < K)%nat ->
  mget (madd_row A b) n k = mget A n k + vget b k.
Proof.
  intros HA Hb Hn Hk. apply has_len_spec in Hb. unfold mget, madd_row, vget.
  rewrite (nth_map_lt _ _ _ []) by (by rewrite (shape_length _ _ _ HA)).
  apply nth_zip_with_lt; rewrite ?(shape_row _ _ _ _ HA Hn); lia.
Qed.

Lemma shape_cols_slice N K A lo hi :
  has_shape N K A = true -> (hi <= K)%nat ->
  has_shape N (hi - lo) (cols_slice lo hi A) = true.
Proof.
  intros HA Hhi. apply shape_intro.
  - unfold cols_slice. rewrite length_map. by apply shape_length in HA.
  - intros n Hn. unfold cols_slice.
    rewrite (nth_map_lt _ _ _ []) by (by rewrite (shape_length _ _ _ HA)).
    rewrite length_take, length_drop, (shape_row _ _ _ _ HA Hn). lia.
Qed.

Lemma mget_cols_slice N K A lo hi n k :
  has_shape N K A = true -> (n < N)%nat -> (k < hi - lo)%nat ->
  mget (cols_slice lo hi A) n k = mget A n (lo + k).
Proof.
  intros HA Hn Hk. unfold mget, cols_slice.
  rewrite (nth_map_lt _ _ _ []) by (by rewrite (shape_length _ _ _ HA)).
  rewrite nth_firstn. destruct (k <? hi - lo)%nat eqn:E.
  - apply nth_skipn.
  - apply Nat.ltb_ge in E. lia.
Qed.

Lemma shape_cols_from N K A lo :
  has_shape N K A = true -> has_shape N (K - lo) (cols_from lo A) = true.
Proof.
  intros HA. apply shape_intro.
  - unfold cols_from. rewrite length_map. by apply shape_length in HA.
  - intros n Hn. unfold cols_from.
    rewrite (nth_map_lt _ _ _ []) by (by rewrite (shape_length _ _ _ HA)).
    rewrite length_drop, (shape_row _ _ _ _ HA Hn). lia.
Qed.

Lemma mget_cols_from N K A lo n k :
  has_shape N K A = true -> (n < N)%nat ->
  mget (cols_from lo A) n k = mget A n (lo + k).
Proof.
  intros HA Hn. unfold mget, cols_from.
  rewrite (nth_map_lt _ _ _ []) by (by rewrite (shape_length _ _ _ HA)).
  apply nth_skipn.
Qed.

(** ** Finite sums *)

Lemma bigsum_ext (K : nat) (f g : nat -> R) :
  (forall k, (k < K)%nat -> f k = g k) -> bigsum K f = bigsum K g.
Proof.
  induction K as [|K IH]; intros H; simpl; [done|].
  rewrite IH, H by (intros; try apply H; lia). done.
Qed.

Lemma bigsum_zero (K : nat) : bigsum K (fun _ => 0) = 0.
Proof. induction K as [|K IH]; simpl; [done|]. rewrite IH. lra. Qed.

Lemma bigsum_plus (K : nat) (f g : nat -> R) :
  bigsum K (fun k => f k + g k) = bigsum K f + bigsum K g.
Proof. induction K as [|K IH]; simpl; [lra|]. rewrite IH. lra. Qed.

Lemma bigsum_scal_l (K : nat) (c : R) (f : nat -> R) :
  bigsum K (fun k => c * f k) = c * bigsum K f.
Proof. induction K as [|K IH]; simpl; [lra|]. rewrite IH. lra. Qed.

Lemma bigsum_scal_r (K : nat) (c : R) (f : nat -> R) :
  bigsum K (fun k => f k * c) = bigsum K f * c.
Proof. induction K as [|K IH]; simpl; [lra|]. rewrite IH. lra. Qed.

Lemma bigsum_shift (K : nat) (f : nat -> R) :
  bigsum (S K) f = f 0%nat + bigsum K (fun k => f (S k)).
Proof.
  induction K as [|K IH]; [simpl; lra|].
  change (bigsum (S (S K)) f) with (bigsum (S K) f + f (S K)).
  rewrite IH. simpl. lra.
Qed.

Lemma bigsum_app (K1 K2 : nat) (f : nat -> R) :
  bigsum (K1 + K2) f = bigsum K1 f + bigsum K2 (fun k => f (K1 + k)%nat).
Proof.
  induction K2 as [|K2 IH]; simpl.
  - rewrite Nat.add_0_r. lra.
  - rewrite Nat.add_succ_r. simpl. rewrite IH. lra.
Qed.

(** A sum that a Kronecker delta collapses to one term. *)
Lemma bigsum_delta (K k0 : nat) (f : nat -> R) :
  (k0 < K)%nat ->
  bigsum K (fun k => if decide (k = k0) then f k else 0) = f k0.
Proof.
  induction K as [|K IH]; intros Hk; [lia|]. simpl.
  destruct (decide (K = k0)) as [->|Hne].
  - rewrite (bigsum_ext _ _ (fun _ => 0)), bigsum_zero; [lra|].
    intros k Hlt. destruct (decide (k = k0)); [lia|done].
  - rewrite IH by lia. lra.
Qed.

Lemma bigsum_delta_out (K k0 : nat) (f : nat -> R) :
  (K <= k0)%nat ->
  bigsum K (fun k => if decide (k = k0) then f k else 0) = 0.
Proof.
  intros Hk. rewrite (bigsum_ext _ _ (fun _ => 0)), bigsum_zero; [done|].
  intros k Hlt. destruct (decide (k = k0)); [lia|done].
Qed.

Lemma Rsum_bigsum (l : vec) : Rsum l = bigsum (length l) (fun k => nth k l 0).
Proof.
  induction l as [|a l IH]; [reflexivity|].
  cbn [length]. rewrite bigsum_shift. simpl. by rewrite IH.
Qed.

Lemma inner_bigsum (K : nat) (u v : vec) :
  length u = K -> length v = K ->
  inner u v = bigsum K (fun k => nth k u 0 * nth k v 0).
Proof.
  intros Hu Hv. unfold inner. rewrite Rsum_bigsum, length_zip_with, Hu, Hv, Nat.min_id.
  apply bigsum_ext. intros k Hk. apply nth_zip_with_lt; lia.
Qed.

(** ** Columns, transposes and products *)

Lemma length_col (j : nat) (A : matrix) : length (col j A) = length A.
Proof. unfold col. apply length_map. Qed.

Lemma nth_col (j n : nat) (A : matrix) : nth n (col j A) 0 = mget A n j.
Proof.
  unfold col, mget. destruct (decide (n < length A)%nat) as [Hn|Hn].
  - by rewrite (nth_map_lt _ _ _ []).
  - rewrite (nth_overflow (map _ _)) by (rewrite length_map; lia).
    rewrite (nth_overflow A) by lia. by destruct j.
Qed.

Lemma shape_transpose N K A :
  has_shape N K A = true -> (0 < N)%nat -> has_shape K N (transpose A) = true.
Proof.
  intros HA HN. unfold transpose. rewrite (shape_ncols _ _ _ HA HN). apply shape_intro.
  - by rewrite length_map, length_seq.
  - intros k Hk. rewrite (nth_map_lt _ _ _ 0%nat) by (by rewrite length_seq).
    rewrite length_col. by apply shape_length in HA.
Qed.

Lemma mget_transpose N K A n k :
  has_shape N K A = true -> (0 < N)%nat -> (k < K)%nat ->
  mget (transpose A) k n = mget A n k.
Proof.
  intros HA HN Hk. unfold transpose. rewrite (shape_ncols _ _ _ HA HN). unfold mget at 1.
  rewrite (nth_map_lt _ _ _ 0%nat) by (by rewrite length_seq).
  rewrite seq_nth by done. apply nth_col.
Qed.

Lemma shape_dot N K J A B :
  has_shape N K A = true -> has_shape K J B = true -> (0 < K)%nat ->
  has_shape N J (dot A B) = true.
Proof.
  intros HA HB HK. unfold dot. rewrite (shape_ncols _ _ _ HB HK). apply shape_intro.
  - rewrite length_map. by apply shape_length in HA.
  - intros n Hn. rewrite (nth_map_lt _ _ _ []) by (by rewrite (shape_length _ _ _ HA)).
    by rewrite length_map, length_seq.
Qed.

Lemma mget_dot N K J A B n j :
  has_shape N K A = true -> has_shape K J B = true -> (0 < K)%nat ->
  (n < N)%nat -> (j < J)%nat ->
  mget (dot A B) n j = bigsum K (fun k => mget A n k * mget B k j).
Proof.
  intros HA HB HK Hn Hj. unfold dot. rewrite (shape_ncols _ _ _ HB HK). unfold mget at 1.
  rewrite (nth_map_lt _ _ _ []) by (by rewrite (shape_length _ _ _ HA)).
  rewrite (nth_map_lt _ _ _ 0%nat) by (by rewrite length_seq).
  rewrite seq_nth by done. cbn [Nat.add].
  rewrite (inner_bigsum K).
  - apply bigsum_ext. intros k Hk. by rewrite nth_col.
  - by apply (shape_row N).
  - rewrite length_col. by apply shape_length in HB.
Qed.

Lemma length_sum_axis0 N K A :
  has_shape N K A = true -> (0 < N)%nat -> has_len K (sum_axis0 A) = true.
Proof.
  intros HA HN. apply has_len_spec. unfold sum_axis0.
  by rewrite length_map, length_seq, (shape_ncols _ _ _ HA HN).
Qed.

Lemma vget_sum_axis0 N K A k :
  has_shape N K A = true -> (0 < N)%nat -> (k < K)%nat ->
  vget (sum_axis0 A) k = bigsum N (fun n => mget A n k).
Proof.
  intros HA HN Hk. unfold vget, sum_axis0. rewrite (shape_ncols _ _ _ HA HN).
  rewrite (nth_map_lt _ _ _ 0%nat) by (by rewrite length_seq).
  rewrite seq_nth by done. cbn [Nat.add].
  rewrite Rsum_bigsum, length_col, (shape_length _ _ _ HA).
  apply bigsum_ext. intros n Hn. apply nth_col.
Qed.

(** ** Slice assignment *)

Lemma shape_set_cols_slice N K A V lo hi :
  has_shape N K A = true -> has_shape N (hi - lo) V = true ->
  (lo <= hi)%nat -> (hi <= K)%nat ->
  has_shape N K (set_cols_slice lo hi A V) = true.
Proof.
  intros HA HV Hlo Hhi. apply shape_intro.
  - unfold set_cols_slice.
    rewrite length_zip_with, (shape_length _ _ _ HA), (shape_length _ _ _ HV). lia.
  - intros n Hn. unfold set_cols_slice.
    rewrite (nth_zip_with_lt _ _ _ _ [] []) by
      (rewrite ?(shape_length _ _ _ HA), ?(shape_length _ _ _ HV); done).
    rewrite !length_app, length_take, length_drop.
    rewrite (shape_row _ _ _ _ HA Hn), (shape_row _ _ _ _ HV Hn). lia.
Qed.

Lemma mget_set_cols_slice N K A V lo hi n k :
  has_shape N K A = true -> has_shape N (hi - lo) V = true ->
  (lo <= hi)%nat -> (hi <= K)%nat -> (n < N)%nat ->
  mget (set_cols_slice lo hi A V) n k
  = if decide (lo <= k < hi)%nat then mget V n (k - lo) else mget A n k.
Proof.
  intros HA HV Hlo Hhi Hn. unfold mget, set_cols_slice.
  rewrite (nth_zip_with_lt _ _ _ _ [] []) by
    (rewrite ?(shape_length _ _ _ HA), ?(shape_length _ _ _ HV); done).
  pose proof (shape_row _ _ _ _ HA Hn) as HrA.
  pose proof (shape_row _ _ _ _ HV Hn) as HrV.
  assert (Ht : length (take lo (nth n A [])) = lo) by (rewrite length_take; lia).
  destruct (decide (k < lo)%nat) as [Hk|Hk].
  - rewrite app_nth1 by lia. rewrite nth_firstn.
    destruct (k <? lo)%nat eqn:E; [|apply Nat.ltb_ge in E; lia].
    destruct (decide _); [lia|done].
  - rewrite app_nth2 by lia. rewrite Ht.
    destruct (decide (k < hi)%nat) as [Hk2|Hk2].
    + rewrite app_nth1 by lia. destruct (decide _); [done|lia].
    + rewrite app_nth2 by lia. rewrite HrV, nth_skipn.
      destruct (decide _); [lia|]. f_equal. lia.
Qed.

Lemma shape_set_cols_from N K A V lo :
  has_shape N K A = true -> has_shape N (K - lo) V = true -> (lo <= K)%nat ->
  has_shape N K (set_cols_from lo A V) = true.
Proof.
  intros HA HV Hlo. apply shape_intro.
  - unfold set_cols_from.
    rewrite length_zip_with, (shape_length _ _ _ HA), (shape_length _ _ _ HV). lia.
  - intros n Hn. unfold set_cols_from.
    rewrite (nth_zip_with_lt _ _ _ _ [] []) by
      (rewrite ?(shape_length _ _ _ HA), ?(shape_length _ _ _ HV); done).
    rewrite !length_app, length_take.
    rewrite (shape_row _ _ _ _ HA Hn), (shape_row _ _ _ _ HV Hn). lia.
Qed.

Lemma mget_set_cols_from N K A V lo n k :
  has_shape N K A = true -> has_shape N (K - lo) V = true -> (lo <= K)%nat ->
  (n < N)%nat ->
  mget (set_cols_from lo A V) n k
  = if decide (lo <= k)%nat then mget V n (k - lo) else mget A n k.
Proof.
  intros HA HV Hlo Hn. unfold mget, set_cols_from.
  rewrite (nth_zip_with_lt _ _ _ _ [] []) by
    (rewrite ?(shape_length _ _ _ HA), ?(shape_length _ _ _ HV); done).
  pose proof (shape_row _ _ _ _ HA Hn) as HrA.
  assert (Ht : length (take lo (nth n A [])) = lo) by (rewrite length_take; lia).
  destruct (decide (lo <= k)%nat) as [Hk|Hk].
  - rewrite app_nth2 by lia. by rewrite Ht.
  - rewrite app_nth1 by lia. rewrite nth_firstn.
    destruct (k <? lo)%nat eqn:E; [done|apply Nat.ltb_ge in E; lia].
Qed.

(** ** The cell step forward, entry by entry *)

Ltac cache_proj :=
  cbv zeta in *;
  cbn [fst snd c_x c_prev_h c_prev_c c_next_h c_next_c c_Wx c_Wh c_b
       c_activation c_input c_forget c_output c_block_input] in *.

Section step_forward.
Context (N D H : nat) (x prev_h prev_c Wx Wh : matrix) (b : vec).
Context (HN : (0 < N)%nat) (HD : (0 < D)%nat) (HH : (0 < H)%nat).
Context (Hx : has_shape N D x = true).
Context (Hh : has_shape N H prev_h = true).
Context (Hc : has_shape N H prev_c = true).
Context (HWx : has_shape D (4 * H) Wx = true).
Context (HWh : has_shape H (4 * H) Wh = true).
Context (Hb : has_len (4 * H) b = true).

Local Abbreviation r := (lstm_step_forward x prev_h prev_c Wx Wh b).
Local Abbreviation cache := (snd r).

Lemma step_forward_unfold :
  r = (let activation := madd_row (madd (dot x Wx) (dot prev_h Wh)) b in
       let input := sigmoid (cols_slice 0 H activation) in
       let forget := sigmoid (cols_slice H (2 * H) activation) in
       let output := sigmoid (cols_slice (2 * H) (3 * H) activation) in
       let block_input := mtanh (cols_from (3 * H) activation) in
       let next_c := madd (mmul forget prev_c) (mmul input block_input) in
       let next_h := mmul output (mtanh next_c) in
       (next_h, next_c,
        StepCache x prev_h prev_c next_h next_c Wx Wh b activation
                  input forget output block_input)).
Proof using All.
  unfold lstm_step_forward, shape2.
  by rewrite (shape_ncols _ _ _ Hh HN).
Qed.

Lemma step_forward_cache_inputs :
  c_x cache = x /\ c_prev_h cache = prev_h /\ c_prev_c cache = prev_c
  /\ c_Wx cache = Wx /\ c_Wh cache = Wh /\ c_b cache = b
  /\ c_next_h cache = r.1.1 /\ c_next_c cache = r.1.2.
Proof using All. rewrite step_forward_unfold. by cache_proj. Qed.

Lemma shape_activation : has_shape N (4 * H) (c_activation cache) = true.
Proof using All.
  rewrite step_forward_unfold. cache_proj.
  apply shape_madd_row; [|done].
  apply shape_madd; [by apply (shape_dot N D) | by apply (shape_dot N H)].
Qed.

Lemma mget_activation (n k : nat) :
  (n < N)%nat -> (k < 4 * H)%nat ->
  mget (c_activation cache) n k = act_entry x prev_h Wx Wh b D H n k.
Proof using All.
  intros Hn Hk. rewrite step_forward_unfold. cache_proj.
  assert (H1 : has_shape N (4 * H) (dot x Wx) = true) by (by apply (shape_dot N D)).
  assert (H2 : has_shape N (4 * H) (dot prev_h Wh) = true) by (by apply (shape_dot N H)).
  rewrite (mget_madd_row N (4 * H)); [|by apply shape_madd|done..].
  rewrite (mget_madd N (4 * H)) by done.
  rewrite (mget_dot N D (4 * H)), (mget_dot N H (4 * H)) by done.
  reflexivity.
Qed.

Lemma shape_gates :
  has_shape N H (c_input cache) = true /\ has_shape N H (c_forget cache) = true
  /\ has_shape N H (c_output cache) = true
  /\ has_shape N H (c_block_input cache) = true.
Proof using All.
  pose proof shape_activation as Ha.
  rewrite step_forward_unfold in *. cache_proj. rewrite !sigmoid_map.
  set (a := madd_row (madd (dot x Wx) (dot prev_h Wh)) b) in *.
  repeat split.
  - apply shape_map_map.
    replace H with (H - 0)%nat at 1 by lia. apply (shape_cols_slice N (4 * H)); [done|lia].
  - apply shape_map_map.
    replace H with (2 * H - H)%nat at 1 by lia.
    apply (shape_cols_slice N (4 * H)); [done|lia].
  - apply shape_map_map.
    replace H with (3 * H - 2 * H)%nat at 1 by lia.
    apply (shape_cols_slice N (4 * H)); [done|lia].
  - apply shape_map_map.
    replace H with (4 * H - 3 * H)%nat at 1 by lia. by apply shape_cols_from.
Qed.

Lemma mget_gates (n j : nat) :
  (n < N)%nat -> (j < H)%nat ->
  mget (c_input cache) n j = logistic (mget (c_activation cache) n j)
  /\ mget (c_forget cache) n j = logistic (mget (c_activation cache) n (H + j))
  /\ mget (c_output cache) n j = logistic (mget (c_activation cache) n (2 * H + j))
  /\ mget (c_block_input cache) n j = tanh (mget (c_activation cache) n (3 * H + j)).
Proof using All.
  intros Hn Hj. pose proof shape_activation as Ha.
  rewrite step_forward_unfold in *. cache_proj. rewrite !sigmoid_map.
  set (a := madd_row (madd (dot x Wx) (dot prev_h Wh)) b) in *.
  repeat split.
  - rewrite (mget_map_map _ N H); [| |done..].
    + by rewrite (mget_cols_slice N (4 * H)) by (done || lia).
    + replace H with (H - 0)%nat at 1 by lia.
      apply (shape_cols_slice N (4 * H)); [done|lia].
  - rewrite (mget_map_map _ N H); [| |done..].
    + by rewrite (mget_cols_slice N (4 * H)) by (done || lia).
    + replace H with (2 * H - H)%nat at 1 by lia.
      apply (shape_cols_slice N (4 * H)); [done|lia].
  - rewrite (mget_map_map _ N H); [| |done..].
    + by rewrite (mget_cols_slice N (4 * H)) by (done || lia).
    + replace H with (3 * H - 2 * H)%nat at 1 by lia.
      apply (shape_cols_slice N (4 * H)); [done|lia].
  - unfold mtanh. rewrite (mget_map_map _ N H); [| |done..].
    + by rewrite (mget_cols_from N (4 * H)) by done.
    + replace H with (4 * H - 3 * H)%nat at 1 by lia. by apply shape_cols_from.
Qed.

Lemma step_forward_next_eq :
  r.1.2 = madd (mmul (c_forget cache) prev_c) (mmul (c_input cache) (c_block_input cache))
  /\ r.1.1 = mmul (c_output cache) (mtanh r.1.2).
Proof using All. rewrite step_forward_unfold. by cache_proj. Qed.

Lemma shape_next : has_shape N H r.1.1 = true /\ has_shape N H r.1.2 = true.
Proof using All.
  destruct shape_gates as (Hi & Hf & Ho & Hg).
  destruct step_forward_next_eq as [Ec Eh].
  assert (Hnc : has_shape N H r.1.2 = true).
  { rewrite Ec. apply shape_madd; by apply shape_mmul. }
  split; [|done]. rewrite Eh. apply shape_mmul; [done|]. by apply shape_map_map.
Qed.

Lemma mget_next (n j : nat) :
  (n < N)%nat -> (j < H)%nat ->
  mget r.1.2 n j
  = mget (c_forget cache) n j * mget prev_c n j
    + mget (c_input cache) n j * mget (c_block_input cache) n j
  /\ mget r.1.1 n j = mget (c_output cache) n j * tanh (mget r.1.2 n j).
Proof using All.
  intros Hn Hj. destruct shape_gates as (Hi & Hf & Ho & Hg).
  destruct shape_next as [_ Hnc]. destruct step_forward_next_eq as [Ec Eh].
  split.
  - rewrite Ec. rewrite (mget_madd N H); [| by apply shape_mmul..|done|done].
    by rewrite !(mget_mmul N H).
  - rewrite Eh. rewrite (mget_mmul N H); [|done|by apply shape_map_map|done..].
    unfold mtanh. by rewrite (mget_map_map _ N H).
Qed.

Local Abbreviation A := (act_entry x prev_h Wx Wh b D H).

Lemma next_entries (n j : nat) :
  (n < N)%nat -> (j < H)%nat ->
  mget r.1.2 n j
  = cell_c (A n j) (A n (H + j)%nat) (A n (3 * H + j)%nat) (mget prev_c n j)
  /\ mget r.1.1 n j
     = cell_h (A n j) (A n (H + j)%nat) (A n (2 * H + j)%nat) (A n (3 * H + j)%nat)
              (mget prev_c n j).
Proof using All.
  intros Hn Hj.
  destruct (mget_gates n j Hn Hj) as (Ei & Ef & Eo & Eg).
  destruct (mget_next n j Hn Hj) as (Enc & Enh).
  rewrite !mget_activation in Ei, Ef, Eo, Eg by (done || lia).
  assert (E : mget r.1.2 n j
              = cell_c (A n j) (A n (H + j)%nat) (A n (3 * H + j)%nat) (mget prev_c n j)).
  { rewrite Enc, Ei, Ef, Eg. reflexivity. }
  split; [exact E|]. rewrite Enh, E, Eo. reflexivity.
Qed.

End step_forward.

(** C2.  On operands of agreeing shapes the cell step computes the affine
    combination [a = x·Wx + prev_h·Wh + b] with the bias added to every row,
    reads the four gates from the four [H]-wide column blocks of [a] (sigmoid
    on the first three, tanh on the fourth), and returns
    [c_next = f ⊙ c_prev + i ⊙ g] and [h_next = o ⊙ tanh(c_next)]. *)
Theorem lstm_step_forward_spec (N D H : nat) (x prev_h prev_c Wx Wh : matrix) (b : vec) :
  (0 < N)%nat -> (0 < D)%nat -> (0 < H)%nat ->
  has_shape N D x = true -> has_shape N H prev_h = true ->
  has_shape N H prev_c = true -> has_shape D (4 * H) Wx = true ->
  has_shape H (4 * H) Wh = true -> has_len (4 * H) b = true ->
  let r := lstm_step_forward x prev_h prev_c Wx Wh b in
  let next_h := r.1.1 in
  let next_c := r.1.2 in
  let a := c_activation r.2 in
  let i := c_input r.2 in
  let f := c_forget r.2 in
  let o := c_output r.2 in
  let g := c_block_input r.2 in
  has_shape N (4 * H) a = true
  /\ has_shape N H next_h = true /\ has_shape N H next_c = true
  /\ (forall n k, (n < N)%nat -> (k < 4 * H)%nat ->
        mget a n k
        = bigsum D (fun d => mget x n d * mget Wx d k)
          + bigsum H (fun j => mget prev_h n j * mget Wh j k)
          + vget b k)
  /\ (forall n j, (n < N)%nat -> (j < H)%nat ->
        mget i n j = logistic (mget a n j)
        /\ mget f n j = logistic (mget a n (H + j))
        /\ mget o n j = logistic (mget a n (2 * H + j))
        /\ mget g n j = tanh (mget a n (3 * H + j))
        /\ mget next_c n j = mget f n j * mget prev_c n j + mget i n j * mget g n j
        /\ mget next_h n j = mget o n j * tanh (mget next_c n j)).
Proof.
  intros HN HD HH Hx Hh Hc HWx HWh Hb. cbv zeta.
  split; [by apply (shape_activation N D H)|].
  destruct (shape_next N D H x prev_h prev_c Wx Wh b) as [Hnh Hnc]; try done.
  split; [done|]. split; [done|]. split.
  - intros n k Hn Hk. by rewrite (mget_activation N D H).
  - intros n j Hn Hj.
    destruct (mget_gates N D H x prev_h prev_c Wx Wh b) with (n := n) (j := j)
      as (Ei & Ef & Eo & Eg); try done.
    destruct (mget_next N D H x prev_h prev_c Wx Wh b) with (n := n) (j := j)
      as (Enc & Enh); try done.
Qed.

(** ** Equality of arrays from equality of entries *)

Lemma vec_ext (K : nat) (u v : vec) :
  length u = K -> length v = K ->
  (forall k, (k < K)%nat -> nth k u 0 = nth k v 0) -> u = v.
Proof.
  intros Hu Hv He. apply (nth_ext _ _ 0 0); [lia|].
  intros k Hk. apply He. lia.
Qed.

Lemma matrix_ext (N K : nat) (A B : matrix) :
  has_shape N K A = true -> has_shape N K B = true ->
  (forall n k, (n < N)%nat -> (k < K)%nat -> mget A n k = mget B n k) -> A = B.
Proof.
  intros HA HB He. apply (nth_ext _ _ [] []).
  - by rewrite (shape_length _ _ _ HA), (shape_length _ _ _ HB).
  - intros n Hn. rewrite (shape_length _ _ _ HA) in Hn.
    apply (vec_ext K); [by apply (shape_row N)..|].
    intros k Hk. by apply He.
Qed.

(** ** The shape of a cache *)

Lemma cache_has_shape_spec (N D H : nat) (c : step_cache) :
  cache_has_shape N D H c = true <->
  has_shape N D (c_x c) = true /\ has_shape N H (c_prev_h c) = true
  /\ has_shape N H (c_prev_c c) = true /\ has_shape N H (c_next_h c) = true
  /\ has_shape N H (c_next_c c) = true /\ has_shape D (4 * H) (c_Wx c) = true
  /\ has_shape H (4 * H) (c_Wh c) = true /\ has_len (4 * H) (c_b c) = true
  /\ has_shape N (4 * H) (c_activation c) = true
  /\ has_shape N H (c_input c) = true /\ has_shape N H (c_forget c) = true
  /\ has_shape N H (c_output c) = true /\ has_shape N H (c_block_input c) = true.
Proof. unfold cache_has_shape. rewrite !andb_true_iff. tauto. Qed.

Lemma step_forward_cache_shape (N D H : nat) (x prev_h prev_c Wx Wh : matrix) (b : vec) :
  (0 < N)%nat -> (0 < D)%nat -> (0 < H)%nat ->
  has_shape N D x = true -> has_shape N H prev_h = true ->
  has_shape N H prev_c = true -> has_shape D (4 * H) Wx = true ->
  has_shape H (4 * H) Wh = true -> has_len (4 * H) b = true ->
  cache_has_shape N D H (lstm_step_forward x prev_h prev_c Wx Wh b).2 = true.
Proof.
  intros HN HD HH Hx Hh Hc HWx HWh Hb.
  destruct (step_forward_cache_inputs N D H x prev_h prev_c Wx Wh b)
    as (E1 & E2 & E3 & E4 & E5 & E6 & E7 & E8); try done.
  destruct (shape_next N D H x prev_h prev_c Wx Wh b) as [Hnh Hnc]; try done.
  destruct (shape_gates N D H x prev_h prev_c Wx Wh b) as (Hi & Hf & Ho & Hg); try done.
  apply cache_has_shape_spec. rewrite E1, E2, E3, E4, E5, E6, E7, E8.
  repeat split; try done. by apply (shape_activation N D H).
Qed.

(** ** The cell step backward, entry by entry *)

Section step_backward.
Context (N D H : nat) (dnext_h dnext_c : matrix) (cache : step_cache).
Context (HN : (0 < N)%nat) (HD : (0 < D)%nat) (HH : (0 < H)%nat).
Context (Hdh : has_shape N H dnext_h = true).
Context (Hdc : has_shape N H dnext_c = true).
Context (Hcache : cache_has_shape N D H cache = true).

Local Abbreviation dcn := (dnext_c_updated dnext_h dnext_c cache).
Local Abbreviation dact := (dactivation_of dnext_h dcn cache).

Lemma shape_dnext_c_updated : has_shape N H dcn = true.
Proof using All.
  apply cache_has_shape_spec in Hcache as (_&_&_&_&Hnc&_&_&_&_&_&_&Ho&_).
  unfold dnext_c_updated, one_minus, msq, mtanh. apply shape_madd; [done|].
  apply shape_mmul; [by apply shape_mmul|]. by do 3 apply shape_map_map.
Qed.

Lemma mget_dnext_c_updated (n j : nat) :
  (n < N)%nat -> (j < H)%nat ->
  mget dcn n j
  = mget dnext_c n j
    + mget dnext_h n j * mget (c_output cache) n j
      * (1 - tanh (mget (c_next_c cache) n j) ^ 2).
Proof using All.
  intros Hn Hj.
  apply cache_has_shape_spec in Hcache as (_&_&_&_&Hnc&_&_&_&_&_&_&Ho&_).
  unfold dnext_c_updated, one_minus, msq, mtanh.
  rewrite (mget_madd N H); [|done| |done..].
  2:{ apply shape_mmul; [by apply shape_mmul|]. by do 3 apply shape_map_map. }
  rewrite (mget_mmul N H); [|by apply shape_mmul|by do 3 apply shape_map_map|done..].
  rewrite (mget_mmul N H) by done.
  rewrite (mget_map_map _ N H); [|by do 2 apply shape_map_map|done..].
  rewrite (mget_map_map _ N H); [|by apply shape_map_map|done..].
  by rewrite (mget_map_map _ N H).
Qed.

Local Abbreviation blk_i := (da_input_block dcn cache).
Local Abbreviation blk_f := (da_forget_block dcn cache).
Local Abbreviation blk_o := (da_output_block dnext_h cache).
Local Abbreviation blk_g := (da_block_input_block dcn cache).

Lemma dactivation_unfold :
  dact = set_cols_from (3 * H)
           (set_cols_slice (2 * H) (3 * H)
              (set_cols_slice H (2 * H)
                 (set_cols_slice 0 H (zeros N (4 * H)) blk_i)
                 blk_f)
              blk_o)
           blk_g.
Proof using All.
  unfold dactivation_of, shape2, nrows.
  by rewrite (shape_ncols _ _ _ Hdh HN), (shape_length _ _ _ Hdh).
Qed.

Lemma shape_da_blocks :
  has_shape N H blk_i = true /\ has_shape N H blk_f = true
  /\ has_shape N H blk_o = true
  /\ has_shape N H blk_g = true.
Proof using All.
  pose proof shape_dnext_c_updated as Hdcn.
  apply cache_has_shape_spec in Hcache
    as (_&_&Hpc&_&Hnc&_&_&_&_&Hi&Hf&Ho&Hg).
  unfold da_input_block, da_forget_block, da_output_block,
    da_block_input_block.
  repeat split;
    repeat first [ done | apply shape_mmul
                 | (unfold one_minus, msq, mtanh; apply shape_map_map) ].
Qed.

Lemma shape_dactivation : has_shape N (4 * H) dact = true.
Proof using All.
  destruct shape_da_blocks as (H1 & H2 & H3 & H4). rewrite dactivation_unfold.
  apply shape_set_cols_from; [|by replace (4 * H - 3 * H)%nat with H by lia|lia].
  apply shape_set_cols_slice; [|by replace (3 * H - 2 * H)%nat with H by lia|lia..].
  apply shape_set_cols_slice; [|by replace (2 * H - H)%nat with H by lia|lia..].
  apply shape_set_cols_slice; [|by replace (H - 0)%nat with H by lia|lia..].
  apply shape_zeros.
Qed.

Lemma mget_dactivation (n k : nat) :
  (n < N)%nat ->
  mget dact n k
  = if decide (3 * H <= k)%nat then mget blk_g n (k - 3 * H)
    else if decide (2 * H <= k)%nat then mget blk_o n (k - 2 * H)
    else if decide (H <= k)%nat then mget blk_f n (k - H)
    else mget blk_i n k.
Proof using All.
  intros Hn. destruct shape_da_blocks as (H1 & H2 & H3 & H4).
  rewrite dactivation_unfold.
  assert (S1 : has_shape N (4 * H)
                 (set_cols_slice 0 H (zeros N (4 * H)) blk_i) = true).
  { apply shape_set_cols_slice; [|by replace (H - 0)%nat with H by lia|lia..].
    apply shape_zeros. }
  assert (S2 : has_shape N (4 * H)
                 (set_cols_slice H (2 * H)
                    (set_cols_slice 0 H (zeros N (4 * H)) blk_i)
                    blk_f) = true).
  { apply shape_set_cols_slice; [done|by replace (2 * H - H)%nat with H by lia|lia..]. }
  assert (S3 : has_shape N (4 * H)
                 (set_cols_slice (2 * H) (3 * H)
                    (set_cols_slice H (2 * H)
                       (set_cols_slice 0 H (zeros N (4 * H)) blk_i)
                       blk_f) blk_o) = true).
  { apply shape_set_cols_slice;
      [done|by replace (3 * H - 2 * H)%nat with H by lia|lia..]. }
  rewrite (mget_set_cols_from N (4 * H));
    [|done|by replace (4 * H - 3 * H)%nat with H by lia|lia|done].
  destruct (decide (3 * H <= k)%nat); [done|].
  rewrite (mget_set_cols_slice N (4 * H));
    [|done|by replace (3 * H - 2 * H)%nat with H by lia|lia|lia|done].
  destruct (decide (2 * H <= k < 3 * H)%nat), (decide (2 * H <= k)%nat);
    try lia; [done|].
  rewrite (mget_set_cols_slice N (4 * H));
    [|done|by replace (2 * H - H)%nat with H by lia|lia|lia|done].
  destruct (decide (H <= k < 2 * H)%nat), (decide (H <= k)%nat); try lia; [done|].
  rewrite (mget_set_cols_slice N (4 * H));
    [|apply shape_zeros|by replace (H - 0)%nat with H by lia|lia|lia|done].
  destruct (decide (0 <= k < H)%nat); [|lia]. f_equal. lia.
Qed.

Lemma mget_da_blocks (n j : nat) :
  (n < N)%nat -> (j < H)%nat ->
  let i := mget (c_input cache) n j in
  let f := mget (c_forget cache) n j in
  let o := mget (c_output cache) n j in
  let g := mget (c_block_input cache) n j in
  mget blk_i n j = mget dcn n j * g * i * (1 - i)
  /\ mget blk_f n j = mget dcn n j * mget (c_prev_c cache) n j * f * (1 - f)
  /\ mget blk_o n j
     = mget dnext_h n j * tanh (mget (c_next_c cache) n j) * o * (1 - o)
  /\ mget blk_g n j = mget dcn n j * i * (1 - g ^ 2).
Proof using All.
  intros Hn Hj. pose proof shape_dnext_c_updated as Hdcn.
  apply cache_has_shape_spec in Hcache
    as (_&_&Hpc&_&Hnc&_&_&_&_&Hi&Hf&Ho&Hg).
  unfold da_input_block, da_forget_block, da_output_block,
    da_block_input_block.
  unfold one_minus, msq, mtanh. cbv zeta.
  repeat split;
    repeat first
      [ rewrite (mget_mmul N H) by
          repeat first [ done | apply shape_mmul | apply shape_map_map ]
      | rewrite (mget_map_map _ N H) by
          repeat first [ done | apply shape_mmul | apply shape_map_map ] ];
    reflexivity.
Qed.

End step_backward.

(** ** The blocks of [dactivation] read back *)

Section blocks_read_back.
Context (N D H : nat) (dnext_h dnext_c : matrix) (cache : step_cache).
Context (HN : (0 < N)%nat) (HD : (0 < D)%nat) (HH : (0 < H)%nat).
Context (Hdh : has_shape N H dnext_h = true).
Context (Hdc : has_shape N H dnext_c = true).
Context (Hcache : cache_has_shape N D H cache = true).

Local Abbreviation dcn := (dnext_c_updated dnext_h dnext_c cache).
Local Abbreviation dact := (dactivation_of dnext_h dcn cache).

Lemma dactivation_blocks :
  cols_slice 0 H dact = da_input_block dcn cache
  /\ cols_slice H (2 * H) dact = da_forget_block dcn cache
  /\ cols_slice (2 * H) (3 * H) dact = da_output_block dnext_h cache
  /\ cols_from (3 * H) dact = da_block_input_block dcn cache.
Proof using All.
  pose proof (shape_dactivation N D H dnext_h dnext_c cache HN HD HH Hdh Hdc Hcache) as Hda.
  destruct (shape_da_blocks N D H dnext_h dnext_c cache HN HD HH Hdh Hdc Hcache)
    as (H1 & H2 & H3 & H4).
  pose proof (mget_dactivation N D H dnext_h dnext_c cache HN HD HH Hdh Hdc Hcache)
    as Hget.
  repeat split.
  - apply (matrix_ext N H); [|done|].
    + replace H with (H - 0)%nat at 1 by lia.
      apply (shape_cols_slice N (4 * H)); [done|lia].
    + intros n k Hn Hk. rewrite (mget_cols_slice N (4 * H)) by (done || lia).
      rewrite Hget by done. repeat (destruct (decide _); try lia). done.
  - apply (matrix_ext N H); [|done|].
    + replace H with (2 * H - H)%nat at 1 by lia.
      apply (shape_cols_slice N (4 * H)); [done|lia].
    + intros n k Hn Hk. rewrite (mget_cols_slice N (4 * H)) by (done || lia).
      rewrite Hget by done. repeat (destruct (decide _); try lia). f_equal. lia.
  - apply (matrix_ext N H); [|done|].
    + replace H with (3 * H - 2 * H)%nat at 1 by lia.
      apply (shape_cols_slice N (4 * H)); [done|lia].
    + intros n k Hn Hk. rewrite (mget_cols_slice N (4 * H)) by (done || lia).
      rewrite Hget by done. repeat (destruct (decide _); try lia). f_equal. lia.
  - apply (matrix_ext N H); [|done|].
    + replace H with (4 * H - 3 * H)%nat at 1 by lia. by apply shape_cols_from.
    + intros n k Hn Hk. rewrite (mget_cols_from N (4 * H)) by done.
      rewrite Hget by done. repeat (destruct (decide _); try lia). f_equal. lia.
Qed.

End blocks_read_back.

(** C8.  The forward step reads the input gate from columns [0:H) of the
    activation, the forget gate from [H:2H), the output gate from [2H:3H) and
    the block input from [3H:4H); the backward step leaves in the same column
    blocks of [dactivation] the gradient of the pre-activation of the same
    gate. *)
Theorem gate_block_layout (N D H : nat) (x prev_h prev_c Wx Wh : matrix) (b : vec)
  (dnext_h dnext_c : matrix) :
  (0 < N)%nat -> (0 < D)%nat -> (0 < H)%nat ->
  has_shape N D x = true -> has_shape N H prev_h = true ->
  has_shape N H prev_c = true -> has_shape D (4 * H) Wx = true ->
  has_shape H (4 * H) Wh = true -> has_len (4 * H) b = true ->
  has_shape N H dnext_h = true -> has_shape N H dnext_c = true ->
  let cache := (lstm_step_forward x prev_h prev_c Wx Wh b).2 in
  let a := c_activation cache in
  let dc := dnext_c_updated dnext_h dnext_c cache in
  let da := dactivation_of dnext_h dc cache in
  (c_input cache = sigmoid (cols_slice 0 H a)
   /\ c_forget cache = sigmoid (cols_slice H (2 * H) a)
   /\ c_output cache = sigmoid (cols_slice (2 * H) (3 * H) a)
   /\ c_block_input cache = mtanh (cols_from (3 * H) a))
  /\ has_shape N (4 * H) a = true /\ has_shape N (4 * H) da = true
  /\ (cols_slice 0 H da
      = mmul (mmul (mmul dc (c_block_input cache)) (c_input cache))
             (one_minus (c_input cache))
      /\ cols_slice H (2 * H) da
         = mmul (mmul (mmul dc (c_prev_c cache)) (c_forget cache))
                (one_minus (c_forget cache))
      /\ cols_slice (2 * H) (3 * H) da
         = mmul (mmul (mmul dnext_h (mtanh (c_next_c cache))) (c_output cache))
                (one_minus (c_output cache))
      /\ cols_from (3 * H) da
         = mmul (mmul dc (c_input cache)) (one_minus (msq (c_block_input cache)))).
Proof.
  intros HN HD HH Hx Hh Hc HWx HWh Hb Hdh Hdc. cbv zeta.
  pose proof (step_forward_cache_shape N D H x prev_h prev_c Wx Wh b
                HN HD HH Hx Hh Hc HWx HWh Hb) as Hcache.
  split.
  { rewrite (step_forward_unfold N D H x prev_h prev_c Wx Wh b) by done.
    by cache_proj. }
  split; [by apply (shape_activation N D H)|].
  split; [by apply (shape_dactivation N D H)|].
  by apply (dactivation_blocks N D H).
Qed.

(** ** The six results of the cell step backward, entry by entry *)

Section step_backward_results.
Context (N D H : nat) (dnext_h dnext_c : matrix) (cache : step_cache).
Context (HN : (0 < N)%nat) (HD : (0 < D)%nat) (HH : (0 < H)%nat).
Context (Hdh : has_shape N H dnext_h = true).
Context (Hdc : has_shape N H dnext_c = true).
Context (Hcache : cache_has_shape N D H cache = true).

Local Abbreviation dcn := (dnext_c_updated dnext_h dnext_c cache).
Local Abbreviation dact := (dactivation_of dnext_h dcn cache).
Local Abbreviation res := (lstm_step_backward dnext_h dnext_c cache).

Lemma step_backward_shapes :
  has_shape N D res.1.1.1.1.1 = true /\ has_shape N H res.1.1.1.1.2 = true
  /\ has_shape N H res.1.1.1.2 = true /\ has_shape D (4 * H) res.1.1.2 = true
  /\ has_shape H (4 * H) res.1.2 = true /\ has_len (4 * H) res.2 = true.
Proof using All.
  pose proof (shape_dactivation N D H dnext_h dnext_c cache HN HD HH Hdh Hdc Hcache) as Hda.
  pose proof (shape_dnext_c_updated N D H dnext_h dnext_c cache HN HD HH Hdh Hdc Hcache) as Hdcn.
  apply cache_has_shape_spec in Hcache
    as (Hx&Hph&Hpc&_&Hnc&HWx&HWh&_&_&Hi&Hf&Ho&Hg).
  assert (H4 : (0 < 4 * H)%nat) by lia.
  unfold lstm_step_backward. cbn [fst snd]. repeat split.
  - apply (shape_dot N (4 * H) D); [done| |done]. by apply shape_transpose.
  - apply (shape_dot N (4 * H) H); [done| |done]. by apply shape_transpose.
  - by apply shape_mmul.
  - apply (shape_dot D N (4 * H)); [|done..]. by apply shape_transpose.
  - apply (shape_dot H N (4 * H)); [|done..]. by apply shape_transpose.
  - by apply (length_sum_axis0 N).
Qed.

Lemma step_backward_entries :
  (forall n d, (n < N)%nat -> (d < D)%nat ->
     mget res.1.1.1.1.1 n d
     = bigsum (4 * H) (fun k => mget dact n k * mget (c_Wx cache) d k))
  /\ (forall n j, (n < N)%nat -> (j < H)%nat ->
        mget res.1.1.1.1.2 n j
        = bigsum (4 * H) (fun k => mget dact n k * mget (c_Wh cache) j k))
  /\ (forall n j, (n < N)%nat -> (j < H)%nat ->
        mget res.1.1.1.2 n j = mget dcn n j * mget (c_forget cache) n j)
  /\ (forall d k, (d < D)%nat -> (k < 4 * H)%nat ->
        mget res.1.1.2 d k = bigsum N (fun n => mget (c_x cache) n d * mget dact n k))
  /\ (forall j k, (j < H)%nat -> (k < 4 * H)%nat ->
        mget res.1.2 j k
        = bigsum N (fun n => mget (c_prev_h cache) n j * mget dact n k))
  /\ (forall k, (k < 4 * H)%nat -> vget res.2 k = bigsum N (fun n => mget dact n k)).
Proof using All.
  pose proof (shape_dactivation N D H dnext_h dnext_c cache HN HD HH Hdh Hdc Hcache) as Hda.
  pose proof (shape_dnext_c_updated N D H dnext_h dnext_c cache HN HD HH Hdh Hdc Hcache) as Hdcn.
  apply cache_has_shape_spec in Hcache
    as (Hx&Hph&Hpc&_&Hnc&HWx&HWh&_&_&Hi&Hf&Ho&Hg).
  assert (H4 : (0 < 4 * H)%nat) by lia.
  unfold lstm_step_backward. cbn [fst snd]. repeat split.
  - intros n d Hn Hd.
    rewrite (mget_dot N (4 * H) D); [|done|by apply shape_transpose|done..].
    apply bigsum_ext. intros k Hk. by rewrite (mget_transpose D (4 * H)).
  - intros n j Hn Hj.
    rewrite (mget_dot N (4 * H) H); [|done|by apply shape_transpose|done..].
    apply bigsum_ext. intros k Hk. by rewrite (mget_transpose H (4 * H)).
  - intros n j Hn Hj. by rewrite (mget_mmul N H).
  - intros d k Hd Hk.
    rewrite (mget_dot D N (4 * H)); [|by apply shape_transpose|done..].
    apply bigsum_ext. intros n Hn. by rewrite (mget_transpose N D).
  - intros j k Hj Hk.
    rewrite (mget_dot H N (4 * H)); [|by apply shape_transpose|done..].
    apply bigsum_ext. intros n Hn. by rewrite (mget_transpose N H).
  - intros k Hk. by rewrite (vget_sum_axis0 N (4 * H)).
Qed.

End step_backward_results.

(** ** Derivatives of the scalar functions *)

Lemma deriv_eq (f : R -> R) (t l l' : R) :
  derivable_pt_lim f t l -> l = l' -> derivable_pt_lim f t l'.
Proof. by intros Hf <-. Qed.

Lemma deriv_const (a t : R) : derivable_pt_lim (fun _ => a) t 0.
Proof. apply (derivable_pt_lim_const a t). Qed.

Lemma deriv_id (t : R) : derivable_pt_lim (fun u => u) t 1.
Proof. apply (derivable_pt_lim_id t). Qed.

Lemma deriv_plus (f g : R -> R) (t lf lg : R) :
  derivable_pt_lim f t lf -> derivable_pt_lim g t lg ->
  derivable_pt_lim (fun u => f u + g u) t (lf + lg).
Proof. intros Hf Hg. exact (derivable_pt_lim_plus f g t lf lg Hf Hg). Qed.

Lemma deriv_mult (f g : R -> R) (t lf lg : R) :
  derivable_pt_lim f t lf -> derivable_pt_lim g t lg ->
  derivable_pt_lim (fun u => f u * g u) t (lf * g t + f t * lg).
Proof. intros Hf Hg. exact (derivable_pt_lim_mult f g t lf lg Hf Hg). Qed.

Lemma deriv_comp (f g : R -> R) (t lf lg : R) :
  derivable_pt_lim f t lf -> derivable_pt_lim g (f t) lg ->
  derivable_pt_lim (fun u => g (f u)) t (lg * lf).
Proof. intros Hf Hg. exact (derivable_pt_lim_comp f g t lf lg Hf Hg). Qed.

Lemma deriv_bigsum (K : nat) (F : R -> nat -> R) (F' : nat -> R) (t : R) :
  (forall k, (k < K)%nat -> derivable_pt_lim (fun u => F u k) t (F' k)) ->
  derivable_pt_lim (fun u => bigsum K (F u)) t (bigsum K F').
Proof.
  induction K as [|K IH]; intros HF; simpl.
  - apply deriv_const.
  - apply deriv_plus; [apply IH; intros; apply HF; lia | apply HF; lia].
Qed.

Lemma cosh_pos (a : R) : 0 < cosh a.
Proof. unfold cosh. pose proof (exp_pos a). pose proof (exp_pos (- a)). lra. Qed.

Lemma deriv_tanh (a : R) : derivable_pt_lim tanh a (1 - tanh a ^ 2).
Proof.
  pose proof (cosh_pos a) as Hc.
  eapply deriv_eq.
  - apply (derivable_pt_lim_div sinh cosh a (cosh a) (sinh a)).
    + apply derivable_pt_lim_sinh.
    + apply derivable_pt_lim_cosh.
    + lra.
  - unfold tanh, Rsqr. field. lra.
Qed.

Lemma deriv_logistic (a : R) :
  derivable_pt_lim logistic a (logistic a * (1 - logistic a)).
Proof.
  pose proof (exp_pos (- a)) as Hp.
  assert (He : derivable_pt_lim (fun u => exp (- u)) a (exp (- a) * -1)).
  { apply (deriv_comp (fun u => - u) exp).
    - eapply deriv_eq; [apply (derivable_pt_lim_opp _ _ _ (deriv_id a))|lra].
    - apply derivable_pt_lim_exp. }
  eapply deriv_eq.
  - apply (derivable_pt_lim_div (fun _ => 1) (fun u => 1 + exp (- u)) a 0
                                (0 + exp (- a) * -1)).
    + apply deriv_const.
    + apply deriv_plus; [apply deriv_const|exact He].
    + lra.
  - unfold logistic, Rsqr. field. lra.
Qed.

Lemma deriv_cell (dh dc t : R) (ai af ao ag c : R -> R) (ai' af' ao' ag' c' : R) :
  derivable_pt_lim ai t ai' -> derivable_pt_lim af t af' ->
  derivable_pt_lim ao t ao' -> derivable_pt_lim ag t ag' ->
  derivable_pt_lim c t c' ->
  let i := logistic (ai t) in
  let f := logistic (af t) in
  let o := logistic (ao t) in
  let g := tanh (ag t) in
  let cn := f * c t + i * g in
  let dcn := dc + dh * o * (1 - tanh cn ^ 2) in
  derivable_pt_lim
    (fun u => dh * cell_h (ai u) (af u) (ao u) (ag u) (c u)
              + dc * cell_c (ai u) (af u) (ag u) (c u))
    t
    (dcn * g * i * (1 - i) * ai' + dcn * c t * f * (1 - f) * af'
     + dh * tanh cn * o * (1 - o) * ao' + dcn * i * (1 - g ^ 2) * ag'
     + dcn * f * c').
Proof.
  intros Hai Haf Hao Hag Hc. cbv zeta.
  assert (Hcn : derivable_pt_lim (fun u => cell_c (ai u) (af u) (ag u) (c u)) t
            ((logistic (af t) * (1 - logistic (af t)) * af') * c t + logistic (af t) * c'
             + ((logistic (ai t) * (1 - logistic (ai t)) * ai') * tanh (ag t)
                + logistic (ai t) * ((1 - tanh (ag t) ^ 2) * ag')))).
  { unfold cell_c.
    apply (deriv_plus (fun u => logistic (af u) * c u)
                      (fun u => logistic (ai u) * tanh (ag u))).
    - apply (deriv_mult (fun u => logistic (af u)) c); [|done].
      apply (deriv_comp af logistic); [done|apply deriv_logistic].
    - apply (deriv_mult (fun u => logistic (ai u)) (fun u => tanh (ag u))).
      + apply (deriv_comp ai logistic); [done|apply deriv_logistic].
      + apply (deriv_comp ag tanh); [done|apply deriv_tanh]. }
  eapply deriv_eq.
  - apply (deriv_plus
             (fun u => dh * cell_h (ai u) (af u) (ao u) (ag u) (c u))
             (fun u => dc * cell_c (ai u) (af u) (ag u) (c u))).
    + apply (deriv_mult (fun _ => dh)
                        (fun u => cell_h (ai u) (af u) (ao u) (ag u) (c u)));
        [apply deriv_const|].
      unfold cell_h.
      apply (deriv_mult (fun u => logistic (ao u))
                        (fun u => tanh (cell_c (ai u) (af u) (ag u) (c u)))).
      * apply (deriv_comp ao logistic); [done|apply deriv_logistic].
      * apply (deriv_comp (fun u => cell_c (ai u) (af u) (ag u) (c u)) tanh);
          [exact Hcn|apply deriv_tanh].
    + apply (deriv_mult (fun _ => dc)
                        (fun u => cell_c (ai u) (af u) (ag u) (c u)));
        [apply deriv_const|exact Hcn].
  - unfold cell_c. ring.
Qed.

(** ** The scalar loss of one step in index form *)

Lemma Rsum_app (u v : vec) : Rsum (u ++ v) = Rsum u + Rsum v.
Proof. unfold Rsum. induction u as [|a u IH]; simpl; [lra|]. rewrite IH. lra. Qed.

Lemma msum_bigsum (N K : nat) (M : matrix) :
  has_shape N K M = true ->
  msum M = bigsum N (fun n => bigsum K (fun k => mget M n k)).
Proof.
  revert N. induction M as [|r M IH]; intros N HM.
  - apply shape_length in HM. simpl in HM. subst N. reflexivity.
  - apply has_shape_spec in HM as [HN HK]. simpl in HN. subst N.
    inversion HK as [|? ? Hr HM']; subst.
    rewrite bigsum_shift. unfold msum in *. cbn [concat]. rewrite Rsum_app.
    rewrite (IH (length M)) by (by apply has_shape_spec).
    f_equal. rewrite Rsum_bigsum. reflexivity.
Qed.

Lemma bigsum_blocks (H : nat) (g : nat -> R) :
  bigsum (4 * H) g
  = bigsum H (fun j => g j + g (H + j)%nat + g (2 * H + j)%nat + g (3 * H + j)%nat).
Proof.
  replace (4 * H)%nat with (H + (H + (H + H)))%nat by lia.
  rewrite !bigsum_app, !bigsum_plus.
  rewrite (bigsum_ext H (fun k => g (H + (H + k))%nat) (fun j => g (2 * H + j)%nat))
    by (intros; f_equal; lia).
  rewrite (bigsum_ext H (fun k => g (H + (H + (H + k)))%nat)
                        (fun j => g (3 * H + j)%nat))
    by (intros; f_equal; lia).
  lra.
Qed.

Section loss_index_form.
Context (N D H : nat) (dnext_h dnext_c x prev_h prev_c Wx Wh : matrix) (b : vec).
Context (HN : (0 < N)%nat) (HD : (0 < D)%nat) (HH : (0 < H)%nat).
Context (Hdh : has_shape N H dnext_h = true).
Context (Hdc : has_shape N H dnext_c = true).
Context (Hx : has_shape N D x = true).
Context (Hh : has_shape N H prev_h = true).
Context (Hc : has_shape N H prev_c = true).
Context (HWx : has_shape D (4 * H) Wx = true).
Context (HWh : has_shape H (4 * H) Wh = true).
Context (Hb : has_len (4 * H) b = true).

Local Abbreviation A := (act_entry x prev_h Wx Wh b D H).
Local Abbreviation r := (lstm_step_forward x prev_h prev_c Wx Wh b).

Lemma step_loss_index :
  step_loss dnext_h dnext_c x prev_h prev_c Wx Wh b
  = bigsum N (fun n => bigsum H (fun j =>
      mget dnext_h n j
      * cell_h (A n j) (A n (H + j)%nat) (A n (2 * H + j)%nat) (A n (3 * H + j)%nat)
               (mget prev_c n j)
      + mget dnext_c n j
        * cell_c (A n j) (A n (H + j)%nat) (A n (3 * H + j)%nat) (mget prev_c n j))).
Proof using All.
  destruct (shape_next N D H x prev_h prev_c Wx Wh b HN HD HH Hx Hh Hc HWx HWh Hb)
    as [Hnh Hnc].
  unfold step_loss. destruct r as [[next_h next_c] cache] eqn:Er.
  cbn [fst snd] in Hnh, Hnc.
  rewrite (msum_bigsum N H), (msum_bigsum N H) by (by apply shape_mmul).
  rewrite <- bigsum_plus. apply bigsum_ext. intros n Hn.
  rewrite <- bigsum_plus. apply bigsum_ext. intros j Hj.
  rewrite !(mget_mmul N H) by done.
  destruct (next_entries N D H x prev_h prev_c Wx Wh b HN HD HH Hx Hh Hc HWx HWh Hb
              n j Hn Hj) as [E1 E2].
  rewrite Er in E1, E2.
  cbn [fst snd] in E1, E2. by rewrite E1, E2.
Qed.

End loss_index_form.

(** ** The derivative of the step loss along a path of inputs *)

Section loss_along_path.
Context (N D H : nat) (dnext_h dnext_c : matrix).
Context (X Hp C WX WH : R -> matrix) (B : R -> vec) (t : R).
Context (A' C' : nat -> nat -> R).
Context (HN : (0 < N)%nat) (HD : (0 < D)%nat) (HH : (0 < H)%nat).
Context (Hdh : has_shape N H dnext_h = true).
Context (Hdc : has_shape N H dnext_c = true).
Context (HX : forall u, has_shape N D (X u) = true).
Context (HHp : forall u, has_shape N H (Hp u) = true).
Context (HC : forall u, has_shape N H (C u) = true).
Context (HWX : forall u, has_shape D (4 * H) (WX u) = true).
Context (HWH : forall u, has_shape H (4 * H) (WH u) = true).
Context (HB : forall u, has_len (4 * H) (B u) = true).
Context (HA' : forall n k, (n < N)%nat -> (k < 4 * H)%nat ->
  derivable_pt_lim (fun u => act_entry (X u) (Hp u) (WX u) (WH u) (B u) D H n k) t
                   (A' n k)).
Context (HC' : forall n j, (n < N)%nat -> (j < H)%nat ->
  derivable_pt_lim (fun u => mget (C u) n j) t (C' n j)).

Local Abbreviation cache := (lstm_step_forward (X t) (Hp t) (C t) (WX t) (WH t) (B t)).2.
Local Abbreviation dcn := (dnext_c_updated dnext_h dnext_c cache).
Local Abbreviation dact := (dactivation_of dnext_h dcn cache).
Local Abbreviation dprev_c := (lstm_step_backward dnext_h dnext_c cache).1.1.1.2.
Local Abbreviation A := (fun u => act_entry (X u) (Hp u) (WX u) (WH u) (B u) D H).

Lemma cache_at_t : cache_has_shape N D H cache = true.
Proof using All. by apply step_forward_cache_shape. Qed.

(** The entries of [dactivation] and [dprev_c] in terms of the
    pre-activations at [t]. *)
Lemma backward_entries_at_t (n j : nat) :
  (n < N)%nat -> (j < H)%nat ->
  let i := logistic (A t n j) in
  let f := logistic (A t n (H + j)%nat) in
  let o := logistic (A t n (2 * H + j)%nat) in
  let g := tanh (A t n (3 * H + j)%nat) in
  let c := mget (C t) n j in
  let cn := f * c + i * g in
  let d := mget dnext_c n j + mget dnext_h n j * o * (1 - tanh cn ^ 2) in
  mget dact n j = d * g * i * (1 - i)
  /\ mget dact n (H + j) = d * c * f * (1 - f)
  /\ mget dact n (2 * H + j) = mget dnext_h n j * tanh cn * o * (1 - o)
  /\ mget dact n (3 * H + j) = d * i * (1 - g ^ 2)
  /\ mget dprev_c n j = d * f.
Proof using All.
  intros Hn Hj. cbv zeta. pose proof cache_at_t as Hcache.
  destruct (mget_gates N D H (X t) (Hp t) (C t) (WX t) (WH t) (B t)
              HN HD HH (HX t) (HHp t) (HC t) (HWX t) (HWH t) (HB t) n j Hn Hj)
    as (Ei & Ef & Eo & Eg).
  rewrite !(mget_activation N D H (X t) (Hp t) (C t) (WX t) (WH t) (B t)
              HN HD HH (HX t) (HHp t) (HC t) (HWX t) (HWH t) (HB t))
    in Ei, Ef, Eo, Eg by (done || lia).
  destruct (mget_next N D H (X t) (Hp t) (C t) (WX t) (WH t) (B t)
              HN HD HH (HX t) (HHp t) (HC t) (HWX t) (HWH t) (HB t) n j Hn Hj)
    as (Enc & _).
  destruct (step_forward_cache_inputs N D H (X t) (Hp t) (C t) (WX t) (WH t) (B t)
              HN HD HH (HX t) (HHp t) (HC t) (HWX t) (HWH t) (HB t))
    as (_ & _ & Epc & _ & _ & _ & _ & Enc').
  pose proof (mget_dnext_c_updated N D H dnext_h dnext_c cache
                HN HD HH Hdh Hdc Hcache n j Hn Hj) as Edcn.
  rewrite Enc', Enc, Eo, Ef, Ei, Eg in Edcn.
  destruct (mget_da_blocks N D H dnext_h dnext_c cache HN HD HH Hdh Hdc Hcache
              n j Hn Hj) as (B1 & B2 & B3 & B4).
  rewrite ?Edcn, ?Epc, ?Enc', ?Enc, ?Ei, ?Ef, ?Eo, ?Eg in B1.
  rewrite ?Edcn, ?Epc, ?Enc', ?Enc, ?Ei, ?Ef, ?Eo, ?Eg in B2.
  rewrite ?Edcn, ?Epc, ?Enc', ?Enc, ?Ei, ?Ef, ?Eo, ?Eg in B3.
  rewrite ?Edcn, ?Epc, ?Enc', ?Enc, ?Ei, ?Ef, ?Eo, ?Eg in B4.
  pose proof (mget_dactivation N D H dnext_h dnext_c cache HN HD HH Hdh Hdc Hcache)
    as Hget.
  destruct (step_backward_entries N D H dnext_h dnext_c cache HN HD HH Hdh Hdc Hcache)
    as (_ & _ & Edp & _).
  repeat split.
  - rewrite Hget by done. repeat (destruct (decide _); try lia). exact B1.
  - rewrite Hget by done. repeat (destruct (decide _); try lia).
    replace (H + j - H)%nat with j by lia. exact B2.
  - rewrite Hget by done. repeat (destruct (decide _); try lia).
    replace (2 * H + j - 2 * H)%nat with j by lia. exact B3.
  - rewrite Hget by done. repeat (destruct (decide _); try lia).
    replace (3 * H + j - 3 * H)%nat with j by lia. exact B4.
  - rewrite Edp by done. by rewrite Edcn, Ef.
Qed.

Lemma step_loss_deriv_path :
  derivable_pt_lim
    (fun u => step_loss dnext_h dnext_c (X u) (Hp u) (C u) (WX u) (WH u) (B u)) t
    (bigsum N (fun n => bigsum (4 * H) (fun k => mget dact n k * A' n k))
     + bigsum N (fun n => bigsum H (fun j => mget dprev_c n j * C' n j))).
Proof using All.
  apply (derivable_pt_lim_ext
           (fun u => bigsum N (fun n => bigsum H (fun j =>
              mget dnext_h n j
              * cell_h (A u n j) (A u n (H + j)%nat) (A u n (2 * H + j)%nat)
                       (A u n (3 * H + j)%nat) (mget (C u) n j)
              + mget dnext_c n j
                * cell_c (A u n j) (A u n (H + j)%nat) (A u n (3 * H + j)%nat)
                         (mget (C u) n j))))).
  { intros u. symmetry. by apply step_loss_index. }
  rewrite <- bigsum_plus.
  apply (deriv_bigsum N
           (fun u n => bigsum H (fun j =>
              mget dnext_h n j
              * cell_h (A u n j) (A u n (H + j)%nat) (A u n (2 * H + j)%nat)
                       (A u n (3 * H + j)%nat) (mget (C u) n j)
              + mget dnext_c n j
                * cell_c (A u n j) (A u n (H + j)%nat) (A u n (3 * H + j)%nat)
                         (mget (C u) n j)))
           (fun n => bigsum (4 * H) (fun k => mget dact n k * A' n k)
                     + bigsum H (fun j => mget dprev_c n j * C' n j))).
  intros n Hn. rewrite bigsum_blocks, <- bigsum_plus.
  apply (deriv_bigsum H
           (fun u j =>
              mget dnext_h n j
              * cell_h (A u n j) (A u n (H + j)%nat) (A u n (2 * H + j)%nat)
                       (A u n (3 * H + j)%nat) (mget (C u) n j)
              + mget dnext_c n j
                * cell_c (A u n j) (A u n (H + j)%nat) (A u n (3 * H + j)%nat)
                         (mget (C u) n j))
           (fun j => mget dact n j * A' n j
                     + mget dact n (H + j) * A' n (H + j)%nat
                     + mget dact n (2 * H + j) * A' n (2 * H + j)%nat
                     + mget dact n (3 * H + j) * A' n (3 * H + j)%nat
                     + mget dprev_c n j * C' n j)).
  intros j Hj.
  destruct (backward_entries_at_t n j Hn Hj) as (E1 & E2 & E3 & E4 & E5).
  rewrite E1, E2, E3, E4, E5.
  eapply deriv_eq.
  - apply (deriv_cell (mget dnext_h n j) (mget dnext_c n j) t
             (fun u => A u n j) (fun u => A u n (H + j)%nat)
             (fun u => A u n (2 * H + j)%nat) (fun u => A u n (3 * H + j)%nat)
             (fun u => mget (C u) n j)
             (A' n j) (A' n (H + j)%nat) (A' n (2 * H + j)%nat)
             (A' n (3 * H + j)%nat) (C' n j)).
    + apply HA'; lia.
    + apply HA'; lia.
    + apply HA'; lia.
    + apply HA'; lia.
    + by apply HC'.
  - cbv zeta. ring.
Qed.

End loss_along_path.

(** ** Single-entry perturbations *)

Lemma shape_mset N K M n k a :
  has_shape N K M = true -> has_shape N K (mset M n k a) = true.
Proof.
  intros HM. unfold mset. apply shape_intro.
  - rewrite length_insert. by apply shape_length in HM.
  - intros m Hm. destruct (decide (n = m)) as [->|Hne].
    + rewrite nth_insert_eq by (by rewrite (shape_length _ _ _ HM)).
      rewrite length_insert. by apply (shape_row N).
    + rewrite nth_insert_ne by done. by apply (shape_row N).
Qed.

Lemma mget_mset N K M n0 k0 a n k :
  has_shape N K M = true -> (n0 < N)%nat -> (k0 < K)%nat ->
  mget (mset M n0 k0 a) n k
  = if decide (n = n0) then if decide (k = k0) then a else mget M n k
    else mget M n k.
Proof.
  intros HM Hn0 Hk0. unfold mget, mset.
  destruct (decide (n = n0)) as [->|Hne].
  - rewrite nth_insert_eq by (by rewrite (shape_length _ _ _ HM)).
    destruct (decide (k = k0)) as [->|Hk].
    + apply nth_insert_eq. by rewrite (shape_row _ _ _ _ HM Hn0).
    + by apply nth_insert_ne.
  - by rewrite nth_insert_ne.
Qed.

Lemma mset_same N K M n0 k0 :
  has_shape N K M = true -> (n0 < N)%nat -> (k0 < K)%nat ->
  mset M n0 k0 (mget M n0 k0) = M.
Proof.
  intros HM Hn0 Hk0. apply (matrix_ext N K); [by apply shape_mset|done|].
  intros n k Hn Hk. rewrite (mget_mset N K) by done.
  destruct (decide (n = n0)) as [->|]; [|done]. by destruct (decide (k = k0)) as [->|].
Qed.

Lemma vget_vset (v : vec) k0 a k :
  (k0 < length v)%nat -> vget (vset v k0 a) k = if decide (k = k0) then a else vget v k.
Proof.
  intros Hk0. unfold vget, vset. destruct (decide (k = k0)) as [->|Hk].
  - by apply nth_insert_eq.
  - by apply nth_insert_ne.
Qed.

Lemma vset_same (v : vec) k0 : (k0 < length v)%nat -> vset v k0 (vget v k0) = v.
Proof.
  intros Hk. unfold vset, vget. apply list_insert_id.
  destruct (nth_lookup_or_length v k0 0) as [E|Hge]; [done|lia].
Qed.

Lemma has_len_vset K (v : vec) k a : has_len K v = true -> has_len K (vset v k a) = true.
Proof. rewrite !has_len_spec. unfold vset. by rewrite length_insert. Qed.

Lemma deriv_mset_entry N K M n0 k0 n k t :
  has_shape N K M = true -> (n0 < N)%nat -> (k0 < K)%nat ->
  derivable_pt_lim (fun u => mget (mset M n0 k0 u) n k) t
    (if decide (n = n0) then if decide (k = k0) then 1 else 0 else 0).
Proof.
  intros HM Hn0 Hk0.
  apply (derivable_pt_lim_ext
           (fun u => if decide (n = n0) then if decide (k = k0) then u else mget M n k
                     else mget M n k)).
  { intros u. by rewrite (mget_mset N K). }
  destruct (decide (n = n0)); [destruct (decide (k = k0))|];
    [apply deriv_id|apply deriv_const..].
Qed.

Lemma deriv_vset_entry (v : vec) k0 k t :
  (k0 < length v)%nat ->
  derivable_pt_lim (fun u => vget (vset v k0 u) k) t (if decide (k = k0) then 1 else 0).
Proof.
  intros Hk0.
  apply (derivable_pt_lim_ext (fun u => if decide (k = k0) then u else vget v k)).
  { intros u. by rewrite vget_vset. }
  destruct (decide (k = k0)); [apply deriv_id|apply deriv_const].
Qed.

Lemma bigsum_zero_ext (K : nat) (f : nat -> R) :
  (forall k, (k < K)%nat -> f k = 0) -> bigsum K f = 0.
Proof. intros Hf. rewrite (bigsum_ext _ _ (fun _ => 0)) by done. apply bigsum_zero. Qed.

Lemma bigsum_delta_ext (K k0 : nat) (f g : nat -> R) :
  (k0 < K)%nat ->
  (forall k, (k < K)%nat -> f k = if decide (k = k0) then g k else 0) ->
  bigsum K f = g k0.
Proof.
  intros Hk Hf. rewrite (bigsum_ext _ _ (fun k => if decide (k = k0) then g k else 0))
    by done. by apply bigsum_delta.
Qed.

(** ** The derivative of the pre-activation along a path *)

Section act_along_path.
Context (N D H : nat) (X Hp WX WH : R -> matrix) (B : R -> vec) (t : R).
Context (X' Hp' WX' WH' : nat -> nat -> R) (B' : nat -> R).
Context (HX' : forall n d, (n < N)%nat -> (d < D)%nat ->
  derivable_pt_lim (fun u => mget (X u) n d) t (X' n d)).
Context (HHp' : forall n j, (n < N)%nat -> (j < H)%nat ->
  derivable_pt_lim (fun u => mget (Hp u) n j) t (Hp' n j)).
Context (HWX' : forall d k, (d < D)%nat -> (k < 4 * H)%nat ->
  derivable_pt_lim (fun u => mget (WX u) d k) t (WX' d k)).
Context (HWH' : forall j k, (j < H)%nat -> (k < 4 * H)%nat ->
  derivable_pt_lim (fun u => mget (WH u) j k) t (WH' j k)).
Context (HB' : forall k, (k < 4 * H)%nat ->
  derivable_pt_lim (fun u => vget (B u) k) t (B' k)).

Lemma act_entry_deriv (n k : nat) :
  (n < N)%nat -> (k < 4 * H)%nat ->
  derivable_pt_lim (fun u => act_entry (X u) (Hp u) (WX u) (WH u) (B u) D H n k) t
    (bigsum D (fun d => X' n d * mget (WX t) d k + mget (X t) n d * WX' d k)
     + bigsum H (fun j => Hp' n j * mget (WH t) j k + mget (Hp t) n j * WH' j k)
     + B' k).
Proof using All.
  intros Hn Hk. unfold act_entry.
  apply (deriv_plus
           (fun u => bigsum D (fun d => mget (X u) n d * mget (WX u) d k)
                     + bigsum H (fun j => mget (Hp u) n j * mget (WH u) j k))
           (fun u => vget (B u) k)); [|by apply HB'].
  apply (deriv_plus
           (fun u => bigsum D (fun d => mget (X u) n d * mget (WX u) d k))
           (fun u => bigsum H (fun j => mget (Hp u) n j * mget (WH u) j k))).
  - apply (deriv_bigsum D (fun u d => mget (X u) n d * mget (WX u) d k)
             (fun d => X' n d * mget (WX t) d k + mget (X t) n d * WX' d k)).
    intros d Hd.
    apply (deriv_mult (fun u => mget (X u) n d) (fun u => mget (WX u) d k));
      [by apply HX'|by apply HWX'].
  - apply (deriv_bigsum H (fun u j => mget (Hp u) n j * mget (WH u) j k)
             (fun j => Hp' n j * mget (WH t) j k + mget (Hp t) n j * WH' j k)).
    intros j Hj.
    apply (deriv_mult (fun u => mget (Hp u) n j) (fun u => mget (WH u) j k));
      [by apply HHp'|by apply HWH'].
Qed.

End act_along_path.

(** ** The gradient of the step loss in each of the six inputs *)

Section step_gradient.
Context (N D H : nat) (dnext_h dnext_c x prev_h prev_c Wx Wh : matrix) (b : vec).
Context (HN : (0 < N)%nat) (HD : (0 < D)%nat) (HH : (0 < H)%nat).
Context (Hdh : has_shape N H dnext_h = true).
Context (Hdc : has_shape N H dnext_c = true).
Context (Hx : has_shape N D x = true).
Context (Hh : has_shape N H prev_h = true).
Context (Hc : has_shape N H prev_c = true).
Context (HWx : has_shape D (4 * H) Wx = true).
Context (HWh : has_shape H (4 * H) Wh = true).
Context (Hb : has_len (4 * H) b = true).

Local Abbreviation cache := (lstm_step_forward x prev_h prev_c Wx Wh b).2.
Local Abbreviation dcn := (dnext_c_updated dnext_h dnext_c cache).
Local Abbreviation dact := (dactivation_of dnext_h dcn cache).
Local Abbreviation res := (lstm_step_backward dnext_h dnext_c cache).
Local Abbreviation L := (step_loss dnext_h dnext_c).

(** The derivative of the loss along a path through the inputs at [t], in
    terms of the derivatives of the entries of the six arrays. *)
Lemma step_loss_deriv_entries
  (X Hp C WX WH : R -> matrix) (B : R -> vec) (t : R)
  (X' Hp' C' WX' WH' : nat -> nat -> R) (B' : nat -> R) :
  X t = x -> Hp t = prev_h -> C t = prev_c -> WX t = Wx -> WH t = Wh -> B t = b ->
  (forall u, has_shape N D (X u) = true) ->
  (forall u, has_shape N H (Hp u) = true) ->
  (forall u, has_shape N H (C u) = true) ->
  (forall u, has_shape D (4 * H) (WX u) = true) ->
  (forall u, has_shape H (4 * H) (WH u) = true) ->
  (forall u, has_len (4 * H) (B u) = true) ->
  (forall n d, (n < N)%nat -> (d < D)%nat ->
     derivable_pt_lim (fun u => mget (X u) n d) t (X' n d)) ->
  (forall n j, (n < N)%nat -> (j < H)%nat ->
     derivable_pt_lim (fun u => mget (Hp u) n j) t (Hp' n j)) ->
  (forall n j, (n < N)%nat -> (j < H)%nat ->
     derivable_pt_lim (fun u => mget (C u) n j) t (C' n j)) ->
  (forall d k, (d < D)%nat -> (k < 4 * H)%nat ->
     derivable_pt_lim (fun u => mget (WX u) d k) t (WX' d k)) ->
  (forall j k, (j < H)%nat -> (k < 4 * H)%nat ->
     derivable_pt_lim (fun u => mget (WH u) j k) t (WH' j k)) ->
  (forall k, (k < 4 * H)%nat -> derivable_pt_lim (fun u => vget (B u) k) t (B' k)) ->
  derivable_pt_lim (fun u => L (X u) (Hp u) (C u) (WX u) (WH u) (B u)) t
    (bigsum N (fun n => bigsum (4 * H) (fun k =>
       mget dact n k
       * (bigsum D (fun d => X' n d * mget Wx d k + mget x n d * WX' d k)
          + bigsum H (fun j => Hp' n j * mget Wh j k + mget prev_h n j * WH' j k)
          + B' k)))
     + bigsum N (fun n => bigsum H (fun j => mget res.1.1.1.2 n j * C' n j))).
Proof using All.
  intros EX EHp EC EWX EWH EB SX SHp SC SWX SWH SB DX DHp DC DWX DWH DB.
  pose proof (step_loss_deriv_path N D H dnext_h dnext_c X Hp C WX WH B t
    (fun n k => bigsum D (fun d => X' n d * mget (WX t) d k + mget (X t) n d * WX' d k)
                + bigsum H (fun j => Hp' n j * mget (WH t) j k
                                     + mget (Hp t) n j * WH' j k)
                + B' k)
    C' HN HD HH Hdh Hdc SX SHp SC SWX SWH SB) as Hpath.
  rewrite EX, EHp, EC, EWX, EWH, EB in Hpath. apply Hpath; [|done].
  intros n k Hn Hk.
  pose proof (act_entry_deriv N D H X Hp WX WH B t X' Hp' WX' WH' B'
                DX DHp DWX DWH DB n k Hn Hk) as Ha.
  by rewrite EX, EHp, EWX, EWH in Ha.
Qed.

Let zero2 : nat -> nat -> R := fun _ _ => 0.
Let zero1 : nat -> R := fun _ => 0.
Let delta2 (n0 k0 : nat) : nat -> nat -> R :=
  fun n k => if decide (n = n0) then if decide (k = k0) then 1 else 0 else 0.
Let delta1 (k0 : nat) : nat -> R := fun k => if decide (k = k0) then 1 else 0.

Lemma grad_x (n0 d0 : nat) :
  (n0 < N)%nat -> (d0 < D)%nat ->
  derivable_pt_lim (fun u => L (mset x n0 d0 u) prev_h prev_c Wx Wh b)
                   (mget x n0 d0) (mget res.1.1.1.1.1 n0 d0).
Proof using All.
  intros Hn0 Hd0.
  pose proof (step_forward_cache_shape N D H x prev_h prev_c Wx Wh b
                HN HD HH Hx Hh Hc HWx HWh Hb) as Hcache.
  destruct (step_forward_cache_inputs N D H x prev_h prev_c Wx Wh b
              HN HD HH Hx Hh Hc HWx HWh Hb) as (E1 & E2 & E3 & E4 & E5 & E6 & _).
  destruct (step_backward_entries N D H dnext_h dnext_c cache HN HD HH Hdh Hdc Hcache)
    as (Edx & _).
  eapply deriv_eq.
  - apply (step_loss_deriv_entries
             (fun u => mset x n0 d0 u) (fun _ => prev_h) (fun _ => prev_c)
             (fun _ => Wx) (fun _ => Wh) (fun _ => b) (mget x n0 d0)
             (delta2 n0 d0) zero2 zero2 zero2 zero2 zero1);
      try done; try (intros; apply deriv_const).
    + by apply (mset_same N D).
    + intros u. by apply shape_mset.
    + intros n d Hn Hd. by apply (deriv_mset_entry N D).
  - rewrite Edx, E4 by done. subst zero1 zero2 delta2. cbv beta.
    rewrite (bigsum_zero_ext N (fun n => bigsum H _))
      by (intros; apply bigsum_zero_ext; intros; ring).
    rewrite Rplus_0_r.
    apply (bigsum_delta_ext N n0 _
             (fun n => bigsum (4 * H) (fun k => mget dact n k * mget Wx d0 k)));
      [done|].
    intros n Hn. destruct (decide (n = n0)) as [->|Hne].
    + apply bigsum_ext. intros k Hk. f_equal.
      rewrite (bigsum_zero_ext H) by (intros; ring).
      rewrite (bigsum_delta_ext D d0 _ (fun d => mget Wx d k)); [ring|done|].
      intros d Hd. destruct (decide (d = d0)); ring.
    + apply bigsum_zero_ext. intros k Hk.
      rewrite (bigsum_zero_ext H) by (intros; ring).
      rewrite (bigsum_zero_ext D) by (intros; ring). ring.
Qed.

Lemma grad_prev_h (n0 j0 : nat) :
  (n0 < N)%nat -> (j0 < H)%nat ->
  derivable_pt_lim (fun u => L x (mset prev_h n0 j0 u) prev_c Wx Wh b)
                   (mget prev_h n0 j0) (mget res.1.1.1.1.2 n0 j0).
Proof using All.
  intros Hn0 Hj0.
  pose proof (step_forward_cache_shape N D H x prev_h prev_c Wx Wh b
                HN HD HH Hx Hh Hc HWx HWh Hb) as Hcache.
  destruct (step_forward_cache_inputs N D H x prev_h prev_c Wx Wh b
              HN HD HH Hx Hh Hc HWx HWh Hb) as (E1 & E2 & E3 & E4 & E5 & E6 & _).
  destruct (step_backward_entries N D H dnext_h dnext_c cache HN HD HH Hdh Hdc Hcache)
    as (_ & Edh & _).
  eapply deriv_eq.
  - apply (step_loss_deriv_entries
             (fun _ => x) (fun u => mset prev_h n0 j0 u) (fun _ => prev_c)
             (fun _ => Wx) (fun _ => Wh) (fun _ => b) (mget prev_h n0 j0)
             zero2 (delta2 n0 j0) zero2 zero2 zero2 zero1);
      try done; try (intros; apply deriv_const).
    + by apply (mset_same N H).
    + intros u. by apply shape_mset.
    + intros n j Hn Hj. by apply (deriv_mset_entry N H).
  - rewrite Edh, E5 by done. subst zero1 zero2 delta2. cbv beta.
    rewrite (bigsum_zero_ext N (fun n => bigsum H _))
      by (intros; apply bigsum_zero_ext; intros; ring).
    rewrite Rplus_0_r.
    apply (bigsum_delta_ext N n0 _
             (fun n => bigsum (4 * H) (fun k => mget dact n k * mget Wh j0 k)));
      [done|].
    intros n Hn. destruct (decide (n = n0)) as [->|Hne].
    + apply bigsum_ext. intros k Hk. f_equal.
      rewrite (bigsum_zero_ext D) by (intros; ring).
      rewrite (bigsum_delta_ext H j0 _ (fun j => mget Wh j k)); [ring|done|].
      intros j Hj. destruct (decide (j = j0)); ring.
    + apply bigsum_zero_ext. intros k Hk.
      rewrite (bigsum_zero_ext H) by (intros; ring).
      rewrite (bigsum_zero_ext D) by (intros; ring). ring.
Qed.

Lemma grad_prev_c (n0 j0 : nat) :
  (n0 < N)%nat -> (j0 < H)%nat ->
  derivable_pt_lim (fun u => L x prev_h (mset prev_c n0 j0 u) Wx Wh b)
                   (mget prev_c n0 j0) (mget res.1.1.1.2 n0 j0).
Proof using All.
  intros Hn0 Hj0.
  eapply deriv_eq.
  - apply (step_loss_deriv_entries
             (fun _ => x) (fun _ => prev_h) (fun u => mset prev_c n0 j0 u)
             (fun _ => Wx) (fun _ => Wh) (fun _ => b) (mget prev_c n0 j0)
             zero2 zero2 (delta2 n0 j0) zero2 zero2 zero1);
      try done; try (intros; apply deriv_const).
    + by apply (mset_same N H).
    + intros u. by apply shape_mset.
    + intros n j Hn Hj. by apply (deriv_mset_entry N H).
  - subst zero1 zero2 delta2. cbv beta.
    rewrite (bigsum_zero_ext N (fun n => bigsum (4 * H) _)).
    2:{ intros n Hn. apply bigsum_zero_ext. intros k Hk.
        rewrite (bigsum_zero_ext H) by (intros; ring).
        rewrite (bigsum_zero_ext D) by (intros; ring). ring. }
    rewrite Rplus_0_l.
    apply (bigsum_delta_ext N n0 _ (fun n => mget res.1.1.1.2 n j0)); [done|].
    intros n Hn. destruct (decide (n = n0)) as [->|Hne].
    + rewrite (bigsum_delta_ext H j0 _ (fun j => mget res.1.1.1.2 n0 j)); [done..|].
      intros j Hj. destruct (decide (j = j0)); ring.
    + apply bigsum_zero_ext. intros; ring.
Qed.

Lemma grad_Wx (d0 k0 : nat) :
  (d0 < D)%nat -> (k0 < 4 * H)%nat ->
  derivable_pt_lim (fun u => L x prev_h prev_c (mset Wx d0 k0 u) Wh b)
                   (mget Wx d0 k0) (mget res.1.1.2 d0 k0).
Proof using All.
  intros Hd0 Hk0.
  pose proof (step_forward_cache_shape N D H x prev_h prev_c Wx Wh b
                HN HD HH Hx Hh Hc HWx HWh Hb) as Hcache.
  destruct (step_forward_cache_inputs N D H x prev_h prev_c Wx Wh b
              HN HD HH Hx Hh Hc HWx HWh Hb) as (E1 & E2 & E3 & E4 & E5 & E6 & _).
  destruct (step_backward_entries N D H dnext_h dnext_c cache HN HD HH Hdh Hdc Hcache)
    as (_ & _ & _ & EdWx & _).
  eapply deriv_eq.
  - apply (step_loss_deriv_entries
             (fun _ => x) (fun _ => prev_h) (fun _ => prev_c)
             (fun u => mset Wx d0 k0 u) (fun _ => Wh) (fun _ => b) (mget Wx d0 k0)
             zero2 zero2 zero2 (delta2 d0 k0) zero2 zero1);
      try done; try (intros; apply deriv_const).
    + by apply (mset_same D (4 * H)).
    + intros u. by apply shape_mset.
    + intros d k Hd Hk. by apply (deriv_mset_entry D (4 * H)).
  - rewrite EdWx, E1 by done. subst zero1 zero2 delta2. cbv beta.
    rewrite (bigsum_zero_ext N (fun n => bigsum H _))
      by (intros; apply bigsum_zero_ext; intros; ring).
    rewrite Rplus_0_r. apply bigsum_ext. intros n Hn.
    rewrite (bigsum_delta_ext (4 * H) k0 _ (fun k => mget x n d0 * mget dact n k));
      [done..|].
    intros k Hk.
    rewrite (bigsum_zero_ext H) by (intros; ring).
    destruct (decide (k = k0)) as [->|Hne].
    + rewrite (bigsum_delta_ext D d0 _ (fun d => mget x n d)); [ring|done|].
      intros d Hd. destruct (decide (d = d0)); ring.
    + rewrite (bigsum_zero_ext D); [ring|].
      intros d Hd. destruct (decide (d = d0)); ring.
Qed.

Lemma grad_Wh (j0 k0 : nat) :
  (j0 < H)%nat -> (k0 < 4 * H)%nat ->
  derivable_pt_lim (fun u => L x prev_h prev_c Wx (mset Wh j0 k0 u) b)
                   (mget Wh j0 k0) (mget res.1.2 j0 k0).
Proof using All.
  intros Hj0 Hk0.
  pose proof (step_forward_cache_shape N D H x prev_h prev_c Wx Wh b
                HN HD HH Hx Hh Hc HWx HWh Hb) as Hcache.
  destruct (step_forward_cache_inputs N D H x prev_h prev_c Wx Wh b
              HN HD HH Hx Hh Hc HWx HWh Hb) as (E1 & E2 & E3 & E4 & E5 & E6 & _).
  destruct (step_backward_entries N D H dnext_h dnext_c cache HN HD HH Hdh Hdc Hcache)
    as (_ & _ & _ & _ & EdWh & _).
  eapply deriv_eq.
  - apply (step_loss_deriv_entries
             (fun _ => x) (fun _ => prev_h) (fun _ => prev_c)
             (fun _ => Wx) (fun u => mset Wh j0 k0 u) (fun _ => b) (mget Wh j0 k0)
             zero2 zero2 zero2 zero2 (delta2 j0 k0) zero1);
      try done; try (intros; apply deriv_const).
    + by apply (mset_same H (4 * H)).
    + intros u. by apply shape_mset.
    + intros j k Hj Hk. by apply (deriv_mset_entry H (4 * H)).
  - rewrite EdWh, E2 by done. subst zero1 zero2 delta2. cbv beta.
    rewrite (bigsum_zero_ext N (fun n => bigsum H _))
      by (intros; apply bigsum_zero_ext; intros; ring).
    rewrite Rplus_0_r. apply bigsum_ext. intros n Hn.
    rewrite (bigsum_delta_ext (4 * H) k0 _
               (fun k => mget prev_h n j0 * mget dact n k)); [done..|].
    intros k Hk.
    rewrite (bigsum_zero_ext D) by (intros; ring).
    destruct (decide (k = k0)) as [->|Hne].
    + rewrite (bigsum_delta_ext H j0 _ (fun j => mget prev_h n j)); [ring|done|].
      intros j Hj. destruct (decide (j = j0)); ring.
    + rewrite (bigsum_zero_ext H); [ring|].
      intros j Hj. destruct (decide (j = j0)); ring.
Qed.

Lemma grad_b (k0 : nat) :
  (k0 < 4 * H)%nat ->
  derivable_pt_lim (fun u => L x prev_h prev_c Wx Wh (vset b k0 u))
                   (vget b k0) (vget res.2 k0).
Proof using All.
  intros Hk0.
  pose proof (step_forward_cache_shape N D H x prev_h prev_c Wx Wh b
                HN HD HH Hx Hh Hc HWx HWh Hb) as Hcache.
  destruct (step_backward_entries N D H dnext_h dnext_c cache HN HD HH Hdh Hdc Hcache)
    as (_ & _ & _ & _ & _ & Edb).
  assert (Hlen : length b = (4 * H)%nat) by (by apply has_len_spec).
  eapply deriv_eq.
  - apply (step_loss_deriv_entries
             (fun _ => x) (fun _ => prev_h) (fun _ => prev_c)
             (fun _ => Wx) (fun _ => Wh) (fun u => vset b k0 u) (vget b k0)
             zero2 zero2 zero2 zero2 zero2 (delta1 k0));
      try done; try (intros; apply deriv_const).
    + apply vset_same. lia.
    + intros u. by apply has_len_vset.
    + intros k Hk. apply deriv_vset_entry. lia.
  - rewrite Edb by done. subst zero1 zero2 delta1. cbv beta.
    rewrite (bigsum_zero_ext N (fun n => bigsum H _))
      by (intros; apply bigsum_zero_ext; intros; ring).
    rewrite Rplus_0_r. apply bigsum_ext. intros n Hn.
    rewrite (bigsum_delta_ext (4 * H) k0 _ (fun k => mget dact n k)); [done..|].
    intros k Hk.
    rewrite (bigsum_zero_ext D) by (intros; ring).
    rewrite (bigsum_zero_ext H) by (intros; ring).
    destruct (decide (k = k0)); ring.
Qed.

End step_gradient.

(** C1.  The six arrays returned by [lstm_step_backward] on the cache of
    [lstm_step_forward] are the gradient, in [x], [prev_h], [prev_c], [Wx],
    [Wh] and [b], of the scalar [sum(next_h * dnext_h) + sum(next_c *
    dnext_c)]: each entry is the derivative of that scalar in the matching
    entry of the input at the cached inputs, and each array has the shape of
    its input.  Stated over the reals, for array values of agreeing shapes. *)
Theorem lstm_step_backward_is_gradient
  (N D H : nat) (x prev_h prev_c Wx Wh : matrix) (b : vec) (dnext_h dnext_c : matrix) :
  (0 < N)%nat -> (0 < D)%nat -> (0 < H)%nat ->
  has_shape N D x = true -> has_shape N H prev_h = true ->
  has_shape N H prev_c = true -> has_shape D (4 * H) Wx = true ->
  has_shape H (4 * H) Wh = true -> has_len (4 * H) b = true ->
  has_shape N H dnext_h = true -> has_shape N H dnext_c = true ->
  let cache := (lstm_step_forward x prev_h prev_c Wx Wh b).2 in
  let res := lstm_step_backward dnext_h dnext_c cache in
  let dx := res.1.1.1.1.1 in
  let dprev_h := res.1.1.1.1.2 in
  let dprev_c := res.1.1.1.2 in
  let dWx := res.1.1.2 in
  let dWh := res.1.2 in
  let db := res.2 in
  let L := step_loss dnext_h dnext_c in
  (has_shape N D dx = true /\ has_shape N H dprev_h = true
   /\ has_shape N H dprev_c = true /\ has_shape D (4 * H) dWx = true
   /\ has_shape H (4 * H) dWh = true /\ has_len (4 * H) db = true)
  /\ (forall n d, (n < N)%nat -> (d < D)%nat ->
        derivable_pt_lim (fun u => L (mset x n d u) prev_h prev_c Wx Wh b)
                         (mget x n d) (mget dx n d))
  /\ (forall n j, (n < N)%nat -> (j < H)%nat ->
        derivable_pt_lim (fun u => L x (mset prev_h n j u) prev_c Wx Wh b)
                         (mget prev_h n j) (mget dprev_h n j))
  /\ (forall n j, (n < N)%nat -> (j < H)%nat ->
        derivable_pt_lim (fun u => L x prev_h (mset prev_c n j u) Wx Wh b)
                         (mget prev_c n j) (mget dprev_c n j))
  /\ (forall d k, (d < D)%nat -> (k < 4 * H)%nat ->
        derivable_pt_lim (fun u => L x prev_h prev_c (mset Wx d k u) Wh b)
                         (mget Wx d k) (mget dWx d k))
  /\ (forall j k, (j < H)%nat -> (k < 4 * H)%nat ->
        derivable_pt_lim (fun u => L x prev_h prev_c Wx (mset Wh j k u) b)
                         (mget Wh j k) (mget dWh j k))
  /\ (forall k, (k < 4 * H)%nat ->
        derivable_pt_lim (fun u => L x prev_h prev_c Wx Wh (vset b k u))
                         (vget b k) (vget db k)).
Proof.
  intros HN HD HH Hx Hh Hc HWx HWh Hb Hdh Hdc. cbv zeta.
  pose proof (step_forward_cache_shape N D H x prev_h prev_c Wx Wh b
                HN HD HH Hx Hh Hc HWx HWh Hb) as Hcache.
  split; [by apply (step_backward_shapes N D H)|].
  split; [intros; by apply (grad_x N D H)|].
  split; [intros; by apply (grad_prev_h N D H)|].
  split; [intros; by apply (grad_prev_c N D H)|].
  split; [intros; by apply (grad_Wx N D H)|].
  split; [intros; by apply (grad_Wh N D H)|].
  intros; by apply (grad_b N D H).
Qed.

(** ** Time slices *)

Lemma shape_slice_t N T K (X : tensor3) t :
  has_shape3 N T K X = true -> (t < T)%nat -> has_shape N K (slice_t X t) = true.
Proof.
  intros HX Ht. apply shape_intro.
  - unfold slice_t. rewrite length_map. by apply shape3_length in HX.
  - intros n Hn. unfold slice_t.
    rewrite (nth_map_lt _ _ _ []) by (by rewrite (shape3_length _ _ _ _ HX)).
    apply (shape_row T); [|done]. by apply (shape3_row N).
Qed.

Lemma length_set_slice_t (X : tensor3) t (M : matrix) :
  length M = length X -> length (set_slice_t X t M) = length X.
Proof. intros HM. unfold set_slice_t. rewrite length_zip_with. lia. Qed.

Lemma nth_set_slice_t (X : tensor3) t (M : matrix) n :
  length M = length X -> (n < length X)%nat ->
  nth n (set_slice_t X t M) [] = <[t := nth n M []]> (nth n X []).
Proof.
  intros HM Hn. unfold set_slice_t.
  rewrite (nth_zip_with_lt _ _ _ _ [] []) by lia. reflexivity.
Qed.

Lemma slice_set_slice_eq (X : tensor3) t (M : matrix) :
  length M = length X ->
  (forall n, (n < length X)%nat -> (t < length (nth n X []))%nat) ->
  slice_t (set_slice_t X t M) t = M.
Proof.
  intros HM Ht. apply (nth_ext _ _ [] []).
  - unfold slice_t. by rewrite length_map, length_set_slice_t.
  - intros n Hn. unfold slice_t in *. rewrite length_map, length_set_slice_t in Hn by done.
    rewrite (nth_map_lt _ _ _ []) by (by rewrite length_set_slice_t).
    rewrite nth_set_slice_t by done. apply nth_insert_eq. by apply Ht.
Qed.

Lemma slice_set_slice_ne (X : tensor3) t t' (M : matrix) :
  length M = length X -> t <> t' ->
  slice_t (set_slice_t X t M) t' = slice_t X t'.
Proof.
  intros HM Ht. apply (nth_ext _ _ [] []).
  - unfold slice_t. by rewrite !length_map, length_set_slice_t.
  - intros n Hn. unfold slice_t in *. rewrite length_map, length_set_slice_t in Hn by done.
    rewrite !(nth_map_lt _ _ _ []) by (by rewrite ?length_set_slice_t).
    rewrite nth_set_slice_t by done. by apply nth_insert_ne.
Qed.

Lemma row_length_set_slice_t (X : tensor3) t (M : matrix) n :
  length M = length X -> (n < length X)%nat ->
  length (nth n (set_slice_t X t M) []) = length (nth n X []).
Proof. intros HM Hn. rewrite nth_set_slice_t by done. apply length_insert. Qed.

Lemma slice_drop_t (X : tensor3) k t : slice_t (drop_t k X) t = slice_t X (k + t).
Proof.
  unfold slice_t, drop_t. rewrite map_map. apply map_ext. intros s. apply nth_skipn.
Qed.

Lemma slice_stack_t N (Ms : list matrix) t :
  (t < length Ms)%nat -> length (nth t Ms []) = N ->
  slice_t (stack_t N Ms) t = nth t Ms [].
Proof.
  intros Ht HN. apply (nth_ext _ _ [] []).
  - unfold slice_t, stack_t. by rewrite !length_map, length_seq.
  - intros n Hn. unfold slice_t, stack_t in *. rewrite !length_map, length_seq in Hn.
    rewrite (nth_map_lt _ _ _ []) by (by rewrite length_map, length_seq).
    rewrite (nth_map_lt _ _ _ 0%nat) by (by rewrite length_seq).
    rewrite seq_nth by done. by rewrite (nth_map_lt _ _ _ []).
Qed.

(** A rank-3 array is determined by its row count, its row lengths and its
    time slices. *)
Lemma tensor_ext_slices N T (X Y : tensor3) :
  length X = N -> length Y = N ->
  (forall n, (n < N)%nat -> length (nth n X []) = T) ->
  (forall n, (n < N)%nat -> length (nth n Y []) = T) ->
  (forall t, (t < T)%nat -> slice_t X t = slice_t Y t) -> X = Y.
Proof.
  intros HX HY HXr HYr Hs. apply (nth_ext _ _ [] []); [lia|].
  intros n Hn. rewrite HX in Hn. apply (nth_ext _ _ [] []).
  - by rewrite HXr, HYr.
  - intros t Ht. rewrite HXr in Ht by done.
    pose proof (Hs t Ht) as E. unfold slice_t in E.
    apply (f_equal (fun M => nth n M [])) in E.
    by rewrite !(nth_map_lt _ _ _ []) in E by lia.
Qed.

(** ** The chain of cell steps *)

Section chain.
Context (N T D H : nat) (x : tensor3) (h0 c0 Wx Wh : matrix) (b : vec).
Context (HN : (0 < N)%nat) (HD : (0 < D)%nat) (HH : (0 < H)%nat).
Context (Hx : has_shape3 N T D x = true).
Context (Hh0 : has_shape N H h0 = true).
Context (Hc0 : has_shape N H c0 = true).
Context (HWx : has_shape D (4 * H) Wx = true).
Context (HWh : has_shape H (4 * H) Wh = true).
Context (Hb : has_len (4 * H) b = true).

Local Abbreviation chain := (lstm_chain x h0 c0 Wx Wh b).
Local Abbreviation ccache := (chain_cache x h0 c0 Wx Wh b).

Lemma chain_S (i : nat) :
  chain (S i)
  = ((lstm_step_forward (slice_t x i) (chain i).1 (chain i).2 Wx Wh b).1.1,
     (lstm_step_forward (slice_t x i) (chain i).1 (chain i).2 Wx Wh b).1.2).
Proof using Type.
  cbn [lstm_chain]. destruct (chain i) as [h c]. cbn [fst snd].
  by destruct (lstm_step_forward (slice_t x i) h c Wx Wh b) as [[nh nc] cc].
Qed.

Lemma chain_cache_eq (i : nat) :
  ccache i = (lstm_step_forward (slice_t x i) (chain i).1 (chain i).2 Wx Wh b).2.
Proof using Type. unfold chain_cache. by destruct (chain i) as [h c]. Qed.

Lemma chain_shape (i : nat) :
  (i <= T)%nat ->
  has_shape N H (chain i).1 = true /\ has_shape N H (chain i).2 = true.
Proof using All.
  induction i as [|i IH]; intros Hi; [done|].
  destruct IH as [IHh IHc]; [lia|]. rewrite chain_S. cbn [fst snd].
  apply (shape_next N D H); try done. apply (shape_slice_t N T); [done|lia].
Qed.

Lemma chain_cache_shape (i : nat) :
  (i < T)%nat -> cache_has_shape N D H (ccache i) = true.
Proof using All.
  intros Hi. destruct (chain_shape i) as [IHh IHc]; [lia|]. rewrite chain_cache_eq.
  apply step_forward_cache_shape; try done. by apply (shape_slice_t N T).
Qed.

End chain.

(** ** The loop of [lstm_forward] *)

Lemma shape3_dims N T K (X : tensor3) :
  has_shape3 N T K X = true -> (0 < N)%nat ->
  length X = N /\ length (hd [] X) = T.
Proof.
  intros HX HN. split; [by apply shape3_length in HX|].
  pose proof (shape3_row N T K X 0 HX HN) as Hr. apply shape_length in Hr.
  destruct X; [apply shape3_length in HX; simpl in HX; lia|exact Hr].
Qed.

Section forward_loop.
Context (N T D H : nat) (x : tensor3) (h0 c0 Wx Wh : matrix) (b : vec).
Context (HN : (0 < N)%nat) (HD : (0 < D)%nat) (HH : (0 < H)%nat).
Context (Hx : has_shape3 N T D x = true).
Context (Hh0 : has_shape N H h0 = true).
Context (Hc0 : has_shape N H c0 = true).
Context (HWx : has_shape D (4 * H) Wx = true).
Context (HWh : has_shape H (4 * H) Wh = true).
Context (Hb : has_len (4 * H) b = true).

Local Abbreviation chain := (lstm_chain x h0 c0 Wx Wh b).
Local Abbreviation ccache := (chain_cache x h0 c0 Wx Wh b).
Local Abbreviation h_init := (set_slice_t (zeros3 N (T + 1) H) 0 h0).
Local Abbreviation loop := (fun i =>
  foldl (lstm_forward_body x Wx Wh b) (h_init, c0, ∅) (seq 0 i)).

Lemma forward_loop_inv (i : nat) :
  (i <= T)%nat ->
  length (loop i).1.1 = N
  /\ (forall n, (n < N)%nat -> length (nth n (loop i).1.1 []) = (T + 1)%nat)
  /\ (forall s, (s <= i)%nat -> slice_t (loop i).1.1 s = (chain s).1)
  /\ (loop i).1.2 = (chain i).2
  /\ (loop i).2 = map_seq 0 (map ccache (seq 0 i)).
Proof using All.
  assert (Hz : length (zeros3 N (T + 1) H) = N) by apply length_replicate.
  assert (Hl0 : length h0 = N) by (by apply shape_length in Hh0).
  induction i as [|i IH]; intros Hi.
  - cbn [seq foldl fst snd map]. repeat split.
    + rewrite length_set_slice_t; lia.
    + intros n Hn. rewrite row_length_set_slice_t by lia.
      unfold zeros3, zeros. rewrite nth_replicate_lt by done. apply length_replicate.
    + intros s Hs. replace s with 0%nat by lia. cbn [lstm_chain fst].
      apply slice_set_slice_eq; [lia|]. intros n Hn. rewrite Hz in Hn.
      unfold zeros3, zeros. rewrite nth_replicate_lt by done.
      rewrite length_replicate. lia.
  - destruct IH as (IHl & IHr & IHs & IHc & IHm); [lia|].
    rewrite seq_S, foldl_app. cbn [foldl Nat.add].
    destruct (foldl (lstm_forward_body x Wx Wh b) (h_init, c0, ∅) (seq 0 i))
      as [[h pc] sc] eqn:Est.
    cbn [fst snd] in IHl, IHr, IHs, IHc, IHm.
    pose proof (chain_S x h0 c0 Wx Wh b i) as ES.
    pose proof (chain_cache_eq x h0 c0 Wx Wh b i) as EC.
    destruct (lstm_step_forward (slice_t x i) (chain i).1 (chain i).2 Wx Wh b)
      as [[nh nc] cc] eqn:Er.
    cbn [fst snd] in ES, EC.
    assert (Eb : lstm_forward_body x Wx Wh b (h, pc, sc) i
                 = (set_slice_t h (i + 1) nh, nc, <[i := cc]> sc)).
    { unfold lstm_forward_body. rewrite (IHs i) by lia. by rewrite IHc, Er. }
    rewrite Eb. cbn [fst snd].
    destruct (chain_shape N T D H x h0 c0 Wx Wh b HN HD HH Hx Hh0 Hc0 HWx HWh Hb (S i) Hi)
      as [HSh _].
    rewrite ES in HSh. cbn [fst] in HSh.
    assert (Hnh : length nh = length h) by (apply shape_length in HSh; lia).
    repeat split.
    + rewrite length_set_slice_t; lia.
    + intros n Hn. rewrite row_length_set_slice_t by lia. by apply IHr.
    + intros s Hs. destruct (decide (s = i + 1)%nat) as [->|Hne].
      * replace (i + 1)%nat with (S i) by lia. rewrite ES. cbn [fst].
        replace (S i) with (i + 1)%nat by lia.
        apply slice_set_slice_eq; [done|]. intros n Hn. rewrite IHr by lia. lia.
      * rewrite slice_set_slice_ne by (done || lia). apply IHs. lia.
    + by rewrite ES.
    + rewrite IHm, map_app. cbn [map]. rewrite map_seq_snoc.
      rewrite length_map, length_seq. cbn [Nat.add]. by rewrite EC.
Qed.

End forward_loop.

(** ** [lstm_forward] as a chain of cell steps from a zero cell state *)

Section forward_chain.
Context (N T D H : nat) (x : tensor3) (h0 Wx Wh : matrix) (b : vec).
Context (HN : (0 < N)%nat) (HD : (0 < D)%nat) (HH : (0 < H)%nat).
Context (Hx : has_shape3 N T D x = true).
Context (Hh0 : has_shape N H h0 = true).
Context (HWx : has_shape D (4 * H) Wx = true).
Context (HWh : has_shape H (4 * H) Wh = true).
Context (Hb : has_len (4 * H) b = true).

Local Abbreviation chain := (lstm_chain x h0 (zeros N H) Wx Wh b).
Local Abbreviation ccache := (chain_cache x h0 (zeros N H) Wx Wh b).

Lemma lstm_forward_chain :
  lstm_forward x h0 Wx Wh b
  = (stack_t N (map (fun t => (chain (S t)).1) (seq 0 T)),
     map_seq 0 (map ccache (seq 0 T))).
Proof using All.
  destruct (shape3_dims N T D x Hx HN) as [HlN HlT].
  unfold lstm_forward, shape3, nrows. rewrite HlN, HlT.
  rewrite (shape_length _ _ _ HWh), (zeros_like_shape N H h0 Hh0).
  destruct (forward_loop_inv N T D H x h0 (zeros N H) Wx Wh b HN HD HH Hx Hh0
              (shape_zeros N H) HWx HWh Hb T (Nat.le_refl T))
    as (Il & Ir & Is & Ic & Im).
  destruct (foldl (lstm_forward_body x Wx Wh b)
              (set_slice_t (zeros3 N (T + 1) H) 0 h0, zeros N H, ∅) (seq 0 T))
    as [[h pc] sc] eqn:Est.
  cbn [fst snd] in Il, Ir, Is, Ic, Im. f_equal; [|exact Im].
  apply (tensor_ext_slices N T).
  - unfold drop_t. by rewrite length_map.
  - unfold stack_t. by rewrite length_map, length_seq.
  - intros n Hn. unfold drop_t. rewrite (nth_map_lt _ _ _ []) by lia.
    rewrite length_drop, Ir by done. lia.
  - intros n Hn. unfold stack_t.
    rewrite (nth_map_lt _ _ _ 0%nat) by (by rewrite length_seq).
    by rewrite !length_map, length_seq.
  - intros t Ht. rewrite slice_drop_t, Is by lia.
    rewrite slice_stack_t.
    + rewrite (nth_map_lt _ _ _ 0%nat) by (by rewrite length_seq).
      by rewrite seq_nth.
    + by rewrite length_map, length_seq.
    + rewrite (nth_map_lt _ _ _ 0%nat) by (by rewrite length_seq).
      rewrite seq_nth by done. cbn [Nat.add].
      destruct (chain_shape N T D H x h0 (zeros N H) Wx Wh b HN HD HH Hx Hh0
                  (shape_zeros N H) HWx HWh Hb (S t)) as [HSh _]; [lia|].
      by apply shape_length in HSh.
Qed.

End forward_chain.

(** ** The results of [lstm_forward] *)

Lemma size_map_seq_0 {A : Type} (l : list A) :
  size (map_seq 0 l : gmap nat A) = length l.
Proof.
  induction l as [|a l IH] using rev_ind; [apply map_size_empty|].
  rewrite map_seq_snoc, map_size_insert_None by apply map_seq_snoc_disjoint.
  rewrite IH, length_app. simpl. lia.
Qed.

Lemma shape3_stack_t N T K (Ms : list matrix) :
  length Ms = T -> (forall t, (t < T)%nat -> has_shape N K (nth t Ms []) = true) ->
  has_shape3 N T K (stack_t N Ms) = true.
Proof.
  intros HT HMs. apply shape3_intro.
  - unfold stack_t. by rewrite length_map, length_seq.
  - intros n Hn. unfold stack_t.
    rewrite (nth_map_lt _ _ _ 0%nat) by (by rewrite length_seq).
    rewrite seq_nth by done. cbn [Nat.add]. apply shape_intro.
    + by rewrite length_map.
    + intros t Ht. rewrite (nth_map_lt _ _ _ []) by lia.
      apply (shape_row N); [by apply HMs|done].
Qed.

Section forward_results.
Context (N T D H : nat) (x : tensor3) (h0 Wx Wh : matrix) (b : vec).
Context (HN : (0 < N)%nat) (HD : (0 < D)%nat) (HH : (0 < H)%nat).
Context (Hx : has_shape3 N T D x = true).
Context (Hh0 : has_shape N H h0 = true).
Context (HWx : has_shape D (4 * H) Wx = true).
Context (HWh : has_shape H (4 * H) Wh = true).
Context (Hb : has_len (4 * H) b = true).

Local Abbreviation chain := (lstm_chain x h0 (zeros N H) Wx Wh b).
Local Abbreviation ccache := (chain_cache x h0 (zeros N H) Wx Wh b).
Local Abbreviation r := (lstm_forward x h0 Wx Wh b).

Lemma forward_h_shape : has_shape3 N T H r.1 = true.
Proof using All.
  rewrite (lstm_forward_chain N T D H) by done. cbn [fst].
  apply shape3_stack_t; [by rewrite length_map, length_seq|].
  intros t Ht. rewrite (nth_map_lt _ _ _ 0%nat) by (by rewrite length_seq).
  rewrite seq_nth by done. cbn [Nat.add].
  by destruct (chain_shape N T D H x h0 (zeros N H) Wx Wh b HN HD HH Hx Hh0
                 (shape_zeros N H) HWx HWh Hb (S t)) as [HSh _]; [lia|].
Qed.

Lemma forward_h_slice (t : nat) : (t < T)%nat -> slice_t r.1 t = (chain (S t)).1.
Proof using All.
  intros Ht. rewrite (lstm_forward_chain N T D H) by done. cbn [fst].
  rewrite slice_stack_t.
  - rewrite (nth_map_lt _ _ _ 0%nat) by (by rewrite length_seq).
    by rewrite seq_nth.
  - by rewrite length_map, length_seq.
  - rewrite (nth_map_lt _ _ _ 0%nat) by (by rewrite length_seq).
    rewrite seq_nth by done. cbn [Nat.add].
    destruct (chain_shape N T D H x h0 (zeros N H) Wx Wh b HN HD HH Hx Hh0
                (shape_zeros N H) HWx HWh Hb (S t)) as [HSh _]; [lia|].
    by apply shape_length in HSh.
Qed.

Lemma forward_caches_lookup (t : nat) :
  r.2 !! t = if decide (t < T)%nat then Some (ccache t) else None.
Proof using All.
  rewrite (lstm_forward_chain N T D H) by done. cbn [snd].
  rewrite lookup_map_seq_0, list_lookup_fmap.
  destruct (decide (t < T)%nat) as [Ht|Ht].
  - rewrite lookup_seq_lt by done. reflexivity.
  - rewrite lookup_seq_ge by lia. reflexivity.
Qed.

Lemma forward_caches_size : size r.2 = T.
Proof using All.
  rewrite (lstm_forward_chain N T D H) by done. cbn [snd].
  by rewrite size_map_seq_0, length_map, length_seq.
Qed.

Lemma chain_cache_states (t : nat) :
  (t < T)%nat ->
  c_x (ccache t) = slice_t x t /\ c_prev_h (ccache t) = (chain t).1
  /\ c_prev_c (ccache t) = (chain t).2 /\ c_next_h (ccache t) = (chain (S t)).1
  /\ c_next_c (ccache t) = (chain (S t)).2.
Proof using All.
  intros Ht.
  destruct (chain_shape N T D H x h0 (zeros N H) Wx Wh b HN HD HH Hx Hh0
              (shape_zeros N H) HWx HWh Hb t) as [Hch Hcc]; [lia|].
  destruct (step_forward_cache_inputs N D H (slice_t x t) (chain t).1 (chain t).2
              Wx Wh b HN HD HH (shape_slice_t N T D x t Hx Ht) Hch Hcc HWx HWh Hb)
    as (E1 & E2 & E3 & _ & _ & _ & E7 & E8).
  rewrite chain_cache_eq, chain_S. cbn [fst snd]. by rewrite E1, E2, E3, E7, E8.
Qed.

End forward_results.

(** C5.  [lstm_forward] starts its cell state at the zero [N×H] matrix
    whatever [h0] is: [np.zeros_like(h0)] is that matrix for every [h0] of the
    shape, the result is the chain of cell steps started explicitly from
    [c0 = 0], and the cell state the first step consumes is zero. *)
Theorem lstm_forward_zero_initial_cell
  (N T D H : nat) (x : tensor3) (h0 h0' Wx Wh : matrix) (b : vec) :
  (0 < N)%nat -> (0 < D)%nat -> (0 < H)%nat ->
  has_shape3 N T D x = true -> has_shape N H h0 = true -> has_shape N H h0' = true ->
  has_shape D (4 * H) Wx = true -> has_shape H (4 * H) Wh = true ->
  has_len (4 * H) b = true ->
  zeros_like h0 = zeros N H
  /\ zeros_like h0' = zeros_like h0
  /\ (forall n j, mget (zeros_like h0) n j = 0)
  /\ lstm_forward x h0 Wx Wh b = lstm_forward_from (zeros N H) x h0 Wx Wh b
  /\ lstm_forward x h0' Wx Wh b = lstm_forward_from (zeros N H) x h0' Wx Wh b
  /\ (forall c, (lstm_forward x h0 Wx Wh b).2 !! 0%nat = Some c ->
        c_prev_c c = zeros N H).
Proof.
  intros HN HD HH Hx Hh0 Hh0' HWx HWh Hb.
  destruct (shape3_dims N T D x Hx HN) as [HlN HlT].
  assert (Efrom : forall g, has_shape N H g = true ->
            lstm_forward x g Wx Wh b = lstm_forward_from (zeros N H) x g Wx Wh b).
  { intros g Hg. rewrite (lstm_forward_chain N T D H) by done.
    unfold lstm_forward_from, shape3. by rewrite HlN, HlT. }
  split; [by apply zeros_like_shape|].
  split; [by rewrite !(zeros_like_shape N H)|].
  split; [intros n j; rewrite (zeros_like_shape N H) by done; apply mget_zeros|].
  split; [by apply Efrom|]. split; [by apply Efrom|].
  intros c Hc. rewrite (forward_caches_lookup N T D H) in Hc by done.
  destruct (decide (0 < T)%nat) as [HT|]; [|done]. injection Hc as <-.
  by destruct (chain_cache_states N T D H x h0 Wx Wh b HN HD HH Hx Hh0 HWx HWh Hb
                 0%nat HT) as (_ & _ & -> & _).
Qed.

Lemma lstm_forward_zero_initial_cell_witness :
  lstm_forward ex_x ex_h0 ex_Wx ex_Wh ex_b
  = lstm_forward_from (zeros 1 1) ex_x ex_h0 ex_Wx ex_Wh ex_b.
Proof.
  apply (lstm_forward_zero_initial_cell 1 1 1 1 ex_x ex_h0 [[1]] ex_Wx ex_Wh ex_b);
    (lia || reflexivity).
Defined.

(** C6, as amended.  For [x] of shape [(N,T,D)], [lstm_forward] returns [h]
    of shape [(N,T,H)] whose time slice [t] is the hidden state produced by
    step [t] of the chain from [(h0, 0)], so [h0] is no slice of it, and a
    dictionary of exactly [T] caches with keys [0 .. T-1].  The cell state is
    no part of [h]; the cache of step [t] holds the cell state the step
    consumed and the cell state it produced. *)
Theorem lstm_forward_results
  (N T D H : nat) (x : tensor3) (h0 Wx Wh : matrix) (b : vec) :
  (0 < N)%nat -> (0 < D)%nat -> (0 < H)%nat ->
  has_shape3 N T D x = true -> has_shape N H h0 = true ->
  has_shape D (4 * H) Wx = true -> has_shape H (4 * H) Wh = true ->
  has_len (4 * H) b = true ->
  let r := lstm_forward x h0 Wx Wh b in
  let chain := lstm_chain x h0 (zeros N H) Wx Wh b in
  has_shape3 N T H r.1 = true
  /\ (forall t, (t < T)%nat -> slice_t r.1 t = (chain (S t)).1)
  /\ size r.2 = T
  /\ (forall t, (T <= t)%nat -> r.2 !! t = None)
  /\ (forall t, (t < T)%nat ->
        exists c, r.2 !! t = Some c
                  /\ c = (lstm_step_forward (slice_t x t) (chain t).1 (chain t).2
                                            Wx Wh b).2
                  /\ c_prev_h c = (chain t).1 /\ c_next_h c = (chain (S t)).1
                  /\ c_prev_c c = (chain t).2 /\ c_next_c c = (chain (S t)).2).
Proof.
  intros HN HD HH Hx Hh0 HWx HWh Hb. cbv zeta.
  split; [by apply (forward_h_shape N T D H)|].
  split; [intros t Ht; by apply (forward_h_slice N T D H)|].
  split; [by apply (forward_caches_size N T D H)|].
  split.
  - intros t Ht. rewrite (forward_caches_lookup N T D H) by done.
    destruct (decide (t < T)%nat); [lia|done].
  - intros t Ht. exists (chain_cache x h0 (zeros N H) Wx Wh b t).
    rewrite (forward_caches_lookup N T D H) by done.
    destruct (decide (t < T)%nat); [|lia].
    destruct (chain_cache_states N T D H x h0 Wx Wh b HN HD HH Hx Hh0 HWx HWh Hb
                t Ht) as (_ & E2 & E3 & E4 & E5).
    split; [done|]. split; [apply chain_cache_eq|]. done.
Qed.

Lemma lstm_forward_results_witness :
  has_shape3 1 1 1 (lstm_forward ex_x ex_h0 ex_Wx ex_Wh ex_b).1 = true
  /\ size (lstm_forward ex_x ex_h0 ex_Wx ex_Wh ex_b).2 = 1%nat.
Proof.
  pose proof (lstm_forward_results 1 1 1 1 ex_x ex_h0 ex_Wx ex_Wh ex_b
                ltac:(lia) ltac:(lia) ltac:(lia) eq_refl eq_refl eq_refl eq_refl eq_refl)
    as (Hs & _ & Hn & _).
  exact (conj Hs Hn).
Defined.

Lemma logistic_0 : logistic 0 = / 2.
Proof. unfold logistic. rewrite Ropp_0, exp_0. lra. Qed.

(** C6, as first stated, fails: on the concrete run the returned dictionary
    holds, under key 0, a cache whose [next_c] is the cell state produced by
    step 0, namely [[tanh 1 / 2]]. *)
Lemma lstm_forward_returns_cell_state :
  exists c, (lstm_forward ex_x ex_h0 ex_Wx ex_Wh ex_b).2 !! 0%nat = Some c
            /\ c_next_c c = (lstm_chain ex_x ex_h0 (zeros 1 1) ex_Wx ex_Wh ex_b 1).2
            /\ c_next_c c = [[/ 2 * tanh 1]].
Proof.
  assert (HN : (0 < 1)%nat) by lia.
  exists (chain_cache ex_x ex_h0 (zeros 1 1) ex_Wx ex_Wh ex_b 0).
  rewrite (forward_caches_lookup 1 1 1 1) by (lia || reflexivity).
  destruct (chain_cache_states 1 1 1 1 ex_x ex_h0 ex_Wx ex_Wh ex_b
              HN HN HN eq_refl eq_refl eq_refl eq_refl eq_refl 0%nat HN)
    as (_ & _ & _ & _ & E5).
  split; [done|]. split; [done|]. rewrite E5.
  assert (Hs : has_shape 1 1
                 (lstm_chain ex_x ex_h0 (zeros 1 1) ex_Wx ex_Wh ex_b 1).2 = true).
  { by destruct (chain_shape 1 1 1 1 ex_x ex_h0 (zeros 1 1) ex_Wx ex_Wh ex_b
                   HN HN HN eq_refl eq_refl eq_refl eq_refl eq_refl eq_refl 1%nat)
      as [_ Hc]; [lia|]. }
  apply (matrix_ext 1 1); [done|reflexivity|].
  intros n k Hn Hk. replace n with 0%nat by lia. replace k with 0%nat by lia.
  rewrite chain_S. cbn [fst snd lstm_chain].
  destruct (next_entries 1 1 1 (slice_t ex_x 0) ex_h0 (zeros 1 1) ex_Wx ex_Wh ex_b
              HN HN HN eq_refl eq_refl eq_refl eq_refl eq_refl eq_refl
              0%nat 0%nat HN HN) as [E _].
  rewrite E. unfold cell_c, act_entry, mget, vget. cbn.
  replace (0 + 0 * 0 + (0 + 0 * 0) + 0) with 0 by lra.
  replace (0 + 0 * 0 + (0 + 0 * 0) + 1) with 1 by lra.
  rewrite logistic_0. lra.
Qed.

(** ** In-place accumulation into a time slice *)

Lemma madd_zeros_l N K (M : matrix) : has_shape N K M = true -> madd (zeros N K) M = M.
Proof.
  intros HM. apply (matrix_ext N K); [apply shape_madd; [apply shape_zeros|done]|done|].
  intros n k Hn Hk. rewrite (mget_madd N K); [|apply shape_zeros|done..].
  rewrite mget_zeros. lra.
Qed.

Lemma length_add_slice_t (X : tensor3) t (M : matrix) :
  length M = length X -> length (add_slice_t X t M) = length X.
Proof. intros HM. unfold add_slice_t. rewrite length_zip_with. lia. Qed.

Lemma nth_add_slice_t (X : tensor3) t (M : matrix) n :
  length M = length X -> (n < length X)%nat ->
  nth n (add_slice_t X t M) []
  = <[t := vadd (nth t (nth n X []) []) (nth n M [])]> (nth n X []).
Proof.
  intros HM Hn. unfold add_slice_t.
  rewrite (nth_zip_with_lt _ _ _ _ [] []) by lia. reflexivity.
Qed.

Lemma slice_add_slice_eq (X : tensor3) t (M : matrix) :
  length M = length X ->
  (forall n, (n < length X)%nat -> (t < length (nth n X []))%nat) ->
  slice_t (add_slice_t X t M) t = madd (slice_t X t) M.
Proof.
  intros HM Ht. apply (nth_ext _ _ [] []).
  - unfold slice_t, madd. rewrite length_map, length_add_slice_t by done.
    rewrite length_zip_with, length_map. lia.
  - intros n Hn. unfold slice_t in *. rewrite length_map, length_add_slice_t in Hn by done.
    rewrite (nth_map_lt _ _ _ []) by (by rewrite length_add_slice_t).
    rewrite nth_add_slice_t by done. rewrite nth_insert_eq by (by apply Ht).
    unfold madd. rewrite (nth_zip_with_lt _ _ _ _ [] []) by (rewrite ?length_map; lia).
    by rewrite (nth_map_lt _ _ _ []).
Qed.

Lemma slice_add_slice_ne (X : tensor3) t t' (M : matrix) :
  length M = length X -> t <> t' ->
  slice_t (add_slice_t X t M) t' = slice_t X t'.
Proof.
  intros HM Ht. apply (nth_ext _ _ [] []).
  - unfold slice_t. by rewrite !length_map, length_add_slice_t.
  - intros n Hn. unfold slice_t in *. rewrite length_map, length_add_slice_t in Hn by done.
    rewrite !(nth_map_lt _ _ _ []) by (by rewrite ?length_add_slice_t).
    rewrite nth_add_slice_t by done. by apply nth_insert_ne.
Qed.

Lemma shape3_add_slice_t N T K (X : tensor3) t (M : matrix) :
  has_shape3 N T K X = true -> has_shape N K M = true ->
  has_shape3 N T K (add_slice_t X t M) = true.
Proof.
  intros HX HM. pose proof (shape3_length _ _ _ _ HX) as HlX.
  pose proof (shape_length _ _ _ HM) as HlM.
  apply shape3_intro; [rewrite length_add_slice_t; lia|].
  intros n Hn. rewrite nth_add_slice_t by lia.
  pose proof (shape3_row N T K X n HX Hn) as Hr.
  apply shape_intro; [rewrite length_insert; by apply shape_length in Hr|].
  intros s Hs. destruct (decide (t = s)) as [->|Hne].
  - rewrite nth_insert_eq by (by rewrite (shape_length _ _ _ Hr)).
    unfold vadd. rewrite length_zip_with.
    rewrite (shape_row _ _ _ _ Hr Hs), (shape_row _ _ _ _ HM Hn). lia.
  - rewrite nth_insert_ne by done. by apply (shape_row T).
Qed.

Lemma shape3_zeros3 N T K : has_shape3 N T K (zeros3 N T K) = true.
Proof.
  apply shape3_intro; [apply length_replicate|].
  intros n Hn. unfold zeros3. rewrite nth_replicate_lt by done. apply shape_zeros.
Qed.

Lemma slice_zeros3 N T K t : (t < T)%nat -> slice_t (zeros3 N T K) t = zeros N K.
Proof.
  intros Ht. unfold slice_t, zeros3, zeros.
  induction N as [|N IH]; [reflexivity|]. cbn [replicate map]. rewrite IH.
  by rewrite nth_replicate_lt.
Qed.

Lemma shape_vadd K (u v : vec) :
  has_len K u = true -> has_len K v = true -> has_len K (vadd u v) = true.
Proof.
  rewrite !has_len_spec. intros Hu Hv. unfold vadd. rewrite length_zip_with. lia.
Qed.

Lemma vget_vadd K (u v : vec) k :
  has_len K u = true -> has_len K v = true -> (k < K)%nat ->
  vget (vadd u v) k = vget u k + vget v k.
Proof.
  rewrite !has_len_spec. intros Hu Hv Hk. unfold vget, vadd.
  apply nth_zip_with_lt; lia.
Qed.

Lemma vget_zeros1 K k : vget (zeros1 K) k = 0.
Proof.
  unfold vget, zeros1. destruct (decide (k < K)%nat); [by rewrite nth_replicate_lt|].
  apply nth_overflow. rewrite length_replicate. lia.
Qed.

(** ** The loop of [lstm_backward] *)

Section backward_loop.
Context (N T D H : nat) (dh : tensor3) (cache : gmap nat step_cache).
Context (cs : nat -> step_cache).
Context (HN : (0 < N)%nat) (HD : (0 < D)%nat) (HH : (0 < H)%nat).
Context (Hdh : has_shape3 N T H dh = true).
Context (Hcache : forall t, (t < T)%nat -> cache !! t = Some (cs t)).
Context (Hshape : forall t, (t < T)%nat -> cache_has_shape N D H (cs t) = true).

Local Abbreviation carry := (bptt_carry dh cs N H T).
Local Abbreviation step := (bptt_step dh cs N H T).

Lemma bptt_step_eq (k : nat) :
  step k = lstm_step_backward (madd (slice_t dh (T - 1 - k)) (carry k).1) (carry k).2
                              (cs (T - 1 - k)).
Proof using Type. unfold bptt_step. by destruct (carry k). Qed.

Lemma bptt_carry_S (k : nat) : carry (S k) = ((step k).1.1.1.1.2, (step k).1.1.1.2).
Proof using Type.
  rewrite bptt_step_eq. cbn [bptt_carry]. destruct (carry k) as [ch cc]. cbn [fst snd].
  by destruct (lstm_step_backward _ _ _) as [[[[[? ?] ?] ?] ?] ?].
Qed.

Lemma bptt_carry_shape (k : nat) :
  (k <= T)%nat ->
  has_shape N H (carry k).1 = true /\ has_shape N H (carry k).2 = true.
Proof using All.
  induction k as [|k IH]; intros Hk.
  - cbn [bptt_carry fst snd]. split; apply shape_zeros.
  - destruct IH as [IHh IHc]; [lia|]. rewrite bptt_carry_S, bptt_step_eq. cbn [fst snd].
    assert (Hs : has_shape N H (madd (slice_t dh (T - 1 - k)) (carry k).1) = true).
    { apply shape_madd; [|done]. apply (shape_slice_t N T); [done|lia]. }
    destruct (step_backward_shapes N D H _ _ (cs (T - 1 - k)) HN HD HH Hs IHc)
      as (_ & S2 & S3 & _); [apply Hshape; lia|done].
Qed.

Lemma bptt_step_shapes (k : nat) :
  (k < T)%nat ->
  has_shape N D (step k).1.1.1.1.1 = true /\ has_shape N H (step k).1.1.1.1.2 = true
  /\ has_shape N H (step k).1.1.1.2 = true /\ has_shape D (4 * H) (step k).1.1.2 = true
  /\ has_shape H (4 * H) (step k).1.2 = true /\ has_len (4 * H) (step k).2 = true.
Proof using All.
  intros Hk. destruct (bptt_carry_shape k) as [IHh IHc]; [lia|]. rewrite bptt_step_eq.
  apply (step_backward_shapes N D H); try done.
  - apply shape_madd; [|done]. apply (shape_slice_t N T); [done|lia].
  - apply Hshape. lia.
Qed.

Local Abbreviation inv := (bptt_inv dh cs N T D H).

Lemma bptt_inv_init :
  inv 0%nat (zeros3 N T D, zeros N H, zeros N H, zeros D (4 * H), zeros H (4 * H),
              zeros1 (4 * H)).
Proof using All.
  unfold bptt_inv. cbn [bptt_carry bigsum]. repeat split.
  - apply shape3_zeros3.
  - intros t Ht. lia.
  - intros t Ht. apply slice_zeros3. lia.
  - apply shape_zeros.
  - intros. apply mget_zeros.
  - apply shape_zeros.
  - intros. apply mget_zeros.
  - apply has_len_spec, length_replicate.
  - intros. apply vget_zeros1.
Qed.

Lemma bptt_inv_body (k : nat) st :
  (k < T)%nat -> inv k st ->
  exists st', lstm_backward_body dh cache st (T - 1 - k) = Ok st' /\ inv (S k) st'.
Proof using All.
  intros Hk. destruct st as [[[[[dx dprev] dprev_c] dWx] dWh] db].
  intros (Ec & Sdx & Hdx & Hdx0 & SWx & HWx & SWh & HWh & Sb & Hb).
  destruct (bptt_step_shapes k Hk) as (S1 & S2 & S3 & S4 & S5 & S6).
  pose proof (bptt_carry_S k) as EcS. pose proof (bptt_step_eq k) as Es.
  rewrite <- Ec in Es. cbn [fst snd] in Es.
  unfold lstm_backward_body, dict_get. rewrite Hcache by lia. cbn [rbind].
  rewrite <- Es.
  destruct (step k) as [[[[[dx_t dprev'] dprev_c'] dWx_t] dWh_t] db_t] eqn:Estep.
  cbn [fst snd] in S1, S2, S3, S4, S5, S6, EcS.
  eexists. split; [reflexivity|]. unfold bptt_inv.
  pose proof (shape3_length _ _ _ _ Sdx) as Hldx.
  pose proof (shape_length _ _ _ S1) as Hl1.
  assert (Hrows : forall n, (n < length dx)%nat ->
            (T - 1 - k < length (nth n dx []))%nat).
  { intros n Hn. rewrite Hldx in Hn.
    pose proof (shape3_row N T D dx n Sdx Hn) as Hr. apply shape_length in Hr. lia. }
  repeat split.
  - by rewrite EcS.
  - by apply shape3_add_slice_t.
  - intros t Ht. destruct (decide (t = T - 1 - k)%nat) as [->|Hne].
    + rewrite slice_add_slice_eq by (done || lia).
      rewrite Hdx0 by lia. rewrite madd_zeros_l by done.
      replace (T - 1 - (T - 1 - k))%nat with k by lia. by rewrite Estep.
    + rewrite slice_add_slice_ne by (lia || done). apply Hdx. lia.
  - intros t Ht. rewrite slice_add_slice_ne by lia. apply Hdx0. lia.
  - by apply shape_madd.
  - intros d c Hd Hc. rewrite (mget_madd D (4 * H)) by done.
    cbn [bigsum]. rewrite HWx by done. by rewrite Estep.
  - by apply shape_madd.
  - intros j c Hj Hc. rewrite (mget_madd H (4 * H)) by done.
    cbn [bigsum]. rewrite HWh by done. by rewrite Estep.
  - by apply shape_vadd.
  - intros c Hc. rewrite (vget_vadd (4 * H)) by done.
    cbn [bigsum]. rewrite Hb by done. by rewrite Estep.
Qed.

Lemma bptt_loop (m : nat) st :
  (m <= T)%nat -> inv (T - m)%nat st ->
  exists st', for_each (lstm_backward_body dh cache) st (rev (seq 0 m)) = Ok st'
              /\ inv T st'.
Proof using All.
  revert st. induction m as [|m IH]; intros st Hm Hinv.
  - exists st. split; [reflexivity|]. by rewrite Nat.sub_0_r in Hinv.
  - rewrite seq_S, rev_app_distr. cbn [rev app for_each Nat.add].
    destruct (bptt_inv_body (T - S m) st) as (st1 & E1 & Hinv1); [lia|done|].
    replace (T - 1 - (T - S m))%nat with m in E1 by lia. rewrite E1. cbn [rbind].
    apply IH; [lia|]. by replace (T - m)%nat with (S (T - S m)) by lia.
Qed.

End backward_loop.

(** ** The results of [lstm_backward] *)

Lemma bigsum_rev (T : nat) (f : nat -> R) :
  bigsum T (fun t => f (T - 1 - t)%nat) = bigsum T f.
Proof.
  induction T as [|T IH]; [reflexivity|].
  rewrite bigsum_shift. cbn [bigsum].
  rewrite (bigsum_ext T (fun k => f (S T - 1 - S k)%nat) (fun t => f (T - 1 - t)%nat))
    by (intros; f_equal; lia).
  rewrite IH. replace (S T - 1 - 0)%nat with T by lia. lra.
Qed.

Section backward_results.
Context (N T D H : nat) (dh : tensor3) (cache : gmap nat step_cache).
Context (cs : nat -> step_cache).
Context (HN : (0 < N)%nat) (HT : (0 < T)%nat) (HD : (0 < D)%nat) (HH : (0 < H)%nat).
Context (Hdh : has_shape3 N T H dh = true).
Context (Hcache : forall t, (t < T)%nat -> cache !! t = Some (cs t)).
Context (Hshape : forall t, (t < T)%nat -> cache_has_shape N D H (cs t) = true).

Local Abbreviation carry := (bptt_carry dh cs N H T).
Local Abbreviation at_t := (bptt_at dh cs N H T).

Lemma lstm_backward_run :
  exists dx dh0 dWx dWh db,
    lstm_backward dh cache = Ok (dx, dh0, dWx, dWh, db)
    /\ has_shape3 N T D dx = true
    /\ (forall t, (t < T)%nat -> slice_t dx t = (at_t t).1.1.1.1.1)
    /\ dh0 = (carry T).1
    /\ has_shape N H dh0 = true
    /\ has_shape D (4 * H) dWx = true
    /\ (forall d k, (d < D)%nat -> (k < 4 * H)%nat ->
          mget dWx d k = bigsum T (fun t => mget (at_t t).1.1.2 d k))
    /\ has_shape H (4 * H) dWh = true
    /\ (forall j k, (j < H)%nat -> (k < 4 * H)%nat ->
          mget dWh j k = bigsum T (fun t => mget (at_t t).1.2 j k))
    /\ has_len (4 * H) db = true
    /\ (forall k, (k < 4 * H)%nat ->
          vget db k = bigsum T (fun t => vget (at_t t).2 k)).
Proof using All.
  destruct (shape3_dims N T H dh Hdh HN) as [HlN HlT].
  assert (HlH : length (hd [] (hd [] dh)) = H).
  { pose proof (shape3_row N T H dh 0 Hdh HN) as Hr.
    pose proof (shape_row T H _ 0 Hr HT) as Hr0.
    destruct dh as [|s dh']; [simpl in HlN; lia|]. cbn [hd nth] in *.
    destruct s as [|v s']; [simpl in HlT; lia|]. exact Hr0. }
  pose proof (Hshape 0%nat HT) as Hs0. apply cache_has_shape_spec in Hs0 as [Hx0 _].
  unfold lstm_backward, shape3, dict_get. rewrite HlN, HlT, HlH.
  rewrite (Hcache 0%nat HT). cbn [rbind]. unfold shape2.
  rewrite (shape_ncols _ _ _ Hx0 HN).
  destruct (bptt_loop N T D H dh cache cs HN HD HH Hdh Hcache Hshape T
              (zeros3 N T D, zeros N H, zeros N H, zeros D (4 * H), zeros H (4 * H),
               zeros1 (4 * H))) as (st & Est & Hinv); [lia| |].
  { rewrite Nat.sub_diag.
    exact (bptt_inv_init N T D H dh cache cs HN HD HH Hdh Hcache Hshape). }
  rewrite Est. cbn [rbind]. destruct st as [[[[[dx dprev] dprev_c] dWx] dWh] db].
  destruct Hinv as (Ec & Sdx & Hdx & Hdx0 & SWx & HWx & SWh & HWh & Sb & Hb).
  destruct (bptt_carry_shape N T D H dh cache cs HN HD HH Hdh Hcache Hshape T
              (Nat.le_refl T))
    as [Hch _].
  rewrite <- Ec in Hch. cbn [fst] in Hch.
  exists dx, (madd (zeros N H) dprev), dWx, dWh, db.
  rewrite madd_zeros_l by done.
  split; [reflexivity|]. split; [done|]. split.
  { intros t Ht. unfold bptt_at. apply Hdx. lia. }
  split; [by rewrite <- Ec|]. split; [done|]. split; [done|]. split.
  { intros d k Hd Hk. rewrite HWx by done. unfold bptt_at.
    by rewrite (bigsum_rev T (fun i => mget (bptt_step dh cs N H T i).1.1.2 d k)). }
  split; [done|]. split.
  { intros j k Hj Hk. rewrite HWh by done. unfold bptt_at.
    by rewrite (bigsum_rev T (fun i => mget (bptt_step dh cs N H T i).1.2 j k)). }
  split; [done|].
  intros k Hk. rewrite Hb by done. unfold bptt_at.
  by rewrite (bigsum_rev T (fun i => vget (bptt_step dh cs N H T i).2 k)).
Qed.

Lemma bptt_at_eq (t : nat) :
  (t < T)%nat ->
  at_t t = lstm_step_backward (madd (slice_t dh t) (carry (T - 1 - t)).1)
                              (carry (T - 1 - t)).2 (cs t)
  /\ carry (T - t) = ((at_t t).1.1.1.1.2, (at_t t).1.1.1.2).
Proof using All.
  intros Ht. unfold bptt_at. split.
  - rewrite bptt_step_eq. by replace (T - 1 - (T - 1 - t))%nat with t by lia.
  - replace (T - t)%nat with (S (T - 1 - t)) by lia. apply bptt_carry_S.
Qed.

End backward_results.

(** C7.  For [dh] of shape [(N,T,H)] and a dictionary holding a cache of the
    right shapes under every key [0 .. T-1], [lstm_backward] returns.  Timestep
    [t] is handled by [lstm_step_backward] applied to [dh[:, t, :] +
    dh_carry], the carried cell gradient and [cache[t]], the carries being
    zero at [T-1] and otherwise the [dprev_h] and [dprev_c] of timestep
    [t+1]; [dx[:, t, :]] is the [dx] of timestep [t]; [dWx], [dWh] and [db]
    are the sums over all [T] timesteps; [dh0] is the hidden-state carry left
    once timestep 0 is done. *)
Theorem lstm_backward_spec
  (N T D H : nat) (dh : tensor3) (cache : gmap nat step_cache) (cs : nat -> step_cache) :
  (0 < N)%nat -> (0 < T)%nat -> (0 < D)%nat -> (0 < H)%nat ->
  has_shape3 N T H dh = true ->
  (forall t, (t < T)%nat -> cache !! t = Some (cs t)) ->
  (forall t, (t < T)%nat -> cache_has_shape N D H (cs t) = true) ->
  let carry := bptt_carry dh cs N H T in
  let at_t := bptt_at dh cs N H T in
  carry 0%nat = (zeros N H, zeros N H)
  /\ (forall t, (t < T)%nat ->
        at_t t = lstm_step_backward (madd (slice_t dh t) (carry (T - 1 - t)%nat).1)
                                    (carry (T - 1 - t)%nat).2 (cs t)
        /\ carry (T - t)%nat = ((at_t t).1.1.1.1.2, (at_t t).1.1.1.2))
  /\ exists dx dh0 dWx dWh db,
       lstm_backward dh cache = Ok (dx, dh0, dWx, dWh, db)
       /\ has_shape3 N T D dx = true
       /\ (forall t, (t < T)%nat -> slice_t dx t = (at_t t).1.1.1.1.1)
       /\ dh0 = (carry T).1
       /\ has_shape N H dh0 = true
       /\ has_shape D (4 * H) dWx = true
       /\ (forall d k, (d < D)%nat -> (k < 4 * H)%nat ->
             mget dWx d k = bigsum T (fun t => mget (at_t t).1.1.2 d k))
       /\ has_shape H (4 * H) dWh = true
       /\ (forall j k, (j < H)%nat -> (k < 4 * H)%nat ->
             mget dWh j k = bigsum T (fun t => mget (at_t t).1.2 j k))
       /\ has_len (4 * H) db = true
       /\ (forall k, (k < 4 * H)%nat ->
             vget db k = bigsum T (fun t => vget (at_t t).2 k)).
Proof.
  intros HN HT HD HH Hdh Hcache Hshape. cbv zeta.
  split; [reflexivity|]. split; [intros t Ht; by apply (bptt_at_eq N T D H dh cache cs)|].
  by apply (lstm_backward_run N T D H).
Qed.

(** ** [lstm_backward] on the caches of [lstm_forward] *)

Lemma lstm_backward_after_forward
  (N T D H : nat) (x : tensor3) (h0 Wx Wh : matrix) (b : vec) (dh : tensor3) :
  (0 < N)%nat -> (0 < T)%nat -> (0 < D)%nat -> (0 < H)%nat ->
  has_shape3 N T D x = true -> has_shape N H h0 = true ->
  has_shape D (4 * H) Wx = true -> has_shape H (4 * H) Wh = true ->
  has_len (4 * H) b = true -> has_shape3 N T H dh = true ->
  exists c0, dict_get (lstm_forward x h0 Wx Wh b).2 0 = Ok c0
             /\ shape2 (c_x c0) = (N, D)
             /\ exists r, lstm_backward dh (lstm_forward x h0 Wx Wh b).2 = Ok r.
Proof.
  intros HN HT HD HH Hx Hh0 HWx HWh Hb Hdh.
  set (cs := chain_cache x h0 (zeros N H) Wx Wh b).
  assert (Hcache : forall t, (t < T)%nat ->
            (lstm_forward x h0 Wx Wh b).2 !! t = Some (cs t)).
  { intros t Ht. rewrite (forward_caches_lookup N T D H) by done.
    destruct (decide (t < T)%nat); [done|lia]. }
  assert (Hshape : forall t, (t < T)%nat -> cache_has_shape N D H (cs t) = true).
  { intros t Ht. apply (chain_cache_shape N T D H); try done. apply shape_zeros. }
  exists (cs 0%nat). unfold dict_get. rewrite (Hcache 0%nat HT).
  split; [done|]. split.
  - pose proof (Hshape 0%nat HT) as Hs0. apply cache_has_shape_spec in Hs0 as [Hx0 _].
    unfold shape2, nrows.
    by rewrite (shape_ncols _ _ _ Hx0 HN), (shape_length _ _ _ Hx0).
  - destruct (lstm_backward_run N T D H dh _ cs HN HT HD HH Hdh Hcache Hshape)
      as (dx & dh0 & dWx & dWh & db & E & _).
    by eexists.
Qed.

(** C9.  [lstm_backward] reads the input width from [cache[0]] before
    anything else.  On an empty dictionary, which is what [lstm_forward]
    returns for a sequence of length 0, the call raises [KeyError 0] with no
    gradient computed; on the dictionary [lstm_forward] returns for a sequence
    of length at least 1 the lookup succeeds, yields the width [D], and the
    call returns. *)
Theorem lstm_backward_needs_first_cache
  (N T D H : nat) (x : tensor3) (h0 Wx Wh : matrix) (b : vec) (dh : tensor3) :
  (0 < N)%nat -> (0 < D)%nat -> (0 < H)%nat ->
  has_shape3 N T D x = true -> has_shape N H h0 = true ->
  has_shape D (4 * H) Wx = true -> has_shape H (4 * H) Wh = true ->
  has_len (4 * H) b = true -> has_shape3 N T H dh = true ->
  let caches := (lstm_forward x h0 Wx Wh b).2 in
  (forall dh' : tensor3, lstm_backward dh' ∅ = Raise (KeyError 0))
  /\ (T = 0%nat -> caches = ∅ /\ lstm_backward dh caches = Raise (KeyError 0))
  /\ ((1 <= T)%nat ->
        exists c0, dict_get caches 0 = Ok c0
                   /\ shape2 (c_x c0) = (N, D)
                   /\ exists r, lstm_backward dh caches = Ok r).
Proof.
  intros HN HD HH Hx Hh0 HWx HWh Hb Hdh. cbv zeta.
  assert (Hempty : forall dh' : tensor3, lstm_backward dh' ∅ = Raise (KeyError 0)).
  { intros dh'. unfold lstm_backward, dict_get. destruct (shape3 dh') as [[? ?] ?].
    by rewrite lookup_empty. }
  split; [done|]. split.
  - intros ->. rewrite (lstm_forward_chain N 0 D H) by done. by cbn.
  - intros HT. by apply (lstm_backward_after_forward N T D H).
Qed.

(** ** Which array objects a store computation may change *)

Section frame_rules.
Import Store.
Context (n0 : nat) (Pr : nat -> Prop) (HPr : forall l, Pr l -> (l < n0)%nat).

Lemma framed_ret {A : Type} (a : A) (Q : A -> Prop) :
  Q a -> framed n0 Pr (mret a) Q.
Proof using Type.
  intros HQ s Hs. cbn. repeat split; [done|]. intros a' [= <-]. done.
Qed.

Lemma framed_raise {A : Type} (e : exn) (Q : A -> Prop) :
  framed n0 Pr (raise e) Q.
Proof using Type. intros s Hs. cbn. repeat split; [done|]. intros a' [=]. Qed.

Lemma framed_bind {A B : Type} (m : M A) (k : A -> M B)
  (Q1 : A -> Prop) (Q2 : B -> Prop) :
  framed n0 Pr m Q1 -> (forall a, Q1 a -> framed n0 Pr (k a) Q2) ->
  framed n0 Pr (m ≫= k) Q2.
Proof using Type.
  intros Hm Hk s Hs. destruct (Hm s Hs) as (H1 & H2 & H3).
  unfold mbind, M_bind, bind. destruct (m s) as [s1 [a|e]]; cbn [fst snd] in *.
  - destruct (Hk a (H3 a eq_refl) s1 H1) as (K1 & K2 & K3).
    split; [done|]. split; [|done]. intros l Hl. by rewrite K2, H2.
  - split; [done|]. split; [done|]. intros a [=].
Qed.

Lemma framed_weaken {A : Type} (m : M A) (Q Q' : A -> Prop) :
  framed n0 Pr m Q -> (forall a, Q a -> Q' a) -> framed n0 Pr m Q'.
Proof using Type.
  intros Hm HQ s Hs. destruct (Hm s Hs) as (H1 & H2 & H3). eauto.
Qed.

Lemma framed_load (l : nat) : framed n0 Pr (load l) (fun _ => True).
Proof using Type.
  intros s Hs. unfold load. by destruct (s !! l).
Qed.

Lemma framed_alloc (a : ndarray) : framed n0 Pr (alloc a) (fun l => (n0 <= l)%nat).
Proof using HPr.
  intros s Hs. unfold alloc. cbn [fst snd]. split; [rewrite length_app; lia|].
  split.
  - intros l Hl. apply lookup_app_l. apply HPr in Hl. lia.
  - by intros l [= <-].
Qed.

Lemma framed_store_at (l : nat) (a : ndarray) :
  (forall l', Pr l' -> l' <> l) -> framed n0 Pr (store_at l a) (fun _ => True).
Proof using Type.
  intros Hl s Hs. unfold store_at. cbn [fst snd]. split; [by rewrite length_insert|].
  split; [|done]. intros l' Hl'. apply list_lookup_insert_ne. intros ->. by eapply Hl.
Qed.

Lemma framed_read1 (l : nat) : framed n0 Pr (read1 l) (fun _ => True).
Proof using Type.
  unfold read1. eapply framed_bind; [apply framed_load|].
  intros [v|m|x] _; (by apply framed_ret) || apply framed_raise.
Qed.

Lemma framed_read3 (l : nat) : framed n0 Pr (read3 l) (fun _ => True).
Proof using Type.
  unfold read3. eapply framed_bind; [apply framed_load|].
  intros [v|m|x] _; (by apply framed_ret) || apply framed_raise.
Qed.

Lemma framed_read2 (r : ref) : framed n0 Pr (read2 r) (fun _ => True).
Proof using Type.
  unfold read2. destruct r as [l|l t];
    (eapply framed_bind; [apply framed_load|]);
    intros [v|m|x] _; (by apply framed_ret) || apply framed_raise.
Qed.

Lemma framed_write1 (l : nat) (v : vec) :
  (forall l', Pr l' -> l' <> l) -> framed n0 Pr (write1 l v) (fun _ => True).
Proof using Type.
  intros Hl. unfold write1. eapply framed_bind; [apply framed_load|].
  intros [?|?|?] _; (by apply framed_store_at) || apply framed_raise.
Qed.

Lemma framed_write2 (r : ref) (m : matrix) :
  (forall l', Pr l' -> l' <> base r) -> framed n0 Pr (write2 r m) (fun _ => True).
Proof using Type.
  intros Hl. unfold write2. destruct r as [l|l t]; cbn [base] in Hl;
    (eapply framed_bind; [apply framed_load|]);
    intros [?|?|?] _; (by apply framed_store_at) || apply framed_raise.
Qed.

Lemma framed_iadd1 (l : nat) (v : vec) :
  (forall l', Pr l' -> l' <> l) -> framed n0 Pr (iadd1 l v) (fun _ => True).
Proof using Type.
  intros Hl. unfold iadd1. eapply framed_bind; [apply framed_read1|].
  intros old _. by apply framed_write1.
Qed.

Lemma framed_iadd2 (r : ref) (m : matrix) :
  (forall l', Pr l' -> l' <> base r) -> framed n0 Pr (iadd2 r m) (fun _ => True).
Proof using Type.
  intros Hl. unfold iadd2. eapply framed_bind; [apply framed_read2|].
  intros old _. by apply framed_write2.
Qed.

Lemma framed_dict_get {V : Type} (d : gmap nat V) (k : nat) :
  framed n0 Pr (dict_get d k) (fun _ => True).
Proof using Type.
  unfold dict_get. destruct (d !! k); [by apply framed_ret|apply framed_raise].
Qed.

Lemma framed_for_each {A S : Type} (body : S -> A -> M S) (I : S -> Prop)
  (l : list A) (s : S) :
  (forall s a, I s -> framed n0 Pr (body s a) I) -> I s ->
  framed n0 Pr (for_each body s l) I.
Proof using Type.
  intros Hbody. revert s. induction l as [|a l IH]; intros s Hs; cbn [for_each].
  - by apply framed_ret.
  - eapply framed_bind; [by apply Hbody|]. intros s' Hs'. by apply IH.
Qed.

(** A fresh location is outside the protected set. *)
Lemma fresh_not_protected (l : nat) : (n0 <= l)%nat -> forall l', Pr l' -> l' <> l.
Proof using HPr. intros Hl l' Hl' ->. apply HPr in Hl'. lia. Qed.

Ltac framed_step :=
  first
    [ eapply framed_bind; [apply framed_read2|intros ? _]
    | eapply framed_bind; [apply framed_read1|intros ? _]
    | eapply framed_bind; [apply framed_read3|intros ? _]
    | eapply framed_bind; [apply framed_dict_get|intros ? _]
    | eapply framed_bind; [apply framed_alloc|intros ? ?] ].

Lemma framed_lstm_step_backward (dnext_h dnext_c : ref) (cache : cache_refs) :
  (forall l', Pr l' -> l' <> base dnext_c) ->
  framed n0 Pr (lstm_step_backward dnext_h dnext_c cache) (fresh_results n0).
Proof using HPr.
  intros Hdc. unfold lstm_step_backward.
  framed_step. destruct (shape2 _) as [N H].
  do 3 framed_step.
  eapply framed_bind; [by apply framed_iadd2|intros _ _].
  repeat framed_step.
  apply framed_ret. unfold fresh_results. cbn [base]. done.
Qed.

Lemma framed_lstm_backward_body (dh : nat) (cache : gmap nat cache_refs)
  (dx db : nat) (dWx dWh : ref) (st : ref * ref) (i : nat) :
  (n0 <= dx)%nat -> (n0 <= db)%nat -> (n0 <= base dWx)%nat -> (n0 <= base dWh)%nat ->
  (n0 <= base st.1)%nat /\ (n0 <= base st.2)%nat ->
  framed n0 Pr (lstm_backward_body dh cache dx db dWx dWh st i)
         (fun st' => (n0 <= base st'.1)%nat /\ (n0 <= base st'.2)%nat).
Proof using HPr.
  intros Hdx Hdb HdWx HdWh [Hp Hc]. destruct st as [dprev dprev_c]. cbn [fst snd] in *.
  unfold lstm_backward_body. do 4 framed_step.
  eapply framed_bind.
  { apply framed_lstm_step_backward. by apply fresh_not_protected. }
  intros [[[[[dx_t dprev'] dprev_c'] dWx_t] dWh_t] db_t] (F1 & F2 & F3 & F4 & F5 & F6).
  framed_step.
  eapply framed_bind; [apply framed_iadd2; by apply fresh_not_protected|intros _ _].
  framed_step.
  eapply framed_bind; [apply framed_iadd1; by apply fresh_not_protected|intros _ _].
  framed_step.
  eapply framed_bind; [apply framed_iadd2; by apply fresh_not_protected|intros _ _].
  framed_step.
  eapply framed_bind; [apply framed_iadd2; by apply fresh_not_protected|intros _ _].
  by apply framed_ret.
Qed.

Lemma framed_lstm_backward (dh : nat) (cache : gmap nat cache_refs) :
  framed n0 Pr (lstm_backward dh cache) (fun _ => True).
Proof using HPr.
  unfold lstm_backward. framed_step. destruct (shape3 _) as [[N T] H].
  do 2 framed_step. destruct (shape2 _) as [N' D].
  do 8 framed_step.
  eapply framed_bind.
  { apply (framed_for_each _
             (fun st => (n0 <= base st.1)%nat /\ (n0 <= base st.2)%nat)).
    - intros st i Hst. by apply framed_lstm_backward_body.
    - done. }
  intros [dprev dprev_c] [Hp Hc]. framed_step.
  eapply framed_bind; [apply framed_iadd2; by apply fresh_not_protected|intros _ _].
  by apply framed_ret.
Qed.

End frame_rules.

(** C10.  [lstm_backward] changes no array object that exists when it is
    called, whether it returns or raises: the store it leaves agrees with the
    one it found at every old location.  In particular [dh] holds the value
    it held, although [lstm_step_backward] updates its cell-gradient argument
    in place, because the loop hands it only arrays allocated by the call. *)
Theorem lstm_backward_preserves_dh
  (s : Store.store) (dh : nat) (cache : gmap nat Store.cache_refs) :
  let s' := (Store.lstm_backward dh cache s).1 in
  (length s <= length s')%nat
  /\ (forall l, (l < length s)%nat -> s' !! l = s !! l)
  /\ s' !! dh = s !! dh.
Proof.
  cbv zeta.
  destruct (framed_lstm_backward (length s) (fun l => (l < length s)%nat)
              (fun l Hl => Hl) dh cache s (Nat.le_refl _)) as (H1 & H2 & _).
  split; [done|]. split; [done|].
  destruct (decide (dh < length s)%nat) as [Hlt|Hge]; [by apply H2|].
  assert (Hnone : s !! dh = None) by (apply lookup_ge_None_2; lia).
  cbv [Store.lstm_backward Store.read3 mbind Store.M_bind Store.bind Store.load].
  by rewrite Hnone.
Qed.

(** ** Running the cell step backward in a store *)

Section run.
Local Abbreviation step_backward_val := lstm_step_backward.
Import Store.

Lemma run_bind {A B : Type} (m : M A) (k : A -> M B) (s s' : store) (a : A) :
  m s = (s', Ok a) -> (m ≫= k) s = k a s'.
Proof. intros E. unfold mbind, M_bind, bind. by rewrite E. Qed.

Lemma holds2_app (s k : store) (r : ref) (v : matrix) :
  holds2 s r v -> holds2 (s ++ k) r v.
Proof.
  unfold holds2, read2, mbind, M_bind, bind, load. intros E.
  destruct r as [l|l t]; destruct (s !! l) as [a|] eqn:El; try done;
    rewrite (lookup_app_l_Some _ _ _ _ El);
    destruct a; cbn in *; try done; by injection E as <-.
Qed.

Lemma holds2_insert (s : store) (l : nat) (a : ndarray) (r : ref) (v : matrix) :
  holds2 s r v -> base r <> l -> holds2 (<[l := a]> s) r v.
Proof.
  unfold holds2, read2, mbind, M_bind, bind, load. intros E Hne.
  destruct r as [l'|l' t]; cbn [base] in Hne;
    rewrite list_lookup_insert_ne by done;
    destruct (s !! l') as [a'|] eqn:El; try done;
    destruct a'; cbn in *; try done; by injection E as <-.
Qed.

Lemma holds2_whole (s : store) (l : nat) (v : matrix) :
  holds2 s (Whole l) v <-> s !! l = Some (Arr2 v).
Proof.
  unfold holds2, read2, mbind, M_bind, bind, load. split.
  - intros E. destruct (s !! l) as [a|]; [|done].
    destruct a; cbn in *; try done. by injection E as <-.
  - intros E. by rewrite E.
Qed.

Lemma run_iadd2_whole (s : store) (l : nat) (old m : matrix) :
  s !! l = Some (Arr2 old) ->
  iadd2 (Whole l) m s = (<[l := Arr2 (madd old m)]> s, Ok tt).
Proof.
  intros E. unfold iadd2, read2, write2, mbind, M_bind, bind, load, store_at.
  rewrite E. cbv beta iota. unfold mret, M_ret, ret. cbv beta iota. by rewrite E.
Qed.

Lemma run_alloc {B : Type} (a : ndarray) (k : nat -> M B) (s : store) :
  (alloc a ≫= k) s = k (length s) (s ++ [a]).
Proof. reflexivity. Qed.

(** With [dnext_c] an array object that shares no memory with [dnext_h] or
    with a cached array the step reads, the store-level step returns, leaves
    [dnext_c] holding the updated cell gradient, and allocates the six arrays
    that the value-level step computes. *)
Lemma step_backward_refines
  (s : store) (dnext_h : ref) (lc : nat) (cache : cache_refs)
  (dh dc : matrix) (cv : step_cache) :
  holds2 s dnext_h dh -> s !! lc = Some (Arr2 dc) ->
  holds2 s (r_x cache) (c_x cv) -> holds2 s (r_prev_h cache) (c_prev_h cv) ->
  holds2 s (r_prev_c cache) (c_prev_c cv) -> holds2 s (r_next_c cache) (c_next_c cv) ->
  holds2 s (r_Wx cache) (c_Wx cv) -> holds2 s (r_Wh cache) (c_Wh cv) ->
  holds2 s (r_input cache) (c_input cv) -> holds2 s (r_forget cache) (c_forget cv) ->
  holds2 s (r_output cache) (c_output cv) ->
  holds2 s (r_block_input cache) (c_block_input cv) ->
  base dnext_h <> lc -> base (r_x cache) <> lc -> base (r_prev_h cache) <> lc ->
  base (r_prev_c cache) <> lc -> base (r_next_c cache) <> lc ->
  base (r_Wx cache) <> lc -> base (r_Wh cache) <> lc -> base (r_input cache) <> lc ->
  base (r_forget cache) <> lc -> base (r_output cache) <> lc ->
  base (r_block_input cache) <> lc ->
  let res := step_backward_val dh dc cv in
  let n := length s in
  lstm_step_backward dnext_h (Whole lc) cache s
  = (<[lc := Arr2 (dnext_c_updated dh dc cv)]> s
       ++ [Arr2 res.1.1.1.2; Arr2 res.1.1.1.1.1; Arr2 res.1.1.2; Arr2 res.1.2;
           Arr2 res.1.1.1.1.2; Arr1 res.2],
     Ok (Whole (n + 1), Whole (n + 4), Whole n, Whole (n + 2), Whole (n + 3),
         (n + 5)%nat)).
Proof.
  intros Hdh Hdc Hx Hph Hpc Hnc HWx HWh Hi Hf Ho Hg
         Ndh Nx Nph Npc Nnc NWx NWh Ni Nf No Ng. cbv zeta.
  set (dcu := dnext_c_updated dh dc cv).
  set (s1 := <[lc := Arr2 dcu]> s).
  assert (Hlc : (lc < length s)%nat) by (by eapply lookup_lt_Some).
  assert (Hdc1 : holds2 s1 (Whole lc) dcu).
  { apply holds2_whole. subst s1. by apply list_lookup_insert_eq. }
  assert (Hl1 : length s1 = length s) by (subst s1; apply length_insert).
  unfold lstm_step_backward.
  rewrite (run_bind _ _ _ _ _ Hdh). destruct (shape2 dh) as [N H] eqn:Eshape.
  rewrite (run_bind _ _ _ _ _ Hdh), (run_bind _ _ _ _ _ Ho), (run_bind _ _ _ _ _ Hnc).
  rewrite (run_bind _ _ _ _ _ (run_iadd2_whole s lc dc _ Hdc)).
  fold dcu. fold s1.
  assert (T : forall r v, holds2 s r v -> base r <> lc -> holds2 s1 r v).
  { intros r v Hr Hne. subst s1. by apply holds2_insert. }
  repeat first
    [ rewrite run_alloc
    | erewrite run_bind by (repeat apply holds2_app; first [exact Hdc1 | by apply T]) ].
  unfold mret, M_ret, ret. rewrite !length_app, Hl1. cbn [length].
  unfold step_backward_val, dactivation_of. fold dcu. rewrite Eshape.
  cbn [fst snd]. rewrite <- !app_assoc. cbn [app].
  replace (length s + 1 + 1 + 1 + 1 + 1)%nat with (length s + 5)%nat by lia.
  replace (length s + 1 + 1 + 1 + 1)%nat with (length s + 4)%nat by lia.
  replace (length s + 1 + 1 + 1)%nat with (length s + 3)%nat by lia.
  replace (length s + 1 + 1)%nat with (length s + 2)%nat by lia.
  reflexivity.
Qed.

End run.

(** ** The store-level sequence pass computes the value-level one *)

Lemma add_slice_t_as_set (X : tensor3) (t : nat) (M : matrix) :
  set_slice_t X t (madd (slice_t X t) M) = add_slice_t X t M.
Proof.
  unfold set_slice_t, add_slice_t, madd, slice_t. revert M.
  induction X as [|s X IH]; intros [|r M]; cbn; try done. by rewrite IH.
Qed.

Section run_more.
Import Store.

Lemma holds2_agree (s s' : store) (r : ref) (v : matrix) :
  holds2 s r v -> s' !! base r = s !! base r -> holds2 s' r v.
Proof.
  unfold holds2, read2, mbind, M_bind, bind, load. intros E Hag.
  destruct r as [l|l t]; cbn [base] in Hag; rewrite Hag;
    destruct (s !! l) as [a|]; try done;
    destruct a; cbn in *; try done; by injection E as <-.
Qed.

Lemma holds2_base_lt (s : store) (r : ref) (v : matrix) :
  holds2 s r v -> (base r < length s)%nat.
Proof.
  unfold holds2, read2, mbind, M_bind, bind, load. intros E.
  destruct r as [l|l t]; cbn [base];
    destruct (s !! l) as [a|] eqn:El; try done; by eapply lookup_lt_Some.
Qed.

Lemma cache_holds_agree (s0 s : store) (c : cache_refs) (cv : step_cache) :
  cache_holds s0 c cv -> (forall l, (l < length s0)%nat -> s !! l = s0 !! l) ->
  cache_holds s c cv.
Proof.
  intros (H1 & H2 & H3 & H4 & H5 & H6 & H7 & H8 & H9 & H10) Hag.
  repeat split;
    (eapply holds2_agree; [eassumption|]; apply Hag; by eapply holds2_base_lt).
Qed.

Lemma cache_holds_apart (s0 : store) (c : cache_refs) (cv : step_cache) (l : nat) :
  cache_holds s0 c cv -> (length s0 <= l)%nat -> cache_apart c l.
Proof.
  intros (H1 & H2 & H3 & H4 & H5 & H6 & H7 & H8 & H9 & H10) Hl.
  repeat split;
    match goal with
    | |- base ?r <> _ =>
        match goal with
        | H : holds2 s0 r _ |- _ => apply holds2_base_lt in H; lia
        end
    end.
Qed.

Lemma run_read2_whole {B : Type} (k : matrix -> M B) (s : store) (l : nat) (v : matrix) :
  s !! l = Some (Arr2 v) -> (read2 (Whole l) ≫= k) s = k v s.
Proof. intros E. apply run_bind. by apply holds2_whole. Qed.

Lemma run_read1 {B : Type} (k : vec -> M B) (s : store) (l : nat) (v : vec) :
  s !! l = Some (Arr1 v) -> (read1 l ≫= k) s = k v s.
Proof.
  intros E. apply run_bind. unfold read1, mbind, M_bind, bind, load. by rewrite E.
Qed.

Lemma run_read3 {B : Type} (k : tensor3 -> M B) (s : store) (l : nat) (v : tensor3) :
  s !! l = Some (Arr3 v) -> (read3 l ≫= k) s = k v s.
Proof.
  intros E. apply run_bind. unfold read3, mbind, M_bind, bind, load. by rewrite E.
Qed.

Lemma run_iadd1 {B : Type} (k : unit -> M B) (s : store) (l : nat) (old v : vec) :
  s !! l = Some (Arr1 old) ->
  (iadd1 l v ≫= k) s = k tt (<[l := Arr1 (vadd old v)]> s).
Proof.
  intros E. apply run_bind.
  unfold iadd1, read1, write1, mbind, M_bind, bind, load, store_at.
  rewrite E. cbv beta iota. unfold mret, M_ret, ret. cbv beta iota. by rewrite E.
Qed.

Lemma run_iadd2 {B : Type} (k : unit -> M B) (s : store) (l : nat) (old m : matrix) :
  s !! l = Some (Arr2 old) ->
  (iadd2 (Whole l) m ≫= k) s = k tt (<[l := Arr2 (madd old m)]> s).
Proof. intros E. apply run_bind. by apply run_iadd2_whole. Qed.

Lemma run_iadd2_slice {B : Type} (k : unit -> M B) (s : store) (l t : nat)
  (X : tensor3) (m : matrix) :
  s !! l = Some (Arr3 X) ->
  (iadd2 (TimeSlice l t) m ≫= k) s = k tt (<[l := Arr3 (add_slice_t X t m)]> s).
Proof.
  intros E. apply run_bind.
  unfold iadd2, read2, write2, mbind, M_bind, bind, load, store_at.
  rewrite E. cbv beta iota. unfold mret, M_ret, ret. cbv beta iota. rewrite E.
  by rewrite add_slice_t_as_set.
Qed.

Lemma run_dict_get {B V : Type} (k : V -> M B) (s : store) (d : gmap nat V)
  (i : nat) (v : V) :
  d !! i = Some v -> (dict_get d i ≫= k) s = k v s.
Proof. intros E. apply run_bind. unfold dict_get. by rewrite E. Qed.

End run_more.

Section backward_refines.
Context (s0 : Store.store) (dh : nat) (dhv : tensor3).
Context (cache : gmap nat Store.cache_refs) (cachev : gmap nat step_cache).
Context (ldx ldb lWx lWh ldh0 : nat) (a0 : Store.ndarray).
Context (Hdh : s0 !! dh = Some (Store.Arr3 dhv)).
Context (Hrel : cache_rel s0 cache cachev).
Context (Hfresh : (length s0 <= ldx)%nat).
Context (Horder : (ldx < ldh0)%nat /\ (ldh0 < lWx)%nat /\ (lWx < lWh)%nat
                  /\ (lWh < ldb)%nat).

Local Abbreviation inv := (loop_inv s0 ldx ldb lWx lWh ldh0 a0).

Ltac len := rewrite ?length_app, ?length_insert; cbn [length].
Ltac lk :=
  repeat first
    [ rewrite list_lookup_insert_ne by lia
    | rewrite lookup_app_l by (len; lia) ].

Lemma backward_body_refines (s : Store.store) (refs : Store.ref * Store.ref)
  (stv : tensor3 * matrix * matrix * matrix * matrix * vec) (i : nat) :
  inv s refs stv ->
  match lstm_backward_body dhv cachev stv i with
  | Ok stv' =>
      exists s' refs',
        Store.lstm_backward_body dh cache ldx ldb (Store.Whole lWx) (Store.Whole lWh)
                                 refs i s = (s', Ok refs')
        /\ inv s' refs' stv'
  | Raise e =>
      exists s',
        Store.lstm_backward_body dh cache ldx ldb (Store.Whole lWx) (Store.Whole lWh)
                                 refs i s = (s', Raise e)
  end.
Proof using All.
  destruct stv as [[[[[dx dprev] dprev_c] dWx] dWh] db].
  intros (lp & lc & -> & Hag & Hdx & Hdb & HWx & HWh & Hp & Hc & Hk & Hlc).
  destruct Horder as (O1 & O2 & O3 & O4).
  pose proof (lookup_lt_Some _ _ _ Hk) as Lk.
  assert (Hdhs : s !! dh = Some (Store.Arr3 dhv)).
  { rewrite Hag; [done|]. by eapply lookup_lt_Some. }
  pose proof (lookup_lt_Some _ _ _ Hdx) as Ldx.
  pose proof (lookup_lt_Some _ _ _ Hdb) as Ldb.
  pose proof (lookup_lt_Some _ _ _ HWx) as LWx.
  pose proof (lookup_lt_Some _ _ _ HWh) as LWh.
  pose proof (lookup_lt_Some _ _ _ Hp) as Lp.
  pose proof (lookup_lt_Some _ _ _ Hc) as Lc.
  pose proof (Hrel i) as Hri.
  destruct (cache !! i) as [c|] eqn:Ec; destruct (cachev !! i) as [cv|] eqn:Ecv;
    [|destruct Hri|destruct Hri|].
  2:{ unfold lstm_backward_body, Store.lstm_backward_body, dict_get.
      rewrite (run_read3 _ _ _ _ Hdhs), (run_read2_whole _ _ _ _ Hp), run_alloc.
      rewrite Ecv. cbn [rbind]. eexists. unfold Store.dict_get. rewrite Ec.
      unfold mbind, Store.M_bind, Store.bind, Store.raise. reflexivity. }
  unfold lstm_backward_body, Store.lstm_backward_body, dict_get.
  rewrite (run_read3 _ _ _ _ Hdhs), (run_read2_whole _ _ _ _ Hp), run_alloc.
  rewrite Ecv. cbn [rbind].
  lazymatch goal with
  | |- context [Store.dict_get cache i ≫= ?k] =>
      rewrite (run_dict_get k (s ++ [Store.Arr2 (madd (slice_t dhv i) dprev)])
                            cache i c Ec)
  end.
  set (dhc := madd (slice_t dhv i) dprev).
  set (sA := s ++ [Store.Arr2 dhc]).
  assert (HagA : forall l, (l < length s0)%nat -> sA !! l = s0 !! l).
  { intros l Hl. subst sA. rewrite lookup_app_l by lia. by apply Hag. }
  assert (HcA : sA !! lc = Some (Store.Arr2 dprev_c)) by (subst sA; by lk).
  assert (HhA : holds2 sA (Store.Whole (length s)) dhc).
  { apply holds2_whole. subst sA. by rewrite lookup_app_r, Nat.sub_diag by lia. }
  pose proof (cache_holds_agree s0 sA c cv Hri HagA)
    as (Hx & Hph & Hpc & Hnc & HWxc & HWhc & Hi & Hf & Ho & Hg).
  pose proof (cache_holds_apart s0 c cv lc Hri ltac:(lia))
    as (Ax & Aph & Apc & Anc & AWx & AWh & Ai & Af & Ao & Ag).
  assert (Hne : Store.base (Store.Whole (length s)) <> lc) by (cbn; lia).
  rewrite (run_bind _ _ _ _ _
             (step_backward_refines sA (Store.Whole (length s)) lc c dhc dprev_c cv
                HhA HcA Hx Hph Hpc Hnc HWxc HWhc Hi Hf Ho Hg
                Hne Ax Aph Apc Anc AWx AWh Ai Af Ao Ag)).
  destruct (lstm_step_backward dhc dprev_c cv)
    as [[[[[dx_t dprev'] dprev_c'] dWx_t] dWh_t] db_t] eqn:Eres.
  cbn [fst snd].
  set (sB := <[lc := Store.Arr2 (dnext_c_updated dhc dprev_c cv)]> sA
               ++ [Store.Arr2 dprev_c'; Store.Arr2 dx_t; Store.Arr2 dWx_t;
                   Store.Arr2 dWh_t; Store.Arr2 dprev'; Store.Arr1 db_t]).
  assert (LA : length sA = S (length s)) by (subst sA; len; lia).
  assert (Hold : forall l, (l < length s)%nat -> l <> lc -> sB !! l = s !! l).
  { intros l Hl Hn. subst sB sA. by lk. }
  assert (Hnew : forall j a,
            [Store.Arr2 dprev_c'; Store.Arr2 dx_t; Store.Arr2 dWx_t;
             Store.Arr2 dWh_t; Store.Arr2 dprev'; Store.Arr1 db_t] !! j = Some a ->
            sB !! (length sA + j)%nat = Some a).
  { intros j a Hj. subst sB. rewrite lookup_app_r by (len; lia).
    rewrite length_insert. by replace (length sA + j - length sA)%nat with j by lia. }
  rewrite (run_read2_whole _ sB _ dx_t) by (by apply (Hnew 1%nat)).
  rewrite (run_iadd2_slice _ sB ldx i dx) by (rewrite Hold by lia; done).
  set (sC := <[ldx := _]> sB).
  rewrite (run_read1 _ sC _ db_t)
    by (subst sC; rewrite list_lookup_insert_ne by lia; by apply (Hnew 5%nat)).
  rewrite (run_iadd1 _ sC ldb db)
    by (subst sC; rewrite list_lookup_insert_ne by lia; rewrite Hold by lia; done).
  set (sD := <[ldb := _]> sC).
  rewrite (run_read2_whole _ sD _ dWx_t)
    by (subst sD sC; rewrite !list_lookup_insert_ne by lia; by apply (Hnew 2%nat)).
  rewrite (run_iadd2 _ sD lWx dWx)
    by (subst sD sC; rewrite !list_lookup_insert_ne by lia; rewrite Hold by lia; done).
  set (sE := <[lWx := _]> sD).
  rewrite (run_read2_whole _ sE _ dWh_t)
    by (subst sE sD sC; rewrite !list_lookup_insert_ne by lia; by apply (Hnew 3%nat)).
  rewrite (run_iadd2 _ sE lWh dWh)
    by (subst sE sD sC; rewrite !list_lookup_insert_ne by lia; rewrite Hold by lia;
        done).
  set (sF := <[lWh := _]> sE).
  assert (LB : length sB = (length sA + 6)%nat) by (subst sB; len; lia).
  eexists sF, _. split; [reflexivity|].
  exists (length sA + 4)%nat, (length sA)%nat.
  split; [reflexivity|].
  assert (Hup : forall l, l <> ldx -> l <> ldb -> l <> lWx -> l <> lWh ->
            sF !! l = sB !! l).
  { intros l ? ? ? ?. subst sF sE sD sC. by rewrite !list_lookup_insert_ne by done. }
  repeat split.
  - intros l Hl. rewrite Hup by lia. rewrite Hold by lia. by apply Hag.
  - subst sF sE sD sC. rewrite !list_lookup_insert_ne by lia.
    by rewrite list_lookup_insert_eq by lia.
  - subst sF sE sD sC. rewrite !list_lookup_insert_ne by lia.
    by rewrite list_lookup_insert_eq by (len; lia).
  - subst sF sE sD sC. rewrite !list_lookup_insert_ne by lia.
    by rewrite list_lookup_insert_eq by (len; lia).
  - subst sF sE sD sC. by rewrite list_lookup_insert_eq by (len; lia).
  - rewrite Hup by lia. by apply (Hnew 4%nat).
  - rewrite Hup by lia. replace (length sA) with (length sA + 0)%nat at 1 by lia.
    by apply (Hnew 0%nat).
  - rewrite Hup by lia. by rewrite Hold by lia.
  - lia.
Qed.

Lemma backward_loop_refines (l : list nat) (s : Store.store)
  (refs : Store.ref * Store.ref)
  (stv : tensor3 * matrix * matrix * matrix * matrix * vec) :
  inv s refs stv ->
  match for_each (lstm_backward_body dhv cachev) stv l with
  | Ok stv' =>
      exists s' refs',
        Store.for_each
          (Store.lstm_backward_body dh cache ldx ldb (Store.Whole lWx) (Store.Whole lWh))
          refs l s = (s', Ok refs')
        /\ inv s' refs' stv'
  | Raise e =>
      exists s',
        Store.for_each
          (Store.lstm_backward_body dh cache ldx ldb (Store.Whole lWx) (Store.Whole lWh))
          refs l s = (s', Raise e)
  end.
Proof using All.
  revert s refs stv. induction l as [|i l IH]; intros s refs stv Hinv.
  - cbn [for_each Store.for_each]. by exists s, refs.
  - cbn [for_each Store.for_each].
    pose proof (backward_body_refines s refs stv i Hinv) as Hb.
    destruct (lstm_backward_body dhv cachev stv i) as [stv1|e]; cbn [rbind].
    + destruct Hb as (s1 & refs1 & E1 & Hinv1). rewrite (run_bind _ _ _ _ _ E1).
      by apply IH.
    + destruct Hb as (s1 & E1). exists s1.
      unfold mbind, Store.M_bind, Store.bind. by rewrite E1.
Qed.

End backward_refines.

(** Started in a store where [dh] and the cached arrays hold given values,
    the store-level [lstm_backward] raises what the value-level one raises
    and otherwise returns arrays that hold what the value-level one returns:
    the in-place update inside [lstm_step_backward] never reaches an array
    that is read again. *)
Lemma store_lstm_backward_refines
  (s : Store.store) (dh : nat) (dhv : tensor3)
  (cache : gmap nat Store.cache_refs) (cachev : gmap nat step_cache) :
  s !! dh = Some (Store.Arr3 dhv) -> cache_rel s cache cachev ->
  match lstm_backward dhv cachev with
  | Ok (dx, dh0, dWx, dWh, db) =>
      exists s' ldx ldh0 lWx lWh ldb,
        Store.lstm_backward dh cache s
        = (s', Ok (ldx, Store.Whole ldh0, Store.Whole lWx, Store.Whole lWh, ldb))
        /\ s' !! ldx = Some (Store.Arr3 dx) /\ s' !! ldh0 = Some (Store.Arr2 dh0)
        /\ s' !! lWx = Some (Store.Arr2 dWx) /\ s' !! lWh = Some (Store.Arr2 dWh)
        /\ s' !! ldb = Some (Store.Arr1 db)
        /\ (forall l, (l < length s)%nat -> s' !! l = s !! l)
  | Raise e => exists s', Store.lstm_backward dh cache s = (s', Raise e)
  end.
Proof.
  intros Hdh Hrel. unfold lstm_backward, Store.lstm_backward, dict_get.
  rewrite (run_read3 _ _ _ _ Hdh). destruct (shape3 dhv) as [[N T] H].
  pose proof (Hrel 0%nat) as Hr0.
  destruct (cache !! 0%nat) as [c0|] eqn:Ec; destruct (cachev !! 0%nat) as [cv0|] eqn:Ecv;
    [|destruct Hr0|destruct Hr0|].
  2:{ cbn [rbind]. eexists. unfold Store.dict_get. rewrite Ec.
      unfold mbind, Store.M_bind, Store.bind, Store.raise. reflexivity. }
  cbn [rbind].
  lazymatch goal with
  | |- context [Store.dict_get cache 0 ≫= ?k] =>
      rewrite (run_dict_get k s cache 0%nat c0 Ec)
  end.
  destruct Hr0 as (Hx0 & _). rewrite (run_bind _ _ _ _ _ Hx0).
  destruct (shape2 (c_x cv0)) as [N' D]. rewrite !run_alloc.
  rewrite !length_app. cbn [length].
  set (n := length s).
  set (sI := (((((((s ++ [Store.Arr3 (zeros3 N T D)]) ++ [Store.Arr2 (zeros N H)])
                  ++ [Store.Arr2 (zeros D (4 * H))]) ++ [Store.Arr2 (zeros H (4 * H))])
                ++ [Store.Arr1 (zeros1 (4 * H))]) ++ [Store.Arr2 (zeros N H)])
              ++ [Store.Arr2 (zeros N H)]) ++ [Store.Arr2 (zeros N H)]).
  assert (HsI : sI = s ++ [Store.Arr3 (zeros3 N T D); Store.Arr2 (zeros N H);
                           Store.Arr2 (zeros D (4 * H)); Store.Arr2 (zeros H (4 * H));
                           Store.Arr1 (zeros1 (4 * H)); Store.Arr2 (zeros N H);
                           Store.Arr2 (zeros N H); Store.Arr2 (zeros N H)]).
  { subst sI. by rewrite <- !app_assoc. }
  assert (Hnew : forall j a,
            [Store.Arr3 (zeros3 N T D); Store.Arr2 (zeros N H);
             Store.Arr2 (zeros D (4 * H)); Store.Arr2 (zeros H (4 * H));
             Store.Arr1 (zeros1 (4 * H)); Store.Arr2 (zeros N H);
             Store.Arr2 (zeros N H); Store.Arr2 (zeros N H)] !! j = Some a ->
            sI !! (n + j)%nat = Some a).
  { intros j a Hj. rewrite HsI, lookup_app_r by (subst n; lia).
    by replace (n + j - length s)%nat with j by (subst n; lia). }
  assert (Hinv0 : loop_inv s n (n + 1 + 1 + 1 + 1) (n + 1 + 1) (n + 1 + 1 + 1) (n + 1)
                    (Store.Arr2 (zeros N H)) sI
                    (Store.Whole (n + 1 + 1 + 1 + 1 + 1),
                     Store.Whole (n + 1 + 1 + 1 + 1 + 1 + 1 + 1))
                    (zeros3 N T D, zeros N H, zeros N H, zeros D (4 * H),
                     zeros H (4 * H), zeros1 (4 * H))).
  { unfold loop_inv. eexists _, _. split; [reflexivity|]. repeat split.
    - intros l Hl. rewrite HsI. by apply lookup_app_l.
    - replace n with (n + 0)%nat at 1 by lia. by apply (Hnew 0%nat).
    - replace (n + 1 + 1 + 1 + 1)%nat with (n + 4)%nat by lia. by apply (Hnew 4%nat).
    - replace (n + 1 + 1)%nat with (n + 2)%nat by lia. by apply (Hnew 2%nat).
    - replace (n + 1 + 1 + 1)%nat with (n + 3)%nat by lia. by apply (Hnew 3%nat).
    - replace (n + 1 + 1 + 1 + 1 + 1)%nat with (n + 5)%nat by lia.
      by apply (Hnew 5%nat).
    - replace (n + 1 + 1 + 1 + 1 + 1 + 1 + 1)%nat with (n + 7)%nat by lia.
      by apply (Hnew 7%nat).
    - by apply (Hnew 1%nat).
    - lia. }
  pose proof (backward_loop_refines s dh dhv cache cachev
                n (n + 1 + 1 + 1 + 1)%nat (n + 1 + 1)%nat (n + 1 + 1 + 1)%nat (n + 1)%nat
                (Store.Arr2 (zeros N H)) Hdh Hrel (Nat.le_refl _)
                ltac:(lia) (rev (seq 0 T)) sI _ _ Hinv0) as Hloop.
  destruct (for_each (lstm_backward_body dhv cachev) _ (rev (seq 0 T)))
    as [[[[[[dx dprev] dprev_c] dWx] dWh] db]|e]; cbn [rbind].
  2:{ destruct Hloop as (s1 & E1). exists s1.
      unfold mbind, Store.M_bind, Store.bind. by rewrite E1. }
  destruct Hloop as (s1 & refs1 & E1 & Hinv1). rewrite (run_bind _ _ _ _ _ E1).
  destruct Hinv1 as (lp & lc & -> & Hag & Hdx & Hdb & HWx & HWh & Hp & Hc & Hk & Hlc).
  rewrite (run_read2_whole _ _ _ _ Hp), (run_iadd2 _ _ _ _ _ Hk).
  eexists _, _, _, _, _, _. split; [reflexivity|].
  pose proof (lookup_lt_Some _ _ _ Hk) as Lk.
  repeat split.
  - by rewrite list_lookup_insert_ne by lia.
  - by rewrite list_lookup_insert_eq by lia.
  - by rewrite list_lookup_insert_ne by lia.
  - by rewrite list_lookup_insert_ne by lia.
  - by rewrite list_lookup_insert_ne by lia.
  - intros l Hl. rewrite list_lookup_insert_ne by (subst n; lia). by apply Hag.
Qed.

(** ** The concrete run *)

Lemma ex_step_forward :
  lstm_step_forward (slice_t ex_x 0) ex_h0 ex_c0 ex_Wx ex_Wh ex_b
  = ([[/ 2 * tanh (/ 2 * tanh 1)]], [[/ 2 * tanh 1]], ex_cache).
Proof.
  unfold lstm_step_forward, ex_cache. cbn [shape2 nrows ncols ex_h0 hd length].
  rewrite !sigmoid_map. cbn -[logistic tanh].
  replace (0 * 0 + 0 + (0 * 0 + 0) + 0) with 0 by lra.
  replace (0 * 0 + 0 + (0 * 0 + 0) + 1) with 1 by lra.
  rewrite logistic_0.
  replace (/ 2 * 0 + / 2 * tanh 1) with (/ 2 * tanh 1) by lra.
  reflexivity.
Qed.

Lemma cosh2_minus_sinh2 (a : R) : cosh a * cosh a - sinh a * sinh a = 1.
Proof.
  unfold cosh, sinh. pose proof (exp_pos a) as Hp.
  rewrite exp_Ropp. field. lra.
Qed.

Lemma one_minus_tanh2_pos (a : R) : 0 < 1 - tanh a ^ 2.
Proof.
  pose proof (cosh_pos a) as Hc. pose proof (cosh2_minus_sinh2 a) as E.
  assert (Et : 1 - tanh a ^ 2
               = (cosh a * cosh a - sinh a * sinh a) / (cosh a * cosh a)).
  { unfold tanh. field. lra. }
  rewrite Et, E. apply Rdiv_lt_0_compat; nra.
Qed.

(** ** The effects of [lstm_step_backward] on the store *)

(** C4, as amended.  [lstm_step_backward] leaves every array object other
    than the one behind [dnext_c] as it found it, whether it returns or
    raises, so the cache and [dnext_h] are unchanged wherever they share no
    memory with [dnext_c]; the six arrays it returns are freshly allocated.
    [dnext_c] itself is updated in place: when it is an array object apart
    from [dnext_h] and the cached arrays, it holds
    [dnext_c + dnext_h*output*(1-tanh(next_c)**2)] after the call, and the
    returned arrays hold the six results computed from the values. *)
Theorem lstm_step_backward_effects
  (s : Store.store) (dnext_h dnext_c : Store.ref) (cache : Store.cache_refs) :
  let out := Store.lstm_step_backward dnext_h dnext_c cache s in
  (length s <= length out.1)%nat
  /\ (forall l, (l < length s)%nat -> l <> Store.base dnext_c -> out.1 !! l = s !! l)
  /\ (forall res, out.2 = Ok res -> fresh_results (length s) res)
  /\ (forall lc dh dc cv,
        dnext_c = Store.Whole lc ->
        holds2 s dnext_h dh -> s !! lc = Some (Store.Arr2 dc) ->
        cache_holds s cache cv ->
        Store.base dnext_h <> lc -> cache_apart cache lc ->
        let res := lstm_step_backward dh dc cv in
        out.1 !! lc = Some (Store.Arr2 (dnext_c_updated dh dc cv))
        /\ exists dx dprev_h dprev_c dWx dWh db,
             out.2 = Ok (Store.Whole dx, Store.Whole dprev_h, Store.Whole dprev_c,
                         Store.Whole dWx, Store.Whole dWh, db)
             /\ out.1 !! dx = Some (Store.Arr2 res.1.1.1.1.1)
             /\ out.1 !! dprev_h = Some (Store.Arr2 res.1.1.1.1.2)
             /\ out.1 !! dprev_c = Some (Store.Arr2 res.1.1.1.2)
             /\ out.1 !! dWx = Some (Store.Arr2 res.1.1.2)
             /\ out.1 !! dWh = Some (Store.Arr2 res.1.2)
             /\ out.1 !! db = Some (Store.Arr1 res.2)).
Proof.
  cbv zeta.
  destruct (framed_lstm_step_backward (length s)
              (fun l => (l < length s)%nat /\ l <> Store.base dnext_c)
              (fun l Hl => proj1 Hl) dnext_h dnext_c cache
              (fun l Hl => proj2 Hl) s (Nat.le_refl _)) as (H1 & H2 & H3).
  split; [done|]. split; [by intros l Hl Hne; apply H2|]. split; [done|].
  intros lc dh dc cv -> Hdh Hdc (Hx & Hph & Hpc & Hnc & HWx & HWh & Hi & Hf & Ho & Hg)
         Ndh (Nx & Nph & Npc & Nnc & NWx & NWh & Ni & Nf & No & Ng).
  rewrite (step_backward_refines s dnext_h lc cache dh dc cv) by done.
  cbn [fst snd].
  assert (Hlc : (lc < length s)%nat) by (by eapply lookup_lt_Some).
  set (s1 := <[lc := Store.Arr2 (dnext_c_updated dh dc cv)]> s).
  assert (Hl1 : length s1 = length s) by apply length_insert.
  split.
  { rewrite lookup_app_l by lia. by apply list_lookup_insert_eq. }
  eexists _, _, _, _, _, _. split; [reflexivity|].
  repeat split; rewrite lookup_app_r by lia; rewrite Hl1;
    match goal with
    | |- _ !! ?i = _ => replace i with 0%nat by lia
    | _ => idtac
    end; try reflexivity.
  - by replace (length s + 1 - length s)%nat with 1%nat by lia.
  - by replace (length s + 4 - length s)%nat with 4%nat by lia.
  - by replace (length s + 2 - length s)%nat with 2%nat by lia.
  - by replace (length s + 3 - length s)%nat with 3%nat by lia.
  - by replace (length s + 5 - length s)%nat with 5%nat by lia.
Qed.

Lemma lstm_step_backward_effects_witness :
  (Store.lstm_step_backward (Store.Whole 0) (Store.Whole 1) ex_refs ex_store).1 !! 1%nat
  = Some (Store.Arr2 (dnext_c_updated ex_dnext_h ex_dnext_c ex_cache)).
Proof.
  destruct (lstm_step_backward_effects ex_store (Store.Whole 0) (Store.Whole 1) ex_refs)
    as (_ & _ & _ & H).
  destruct (H 1%nat ex_dnext_h ex_dnext_c ex_cache) as [E _].
  - reflexivity.
  - reflexivity.
  - reflexivity.
  - repeat split; reflexivity.
  - simpl; lia.
  - repeat split; simpl; lia.
  - exact E.
Defined.

(** C4, as first stated, fails: on the concrete store the array object behind
    [dnext_c] holds [[0]] before the call and [[v]] with [v > 0] after it. *)
Lemma lstm_step_backward_overwrites_dnext_c :
  ex_store !! 1%nat = Some (Store.Arr2 [[0]])
  /\ exists v,
       (Store.lstm_step_backward (Store.Whole 0) (Store.Whole 1) ex_refs ex_store).1
         !! 1%nat = Some (Store.Arr2 [[v]])
       /\ 0 < v.
Proof.
  split; [reflexivity|].
  exists (0 + 1 * / 2 * (1 - tanh (/ 2 * tanh 1) ^ 2)). split.
  - rewrite (step_backward_refines ex_store (Store.Whole 0) 1 ex_refs
               ex_dnext_h ex_dnext_c ex_cache);
      try reflexivity; try (simpl; lia).
  - pose proof (one_minus_tanh2_pos (/ 2 * tanh 1)). nra.
Qed.

(** The store-level sequence backward pass returns on a concrete store: the
    fifteen arrays above and the upstream gradient [dh] at location 15. *)
Lemma store_lstm_backward_returns :
  exists s' r, Store.lstm_backward 15 {[0%nat := ex_refs]}
                                   (ex_store ++ [Store.Arr3 ex_dh]) = (s', Ok r).
Proof. eexists _, _. reflexivity. Qed.

(** ** The theorems on the concrete run *)

Lemma lstm_step_forward_spec_witness :
  has_shape 1 4 (c_activation (lstm_step_forward [[0]] ex_h0 ex_c0 ex_Wx ex_Wh ex_b).2)
  = true.
Proof.
  destruct (lstm_step_forward_spec 1 1 1 [[0]] ex_h0 ex_c0 ex_Wx ex_Wh ex_b)
    as (Ha & _); (lia || reflexivity || exact Ha).
Defined.

Lemma lstm_step_backward_is_gradient_witness :
  derivable_pt_lim
    (fun u => step_loss ex_dnext_h ex_dnext_c [[0]] ex_h0 ex_c0 ex_Wx ex_Wh
                        (vset ex_b 3 u))
    (vget ex_b 3)
    (vget (lstm_step_backward ex_dnext_h ex_dnext_c
             (lstm_step_forward [[0]] ex_h0 ex_c0 ex_Wx ex_Wh ex_b).2).2 3).
Proof.
  destruct (lstm_step_backward_is_gradient 1 1 1 [[0]] ex_h0 ex_c0 ex_Wx ex_Wh ex_b
              ex_dnext_h ex_dnext_c)
    as (_ & _ & _ & _ & _ & _ & Hb); try (lia || reflexivity).
  apply Hb. lia.
Defined.

Lemma gate_block_layout_witness :
  has_shape 1 4
    (dactivation_of ex_dnext_h
       (dnext_c_updated ex_dnext_h ex_dnext_c
          (lstm_step_forward [[0]] ex_h0 ex_c0 ex_Wx ex_Wh ex_b).2)
       (lstm_step_forward [[0]] ex_h0 ex_c0 ex_Wx ex_Wh ex_b).2) = true.
Proof.
  destruct (gate_block_layout 1 1 1 [[0]] ex_h0 ex_c0 ex_Wx ex_Wh ex_b
              ex_dnext_h ex_dnext_c)
    as (_ & _ & Hda & _); (lia || reflexivity || exact Hda).
Defined.

Lemma lstm_backward_spec_witness :
  exists r, lstm_backward ex_dh {[0%nat := ex_cache]} = Ok r.
Proof.
  destruct (lstm_backward_spec 1 1 1 1 ex_dh {[0%nat := ex_cache]} (fun _ => ex_cache))
    as (_ & _ & dx & dh0 & dWx & dWh & db & E & _); try (lia || reflexivity).
  - intros [|t] Ht; [reflexivity|lia].
  - by eexists.
Defined.

Lemma lstm_backward_needs_first_cache_witness :
  exists r, lstm_backward ex_dh (lstm_forward ex_x ex_h0 ex_Wx ex_Wh ex_b).2 = Ok r.
Proof.
  destruct (lstm_backward_needs_first_cache 1 1 1 1 ex_x ex_h0 ex_Wx ex_Wh ex_b ex_dh)
    as (_ & _ & H1); try (lia || reflexivity).
  destruct H1 as (c0 & _ & _ & r & E); [lia|]. by exists r.
Defined.

(** ** [rel_error] *)

Lemma tiny_pos : 0 < tiny.
Proof. unfold tiny. apply Rinv_0_lt_compat. lra. Qed.

Lemma rel_error_den_pos (a b : R) : 0 < Rmax tiny (Rabs a + Rabs b).
Proof. pose proof tiny_pos. pose proof (Rmax_l tiny (Rabs a + Rabs b)). lra. Qed.

Lemma rel_error_entry_range (a b : R) : 0 <= rel_error_entry a b <= 1.
Proof.
  unfold rel_error_entry. pose proof (rel_error_den_pos a b) as Hd.
  pose proof (Rabs_pos (a - b)) as Hn.
  assert (Hle : Rabs (a - b) <= Rmax tiny (Rabs a + Rabs b)).
  { pose proof (Rabs_triang a (- b)) as Ht. rewrite Rabs_Ropp in Ht.
    pose proof (Rmax_r tiny (Rabs a + Rabs b)). unfold Rminus. lra. }
  split.
  - apply Rmult_le_pos; [done|]. left. by apply Rinv_0_lt_compat.
  - apply (Rmult_le_reg_r (Rmax tiny (Rabs a + Rabs b))); [done|].
    unfold Rdiv. rewrite Rmult_assoc, Rinv_l by lra. lra.
Qed.

Lemma rel_error_entry_zero (a b : R) : rel_error_entry a b = 0 <-> a = b.
Proof.
  unfold rel_error_entry. pose proof (rel_error_den_pos a b) as Hd. split.
  - intros E. apply (Rmult_eq_compat_r (Rmax tiny (Rabs a + Rabs b))) in E.
    unfold Rdiv in E. rewrite Rmult_assoc, Rinv_l, Rmult_1_r, Rmult_0_l in E by lra.
    destruct (Req_dec (a - b) 0) as [E0|N0]; [lra|].
    apply Rabs_no_R0 in N0. lra.
  - intros ->. unfold Rminus. rewrite Rplus_opp_r, Rabs_R0. unfold Rdiv. ring.
Qed.

Lemma rel_error_entry_sym (a b : R) : rel_error_entry a b = rel_error_entry b a.
Proof. unfold rel_error_entry. by rewrite Rabs_minus_sym, (Rplus_comm (Rabs a)). Qed.

(** The buffer [rel_error] takes the maximum of. *)
Lemma rel_error_quotients (x y : vec) :
  zip_with Rdiv (map Rabs (zip_with Rminus x y))
           (map (Rmax tiny) (zip_with Rplus (map Rabs x) (map Rabs y)))
  = zip_with rel_error_entry x y.
Proof.
  revert y. induction x as [|a x IH]; intros [|b y]; try reflexivity.
  simpl. by rewrite IH.
Qed.

Lemma rel_error_unfold (x y : vec) : rel_error x y = np_max (zip_with rel_error_entry x y).
Proof. unfold rel_error. by rewrite rel_error_quotients. Qed.

(** [foldl Rmax] returns an upper bound of the start value and the list that
    is the start value or an entry of the list. *)
Lemma foldl_Rmax_spec (l : vec) (v : R) :
  v <= foldl Rmax v l
  /\ Forall (fun w => w <= foldl Rmax v l) l
  /\ (foldl Rmax v l = v \/ foldl Rmax v l ∈ l).
Proof.
  revert v. induction l as [|w l IH]; intros v; simpl.
  - split; [lra|]. split; [constructor|by left].
  - destruct (IH (Rmax v w)) as (I1 & I2 & I3).
    pose proof (Rmax_l v w). pose proof (Rmax_r v w).
    split; [lra|]. split; [constructor; [lra|done]|].
    destruct I3 as [E|E].
    + rewrite E. unfold Rmax. destruct (Rle_dec v w); [right; constructor|by left].
    + right. by constructor.
Qed.

Lemma np_max_spec (l : vec) (m : R) :
  np_max l = Some m -> Forall (fun w => w <= m) l /\ m ∈ l.
Proof.
  destruct l as [|v l]; [done|]. simpl. intros [= <-].
  destruct (foldl_Rmax_spec l v) as (I1 & I2 & I3). split.
  - by constructor.
  - destruct I3 as [->|E]; [constructor|by constructor].
Qed.

Lemma np_max_none (l : vec) : np_max l = None <-> l = [].
Proof. by destruct l. Qed.

Lemma nth_zip_rel_error (x y : vec) (k : nat) :
  length x = length y -> (k < length x)%nat ->
  nth k (zip_with rel_error_entry x y) 0 = rel_error_entry (nth k x 0) (nth k y 0).
Proof. intros Hl Hk. apply (nth_zip_with_lt _ _ _ _ 0 0); lia. Qed.

(** X1.  On two buffers of one length [rel_error] raises exactly when they
    are empty, and every value it returns lies between 0 and 1. *)
Theorem rel_error_range (x y : vec) :
  length x = length y ->
  (rel_error x y = None <-> x = [])
  /\ (forall e, rel_error x y = Some e -> 0 <= e <= 1).
Proof.
  intros Hl. rewrite rel_error_unfold. split.
  - rewrite np_max_none. split.
    + intros E. destruct x, y; simpl in *; done.
    + by intros ->.
  - intros e He. apply np_max_spec in He as [_ Hin].
    apply list_elem_of_lookup in Hin as [k Hk].
    apply lookup_zip_with_Some in Hk as (a & b & -> & _ & _).
    apply rel_error_entry_range.
Qed.

Lemma rel_error_range_witness :
  exists e, rel_error [1; 2] [1; 3] = Some e /\ 0 <= e <= 1.
Proof.
  eexists. split; [reflexivity|].
  by apply (rel_error_range [1; 2] [1; 3]).
Defined.

(** X2.  The value [rel_error] returns bounds the error of every entry
    relative to [max(1e-8, |x| + |y|)], and the bound is met at some entry. *)
Theorem rel_error_bounds_entries (x y : vec) (e : R) :
  length x = length y -> rel_error x y = Some e ->
  (forall k, (k < length x)%nat ->
     Rabs (nth k x 0 - nth k y 0)
     <= e * Rmax tiny (Rabs (nth k x 0) + Rabs (nth k y 0)))
  /\ (exists k, (k < length x)%nat
        /\ Rabs (nth k x 0 - nth k y 0)
           = e * Rmax tiny (Rabs (nth k x 0) + Rabs (nth k y 0))).
Proof.
  intros Hl He. rewrite rel_error_unfold in He.
  apply np_max_spec in He as [Hall Hin].
  assert (Hlz : length (zip_with rel_error_entry x y) = length x).
  { rewrite length_zip_with. lia. }
  assert (Hq : forall a b, Rabs (a - b)
                 = rel_error_entry a b * Rmax tiny (Rabs a + Rabs b)).
  { intros a b. unfold rel_error_entry. pose proof (rel_error_den_pos a b).
    field. lra. }
  split.
  - intros k Hk. rewrite Hq.
    apply Rmult_le_compat_r; [left; apply rel_error_den_pos|].
    rewrite Forall_forall in Hall. apply Hall.
    rewrite <- nth_zip_rel_error by done.
    apply list_elem_of_In, nth_In. lia.
  - apply list_elem_of_lookup in Hin as [k Hk].
    pose proof (lookup_lt_Some _ _ _ Hk) as Hlt. rewrite Hlz in Hlt.
    exists k. split; [done|].
    rewrite Hq. f_equal.
    rewrite <- nth_zip_rel_error by done.
    by apply nth_lookup_Some with (d := 0) in Hk.
Qed.

Lemma rel_error_bounds_entries_witness :
  Rabs (nth 1 [1; 2] 0 - nth 1 [1; 3] 0)
  <= Rmax (rel_error_entry 1 1) (rel_error_entry 2 3)
     * Rmax tiny (Rabs (nth 1 [1; 2] 0) + Rabs (nth 1 [1; 3] 0)).
Proof.
  refine (proj1 (rel_error_bounds_entries [1; 2] [1; 3] _ _ _) 1%nat _).
  - reflexivity.
  - rewrite rel_error_unfold. reflexivity.
  - simpl. lia.
Defined.

(** X3.  On two non-empty buffers of one length [rel_error] returns 0 exactly
    when the buffers are equal. *)
Theorem rel_error_zero_iff (x y : vec) :
  length x = length y -> x <> [] ->
  (rel_error x y = Some 0 <-> x = y).
Proof.
  intros Hl Hne. rewrite rel_error_unfold. split.
  - intros He. apply np_max_spec in He as [Hall _].
    rewrite Forall_forall in Hall.
    apply (nth_ext _ _ 0 0 Hl). intros k Hk.
    apply rel_error_entry_zero.
    pose proof (rel_error_entry_range (nth k x 0) (nth k y 0)) as [Hge _].
    assert (Hle : rel_error_entry (nth k x 0) (nth k y 0) <= 0); [|lra].
    apply Hall. rewrite <- nth_zip_rel_error by done.
    apply list_elem_of_In, nth_In. rewrite length_zip_with. lia.
  - intros <-. destruct x as [|a x]; [done|]. simpl. f_equal.
    assert (E0 : rel_error_entry a a = 0) by (by apply rel_error_entry_zero).
    rewrite E0. clear Hl Hne E0.
    induction x as [|b x IH]; [done|]. simpl.
    assert (E0 : rel_error_entry b b = 0) by (by apply rel_error_entry_zero).
    rewrite E0, Rmax_left by lra. exact IH.
Qed.

Lemma rel_error_zero_iff_witness :
  rel_error [1; 2] [1; 2] = Some 0.
Proof.
  apply (rel_error_zero_iff [1; 2] [1; 2]); done.
Defined.

(** X4.  [rel_error] does not depend on the order of its two arguments. *)
Theorem rel_error_sym (x y : vec) : rel_error x y = rel_error y x.
Proof.
  rewrite !rel_error_unfold. f_equal.
  revert y. induction x as [|a x IH]; intros [|b y]; try reflexivity.
  simpl. by rewrite IH, rel_error_entry_sym.
Qed.

(** ** Ranges of the activations *)

Lemma logistic_range (v : R) : 0 < logistic v < 1.
Proof.
  unfold logistic. pose proof (exp_pos (- v)) as He.
  split.
  - apply Rdiv_lt_0_compat; lra.
  - apply (Rmult_lt_reg_r (1 + exp (- v))); [lra|].
    unfold Rdiv. rewrite Rmult_assoc, Rinv_l by lra. lra.
Qed.

Lemma logistic_mono (u v : R) : u <= v -> logistic u <= logistic v.
Proof.
  intros Huv. unfold logistic.
  pose proof (exp_pos (- u)) as Hu. pose proof (exp_pos (- v)) as Hv.
  assert (He : exp (- v) <= exp (- u)).
  { destruct Huv as [Hlt| ->]; [left; apply exp_increasing; lra|lra]. }
  unfold Rdiv. rewrite !Rmult_1_l.
  apply Rinv_le_contravar; lra.
Qed.

Lemma tanh_range (a : R) : -1 < tanh a < 1.
Proof. pose proof (one_minus_tanh2_pos a). nra. Qed.

Lemma cell_h_range (ai af ao ag c : R) : Rabs (cell_h ai af ao ag c) <= 1.
Proof.
  unfold cell_h. pose proof (logistic_range ao) as Ho.
  pose proof (tanh_range (cell_c ai af ag c)) as Ht.
  apply Rabs_le. nra.
Qed.

Lemma cell_c_range (ai af ag c : R) : Rabs (cell_c ai af ag c) <= Rabs c + 1.
Proof.
  unfold cell_c. pose proof (logistic_range af) as Hf.
  pose proof (logistic_range ai) as Hi. pose proof (tanh_range ag) as Hg.
  assert (H1 : Rabs (logistic af * c) <= Rabs c).
  { rewrite Rabs_mult, (Rabs_pos_eq (logistic af)) by lra.
    pose proof (Rabs_pos c). nra. }
  assert (H2 : Rabs (logistic ai * tanh ag) <= 1).
  { apply Rabs_le. nra. }
  pose proof (Rabs_triang (logistic af * c) (logistic ai * tanh ag)). lra.
Qed.

(** X5.  [sigmoid] keeps the shape of its argument, and every entry of its
    result lies between 0 and 1. *)
Theorem sigmoid_shape_range (M : matrix) :
  length (sigmoid M) = length M
  /\ map length (sigmoid M) = map length M
  /\ Forall (Forall (fun v => 0 <= v <= 1)) (sigmoid M).
Proof.
  rewrite sigmoid_map. split; [by rewrite length_map|]. split.
  - rewrite <- list_fmap_compose. apply map_ext. intros r. simpl. by rewrite length_map.
  - apply Forall_map, Forall_true. intros r.
    apply Forall_map, Forall_true. intros v. simpl.
    pose proof (logistic_range v). lra.
Qed.

(** X6.  [sigmoid] is monotone: on two buffers ordered entry by entry the
    results are ordered entry by entry, across the two branches of the
    computation. *)
Theorem sigmoid_monotone (x y : vec) :
  Forall2 Rle x y -> Forall2 Rle (sigmoid_flat x) (sigmoid_flat y).
Proof.
  intros Hxy. rewrite !sigmoid_flat_map.
  induction Hxy as [|u v x y Huv Hxy IH]; [constructor|].
  cbn [map]. constructor; [|exact IH].
  rewrite !sigmoid_entry_logistic. by apply logistic_mono.
Qed.

Lemma sigmoid_monotone_witness :
  Forall2 Rle (sigmoid_flat [-1; 0]) (sigmoid_flat [1; 0]).
Proof.
  apply (sigmoid_monotone [-1; 0] [1; 0]).
  repeat constructor; lra.
Defined.

(** ** Bounds on the states of the cell *)

Lemma step_forward_entry_bounds
  (N D H : nat) (x prev_h prev_c Wx Wh : matrix) (b : vec) (n j : nat) :
  (0 < N)%nat -> (0 < D)%nat -> (0 < H)%nat ->
  has_shape N D x = true -> has_shape N H prev_h = true ->
  has_shape N H prev_c = true -> has_shape D (4 * H) Wx = true ->
  has_shape H (4 * H) Wh = true -> has_len (4 * H) b = true ->
  (n < N)%nat -> (j < H)%nat ->
  Rabs (mget (lstm_step_forward x prev_h prev_c Wx Wh b).1.1 n j) <= 1
  /\ Rabs (mget (lstm_step_forward x prev_h prev_c Wx Wh b).1.2 n j)
     <= Rabs (mget prev_c n j) + 1.
Proof.
  intros HN HD HH Hx Hh Hc HWx HWh Hb Hn Hj.
  destruct (next_entries N D H x prev_h prev_c Wx Wh b HN HD HH Hx Hh Hc HWx HWh Hb
              n j Hn Hj) as [Ec Eh].
  rewrite Ec, Eh. split; [apply cell_h_range|apply cell_c_range].
Qed.

(** X7.  On operands of agreeing shapes the cell step returns a hidden state
    and a cell state of shape [(N, H)]; every entry of the hidden state has
    magnitude at most 1, and every entry of the cell state exceeds the
    magnitude of the matching entry of [prev_c] by at most 1. *)
Theorem lstm_step_forward_bounded
  (N D H : nat) (x prev_h prev_c Wx Wh : matrix) (b : vec) :
  (0 < N)%nat -> (0 < D)%nat -> (0 < H)%nat ->
  has_shape N D x = true -> has_shape N H prev_h = true ->
  has_shape N H prev_c = true -> has_shape D (4 * H) Wx = true ->
  has_shape H (4 * H) Wh = true -> has_len (4 * H) b = true ->
  let r := lstm_step_forward x prev_h prev_c Wx Wh b in
  let next_h := r.1.1 in
  let next_c := r.1.2 in
  has_shape N H next_h = true /\ has_shape N H next_c = true
  /\ (forall n j, (n < N)%nat -> (j < H)%nat ->
        Rabs (mget next_h n j) <= 1
        /\ Rabs (mget next_c n j) <= Rabs (mget prev_c n j) + 1).
Proof.
  intros HN HD HH Hx Hh Hc HWx HWh Hb. cbv zeta.
  destruct (shape_next N D H x prev_h prev_c Wx Wh b HN HD HH Hx Hh Hc HWx HWh Hb)
    as [Sh Sc].
  split; [done|]. split; [done|]. intros n j Hn Hj.
  by apply (step_forward_entry_bounds N D H).
Qed.

Lemma lstm_step_forward_bounded_witness :
  has_shape 1 1 (lstm_step_forward (slice_t ex_x 0) ex_h0 ex_c0 ex_Wx ex_Wh ex_b).1.1
  = true.
Proof.
  refine (proj1 (lstm_step_forward_bounded 1 1 1 (slice_t ex_x 0) ex_h0 ex_c0
                   ex_Wx ex_Wh ex_b _ _ _ _ _ _ _ _ _)); (lia || reflexivity).
Defined.

(** [X[n, t, j]] read through the time slice [X[:, t, :]]. *)
Lemma mget_slice_t (X : tensor3) (n t j : nat) :
  (n < length X)%nat -> mget (slice_t X t) n j = tget X n t j.
Proof.
  intros Hn. unfold mget, slice_t, tget. by rewrite (nth_map_lt _ _ _ []).
Qed.

Section chain_bounds.
Context (N T D H : nat) (x : tensor3) (h0 Wx Wh : matrix) (b : vec).
Context (HN : (0 < N)%nat) (HD : (0 < D)%nat) (HH : (0 < H)%nat).
Context (Hx : has_shape3 N T D x = true).
Context (Hh0 : has_shape N H h0 = true).
Context (HWx : has_shape D (4 * H) Wx = true).
Context (HWh : has_shape H (4 * H) Wh = true).
Context (Hb : has_len (4 * H) b = true).

Local Abbreviation chain := (lstm_chain x h0 (zeros N H) Wx Wh b).

Lemma chain_bounds (i : nat) (n j : nat) :
  (i < T)%nat -> (n < N)%nat -> (j < H)%nat ->
  Rabs (mget (chain (S i)).1 n j) <= 1
  /\ Rabs (mget (chain (S i)).2 n j) <= INR (S i).
Proof using All.
  intros Hi Hn Hj.
  assert (Hc : forall i, (i <= T)%nat -> Rabs (mget (chain i).2 n j) <= INR i).
  { clear i Hi. induction i as [|i IH]; intros Hi.
    - cbn [lstm_chain snd]. rewrite mget_zeros by done. rewrite Rabs_R0. simpl. lra.
    - destruct (chain_shape N T D H x h0 (zeros N H) Wx Wh b HN HD HH Hx Hh0
                  (shape_zeros N H) HWx HWh Hb i) as [Sh Sc]; [lia|].
      rewrite (chain_S x h0 (zeros N H) Wx Wh b). cbn [snd].
      destruct (step_forward_entry_bounds N D H (slice_t x i) (chain i).1 (chain i).2
                  Wx Wh b n j HN HD HH (shape_slice_t N T D x i Hx Hi) Sh Sc
                  HWx HWh Hb Hn Hj) as [_ B].
      rewrite S_INR. specialize (IH ltac:(lia)). lra. }
  split; [|apply Hc; lia].
  destruct (chain_shape N T D H x h0 (zeros N H) Wx Wh b HN HD HH Hx Hh0
              (shape_zeros N H) HWx HWh Hb i) as [Sh Sc]; [lia|].
  rewrite (chain_S x h0 (zeros N H) Wx Wh b). cbn [fst].
  by destruct (step_forward_entry_bounds N D H (slice_t x i) (chain i).1 (chain i).2
                 Wx Wh b n j HN HD HH (shape_slice_t N T D x i Hx Hi) Sh Sc
                 HWx HWh Hb Hn Hj) as [B _].
Qed.

End chain_bounds.

(** X8.  Every entry of the hidden states [lstm_forward] returns has
    magnitude at most 1, and every entry of the cell state recorded in the
    cache of step [t] has magnitude at most [t + 1]: the cell state starts at
    0 and grows by at most 1 per step. *)
Theorem lstm_forward_bounded
  (N T D H : nat) (x : tensor3) (h0 Wx Wh : matrix) (b : vec) :
  (0 < N)%nat -> (0 < D)%nat -> (0 < H)%nat ->
  has_shape3 N T D x = true -> has_shape N H h0 = true ->
  has_shape D (4 * H) Wx = true -> has_shape H (4 * H) Wh = true ->
  has_len (4 * H) b = true ->
  let r := lstm_forward x h0 Wx Wh b in
  (forall n t j, (n < N)%nat -> (t < T)%nat -> (j < H)%nat ->
     Rabs (tget r.1 n t j) <= 1)
  /\ (forall t c, r.2 !! t = Some c ->
        forall n j, (n < N)%nat -> (j < H)%nat ->
          Rabs (mget (c_next_c c) n j) <= INR (t + 1)).
Proof.
  intros HN HD HH Hx Hh0 HWx HWh Hb. cbv zeta. split.
  - intros n t j Hn Ht Hj.
    pose proof (forward_h_shape N T D H x h0 Wx Wh b HN HD HH Hx Hh0 HWx HWh Hb) as Sh.
    rewrite <- mget_slice_t by (by rewrite (shape3_length _ _ _ _ Sh)).
    rewrite (forward_h_slice N T D H) by done.
    by destruct (chain_bounds N T D H x h0 Wx Wh b HN HD HH Hx Hh0 HWx HWh Hb
                   t n j Ht Hn Hj) as [B _].
  - intros t c Hc n j Hn Hj.
    rewrite (forward_caches_lookup N T D H) in Hc by done.
    destruct (decide (t < T)%nat) as [Ht|]; [|done]. injection Hc as <-.
    destruct (chain_cache_states N T D H x h0 Wx Wh b HN HD HH Hx Hh0 HWx HWh Hb t Ht)
      as (_ & _ & _ & _ & ->).
    replace (t + 1)%nat with (S t) by lia.
    by destruct (chain_bounds N T D H x h0 Wx Wh b HN HD HH Hx Hh0 HWx HWh Hb
                   t n j Ht Hn Hj) as [_ B].
Qed.

Lemma lstm_forward_bounded_witness :
  Rabs (tget (lstm_forward ex_x ex_h0 ex_Wx ex_Wh ex_b).1 0 0 0) <= 1.
Proof.
  refine (proj1 (lstm_forward_bounded 1 1 1 1 ex_x ex_h0 ex_Wx ex_Wh ex_b
                   _ _ _ _ _ _ _ _) 0%nat 0%nat 0%nat _ _ _); (lia || reflexivity).
Defined.

(** ** Causality of the sequence forward pass *)

Lemma chain_causal (x x' : tensor3) (h0 c0 Wx Wh : matrix) (b : vec) (i : nat) :
  (forall s, (s < i)%nat -> slice_t x s = slice_t x' s) ->
  lstm_chain x h0 c0 Wx Wh b i = lstm_chain x' h0 c0 Wx Wh b i.
Proof.
  induction i as [|i IH]; intros Hs; [reflexivity|].
  cbn [lstm_chain]. rewrite IH by (intros; apply Hs; lia).
  by rewrite (Hs i) by lia.
Qed.

(** X9.  The sequence forward pass is causal: two input sequences that
    agree on the timesteps [0 .. t] give the same hidden state at position
    [t] and the same cache under key [t], whatever follows. *)
Theorem lstm_forward_causal
  (N T D H : nat) (x x' : tensor3) (h0 Wx Wh : matrix) (b : vec) (t : nat) :
  (0 < N)%nat -> (0 < D)%nat -> (0 < H)%nat ->
  has_shape3 N T D x = true -> has_shape3 N T D x' = true ->
  has_shape N H h0 = true ->
  has_shape D (4 * H) Wx = true -> has_shape H (4 * H) Wh = true ->
  has_len (4 * H) b = true ->
  (t < T)%nat -> (forall s, (s <= t)%nat -> slice_t x s = slice_t x' s) ->
  slice_t (lstm_forward x h0 Wx Wh b).1 t = slice_t (lstm_forward x' h0 Wx Wh b).1 t
  /\ (lstm_forward x h0 Wx Wh b).2 !! t = (lstm_forward x' h0 Wx Wh b).2 !! t.
Proof.
  intros HN HD HH Hx Hx' Hh0 HWx HWh Hb Ht Hs. split.
  - rewrite !(forward_h_slice N T D H) by done.
    f_equal. apply chain_causal. intros s Hlt. apply Hs. lia.
  - rewrite !(forward_caches_lookup N T D H) by done.
    destruct (decide (t < T)%nat); [|done]. f_equal.
    unfold chain_cache.
    rewrite (chain_causal x x' h0 (zeros N H) Wx Wh b t)
      by (intros s Hlt; apply Hs; lia).
    by rewrite (Hs t) by lia.
Qed.

Lemma lstm_forward_causal_witness :
  slice_t [[[0]; [0]]] 1 <> slice_t [[[0]; [1]]] 1
  /\ slice_t (lstm_forward [[[0]; [0]]] ex_h0 ex_Wx ex_Wh ex_b).1 0
     = slice_t (lstm_forward [[[0]; [1]]] ex_h0 ex_Wx ex_Wh ex_b).1 0
  /\ (lstm_forward [[[0]; [0]]] ex_h0 ex_Wx ex_Wh ex_b).2 !! 0%nat
     = (lstm_forward [[[0]; [1]]] ex_h0 ex_Wx ex_Wh ex_b).2 !! 0%nat.
Proof.
  split.
  - cbn. intros E. injection E as E. lra.
  - apply (lstm_forward_causal 1 2 1 1 [[[0]; [0]]] [[[0]; [1]]]
             ex_h0 ex_Wx ex_Wh ex_b 0); try lia; try reflexivity.
    intros s Hs. replace s with 0%nat by lia. reflexivity.
Defined.

(** ** Which keys [lstm_backward] reads *)

Lemma for_each_app {A S : Type} (body : S -> A -> result S) (s : S) (l1 l2 : list A) :
  for_each body s (l1 ++ l2)
  = rbind (for_each body s l1) (fun s' => for_each body s' l2).
Proof.
  revert s. induction l1 as [|a l1 IH]; intros s; [reflexivity|].
  cbn [app for_each]. destruct (body s a) as [s'|e]; [apply IH|reflexivity].
Qed.

Lemma for_each_ext {A S : Type} (body body' : S -> A -> result S) (s : S) (l : list A) :
  (forall s a, a ∈ l -> body s a = body' s a) ->
  for_each body s l = for_each body' s l.
Proof.
  revert s. induction l as [|a l IH]; intros s Hb; [reflexivity|].
  cbn [for_each]. rewrite (Hb s a) by constructor.
  destruct (body' s a) as [s'|e]; [|reflexivity]. cbn [rbind].
  apply IH. intros s0 a0 Ha0. apply Hb. by constructor.
Qed.

Lemma backward_body_present (dh : tensor3) (cache : gmap nat step_cache) st (i : nat) :
  is_Some (cache !! i) -> exists st', lstm_backward_body dh cache st i = Ok st'.
Proof.
  intros [c Hc]. destruct st as [[[[[dx dprev] dprev_c] dWx] dWh] db].
  unfold lstm_backward_body, dict_get. rewrite Hc. cbn [rbind].
  destruct (lstm_step_backward _ _ _) as [[[[[? ?] ?] ?] ?] ?]. by eexists.
Qed.

Lemma backward_body_missing (dh : tensor3) (cache : gmap nat step_cache) st (i : nat) :
  cache !! i = None -> lstm_backward_body dh cache st i = Raise (KeyError i).
Proof.
  intros Hc. destruct st as [[[[[dx dprev] dprev_c] dWx] dWh] db].
  unfold lstm_backward_body, dict_get. by rewrite Hc.
Qed.

Lemma backward_loop_present (dh : tensor3) (cache : gmap nat step_cache) st
  (l : list nat) :
  (forall i, i ∈ l -> is_Some (cache !! i)) ->
  exists st', for_each (lstm_backward_body dh cache) st l = Ok st'.
Proof.
  revert st. induction l as [|i l IH]; intros st Hl; [by eexists|].
  cbn [for_each].
  destruct (backward_body_present dh cache st i) as [st1 E1]; [apply Hl; constructor|].
  rewrite E1. cbn [rbind]. apply IH. intros j Hj. apply Hl. by constructor.
Qed.

Lemma rev_seq_split (T k : nat) :
  (k < T)%nat -> rev (seq 0 T) = rev (seq (S k) (T - S k)) ++ k :: rev (seq 0 k).
Proof.
  intros Hk. replace T with (k + S (T - S k))%nat at 1 by lia.
  rewrite seq_app. cbn [seq]. rewrite rev_app_distr. cbn [rev Nat.add].
  by rewrite <- app_assoc.
Qed.

(** X10.  A dictionary that lacks key 0 makes [lstm_backward] raise
    [KeyError 0], whatever [dh] and the other keys are: [cache[0]] is read
    before the loop.  A dictionary that holds key 0 but lacks a key below
    the sequence length [T] makes it raise [KeyError] for the largest missing
    key below [T], the first one the reversed loop meets. *)
Theorem lstm_backward_missing_key
  (N T D H : nat) (dh : tensor3) (cache : gmap nat step_cache) :
  (cache !! 0%nat = None -> lstm_backward dh cache = Raise (KeyError 0))
  /\ ((0 < N)%nat -> (0 < D)%nat -> (0 < H)%nat ->
      has_shape3 N T H dh = true ->
      (forall t c, cache !! t = Some c -> cache_has_shape N D H c = true) ->
      is_Some (cache !! 0%nat) ->
      forall k, (k < T)%nat -> cache !! k = None ->
        (forall t, (k < t < T)%nat -> is_Some (cache !! t)) ->
        lstm_backward dh cache = Raise (KeyError k)).
Proof.
  split.
  { intros E0. unfold lstm_backward. destruct (shape3 dh) as [[N0 T0] H0].
    unfold dict_get. by rewrite E0. }
  intros HN HD HH Hdh _ [c0 E0] k Hk Hnone Hlater.
  destruct (shape3_dims N T H dh Hdh HN) as [HlN HlT].
  unfold lstm_backward, shape3. rewrite HlN, HlT.
  unfold dict_get at 1. rewrite E0. cbn [rbind].
  destruct (shape2 (c_x c0)) as [N' D'].
  rewrite (rev_seq_split T k Hk), for_each_app.
  destruct (backward_loop_present dh cache
              (zeros3 N T D', zeros N (length (hd [] (hd [] dh))),
               zeros N (length (hd [] (hd [] dh))),
               zeros D' (4 * length (hd [] (hd [] dh))),
               zeros (length (hd [] (hd [] dh))) (4 * length (hd [] (hd [] dh))),
               zeros1 (4 * length (hd [] (hd [] dh))))
              (rev (seq (S k) (T - S k)))) as [st' E].
  { intros i Hi. apply list_elem_of_In, in_rev, in_seq in Hi. apply Hlater. lia. }
  rewrite E. cbn [rbind for_each]. by rewrite backward_body_missing.
Qed.

Lemma lstm_backward_missing_key_witness :
  lstm_backward [[[1]; [1]]] {[2%nat := ex_cache]} = Raise (KeyError 0)
  /\ lstm_backward [[[1]; [1]]] {[0%nat := ex_cache]} = Raise (KeyError 1).
Proof.
  split.
  - apply (proj1 (lstm_backward_missing_key 1 2 1 1 [[[1]; [1]]]
                    {[2%nat := ex_cache]})).
    reflexivity.
  - apply (proj2 (lstm_backward_missing_key 1 2 1 1 [[[1]; [1]]]
                    {[0%nat := ex_cache]})).
    + lia.
    + lia.
    + lia.
    + reflexivity.
    + intros t c Hc. apply lookup_singleton_Some in Hc as [_ <-]. reflexivity.
    + by eexists.
    + lia.
    + reflexivity.
    + intros t Ht. lia.
Defined.

(** X11.  For a [dh] with at least one timestep ([T >= 1]),
    [lstm_backward] reads the dictionary at the keys below [T] only: two
    dictionaries that agree there give the same result, whatever else they
    hold. *)
Theorem lstm_backward_ignores_extra_keys
  (N T H : nat) (dh : tensor3) (cache cache' : gmap nat step_cache) :
  (0 < N)%nat -> (0 < T)%nat -> has_shape3 N T H dh = true ->
  (forall t, (t < T)%nat -> cache !! t = cache' !! t) ->
  lstm_backward dh cache = lstm_backward dh cache'.
Proof.
  intros HN HT Hdh Hag.
  destruct (shape3_dims N T H dh Hdh HN) as [HlN HlT].
  unfold lstm_backward, shape3. rewrite HlN, HlT.
  unfold dict_get. rewrite (Hag 0%nat HT).
  destruct (cache' !! 0%nat) as [c0|]; [|reflexivity]. cbn [rbind].
  destruct (shape2 (c_x c0)) as [N' D'].
  erewrite for_each_ext; [reflexivity|].
  intros st i Hi. apply list_elem_of_In, in_rev, in_seq in Hi.
  destruct st as [[[[[dx dprev] dprev_c] dWx] dWh] db].
  unfold lstm_backward_body, dict_get. by rewrite Hag by lia.
Qed.

Lemma lstm_backward_ignores_extra_keys_witness :
  lstm_backward ex_dh {[0%nat := ex_cache]}
  = lstm_backward ex_dh (<[5%nat := ex_cache]> {[0%nat := ex_cache]}).
Proof.
  apply (lstm_backward_ignores_extra_keys 1 1 1).
  - lia.
  - lia.
  - reflexivity.
  - intros t Ht. replace t with 0%nat by lia. reflexivity.
Defined.

(** ** Interchanging finite sums *)

Lemma bigsum_swap (K1 K2 : nat) (f : nat -> nat -> R) :
  bigsum K1 (fun a => bigsum K2 (fun b => f a b))
  = bigsum K2 (fun b => bigsum K1 (fun a => f a b)).
Proof.
  induction K1 as [|K1 IH]; cbn [bigsum].
  - by rewrite bigsum_zero.
  - by rewrite IH, bigsum_plus.
Qed.

(** ** The pairing of the backward results with input derivatives *)

Section pairing.
Context (N D H : nat) (dnext_h dnext_c : matrix) (cache : step_cache).
Context (HN : (0 < N)%nat) (HD : (0 < D)%nat) (HH : (0 < H)%nat).
Context (Hdh : has_shape N H dnext_h = true).
Context (Hdc : has_shape N H dnext_c = true).
Context (Hcache : cache_has_shape N D H cache = true).
Context (X' Hp' C' WX' WH' : nat -> nat -> R) (B' : nat -> R).

Local Abbreviation dcn := (dnext_c_updated dnext_h dnext_c cache).
Local Abbreviation dact := (dactivation_of dnext_h dcn cache).
Local Abbreviation res := (lstm_step_backward dnext_h dnext_c cache).

(** The value that the derivative of the step loss along a path takes, as
    the pairing of the six results with the derivatives of the inputs. *)
Lemma step_pairing_value :
  bigsum N (fun n => bigsum (4 * H) (fun k =>
    mget dact n k
    * (bigsum D (fun d => X' n d * mget (c_Wx cache) d k
                          + mget (c_x cache) n d * WX' d k)
       + bigsum H (fun j => Hp' n j * mget (c_Wh cache) j k
                            + mget (c_prev_h cache) n j * WH' j k)
       + B' k)))
  + bigsum N (fun n => bigsum H (fun j => mget res.1.1.1.2 n j * C' n j))
  = step_pairing N D H res X' Hp' C' WX' WH' B'.
Proof using All.
  destruct (step_backward_entries N D H dnext_h dnext_c cache HN HD HH Hdh Hdc Hcache)
    as (Ex & Eh & _ & EWx & EWh & Eb).
  unfold step_pairing.
  destruct res as [[[[[dx dprev_h] dprev_c] dWx] dWh] db] eqn:Eres.
  cbn [fst snd] in *. unfold ip2, ip1.
  (* the five sums hidden in the first term *)
  assert (E1 : bigsum N (fun n => bigsum D (fun d => mget dx n d * X' n d))
               = bigsum N (fun n => bigsum (4 * H) (fun k =>
                   mget dact n k * bigsum D (fun d => X' n d * mget (c_Wx cache) d k)))).
  { apply bigsum_ext. intros n Hn.
    rewrite (bigsum_ext D _ (fun d => bigsum (4 * H) (fun k =>
               mget dact n k * (X' n d * mget (c_Wx cache) d k)))).
    2:{ intros d Hd. rewrite Ex by done. rewrite Rmult_comm, <- bigsum_scal_l.
        apply bigsum_ext. intros k Hk. ring. }
    rewrite bigsum_swap. apply bigsum_ext. intros k Hk. by rewrite bigsum_scal_l. }
  assert (E2 : bigsum N (fun n => bigsum H (fun j => mget dprev_h n j * Hp' n j))
               = bigsum N (fun n => bigsum (4 * H) (fun k =>
                   mget dact n k * bigsum H (fun j => Hp' n j * mget (c_Wh cache) j k)))).
  { apply bigsum_ext. intros n Hn.
    rewrite (bigsum_ext H _ (fun j => bigsum (4 * H) (fun k =>
               mget dact n k * (Hp' n j * mget (c_Wh cache) j k)))).
    2:{ intros j Hj. rewrite Eh by done. rewrite Rmult_comm, <- bigsum_scal_l.
        apply bigsum_ext. intros k Hk. ring. }
    rewrite bigsum_swap. apply bigsum_ext. intros k Hk. by rewrite bigsum_scal_l. }
  assert (E3 : bigsum D (fun d => bigsum (4 * H) (fun k => mget dWx d k * WX' d k))
               = bigsum N (fun n => bigsum (4 * H) (fun k =>
                   mget dact n k * bigsum D (fun d => mget (c_x cache) n d * WX' d k)))).
  { rewrite (bigsum_ext D _ (fun d => bigsum N (fun n => bigsum (4 * H) (fun k =>
               mget dact n k * (mget (c_x cache) n d * WX' d k))))).
    2:{ intros d Hd. rewrite bigsum_swap. apply bigsum_ext. intros k Hk.
        rewrite EWx by done. rewrite Rmult_comm, <- bigsum_scal_l.
        apply bigsum_ext. intros n Hn. ring. }
    rewrite bigsum_swap. apply bigsum_ext. intros n Hn.
    rewrite bigsum_swap. apply bigsum_ext. intros k Hk. by rewrite bigsum_scal_l. }
  assert (E4 : bigsum H (fun j => bigsum (4 * H) (fun k => mget dWh j k * WH' j k))
               = bigsum N (fun n => bigsum (4 * H) (fun k =>
                   mget dact n k
                   * bigsum H (fun j => mget (c_prev_h cache) n j * WH' j k)))).
  { rewrite (bigsum_ext H _ (fun j => bigsum N (fun n => bigsum (4 * H) (fun k =>
               mget dact n k * (mget (c_prev_h cache) n j * WH' j k))))).
    2:{ intros j Hj. rewrite bigsum_swap. apply bigsum_ext. intros k Hk.
        rewrite EWh by done. rewrite Rmult_comm, <- bigsum_scal_l.
        apply bigsum_ext. intros n Hn. ring. }
    rewrite bigsum_swap. apply bigsum_ext. intros n Hn.
    rewrite bigsum_swap. apply bigsum_ext. intros k Hk. by rewrite bigsum_scal_l. }
  assert (E5 : bigsum (4 * H) (fun k => vget db k * B' k)
               = bigsum N (fun n => bigsum (4 * H) (fun k => mget dact n k * B' k))).
  { rewrite bigsum_swap. apply bigsum_ext. intros k Hk.
    rewrite Eb by done. rewrite Rmult_comm, <- bigsum_scal_l.
    apply bigsum_ext. intros n Hn. ring. }
  rewrite E1, E2, E3, E4, E5. clear E1 E2 E3 E4 E5.
  set (S1 := fun n => bigsum (4 * H) (fun k =>
         mget dact n k * bigsum D (fun d => X' n d * mget (c_Wx cache) d k))).
  set (S2 := fun n => bigsum (4 * H) (fun k =>
         mget dact n k * bigsum H (fun j => Hp' n j * mget (c_Wh cache) j k))).
  set (S3 := fun n => bigsum (4 * H) (fun k =>
         mget dact n k * bigsum D (fun d => mget (c_x cache) n d * WX' d k))).
  set (S4 := fun n => bigsum (4 * H) (fun k =>
         mget dact n k * bigsum H (fun j => mget (c_prev_h cache) n j * WH' j k))).
  set (S5 := fun n => bigsum (4 * H) (fun k => mget dact n k * B' k)).
  assert (EL : bigsum N (fun n => bigsum (4 * H) (fun k =>
                 mget dact n k
                 * (bigsum D (fun d => X' n d * mget (c_Wx cache) d k
                                       + mget (c_x cache) n d * WX' d k)
                    + bigsum H (fun j => Hp' n j * mget (c_Wh cache) j k
                                         + mget (c_prev_h cache) n j * WH' j k)
                    + B' k)))
               = bigsum N (fun n => S1 n + S3 n + S2 n + S4 n + S5 n)).
  { apply bigsum_ext. intros n Hn. subst S1 S2 S3 S4 S5. cbv beta.
    rewrite <- !bigsum_plus. apply bigsum_ext. intros k Hk.
    rewrite !bigsum_plus. ring. }
  rewrite EL, !bigsum_plus. ring.
Qed.

End pairing.

(** ** The step loss as a pairing, and its derivative along a path *)

Lemma ip2_ext (N K : nat) (M : matrix) (F G : nat -> nat -> R) :
  (forall n k, (n < N)%nat -> (k < K)%nat -> F n k = G n k) ->
  ip2 N K M F = ip2 N K M G.
Proof.
  intros HFG. unfold ip2. apply bigsum_ext. intros n Hn.
  apply bigsum_ext. intros k Hk. by rewrite HFG.
Qed.

Lemma ip2_zeros (N K : nat) (F : nat -> nat -> R) : ip2 N K (zeros N K) F = 0.
Proof.
  unfold ip2. apply bigsum_zero_ext. intros n Hn.
  apply bigsum_zero_ext. intros k Hk. rewrite mget_zeros. ring.
Qed.

Lemma ip2_zero_r (N K : nat) (M : matrix) : ip2 N K M (fun _ _ => 0) = 0.
Proof.
  unfold ip2. apply bigsum_zero_ext. intros n Hn.
  apply bigsum_zero_ext. intros k Hk. ring.
Qed.

Lemma ip1_zero_r (K : nat) (v : vec) : ip1 K v (fun _ => 0) = 0.
Proof. unfold ip1. apply bigsum_zero_ext. intros k Hk. ring. Qed.

Lemma ip2_madd (N K : nat) (A B : matrix) (F : nat -> nat -> R) :
  has_shape N K A = true -> has_shape N K B = true ->
  ip2 N K (madd A B) F = ip2 N K A F + ip2 N K B F.
Proof.
  intros HA HB. unfold ip2. rewrite <- bigsum_plus. apply bigsum_ext. intros n Hn.
  rewrite <- bigsum_plus. apply bigsum_ext. intros k Hk.
  rewrite (mget_madd N K) by done. ring.
Qed.

Lemma shape_unit2 (N K n k : nat) : has_shape N K (unit2 N K n k) = true.
Proof. apply shape_mset, shape_zeros. Qed.

Lemma ip2_unit2 (N K n0 k0 : nat) (F : nat -> nat -> R) :
  (n0 < N)%nat -> (k0 < K)%nat -> ip2 N K (unit2 N K n0 k0) F = F n0 k0.
Proof.
  intros Hn0 Hk0. unfold ip2, unit2.
  apply (bigsum_delta_ext N n0 _ (fun n => F n k0)); [done|]. intros n Hn.
  destruct (decide (n = n0)) as [->|Hne].
  - apply (bigsum_delta_ext K k0 _ (fun k => F n0 k)); [done|]. intros k Hk.
    rewrite (mget_mset N K) by (done || apply shape_zeros).
    destruct (decide (n0 = n0)); [|done].
    destruct (decide (k = k0)); [ring|]. rewrite mget_zeros. ring.
  - apply bigsum_zero_ext. intros k Hk.
    rewrite (mget_mset N K) by (done || apply shape_zeros).
    destruct (decide (n = n0)); [done|]. rewrite mget_zeros. ring.
Qed.

Lemma deriv_ip2 (N K : nat) (M : matrix) (F : R -> nat -> nat -> R)
  (F' : nat -> nat -> R) (t : R) :
  (forall n k, (n < N)%nat -> (k < K)%nat ->
     derivable_pt_lim (fun u => F u n k) t (F' n k)) ->
  derivable_pt_lim (fun u => ip2 N K M (F u)) t (ip2 N K M F').
Proof.
  intros HF. unfold ip2.
  apply (deriv_bigsum N (fun u n => bigsum K (fun k => mget M n k * F u n k))
           (fun n => bigsum K (fun k => mget M n k * F' n k))).
  intros n Hn.
  apply (deriv_bigsum K (fun u k => mget M n k * F u n k)
           (fun k => mget M n k * F' n k)).
  intros k Hk. eapply deriv_eq.
  - apply (deriv_mult (fun _ => mget M n k) (fun u => F u n k)).
    + apply deriv_const.
    + by apply HF.
  - ring.
Qed.

Section step_loss_pairing.
Context (N D H : nat) (dnext_h dnext_c x prev_h prev_c Wx Wh : matrix) (b : vec).
Context (HN : (0 < N)%nat) (HD : (0 < D)%nat) (HH : (0 < H)%nat).
Context (Hdh : has_shape N H dnext_h = true).
Context (Hdc : has_shape N H dnext_c = true).
Context (Hx : has_shape N D x = true).
Context (Hh : has_shape N H prev_h = true).
Context (Hc : has_shape N H prev_c = true).
Context (HWx : has_shape D (4 * H) Wx = true).
Context (HWh : has_shape H (4 * H) Wh = true).
Context (Hb : has_len (4 * H) b = true).

Local Abbreviation r := (lstm_step_forward x prev_h prev_c Wx Wh b).
Local Abbreviation res := (lstm_step_backward dnext_h dnext_c r.2).

(** The step loss pairs the upstream gradients with the two states the
    step returns. *)
Lemma step_loss_pairing :
  step_loss dnext_h dnext_c x prev_h prev_c Wx Wh b
  = ip2 N H dnext_h (mget r.1.1) + ip2 N H dnext_c (mget r.1.2).
Proof using All.
  destruct (shape_next N D H x prev_h prev_c Wx Wh b HN HD HH Hx Hh Hc HWx HWh Hb)
    as [Sh Sc].
  unfold step_loss. destruct r as [[next_h next_c] cache]. cbn [fst snd] in *.
  rewrite (msum_bigsum N H), (msum_bigsum N H) by (by apply shape_mmul).
  unfold ip2. f_equal; apply bigsum_ext; intros n Hn; apply bigsum_ext; intros j Hj;
    by rewrite (mget_mmul N H).
Qed.

(** The derivative of the step loss along a path of inputs through the
    cached ones is the pairing of the six backward results with the
    derivatives of the inputs. *)
Lemma step_loss_deriv_pairing
  (X Hp C WX WH : R -> matrix) (B : R -> vec) (t : R)
  (X' Hp' C' WX' WH' : nat -> nat -> R) (B' : nat -> R) :
  X t = x -> Hp t = prev_h -> C t = prev_c -> WX t = Wx -> WH t = Wh -> B t = b ->
  (forall u, has_shape N D (X u) = true) ->
  (forall u, has_shape N H (Hp u) = true) ->
  (forall u, has_shape N H (C u) = true) ->
  (forall u, has_shape D (4 * H) (WX u) = true) ->
  (forall u, has_shape H (4 * H) (WH u) = true) ->
  (forall u, has_len (4 * H) (B u) = true) ->
  (forall n d, (n < N)%nat -> (d < D)%nat ->
     derivable_pt_lim (fun u => mget (X u) n d) t (X' n d)) ->
  (forall n j, (n < N)%nat -> (j < H)%nat ->
     derivable_pt_lim (fun u => mget (Hp u) n j) t (Hp' n j)) ->
  (forall n j, (n < N)%nat -> (j < H)%nat ->
     derivable_pt_lim (fun u => mget (C u) n j) t (C' n j)) ->
  (forall d k, (d < D)%nat -> (k < 4 * H)%nat ->
     derivable_pt_lim (fun u => mget (WX u) d k) t (WX' d k)) ->
  (forall j k, (j < H)%nat -> (k < 4 * H)%nat ->
     derivable_pt_lim (fun u => mget (WH u) j k) t (WH' j k)) ->
  (forall k, (k < 4 * H)%nat -> derivable_pt_lim (fun u => vget (B u) k) t (B' k)) ->
  derivable_pt_lim
    (fun u => step_loss dnext_h dnext_c (X u) (Hp u) (C u) (WX u) (WH u) (B u)) t
    (step_pairing N D H res X' Hp' C' WX' WH' B').
Proof using All.
  intros EX EHp EC EWX EWH EB SX SHp SC SWX SWH SB DX DHp DC DWX DWH DB.
  eapply deriv_eq.
  - by apply (step_loss_deriv_entries N D H dnext_h dnext_c x prev_h prev_c Wx Wh b
                HN HD HH Hdh Hdc Hx Hh Hc HWx HWh Hb X Hp C WX WH B t
                X' Hp' C' WX' WH' B').
  - pose proof (step_forward_cache_shape N D H x prev_h prev_c Wx Wh b
                  HN HD HH Hx Hh Hc HWx HWh Hb) as Hcache.
    rewrite <- (step_pairing_value N D H dnext_h dnext_c r.2 HN HD HH Hdh Hdc Hcache).
    destruct (step_forward_cache_inputs N D H x prev_h prev_c Wx Wh b
                HN HD HH Hx Hh Hc HWx HWh Hb) as (E1 & E2 & _ & E4 & E5 & _).
    by rewrite E1, E2, E4, E5.
Qed.

End step_loss_pairing.

(** ** The derivative of the sequence loss along a path of inputs *)

Section seq_path.
Context (N T D H : nat) (dh : tensor3).
Context (X : R -> tensor3) (H0 WX WH : R -> matrix) (B : R -> vec) (u0 : R).
Context (X' : nat -> nat -> nat -> R) (H0' WX' WH' : nat -> nat -> R) (B' : nat -> R).
Context (HN : (0 < N)%nat) (HD : (0 < D)%nat) (HH : (0 < H)%nat).
Context (Hdh : has_shape3 N T H dh = true).
Context (SX : forall u, has_shape3 N T D (X u) = true).
Context (SH0 : forall u, has_shape N H (H0 u) = true).
Context (SWX : forall u, has_shape D (4 * H) (WX u) = true).
Context (SWH : forall u, has_shape H (4 * H) (WH u) = true).
Context (SB : forall u, has_len (4 * H) (B u) = true).
Context (DX : forall t n d, (t < T)%nat -> (n < N)%nat -> (d < D)%nat ->
  derivable_pt_lim (fun u => mget (slice_t (X u) t) n d) u0 (X' t n d)).
Context (DH0 : forall n j, (n < N)%nat -> (j < H)%nat ->
  derivable_pt_lim (fun u => mget (H0 u) n j) u0 (H0' n j)).
Context (DWX : forall d k, (d < D)%nat -> (k < 4 * H)%nat ->
  derivable_pt_lim (fun u => mget (WX u) d k) u0 (WX' d k)).
Context (DWH : forall j k, (j < H)%nat -> (k < 4 * H)%nat ->
  derivable_pt_lim (fun u => mget (WH u) j k) u0 (WH' j k)).
Context (DB : forall k, (k < 4 * H)%nat ->
  derivable_pt_lim (fun u => vget (B u) k) u0 (B' k)).

Local Abbreviation St :=
  (fun u i => lstm_chain (X u) (H0 u) (zeros N H) (WX u) (WH u) (B u) i).
Local Abbreviation cs := (chain_cache (X u0) (H0 u0) (zeros N H) (WX u0) (WH u0) (B u0)).
Local Abbreviation tan := (chain_tangent N D H cs X' H0' WX' WH' B').
Local Abbreviation carry := (bptt_carry dh cs N H T).
Local Abbreviation step := (bptt_step dh cs N H T).
Local Abbreviation caches := (lstm_forward (X u0) (H0 u0) (WX u0) (WH u0) (B u0)).2.

Lemma St_shape (u : R) (i : nat) :
  (i <= T)%nat -> has_shape N H (St u i).1 = true /\ has_shape N H (St u i).2 = true.
Proof using HN HD HH SX SH0 SWX SWH SB.
  intros Hi. by apply (chain_shape N T D H); try done; apply shape_zeros.
Qed.

Lemma caches_lookup (t : nat) : (t < T)%nat -> caches !! t = Some (cs t).
Proof using HN HD HH SX SH0 SWX SWH SB.
  intros Ht. rewrite (forward_caches_lookup N T D H) by done.
  by destruct (decide (t < T)%nat).
Qed.

Lemma cs_shape (t : nat) : (t < T)%nat -> cache_has_shape N D H (cs t) = true.
Proof using HN HD HH SX SH0 SWX SWH SB.
  intros Ht. by apply (chain_cache_shape N T D H); try done; apply shape_zeros.
Qed.

Lemma tan_S (i : nat) :
  tan (S i)
  = (fun n j =>
       step_pairing N D H (lstm_step_backward (unit2 N H n j) (zeros N H) (cs i))
                    (X' i) (tan i).1 (tan i).2 WX' WH' B',
     fun n j =>
       step_pairing N D H (lstm_step_backward (zeros N H) (unit2 N H n j) (cs i))
                    (X' i) (tan i).1 (tan i).2 WX' WH' B').
Proof using Type. cbn [chain_tangent]. by destruct (tan i). Qed.

(** The derivative of the step loss of step [i] of the chain, for any
    upstream gradients. *)
Lemma chain_step_loss_deriv (i : nat) (dnh dnc : matrix) :
  (i < T)%nat ->
  has_shape N H dnh = true -> has_shape N H dnc = true ->
  (forall n j, (n < N)%nat -> (j < H)%nat ->
     derivable_pt_lim (fun u => mget (St u i).1 n j) u0 ((tan i).1 n j)) ->
  (forall n j, (n < N)%nat -> (j < H)%nat ->
     derivable_pt_lim (fun u => mget (St u i).2 n j) u0 ((tan i).2 n j)) ->
  derivable_pt_lim
    (fun u => step_loss dnh dnc (slice_t (X u) i) (St u i).1 (St u i).2
                        (WX u) (WH u) (B u)) u0
    (step_pairing N D H (lstm_step_backward dnh dnc (cs i))
                  (X' i) (tan i).1 (tan i).2 WX' WH' B').
Proof using All.
  intros Hi Sdnh Sdnc Dh Dc.
  rewrite chain_cache_eq.
  apply (step_loss_deriv_pairing N D H dnh dnc (slice_t (X u0) i) (St u0 i).1
           (St u0 i).2 (WX u0) (WH u0) (B u0) HN HD HH Sdnh Sdnc
           (shape_slice_t N T D (X u0) i (SX u0) Hi)
           (proj1 (St_shape u0 i ltac:(lia))) (proj2 (St_shape u0 i ltac:(lia)))
           (SWX u0) (SWH u0) (SB u0)
           (fun u => slice_t (X u) i) (fun u => (St u i).1) (fun u => (St u i).2)
           WX WH B u0); try done.
  - intros u. by apply (shape_slice_t N T).
  - intros u. apply St_shape. lia.
  - intros u. apply St_shape. lia.
  - intros n d Hn Hd. by apply DX.
Qed.

(** Every entry of the state of the chain is derivable along the path. *)
Lemma chain_deriv (i : nat) :
  (i <= T)%nat ->
  (forall n j, (n < N)%nat -> (j < H)%nat ->
     derivable_pt_lim (fun u => mget (St u i).1 n j) u0 ((tan i).1 n j))
  /\ (forall n j, (n < N)%nat -> (j < H)%nat ->
        derivable_pt_lim (fun u => mget (St u i).2 n j) u0 ((tan i).2 n j)).
Proof using All.
  induction i as [|i IH]; intros Hi.
  - cbn [lstm_chain chain_tangent fst snd]. split; intros n j Hn Hj.
    + by apply DH0.
    + apply deriv_const.
  - destruct IH as [IHh IHc]; [lia|].
    assert (Hloss : forall u dnh dnc,
              has_shape N H dnh = true -> has_shape N H dnc = true ->
              step_loss dnh dnc (slice_t (X u) i) (St u i).1 (St u i).2
                        (WX u) (WH u) (B u)
              = ip2 N H dnh (mget (St u (S i)).1) + ip2 N H dnc (mget (St u (S i)).2)).
    { intros u dnh dnc Sdnh Sdnc.
      rewrite (step_loss_pairing N D H dnh dnc (slice_t (X u) i) (St u i).1 (St u i).2
                 (WX u) (WH u) (B u) HN HD HH Sdnh Sdnc
                 (shape_slice_t N T D (X u) i (SX u) ltac:(lia))
                 (proj1 (St_shape u i ltac:(lia))) (proj2 (St_shape u i ltac:(lia)))
                 (SWX u) (SWH u) (SB u)).
      by rewrite (chain_S (X u)). }
    rewrite tan_S. cbn [fst snd]. split; intros n j Hn Hj.
    + apply (derivable_pt_lim_ext
               (fun u => step_loss (unit2 N H n j) (zeros N H) (slice_t (X u) i)
                                   (St u i).1 (St u i).2 (WX u) (WH u) (B u))).
      { intros u. rewrite Hloss by (apply shape_unit2 || apply shape_zeros).
        rewrite ip2_unit2, ip2_zeros by done. ring. }
      apply chain_step_loss_deriv; (done || lia || apply shape_unit2 || apply shape_zeros).
    + apply (derivable_pt_lim_ext
               (fun u => step_loss (zeros N H) (unit2 N H n j) (slice_t (X u) i)
                                   (St u i).1 (St u i).2 (WX u) (WH u) (B u))).
      { intros u. rewrite Hloss by (apply shape_unit2 || apply shape_zeros).
        rewrite ip2_unit2, ip2_zeros by done. ring. }
      apply chain_step_loss_deriv; (done || lia || apply shape_unit2 || apply shape_zeros).
Qed.

(** The backward step turns the pairing with the derivatives of the state
    after step [i] into the pairing with the derivatives of the state before
    it and of the inputs of the step. *)
Lemma pairing_step_back (i : nat) (dnh dnc : matrix) :
  (i < T)%nat ->
  has_shape N H dnh = true -> has_shape N H dnc = true ->
  ip2 N H dnh (tan (S i)).1 + ip2 N H dnc (tan (S i)).2
  = step_pairing N D H (lstm_step_backward dnh dnc (cs i))
                 (X' i) (tan i).1 (tan i).2 WX' WH' B'.
Proof using All.
  intros Hi Sdnh Sdnc.
  destruct (chain_deriv i ltac:(lia)) as [Dh Dc].
  destruct (chain_deriv (S i) ltac:(lia)) as [DSh DSc].
  apply (uniqueness_limite
           (fun u => step_loss dnh dnc (slice_t (X u) i) (St u i).1 (St u i).2
                               (WX u) (WH u) (B u)) u0).
  - apply (derivable_pt_lim_ext
             (fun u => ip2 N H dnh (mget (St u (S i)).1)
                       + ip2 N H dnc (mget (St u (S i)).2))).
    { intros u.
      rewrite (step_loss_pairing N D H dnh dnc (slice_t (X u) i) (St u i).1 (St u i).2
                 (WX u) (WH u) (B u) HN HD HH Sdnh Sdnc
                 (shape_slice_t N T D (X u) i (SX u) Hi)
                 (proj1 (St_shape u i ltac:(lia))) (proj2 (St_shape u i ltac:(lia)))
                 (SWX u) (SWH u) (SB u)).
      by rewrite (chain_S (X u)). }
    apply (deriv_plus (fun u => ip2 N H dnh (mget (St u (S i)).1))
                      (fun u => ip2 N H dnc (mget (St u (S i)).2))).
    + by apply (deriv_ip2 N H dnh (fun u => mget (St u (S i)).1)).
    + by apply (deriv_ip2 N H dnc (fun u => mget (St u (S i)).2)).
  - by apply chain_step_loss_deriv.
Qed.

(** Backpropagation through time: once the [k] latest timesteps are
    processed, the carried gradients paired with the derivatives of the
    state before them, plus the pairings of the steps processed, is the
    derivative of the loss those timesteps contribute. *)
Lemma tail_loss_deriv (k : nat) :
  (k <= T)%nat ->
  derivable_pt_lim
    (fun u => tail_loss N H T dh (fun i => (St u i).1) k) u0
    (ip2 N H (carry k).1 (tan (T - k)).1 + ip2 N H (carry k).2 (tan (T - k)).2
     + bigsum k (bptt_pairing N D H T dh cs X' WX' WH' B')).
Proof using All.
  induction k as [|k IH]; intros Hk.
  - unfold tail_loss. cbn [bigsum bptt_carry fst snd].
    rewrite !ip2_zeros. eapply deriv_eq; [apply deriv_const|ring].
  - specialize (IH ltac:(lia)).
    destruct (bptt_carry_shape N T D H dh caches cs HN HD HH Hdh caches_lookup cs_shape
                k ltac:(lia)) as [Sch Scc].
    destruct (bptt_step_shapes N T D H dh caches cs HN HD HH Hdh caches_lookup cs_shape
                k ltac:(lia)) as (S1 & S2 & S3 & S4 & S5 & S6).
    pose proof (shape_slice_t N T H dh (T - 1 - k) Hdh ltac:(lia)) as Sdh.
    pose proof (pairing_step_back (T - 1 - k) (madd (slice_t dh (T - 1 - k)) (carry k).1)
                  (carry k).2 ltac:(lia) (shape_madd _ _ _ _ Sdh Sch) Scc) as Hback.
    rewrite <- (bptt_step_eq N T H dh cs k) in Hback.
    replace (S (T - 1 - k)) with (T - k)%nat in Hback by lia.
    rewrite ip2_madd in Hback by done.
    destruct (chain_deriv (T - k) ltac:(lia)) as [Dh _].
    unfold tail_loss. cbn [bigsum]. fold (tail_loss N H T dh (fun i => (St u0 i).1) k).
    eapply deriv_eq.
    + apply (deriv_plus
               (fun u => tail_loss N H T dh (fun i => (St u i).1) k)
               (fun u => ip2 N H (slice_t dh (T - 1 - k)) (mget (St u (T - k)%nat).1))).
      * exact IH.
      * by apply (deriv_ip2 N H _ (fun u => mget (St u (T - k)%nat).1)).
    + rewrite (bptt_carry_S N T H dh cs k). cbn [fst snd].
      replace (T - S k)%nat with (T - 1 - k)%nat by lia.
      set (Sk := bigsum k (bptt_pairing N D H T dh cs X' WX' WH' B')) in *.
      unfold bptt_pairing. cbv zeta.
      unfold step_pairing in Hback.
      destruct (step k) as [[[[[dx_t dprev_h] dprev_c] dWx_t] dWh_t] db_t].
      cbn [fst snd] in *. lra.
Qed.

End seq_path.

(** ** Single-entry perturbations of a rank-3 array *)

Lemma shape3_tset N T K (X : tensor3) n t d a :
  has_shape3 N T K X = true -> has_shape3 N T K (tset X n t d a) = true.
Proof.
  intros HX. unfold tset. apply shape3_intro.
  - rewrite length_insert. by apply shape3_length in HX.
  - intros m Hm. destruct (decide (n = m)) as [->|Hne].
    + rewrite nth_insert_eq by (by rewrite (shape3_length _ _ _ _ HX)).
      pose proof (shape3_row N T K X m HX Hm) as Hr.
      apply shape_intro.
      * rewrite length_insert. by apply shape_length in Hr.
      * intros s Hs. destruct (decide (t = s)) as [->|Hts].
        -- rewrite nth_insert_eq by (by rewrite (shape_length _ _ _ Hr)).
           rewrite length_insert. by apply (shape_row T).
        -- rewrite nth_insert_ne by done. by apply (shape_row T).
    + rewrite nth_insert_ne by done. by apply (shape3_row N).
Qed.

Lemma slice_tset N T K (X : tensor3) n0 t0 d0 a t :
  has_shape3 N T K X = true -> (n0 < N)%nat -> (t0 < T)%nat ->
  slice_t (tset X n0 t0 d0 a) t
  = if decide (t = t0) then mset (slice_t X t0) n0 d0 a else slice_t X t.
Proof.
  intros HX Hn0 Ht0.
  pose proof (shape3_length _ _ _ _ HX) as HlX.
  pose proof (shape3_row N T K X n0 HX Hn0) as Hr.
  unfold slice_t, tset, mset. rewrite list_fmap_insert.
  destruct (decide (t = t0)) as [->|Hne].
  - rewrite nth_insert_eq by (by rewrite (shape_length _ _ _ Hr)).
    by rewrite (nth_map_lt _ _ _ []) by lia.
  - rewrite nth_insert_ne by done. apply list_insert_id.
    rewrite list_lookup_fmap.
    destruct (nth_lookup_or_length X n0 []) as [E|Hge]; [by rewrite E|lia].
Qed.

Lemma tget_slice_t N T K (X : tensor3) n t d :
  has_shape3 N T K X = true -> (n < N)%nat ->
  tget X n t d = mget (slice_t X t) n d.
Proof.
  intros HX Hn. symmetry. apply mget_slice_t. by rewrite (shape3_length _ _ _ _ HX).
Qed.

Lemma tset_same N T K (X : tensor3) n0 t0 d0 :
  has_shape3 N T K X = true -> (n0 < N)%nat -> (t0 < T)%nat -> (d0 < K)%nat ->
  tset X n0 t0 d0 (tget X n0 t0 d0) = X.
Proof.
  intros HX Hn0 Ht0 Hd0.
  pose proof (shape3_length _ _ _ _ HX) as HlX.
  apply (tensor_ext_slices N T).
  - unfold tset. by rewrite length_insert.
  - done.
  - intros n Hn.
    pose proof (shape3_row N T K _ n
                  (shape3_tset N T K X n0 t0 d0 (tget X n0 t0 d0) HX) Hn) as Hr.
    by apply shape_length in Hr.
  - intros n Hn. pose proof (shape3_row N T K X n HX Hn) as Hr.
    by apply shape_length in Hr.
  - intros t Ht. rewrite (slice_tset N T K) by done.
    destruct (decide (t = t0)) as [->|]; [|done].
    rewrite (tget_slice_t N T K) by done.
    apply (mset_same N K); [by apply (shape_slice_t N T)|done..].
Qed.

(** ** The sequence loss in index notation *)

Lemma Rsum_concat (L : list vec) :
  Rsum (concat L) = bigsum (length L) (fun n => Rsum (nth n L [])).
Proof.
  induction L as [|r L IH]; [reflexivity|].
  cbn [concat length]. rewrite Rsum_app, bigsum_shift, IH. reflexivity.
Qed.

Lemma concat_concat_map {A : Type} (L : list (list (list A))) :
  concat (concat L) = concat (map (fun M => concat M) L).
Proof.
  induction L as [|M L IH]; [reflexivity|].
  cbn [concat map]. by rewrite concat_app, IH.
Qed.

Lemma tsum_bigsum N T K (X : tensor3) :
  has_shape3 N T K X = true ->
  tsum X = bigsum N (fun n => bigsum T (fun t => bigsum K (fun k => tget X n t k))).
Proof.
  intros HX. unfold tsum. rewrite concat_concat_map, Rsum_concat, length_map.
  rewrite (shape3_length _ _ _ _ HX). apply bigsum_ext. intros n Hn.
  rewrite (nth_map_lt _ _ _ []) by (by rewrite (shape3_length _ _ _ _ HX)).
  fold (msum (nth n X [])).
  by rewrite (msum_bigsum T K) by (by apply (shape3_row N)).
Qed.

Lemma shape3_tmul N T K (A B : tensor3) :
  has_shape3 N T K A = true -> has_shape3 N T K B = true ->
  has_shape3 N T K (tmul A B) = true.
Proof.
  intros HA HB. pose proof (shape3_length _ _ _ _ HA) as HlA.
  pose proof (shape3_length _ _ _ _ HB) as HlB.
  unfold tmul. apply shape3_intro.
  - rewrite length_zip_with. lia.
  - intros n Hn. rewrite (nth_zip_with_lt _ _ _ _ [] []) by lia.
    apply shape_mmul; by apply (shape3_row N).
Qed.

Lemma tget_tmul N T K (A B : tensor3) n t k :
  has_shape3 N T K A = true -> has_shape3 N T K B = true ->
  (n < N)%nat -> (t < T)%nat -> (k < K)%nat ->
  tget (tmul A B) n t k = tget A n t k * tget B n t k.
Proof.
  intros HA HB Hn Ht Hk. pose proof (shape3_length _ _ _ _ HA) as HlA.
  pose proof (shape3_length _ _ _ _ HB) as HlB.
  unfold tget, tmul. rewrite (nth_zip_with_lt _ _ _ _ [] []) by lia.
  apply (mget_mmul T K); (done || by apply (shape3_row N)).
Qed.

Lemma seq_loss_index (N T D H : nat) (dh x : tensor3) (h0 Wx Wh : matrix) (b : vec) :
  (0 < N)%nat -> (0 < D)%nat -> (0 < H)%nat ->
  has_shape3 N T H dh = true -> has_shape3 N T D x = true ->
  has_shape N H h0 = true -> has_shape D (4 * H) Wx = true ->
  has_shape H (4 * H) Wh = true -> has_len (4 * H) b = true ->
  seq_loss dh x h0 Wx Wh b
  = tail_loss N H T dh (fun i => (lstm_chain x h0 (zeros N H) Wx Wh b i).1) T.
Proof.
  intros HN HD HH Hdh Hx Hh0 HWx HWh Hb.
  pose proof (forward_h_shape N T D H x h0 Wx Wh b HN HD HH Hx Hh0 HWx HWh Hb) as Sh.
  unfold seq_loss. rewrite (tsum_bigsum N T H) by (by apply shape3_tmul).
  rewrite bigsum_swap. unfold tail_loss.
  rewrite <- (bigsum_rev T (fun t => bigsum N (fun n => bigsum H (fun k =>
                tget (tmul (lstm_forward x h0 Wx Wh b).1 dh) n t k)))).
  apply bigsum_ext. intros i Hi. unfold ip2.
  apply bigsum_ext. intros n Hn. apply bigsum_ext. intros j Hj.
  rewrite (tget_tmul N T H) by (done || lia).
  rewrite !(tget_slice_t N T H) by done.
  rewrite (forward_h_slice N T D H) by (done || lia).
  replace (S (T - 1 - i)) with (T - i)%nat by lia. ring.
Qed.

(** ** Backpropagation through time computes the derivative of the loss *)

Section seq_loss_path.
Context (N T D H : nat) (dh : tensor3).
Context (X : R -> tensor3) (H0 WX WH : R -> matrix) (B : R -> vec) (u0 : R).
Context (X' : nat -> nat -> nat -> R) (H0' WX' WH' : nat -> nat -> R) (B' : nat -> R).
Context (HN : (0 < N)%nat) (HD : (0 < D)%nat) (HH : (0 < H)%nat).
Context (Hdh : has_shape3 N T H dh = true).
Context (SX : forall u, has_shape3 N T D (X u) = true).
Context (SH0 : forall u, has_shape N H (H0 u) = true).
Context (SWX : forall u, has_shape D (4 * H) (WX u) = true).
Context (SWH : forall u, has_shape H (4 * H) (WH u) = true).
Context (SB : forall u, has_len (4 * H) (B u) = true).
Context (DX : forall t n d, (t < T)%nat -> (n < N)%nat -> (d < D)%nat ->
  derivable_pt_lim (fun u => mget (slice_t (X u) t) n d) u0 (X' t n d)).
Context (DH0 : forall n j, (n < N)%nat -> (j < H)%nat ->
  derivable_pt_lim (fun u => mget (H0 u) n j) u0 (H0' n j)).
Context (DWX : forall d k, (d < D)%nat -> (k < 4 * H)%nat ->
  derivable_pt_lim (fun u => mget (WX u) d k) u0 (WX' d k)).
Context (DWH : forall j k, (j < H)%nat -> (k < 4 * H)%nat ->
  derivable_pt_lim (fun u => mget (WH u) j k) u0 (WH' j k)).
Context (DB : forall k, (k < 4 * H)%nat ->
  derivable_pt_lim (fun u => vget (B u) k) u0 (B' k)).

Local Abbreviation cs := (chain_cache (X u0) (H0 u0) (zeros N H) (WX u0) (WH u0) (B u0)).

(** Along any path of inputs, the derivative of the sequence loss is the
    pairing of what the backward recurrence computes with the derivatives of
    the inputs. *)
Lemma seq_loss_deriv_path :
  derivable_pt_lim (fun u => seq_loss dh (X u) (H0 u) (WX u) (WH u) (B u)) u0
    (ip2 N H (bptt_carry dh cs N H T T).1 H0'
     + bigsum T (bptt_pairing N D H T dh cs X' WX' WH' B')).
Proof using All.
  apply (derivable_pt_lim_ext
           (fun u => tail_loss N H T dh
                       (fun i => (lstm_chain (X u) (H0 u) (zeros N H) (WX u) (WH u)
                                             (B u) i).1) T)).
  { intros u. symmetry. by apply (seq_loss_index N T D H). }
  eapply deriv_eq.
  - by apply (tail_loss_deriv N T D H dh X H0 WX WH B u0 X' H0' WX' WH' B').
  - rewrite Nat.sub_diag. cbn [chain_tangent fst snd]. rewrite ip2_zero_r. ring.
Qed.

End seq_loss_path.

(** ** The gradient of the sequence loss in each of the five inputs *)

Lemma ip2_delta (N K : nat) (M : matrix) (n0 k0 : nat) :
  (n0 < N)%nat -> (k0 < K)%nat ->
  ip2 N K M (fun n k => if decide (n = n0) then if decide (k = k0) then 1 else 0 else 0)
  = mget M n0 k0.
Proof.
  intros Hn0 Hk0. unfold ip2.
  apply (bigsum_delta_ext N n0 _ (fun n => mget M n k0)); [done|]. intros n Hn.
  destruct (decide (n = n0)) as [->|Hne].
  - apply (bigsum_delta_ext K k0 _ (fun k => mget M n0 k)); [done|]. intros k Hk.
    destruct (decide (k = k0)); ring.
  - apply bigsum_zero_ext. intros k Hk. ring.
Qed.

Lemma ip1_delta (K : nat) (v : vec) (k0 : nat) :
  (k0 < K)%nat -> ip1 K v (fun k => if decide (k = k0) then 1 else 0) = vget v k0.
Proof.
  intros Hk0. unfold ip1.
  apply (bigsum_delta_ext K k0 _ (fun k => vget v k)); [done|]. intros k Hk.
  destruct (decide (k = k0)); ring.
Qed.

Section seq_gradient.
Context (N T D H : nat) (x : tensor3) (h0 Wx Wh : matrix) (b : vec) (dh : tensor3).
Context (HN : (0 < N)%nat) (HT : (0 < T)%nat) (HD : (0 < D)%nat) (HH : (0 < H)%nat).
Context (Hx : has_shape3 N T D x = true).
Context (Hh0 : has_shape N H h0 = true).
Context (HWx : has_shape D (4 * H) Wx = true).
Context (HWh : has_shape H (4 * H) Wh = true).
Context (Hb : has_len (4 * H) b = true).
Context (Hdh : has_shape3 N T H dh = true).

Local Abbreviation cs := (chain_cache x h0 (zeros N H) Wx Wh b).
Local Abbreviation carry := (bptt_carry dh cs N H T).
Local Abbreviation step := (bptt_step dh cs N H T).
Local Abbreviation at_t := (bptt_at dh cs N H T).
Local Abbreviation L := (seq_loss dh).

Local Abbreviation zero3 := (fun _ _ _ : nat => 0).
Local Abbreviation zero2 := (fun _ _ : nat => 0).
Local Abbreviation zero1 := (fun _ : nat => 0).
Local Abbreviation delta2 := (fun (n0 k0 n k : nat) =>
  if decide (n = n0) then if decide (k = k0) then 1 else 0 else 0).
Local Abbreviation delta1 := (fun (k0 k : nat) => if decide (k = k0) then 1 else 0).

Lemma seq_grad_x (n0 t0 d0 : nat) :
  (n0 < N)%nat -> (t0 < T)%nat -> (d0 < D)%nat ->
  derivable_pt_lim (fun u => L (tset x n0 t0 d0 u) h0 Wx Wh b) (tget x n0 t0 d0)
                   (mget (at_t t0).1.1.1.1.1 n0 d0).
Proof using All.
  intros Hn0 Ht0 Hd0.
  pose proof (seq_loss_deriv_path N T D H dh
                (fun u => tset x n0 t0 d0 u) (fun _ => h0) (fun _ => Wx) (fun _ => Wh)
                (fun _ => b) (tget x n0 t0 d0)
                (fun t => if decide (t = t0) then delta2 n0 d0 else zero2)
                zero2 zero2 zero2 zero1 HN HD HH Hdh) as Hp.
  cbv beta in Hp. rewrite (tset_same N T D) in Hp by done.
  eapply deriv_eq; [apply Hp; clear Hp|].
  - intros u. by apply shape3_tset.
  - done.
  - done.
  - done.
  - done.
  - intros t n d Ht Hn Hd.
    apply (derivable_pt_lim_ext
             (fun u => mget (if decide (t = t0) then mset (slice_t x t0) n0 d0 u
                             else slice_t x t) n d)).
    { intros u. by rewrite (slice_tset N T D). }
    destruct (decide (t = t0)) as [->|Hne]; [|apply deriv_const].
    apply (deriv_mset_entry N D); [by apply (shape_slice_t N T)|done..].
  - intros; apply deriv_const.
  - intros; apply deriv_const.
  - intros; apply deriv_const.
  - intros; apply deriv_const.
  - rewrite ip2_zero_r, Rplus_0_l. unfold bptt_at.
    apply (bigsum_delta_ext T (T - 1 - t0)
             _ (fun i => mget (step i).1.1.1.1.1 n0 d0)); [lia|].
    intros i Hi. unfold bptt_pairing. cbv zeta.
    rewrite !ip2_zero_r, ip1_zero_r.
    destruct (decide (i = T - 1 - t0)%nat) as [->|Hne].
    + destruct (decide (T - 1 - (T - 1 - t0) = t0)%nat); [|lia].
      rewrite ip2_delta by done. ring.
    + destruct (decide (T - 1 - i = t0)%nat); [lia|]. rewrite ip2_zero_r. ring.
Qed.

Lemma seq_grad_h0 (n0 j0 : nat) :
  (n0 < N)%nat -> (j0 < H)%nat ->
  derivable_pt_lim (fun u => L x (mset h0 n0 j0 u) Wx Wh b) (mget h0 n0 j0)
                   (mget (carry T).1 n0 j0).
Proof using All.
  intros Hn0 Hj0.
  pose proof (seq_loss_deriv_path N T D H dh
                (fun _ => x) (fun u => mset h0 n0 j0 u) (fun _ => Wx) (fun _ => Wh)
                (fun _ => b) (mget h0 n0 j0)
                zero3 (delta2 n0 j0) zero2 zero2 zero1 HN HD HH Hdh) as Hp.
  cbv beta in Hp. rewrite (mset_same N H) in Hp by done.
  eapply deriv_eq; [apply Hp; clear Hp|].
  - done.
  - intros u. by apply shape_mset.
  - done.
  - done.
  - done.
  - intros; apply deriv_const.
  - intros n j Hn Hj. by apply (deriv_mset_entry N H).
  - intros; apply deriv_const.
  - intros; apply deriv_const.
  - intros; apply deriv_const.
  - rewrite ip2_delta by done.
    rewrite bigsum_zero_ext; [ring|]. intros i Hi. unfold bptt_pairing. cbv zeta.
    rewrite !ip2_zero_r, ip1_zero_r. ring.
Qed.

Lemma seq_grad_Wx (d0 k0 : nat) :
  (d0 < D)%nat -> (k0 < 4 * H)%nat ->
  derivable_pt_lim (fun u => L x h0 (mset Wx d0 k0 u) Wh b) (mget Wx d0 k0)
                   (bigsum T (fun t => mget (at_t t).1.1.2 d0 k0)).
Proof using All.
  intros Hd0 Hk0.
  pose proof (seq_loss_deriv_path N T D H dh
                (fun _ => x) (fun _ => h0) (fun u => mset Wx d0 k0 u) (fun _ => Wh)
                (fun _ => b) (mget Wx d0 k0)
                zero3 zero2 (delta2 d0 k0) zero2 zero1 HN HD HH Hdh) as Hp.
  cbv beta in Hp. rewrite (mset_same D (4 * H)) in Hp by done.
  eapply deriv_eq; [apply Hp; clear Hp|].
  - done.
  - done.
  - intros u. by apply shape_mset.
  - done.
  - done.
  - intros; apply deriv_const.
  - intros; apply deriv_const.
  - intros d k Hd Hk. by apply (deriv_mset_entry D (4 * H)).
  - intros; apply deriv_const.
  - intros; apply deriv_const.
  - rewrite ip2_zero_r, Rplus_0_l. unfold bptt_at.
    rewrite (bigsum_rev T (fun i => mget (step i).1.1.2 d0 k0)).
    apply bigsum_ext. intros i Hi. unfold bptt_pairing. cbv zeta.
    rewrite !ip2_zero_r, ip1_zero_r, ip2_delta by done. ring.
Qed.

Lemma seq_grad_Wh (j0 k0 : nat) :
  (j0 < H)%nat -> (k0 < 4 * H)%nat ->
  derivable_pt_lim (fun u => L x h0 Wx (mset Wh j0 k0 u) b) (mget Wh j0 k0)
                   (bigsum T (fun t => mget (at_t t).1.2 j0 k0)).
Proof using All.
  intros Hj0 Hk0.
  pose proof (seq_loss_deriv_path N T D H dh
                (fun _ => x) (fun _ => h0) (fun _ => Wx) (fun u => mset Wh j0 k0 u)
                (fun _ => b) (mget Wh j0 k0)
                zero3 zero2 zero2 (delta2 j0 k0) zero1 HN HD HH Hdh) as Hp.
  cbv beta in Hp. rewrite (mset_same H (4 * H)) in Hp by done.
  eapply deriv_eq; [apply Hp; clear Hp|].
  - done.
  - done.
  - done.
  - intros u. by apply shape_mset.
  - done.
  - intros; apply deriv_const.
  - intros; apply deriv_const.
  - intros; apply deriv_const.
  - intros j k Hj Hk. by apply (deriv_mset_entry H (4 * H)).
  - intros; apply deriv_const.
  - rewrite ip2_zero_r, Rplus_0_l. unfold bptt_at.
    rewrite (bigsum_rev T (fun i => mget (step i).1.2 j0 k0)).
    apply bigsum_ext. intros i Hi. unfold bptt_pairing. cbv zeta.
    rewrite !ip2_zero_r, ip1_zero_r, ip2_delta by done. ring.
Qed.

Lemma seq_grad_b (k0 : nat) :
  (k0 < 4 * H)%nat ->
  derivable_pt_lim (fun u => L x h0 Wx Wh (vset b k0 u)) (vget b k0)
                   (bigsum T (fun t => vget (at_t t).2 k0)).
Proof using All.
  intros Hk0. pose proof (proj1 (has_len_spec _ _) Hb) as Hlb.
  pose proof (seq_loss_deriv_path N T D H dh
                (fun _ => x) (fun _ => h0) (fun _ => Wx) (fun _ => Wh)
                (fun u => vset b k0 u) (vget b k0)
                zero3 zero2 zero2 zero2 (delta1 k0) HN HD HH Hdh) as Hp.
  cbv beta in Hp. rewrite vset_same in Hp by lia.
  eapply deriv_eq; [apply Hp; clear Hp|].
  - done.
  - done.
  - done.
  - done.
  - intros u. by apply has_len_vset.
  - intros; apply deriv_const.
  - intros; apply deriv_const.
  - intros; apply deriv_const.
  - intros; apply deriv_const.
  - intros k Hk. apply deriv_vset_entry. lia.
  - rewrite ip2_zero_r, Rplus_0_l. unfold bptt_at.
    rewrite (bigsum_rev T (fun i => vget (step i).2 k0)).
    apply bigsum_ext. intros i Hi. unfold bptt_pairing. cbv zeta.
    rewrite !ip2_zero_r, ip1_delta by done. ring.
Qed.

End seq_gradient.

(** X12.  Run on the caches that [lstm_forward] returns, [lstm_backward]
    returns the gradient, in [x], [h0], [Wx], [Wh] and [b], of the scalar
    [sum(h * dh)] of the hidden states [h] that [lstm_forward] returns: each
    entry of [dx], [dh0], [dWx], [dWh] and [db] is the derivative of that
    scalar in the matching entry of the input, and each array has the shape
    of its input.  Stated over the reals, for array values of agreeing shapes
    and a sequence of at least one timestep. *)
Theorem lstm_backward_is_gradient
  (N T D H : nat) (x : tensor3) (h0 Wx Wh : matrix) (b : vec) (dh : tensor3) :
  (0 < N)%nat -> (0 < T)%nat -> (0 < D)%nat -> (0 < H)%nat ->
  has_shape3 N T D x = true -> has_shape N H h0 = true ->
  has_shape D (4 * H) Wx = true -> has_shape H (4 * H) Wh = true ->
  has_len (4 * H) b = true -> has_shape3 N T H dh = true ->
  let L := seq_loss dh in
  exists dx dh0 dWx dWh db,
    lstm_backward dh (lstm_forward x h0 Wx Wh b).2 = Ok (dx, dh0, dWx, dWh, db)
    /\ (has_shape3 N T D dx = true /\ has_shape N H dh0 = true
        /\ has_shape D (4 * H) dWx = true /\ has_shape H (4 * H) dWh = true
        /\ has_len (4 * H) db = true)
    /\ (forall n t d, (n < N)%nat -> (t < T)%nat -> (d < D)%nat ->
          derivable_pt_lim (fun u => L (tset x n t d u) h0 Wx Wh b)
                           (tget x n t d) (tget dx n t d))
    /\ (forall n j, (n < N)%nat -> (j < H)%nat ->
          derivable_pt_lim (fun u => L x (mset h0 n j u) Wx Wh b)
                           (mget h0 n j) (mget dh0 n j))
    /\ (forall d k, (d < D)%nat -> (k < 4 * H)%nat ->
          derivable_pt_lim (fun u => L x h0 (mset Wx d k u) Wh b)
                           (mget Wx d k) (mget dWx d k))
    /\ (forall j k, (j < H)%nat -> (k < 4 * H)%nat ->
          derivable_pt_lim (fun u => L x h0 Wx (mset Wh j k u) b)
                           (mget Wh j k) (mget dWh j k))
    /\ (forall k, (k < 4 * H)%nat ->
          derivable_pt_lim (fun u => L x h0 Wx Wh (vset b k u))
                           (vget b k) (vget db k)).
Proof.
  intros HN HT HD HH Hx Hh0 HWx HWh Hb Hdh. cbv zeta.
  set (cs := chain_cache x h0 (zeros N H) Wx Wh b).
  assert (Hcache : forall t, (t < T)%nat ->
            (lstm_forward x h0 Wx Wh b).2 !! t = Some (cs t)).
  { intros t Ht. rewrite (forward_caches_lookup N T D H) by done.
    destruct (decide (t < T)%nat); [done|lia]. }
  assert (Hshape : forall t, (t < T)%nat -> cache_has_shape N D H (cs t) = true).
  { intros t Ht. apply (chain_cache_shape N T D H); try done. apply shape_zeros. }
  destruct (lstm_backward_run N T D H dh _ cs HN HT HD HH Hdh Hcache Hshape)
    as (dx & dh0 & dWx & dWh & db & E & Sdx & Edx & Edh0 & Sdh0 & SWx & EWx
        & SWh & EWh & Sb & Eb).
  exists dx, dh0, dWx, dWh, db. split; [exact E|]. split; [done|].
  split.
  { intros n t d Hn Ht Hd. rewrite (tget_slice_t N T D dx) by done. rewrite Edx by done.
    by apply (seq_grad_x N T D H). }
  split.
  { intros n j Hn Hj. rewrite Edh0. by apply (seq_grad_h0 N T D H). }
  split.
  { intros d k Hd Hk. rewrite EWx by done. by apply (seq_grad_Wx N T D H). }
  split.
  { intros j k Hj Hk. rewrite EWh by done. by apply (seq_grad_Wh N T D H). }
  intros k Hk. rewrite Eb by done. by apply (seq_grad_b N T D H).
Qed.

Lemma lstm_backward_is_gradient_witness :
  exists r, lstm_backward ex_dh (lstm_forward ex_x ex_h0 ex_Wx ex_Wh ex_b).2 = Ok r.
Proof.
  destruct (lstm_backward_is_gradient 1 1 1 1 ex_x ex_h0 ex_Wx ex_Wh ex_b ex_dh)
    as (dx & dh0 & dWx & dWh & db & E & _); try lia; try reflexivity.
  by eexists.
Defined.

(** ** The cell step backward is additive in the upstream gradients *)

Section dactivation_entries.
Context (N D H : nat) (dnext_h dnext_c : matrix) (cache : step_cache).
Context (HN : (0 < N)%nat) (HD : (0 < D)%nat) (HH : (0 < H)%nat).
Context (Hdh : has_shape N H dnext_h = true).
Context (Hdc : has_shape N H dnext_c = true).
Context (Hcache : cache_has_shape N D H cache = true).

Local Abbreviation dcn := (dnext_c_updated dnext_h dnext_c cache).
Local Abbreviation dact := (dactivation_of dnext_h dcn cache).

(** The four entries of [dactivation] that belong to unit [j] of row [n],
    in terms of the two upstream gradients at [(n, j)]. *)
Lemma dactivation_entries (n j : nat) :
  (n < N)%nat -> (j < H)%nat ->
  let i := mget (c_input cache) n j in
  let f := mget (c_forget cache) n j in
  let o := mget (c_output cache) n j in
  let g := mget (c_block_input cache) n j in
  let d := mget dnext_c n j
           + mget dnext_h n j * o * (1 - tanh (mget (c_next_c cache) n j) ^ 2) in
  mget dact n j = d * g * i * (1 - i)
  /\ mget dact n (H + j) = d * mget (c_prev_c cache) n j * f * (1 - f)
  /\ mget dact n (2 * H + j)
     = mget dnext_h n j * tanh (mget (c_next_c cache) n j) * o * (1 - o)
  /\ mget dact n (3 * H + j) = d * i * (1 - g ^ 2).
Proof using All.
  intros Hn Hj. cbv zeta.
  pose proof (mget_dnext_c_updated N D H dnext_h dnext_c cache
                HN HD HH Hdh Hdc Hcache n j Hn Hj) as Edcn.
  destruct (mget_da_blocks N D H dnext_h dnext_c cache HN HD HH Hdh Hdc Hcache
              n j Hn Hj) as (B1 & B2 & B3 & B4).
  rewrite Edcn in B1, B2, B4.
  pose proof (mget_dactivation N D H dnext_h dnext_c cache HN HD HH Hdh Hdc Hcache)
    as Hget.
  repeat split.
  - rewrite Hget by done. repeat (destruct (decide _); try lia). exact B1.
  - rewrite Hget by done. repeat (destruct (decide _); try lia).
    replace (H + j - H)%nat with j by lia. exact B2.
  - rewrite Hget by done. repeat (destruct (decide _); try lia).
    replace (2 * H + j - 2 * H)%nat with j by lia. exact B3.
  - rewrite Hget by done. repeat (destruct (decide _); try lia).
    replace (3 * H + j - 3 * H)%nat with j by lia. exact B4.
Qed.

End dactivation_entries.

Section additive.
Context (N D H : nat) (a a' c c' : matrix) (cache : step_cache).
Context (HN : (0 < N)%nat) (HD : (0 < D)%nat) (HH : (0 < H)%nat).
Context (Ha : has_shape N H a = true) (Ha' : has_shape N H a' = true).
Context (Hc : has_shape N H c = true) (Hc' : has_shape N H c' = true).
Context (Hcache : cache_has_shape N D H cache = true).

Local Abbreviation dact_of := (fun dnh dnc =>
  dactivation_of dnh (dnext_c_updated dnh dnc cache) cache).

Lemma dactivation_additive (n k : nat) :
  (n < N)%nat -> (k < 4 * H)%nat ->
  mget (dact_of (madd a a') (madd c c')) n k
  = mget (dact_of a c) n k + mget (dact_of a' c') n k.
Proof using All.
  intros Hn Hk.
  pose proof (shape_madd N H a a' Ha Ha') as Saa.
  pose proof (shape_madd N H c c' Hc Hc') as Scc.
  assert (Hblock : exists q j, (q < 4)%nat /\ (j < H)%nat /\ k = (q * H + j)%nat).
  { exists (k / H)%nat, (k mod H)%nat.
    pose proof (Nat.div_mod_eq k H). pose proof (Nat.mod_upper_bound k H ltac:(lia)).
    split; [apply Nat.Div0.div_lt_upper_bound; lia|]. split; [done|lia]. }
  destruct Hblock as (q & j & Hq & Hj & ->).
  destruct (dactivation_entries N D H (madd a a') (madd c c') cache
              HN HD HH Saa Scc Hcache n j Hn Hj) as (S1 & S2 & S3 & S4).
  destruct (dactivation_entries N D H a c cache HN HD HH Ha Hc Hcache n j Hn Hj)
    as (A1 & A2 & A3 & A4).
  destruct (dactivation_entries N D H a' c' cache HN HD HH Ha' Hc' Hcache n j Hn Hj)
    as (B1 & B2 & B3 & B4).
  rewrite (mget_madd N H a a'), (mget_madd N H c c') in S1 by done.
  rewrite (mget_madd N H a a'), (mget_madd N H c c') in S2 by done.
  rewrite (mget_madd N H a a') in S3 by done.
  rewrite (mget_madd N H a a'), (mget_madd N H c c') in S4 by done.
  destruct q as [|[|[|[|q]]]]; [| | | |lia].
  - cbn [Nat.mul Nat.add]. rewrite S1, A1, B1. ring.
  - replace (1 * H + j)%nat with (H + j)%nat by lia. rewrite S2, A2, B2. ring.
  - rewrite S3, A3, B3. ring.
  - rewrite S4, A4, B4. ring.
Qed.

Local Abbreviation r := (lstm_step_backward (madd a a') (madd c c') cache).
Local Abbreviation r1 := (lstm_step_backward a c cache).
Local Abbreviation r2 := (lstm_step_backward a' c' cache).

Lemma step_backward_additive :
  r = (madd r1.1.1.1.1.1 r2.1.1.1.1.1, madd r1.1.1.1.1.2 r2.1.1.1.1.2,
       madd r1.1.1.1.2 r2.1.1.1.2, madd r1.1.1.2 r2.1.1.2, madd r1.1.2 r2.1.2,
       vadd r1.2 r2.2).
Proof using All.
  pose proof (shape_madd N H a a' Ha Ha') as Saa.
  pose proof (shape_madd N H c c' Hc Hc') as Scc.
  destruct (step_backward_shapes N D H _ _ cache HN HD HH Saa Scc Hcache)
    as (S1 & S2 & S3 & S4 & S5 & S6).
  destruct (step_backward_shapes N D H _ _ cache HN HD HH Ha Hc Hcache)
    as (A1 & A2 & A3 & A4 & A5 & A6).
  destruct (step_backward_shapes N D H _ _ cache HN HD HH Ha' Hc' Hcache)
    as (B1 & B2 & B3 & B4 & B5 & B6).
  destruct (step_backward_entries N D H _ _ cache HN HD HH Saa Scc Hcache)
    as (ES1 & ES2 & ES3 & ES4 & ES5 & ES6).
  destruct (step_backward_entries N D H _ _ cache HN HD HH Ha Hc Hcache)
    as (EA1 & EA2 & EA3 & EA4 & EA5 & EA6).
  destruct (step_backward_entries N D H _ _ cache HN HD HH Ha' Hc' Hcache)
    as (EB1 & EB2 & EB3 & EB4 & EB5 & EB6).
  rewrite (surjective_pairing r), (surjective_pairing r.1), (surjective_pairing r.1.1),
    (surjective_pairing r.1.1.1), (surjective_pairing r.1.1.1.1).
  repeat f_equal.
  - apply (matrix_ext N D); [done|by apply shape_madd|]. intros n d Hn Hd.
    rewrite (mget_madd N D), ES1, EA1, EB1 by done.
    rewrite <- bigsum_plus. apply bigsum_ext. intros k Hk.
    rewrite dactivation_additive by done. ring.
  - apply (matrix_ext N H); [done|by apply shape_madd|]. intros n j Hn Hj.
    rewrite (mget_madd N H), ES2, EA2, EB2 by done.
    rewrite <- bigsum_plus. apply bigsum_ext. intros k Hk.
    rewrite dactivation_additive by done. ring.
  - apply (matrix_ext N H); [done|by apply shape_madd|]. intros n j Hn Hj.
    rewrite (mget_madd N H), ES3, EA3, EB3 by done.
    rewrite !(mget_dnext_c_updated N D H) by done.
    rewrite (mget_madd N H a a'), (mget_madd N H c c') by done. ring.
  - apply (matrix_ext D (4 * H)); [done|by apply shape_madd|]. intros d k Hd Hk.
    rewrite (mget_madd D (4 * H)), ES4, EA4, EB4 by done.
    rewrite <- bigsum_plus. apply bigsum_ext. intros n Hn.
    rewrite dactivation_additive by done. ring.
  - apply (matrix_ext H (4 * H)); [done|by apply shape_madd|]. intros j k Hj Hk.
    rewrite (mget_madd H (4 * H)), ES5, EA5, EB5 by done.
    rewrite <- bigsum_plus. apply bigsum_ext. intros n Hn.
    rewrite dactivation_additive by done. ring.
  - apply has_len_spec in S6, A6, B6.
    apply (vec_ext (4 * H)); [done|by apply has_len_spec, shape_vadd; apply has_len_spec|].
    intros k Hk. fold (vget r.2 k). fold (vget (vadd r1.2 r2.2) k).
    rewrite (vget_vadd (4 * H)), ES6, EA6, EB6 by (done || by apply has_len_spec).
    rewrite <- bigsum_plus. apply bigsum_ext. intros n Hn.
    by rewrite dactivation_additive.
Qed.

End additive.

Section zero_upstream.
Context (N D H : nat) (cache : step_cache).
Context (HN : (0 < N)%nat) (HD : (0 < D)%nat) (HH : (0 < H)%nat).
Context (Hcache : cache_has_shape N D H cache = true).

Local Abbreviation r0 := (lstm_step_backward (zeros N H) (zeros N H) cache).

Lemma step_backward_zero :
  r0 = (zeros N D, zeros N H, zeros N H, zeros D (4 * H), zeros H (4 * H),
        zeros1 (4 * H)).
Proof using All.
  pose proof (shape_zeros N H) as Sz.
  pose proof (step_backward_additive N D H (zeros N H) (zeros N H) (zeros N H)
                (zeros N H) cache HN HD HH Sz Sz Sz Sz Hcache) as Hadd.
  rewrite (madd_zeros_l N H) in Hadd by done.
  destruct (step_backward_shapes N D H _ _ cache HN HD HH Sz Sz Hcache)
    as (S1 & S2 & S3 & S4 & S5 & S6).
  destruct r0 as [[[[[dx dprev_h] dprev_c] dWx] dWh] db]. cbn [fst snd] in *.
  injection Hadd as E1 E2 E3 E4 E5 E6.
  assert (Hm : forall N' K' (M : matrix),
            has_shape N' K' M = true -> M = madd M M -> M = zeros N' K').
  { intros N' K' M SM EM. apply (matrix_ext N' K'); [done|apply shape_zeros|].
    intros n k Hn Hk. rewrite mget_zeros.
    assert (E : mget M n k = mget (madd M M) n k) by (by rewrite <- EM).
    rewrite (mget_madd N' K') in E by done. lra. }
  rewrite (Hm _ _ dx S1 E1), (Hm _ _ dprev_h S2 E2), (Hm _ _ dprev_c S3 E3),
    (Hm _ _ dWx S4 E4), (Hm _ _ dWh S5 E5).
  repeat f_equal.
  apply has_len_spec in S6.
  apply (vec_ext (4 * H)); [done|apply length_replicate|].
  intros k Hk. fold (vget db k). fold (vget (zeros1 (4 * H)) k). rewrite vget_zeros1.
  assert (E : vget db k = vget (vadd db db) k) by (by rewrite <- E6).
  rewrite (vget_vadd (4 * H)) in E by (done || by apply has_len_spec). lra.
Qed.

End zero_upstream.

(** X13.  The cell step backward is additive in its pair of upstream
    gradients: on the sum of two pairs it returns the sums of the six
    results for each pair, and on zero upstream gradients it returns six
    arrays of zeros. *)
Theorem lstm_step_backward_additive
  (N D H : nat) (a a' c c' : matrix) (cache : step_cache) :
  (0 < N)%nat -> (0 < D)%nat -> (0 < H)%nat ->
  has_shape N H a = true -> has_shape N H a' = true ->
  has_shape N H c = true -> has_shape N H c' = true ->
  cache_has_shape N D H cache = true ->
  let r := lstm_step_backward (madd a a') (madd c c') cache in
  let r1 := lstm_step_backward a c cache in
  let r2 := lstm_step_backward a' c' cache in
  r = (madd r1.1.1.1.1.1 r2.1.1.1.1.1, madd r1.1.1.1.1.2 r2.1.1.1.1.2,
       madd r1.1.1.1.2 r2.1.1.1.2, madd r1.1.1.2 r2.1.1.2, madd r1.1.2 r2.1.2,
       vadd r1.2 r2.2)
  /\ lstm_step_backward (zeros N H) (zeros N H) cache
     = (zeros N D, zeros N H, zeros N H, zeros D (4 * H), zeros H (4 * H),
        zeros1 (4 * H)).
Proof.
  intros HN HD HH Ha Ha' Hc Hc' Hcache. cbv zeta. split.
  - by apply (step_backward_additive N D H).
  - by apply (step_backward_zero N D H).
Qed.

Lemma lstm_step_backward_additive_witness :
  lstm_step_backward (zeros 1 1) (zeros 1 1) ex_cache
  = (zeros 1 1, zeros 1 1, zeros 1 1, zeros 1 (4 * 1), zeros 1 (4 * 1), zeros1 (4 * 1)).
Proof.
  refine (proj2 (lstm_step_backward_additive 1 1 1 ex_dnext_h ex_dnext_h ex_dnext_c
                   ex_dnext_c ex_cache _ _ _ _ _ _ _ _)); (lia || reflexivity).
Defined.

(** ** Where the store-level [lstm_backward] puts its results *)

Section result_locations.
Import Store.

Lemma bind_Ok {A B : Type} (m : M A) (k : A -> M B) (s s' : store) (b : B) :
  (m ≫= k) s = (s', Ok b) -> exists s1 a, m s = (s1, Ok a) /\ k a s1 = (s', Ok b).
Proof.
  unfold mbind, M_bind, bind. destruct (m s) as [s1 [a|e]]; [|done].
  intros E. by exists s1, a.
Qed.

Lemma load_Ok (l : nat) (s s1 : store) (a : ndarray) :
  load l s = (s1, Ok a) -> s1 = s.
Proof. unfold load. destruct (s !! l); by intros [= <- _]. Qed.

Lemma read3_Ok (l : nat) (s s1 : store) (v : tensor3) :
  read3 l s = (s1, Ok v) -> s1 = s.
Proof.
  unfold read3. intros E. apply bind_Ok in E as (s2 & a & E1 & E2).
  apply load_Ok in E1 as ->. destruct a; by injection E2 as <-.
Qed.

Lemma read2_Ok (r : ref) (s s1 : store) (v : matrix) :
  read2 r s = (s1, Ok v) -> s1 = s.
Proof.
  unfold read2. intros E. destruct r as [l|l t];
    apply bind_Ok in E as (s2 & a & E1 & E2);
    apply load_Ok in E1 as ->; destruct a; by injection E2 as <-.
Qed.

Lemma dict_get_Ok {V : Type} (d : gmap nat V) (i : nat) (s s1 : store) (v : V) :
  dict_get d i s = (s1, Ok v) -> s1 = s.
Proof. unfold dict_get. destruct (d !! i); by intros [= <- _]. Qed.

(** The five results are the first five arrays the call allocates. *)
Lemma lstm_backward_result_locations
  (dh : nat) (cache : gmap nat cache_refs) (s s' : store)
  (r : nat * ref * ref * ref * nat) :
  lstm_backward dh cache s = (s', Ok r) ->
  r = (length s, Whole (length s + 1), Whole (length s + 2), Whole (length s + 3),
       (length s + 4)%nat).
Proof.
  unfold lstm_backward. intros E.
  apply bind_Ok in E as (s1 & dhv & E1 & E). apply read3_Ok in E1 as ->.
  destruct (shape3 dhv) as [[N T] H].
  apply bind_Ok in E as (s1 & c0 & E1 & E). apply dict_get_Ok in E1 as ->.
  apply bind_Ok in E as (s1 & x0 & E1 & E). apply read2_Ok in E1 as ->.
  destruct (shape2 x0) as [N' D]. rewrite !run_alloc in E.
  apply bind_Ok in E as (s1 & [dprev dprev_c] & E1 & E).
  apply bind_Ok in E as (s2 & v & E2 & E).
  apply bind_Ok in E as (s3 & [] & E3 & E).
  unfold mret, M_ret, ret in E. injection E as _ <-.
  rewrite !length_app. cbn [length].
  replace (length s + 1 + 1 + 1 + 1)%nat with (length s + 4)%nat by lia.
  replace (length s + 1 + 1 + 1)%nat with (length s + 3)%nat by lia.
  replace (length s + 1 + 1)%nat with (length s + 2)%nat by lia.
  reflexivity.
Qed.

End result_locations.

(** X14.  With [dh] of shape [(N, T, H)], [T >= 1], and cached arrays of
    agreeing shapes under the keys below [T] that the dictionary holds: the
    store-level [lstm_backward] raises what the function on values raises (a
    [KeyError] for a missing key) and otherwise returns the values that
    function computes, in five distinct arrays that the call allocates, the
    first five locations past the store it was started in; either way every
    array that existed before the call holds what it held. *)
Theorem store_lstm_backward_results
  (N T D H : nat) (s : Store.store) (dh : nat) (dhv : tensor3)
  (cache : gmap nat Store.cache_refs) (cachev : gmap nat step_cache) :
  (0 < N)%nat -> (0 < T)%nat -> (0 < D)%nat -> (0 < H)%nat ->
  has_shape3 N T H dhv = true ->
  (forall t c, (t < T)%nat -> cachev !! t = Some c -> cache_has_shape N D H c = true) ->
  s !! dh = Some (Store.Arr3 dhv) -> cache_rel s cache cachev ->
  let n := length s in
  match lstm_backward dhv cachev with
  | Ok (dx, dh0, dWx, dWh, db) =>
      exists s',
        Store.lstm_backward dh cache s
        = (s', Ok (n, Store.Whole (n + 1), Store.Whole (n + 2), Store.Whole (n + 3),
                   (n + 4)%nat))
        /\ s' !! n = Some (Store.Arr3 dx)
        /\ s' !! (n + 1)%nat = Some (Store.Arr2 dh0)
        /\ s' !! (n + 2)%nat = Some (Store.Arr2 dWx)
        /\ s' !! (n + 3)%nat = Some (Store.Arr2 dWh)
        /\ s' !! (n + 4)%nat = Some (Store.Arr1 db)
        /\ (forall l, (l < n)%nat -> s' !! l = s !! l)
  | Raise e =>
      exists s',
        Store.lstm_backward dh cache s = (s', Raise e)
        /\ (forall l, (l < n)%nat -> s' !! l = s !! l)
  end.
Proof.
  intros _ _ _ _ _ _ Hdh Hrel. cbv zeta.
  pose proof (store_lstm_backward_refines s dh dhv cache cachev Hdh Hrel) as Href.
  destruct (framed_lstm_backward (length s) (fun l => (l < length s)%nat)
              (fun l Hl => Hl) dh cache s (Nat.le_refl _)) as (_ & Hframe & _).
  destruct (lstm_backward dhv cachev) as [[[[[dx dh0] dWx] dWh] db]|e].
  - destruct Href as (s' & ldx & ldh0 & lWx & lWh & ldb & E & H1 & H2 & H3 & H4 & H5 & H6).
    pose proof (lstm_backward_result_locations dh cache s s' _ E) as Eloc.
    injection Eloc as -> -> -> -> ->. by exists s'.
  - destruct Href as (s' & E). exists s'. split; [done|].
    intros l Hl. rewrite <- (Hframe l Hl). by rewrite E.
Qed.

Lemma store_lstm_backward_results_witness :
  match lstm_backward ex_dh {[0%nat := ex_cache]} with
  | Ok (dx, dh0, dWx, dWh, db) =>
      exists s',
        Store.lstm_backward 15 {[0%nat := ex_refs]} (ex_store ++ [Store.Arr3 ex_dh])
        = (s', Ok (16%nat, Store.Whole 17, Store.Whole 18, Store.Whole 19, 20%nat))
        /\ s' !! 16%nat = Some (Store.Arr3 dx)
        /\ s' !! 17%nat = Some (Store.Arr2 dh0)
        /\ s' !! 18%nat = Some (Store.Arr2 dWx)
        /\ s' !! 19%nat = Some (Store.Arr2 dWh)
        /\ s' !! 20%nat = Some (Store.Arr1 db)
        /\ s' !! 15%nat = Some (Store.Arr3 ex_dh)
  | Raise e => False
  end.
Proof.
  pose proof (store_lstm_backward_results 1 1 1 1 (ex_store ++ [Store.Arr3 ex_dh]) 15
                ex_dh {[0%nat := ex_refs]} {[0%nat := ex_cache]}) as Hw.
  cbv zeta in Hw.
  assert (Hrel : cache_rel (ex_store ++ [Store.Arr3 ex_dh])
                   {[0%nat := ex_refs]} {[0%nat := ex_cache]}).
  { intros i. destruct (decide (i = 0%nat)) as [->|Hne].
    - rewrite !lookup_singleton_eq. repeat split; reflexivity.
    - by rewrite !lookup_singleton_ne. }
  assert (Hshape : forall t c, (t < 1)%nat ->
            ({[0%nat := ex_cache]} : gmap nat step_cache) !! t = Some c ->
            cache_has_shape 1 1 1 c = true).
  { intros t c _ Hc. apply lookup_singleton_Some in Hc as [_ <-]. reflexivity. }
  specialize (Hw ltac:(lia) ltac:(lia) ltac:(lia) ltac:(lia) eq_refl Hshape eq_refl Hrel).
  destruct (lstm_backward ex_dh {[0%nat := ex_cache]})
    as [[[[[dx dh0] dWx] dWh] db]|e] eqn:Ev.
  - destruct Hw as (s' & E & H1 & H2 & H3 & H4 & H5 & H6).
    exists s'. repeat split; try done. by rewrite H6 by (simpl; lia).
  - exfalso. clear Hw. unfold lstm_backward in Ev. cbn in Ev. discriminate Ev.
Defined.

(** ** Running the cell step forward in a store *)

Section run_forward.
Local Abbreviation step_forward_val := lstm_step_forward.
Import Store.

Lemma holds2_slice (s : store) (l t : nat) (X : tensor3) :
  s !! l = Some (Arr3 X) -> holds2 s (TimeSlice l t) (slice_t X t).
Proof.
  intros E. unfold holds2, read2, mbind, M_bind, bind, load. by rewrite E.
Qed.

(** A read of the array allocated last but [k], for some [k]. *)
Ltac holds_new :=
  first [ by apply holds2_whole, list_lookup_middle
        | apply holds2_app; holds_new ].

(** The store-level step returns, allocates the seven arrays that the step
    on values computes, changes no array, and returns a cache that holds
    the references it was given for its six inputs. *)
Lemma step_forward_refines
  (s : store) (x prev_h prev_c Wx Wh : ref) (b : nat)
  (xv phv pcv Wxv Whv : matrix) (bv : vec) :
  holds2 s x xv -> holds2 s prev_h phv -> holds2 s prev_c pcv ->
  holds2 s Wx Wxv -> holds2 s Wh Whv -> s !! b = Some (Arr1 bv) ->
  let r := step_forward_val xv phv pcv Wxv Whv bv in
  let n := length s in
  StoreFwd.lstm_step_forward x prev_h prev_c Wx Wh b s
  = (s ++ [Arr2 (c_activation r.2); Arr2 (c_input r.2); Arr2 (c_forget r.2);
           Arr2 (c_output r.2); Arr2 (c_block_input r.2); Arr2 r.1.2; Arr2 r.1.1],
     Ok (Whole (n + 6), Whole (n + 5),
         CacheRefs x prev_h prev_c (Whole (n + 6)) (Whole (n + 5)) Wx Wh b
                   (Whole n) (Whole (n + 1)) (Whole (n + 2)) (Whole (n + 3))
                   (Whole (n + 4)))).
Proof.
  intros Hx Hph Hpc HWx HWh Hb. cbv zeta.
  unfold StoreFwd.lstm_step_forward, step_forward_val.
  rewrite (run_bind _ _ _ _ _ Hph). destruct (shape2 phv) as [N H] eqn:Eshape.
  rewrite (run_bind _ _ _ _ _ Hx), (run_bind _ _ _ _ _ HWx), (run_bind _ _ _ _ _ Hph),
    (run_bind _ _ _ _ _ HWh), (run_read1 _ _ _ _ Hb).
  repeat first
    [ rewrite run_alloc
    | erewrite run_bind by first [ (repeat apply holds2_app; eassumption) | holds_new ] ].
  unfold mret, M_ret, ret. cbn [fst snd c_activation c_input c_forget c_output
                                c_block_input].
  rewrite !length_app. cbn [length]. rewrite <- !app_assoc. cbn [app].
  replace (length s + 1 + 1 + 1 + 1 + 1 + 1)%nat with (length s + 6)%nat by lia.
  replace (length s + 1 + 1 + 1 + 1 + 1)%nat with (length s + 5)%nat by lia.
  replace (length s + 1 + 1 + 1 + 1)%nat with (length s + 4)%nat by lia.
  replace (length s + 1 + 1 + 1)%nat with (length s + 3)%nat by lia.
  replace (length s + 1 + 1)%nat with (length s + 2)%nat by lia.
  reflexivity.
Qed.

End run_forward.

(** ** The loop of the store-level [lstm_forward] *)

Lemma step_cache_fields (x prev_h prev_c Wx Wh : matrix) (b : vec) :
  let r := lstm_step_forward x prev_h prev_c Wx Wh b in
  c_x r.2 = x /\ c_prev_h r.2 = prev_h /\ c_prev_c r.2 = prev_c
  /\ c_next_h r.2 = r.1.1 /\ c_next_c r.2 = r.1.2
  /\ c_Wx r.2 = Wx /\ c_Wh r.2 = Wh /\ c_b r.2 = b.
Proof. cbv zeta. unfold lstm_step_forward. by destruct (shape2 prev_h). Qed.

Section forward_store.
Import Store.

Lemma holds2_inj (s : store) (r : ref) (v v' : matrix) :
  holds2 s r v -> holds2 s r v' -> v = v'.
Proof. unfold holds2. intros E E'. rewrite E in E'. by injection E'. Qed.

Lemma run_write2_slice {B : Type} (k : unit -> M B) (s : store) (l t : nat)
  (X : tensor3) (m : matrix) :
  s !! l = Some (Arr3 X) ->
  (write2 (TimeSlice l t) m ≫= k) s = k tt (<[l := Arr3 (set_slice_t X t m)]> s).
Proof.
  intros E. apply run_bind.
  unfold write2, mbind, M_bind, bind, load, store_at. by rewrite E.
Qed.

(** What a reference held before the assignment [h[:, k, :] = m] and the
    allocations that preceded it, it holds after them, unless it is a view
    of [h] at [k] or another view of the memory of [h]. *)
Lemma holds2_after_write (s ext : store) (lh k : nat) (hv : tensor3) (m : matrix)
  (r : ref) (v : matrix) :
  s !! lh = Some (Arr3 hv) -> length m = length hv ->
  holds2 s r v ->
  base r <> lh \/ (exists t, r = TimeSlice lh t /\ t <> k) ->
  holds2 (<[lh := Arr3 (set_slice_t hv k m)]> (s ++ ext)) r v.
Proof.
  intros Hh Hm Hr [Hne|(t & -> & Hne)].
  - apply holds2_insert; [by apply holds2_app|done].
  - pose proof (holds2_inj _ _ _ _ Hr (holds2_slice s lh t hv Hh)) as ->.
    rewrite <- (slice_set_slice_ne hv k t m) by done.
    apply holds2_slice. apply list_lookup_insert_eq.
    rewrite length_app. apply lookup_lt_Some in Hh. lia.
Qed.

Lemma lookup_after_write (s ext : store) (lh l : nat) (a : ndarray) (o : option ndarray) :
  s !! l = o -> (l < length s)%nat -> l <> lh ->
  (<[lh := a]> (s ++ ext)) !! l = o.
Proof.
  intros E Hl Hne. rewrite list_lookup_insert_ne by done. by rewrite lookup_app_l.
Qed.

Context (N T D H : nat) (xv : tensor3) (h0v Wxv Whv : matrix) (bv : vec).
Context (HN : (0 < N)%nat) (HD : (0 < D)%nat) (HH : (0 < H)%nat).
Context (Sx : has_shape3 N T D xv = true).
Context (Sh0 : has_shape N H h0v = true).
Context (SWx : has_shape D (4 * H) Wxv = true).
Context (SWh : has_shape H (4 * H) Whv = true).
Context (Sb : has_len (4 * H) bv = true).
Context (s0 : store) (lx : nat) (Wx Wh : ref) (lb : nat).
Context (Hx0 : s0 !! lx = Some (Arr3 xv)).
Context (HWx0 : holds2 s0 Wx Wxv).
Context (HWh0 : holds2 s0 Wh Whv).
Context (Hb0 : s0 !! lb = Some (Arr1 bv)).

Local Abbreviation lh := (length s0).
Local Abbreviation loopv := (fun i =>
  foldl (lstm_forward_body xv Wxv Whv bv)
        (set_slice_t (zeros3 N (T + 1) H) 0 h0v, zeros N H, ∅) (seq 0 i)).
Local Abbreviation inv := (fun i => fwd_inv s0 lx lh Wx Wh lb i (loopv i)).

Lemma loopv_S (i : nat) :
  loopv (S i)
  = (set_slice_t (loopv i).1.1 (i + 1)
       (lstm_step_forward (slice_t xv i) (slice_t (loopv i).1.1 i) (loopv i).1.2
                          Wxv Whv bv).1.1,
     (lstm_step_forward (slice_t xv i) (slice_t (loopv i).1.1 i) (loopv i).1.2
                        Wxv Whv bv).1.2,
     <[i := (lstm_step_forward (slice_t xv i) (slice_t (loopv i).1.1 i) (loopv i).1.2
                               Wxv Whv bv).2]> (loopv i).2).
Proof using Type.
  cbv beta. rewrite seq_S, foldl_app. cbn [foldl Nat.add].
  destruct (foldl _ _ (seq 0 i)) as [[hv pcv] scv]. cbn [fst snd].
  unfold lstm_forward_body.
  by destruct (lstm_step_forward _ _ _ _ _ _) as [[nh nc] cc].
Qed.

Lemma forward_body_refines (i : nat) (s : store) (st : ref * gmap nat cache_refs) :
  (i < T)%nat -> inv i s st ->
  exists s' st',
    StoreFwd.lstm_forward_body lx lh Wx Wh lb st i s = (s', Ok st') /\ inv (S i) s' st'.
Proof using All.
  intros Hi Hinv.
  destruct (forward_loop_inv N T D H xv h0v (zeros N H) Wxv Whv bv HN HD HH Sx Sh0
              (shape_zeros N H) SWx SWh Sb i ltac:(lia)) as (Il & Ir & Is & Ic & Im).
  destruct (chain_shape N T D H xv h0v (zeros N H) Wxv Whv bv HN HD HH Sx Sh0
              (shape_zeros N H) SWx SWh Sb (S i) ltac:(lia)) as [SSh _].
  rewrite (chain_S xv) in SSh. cbn [fst] in SSh.
  rewrite <- (Is i), <- Ic in SSh by lia.
  unfold fwd_inv in Hinv |- *. rewrite loopv_S. cbv beta in *.
  destruct (foldl _ _ (seq 0 i)) as [[hv pcv] scv]. cbn [fst snd] in *.
  destruct Hinv as (lc & Est & Hlc & Hpc & Hframe & Hh & Hcaches).
  destruct st as [pcref caches]. cbn [fst snd] in *. subst pcref.
  set (r := lstm_step_forward (slice_t xv i) (slice_t hv i) pcv Wxv Whv bv) in *.
  pose proof (lookup_lt_Some _ _ _ Hx0) as Llx.
  pose proof (lookup_lt_Some _ _ _ Hb0) as Llb.
  pose proof (lookup_lt_Some _ _ _ Hh) as Llh.
  pose proof (lookup_lt_Some _ _ _ Hpc) as Llc.
  pose proof (holds2_base_lt _ _ _ HWx0) as LWx.
  pose proof (holds2_base_lt _ _ _ HWh0) as LWh.
  assert (Hsx : s !! lx = Some (Arr3 xv)) by (by rewrite Hframe).
  assert (Hsb : s !! lb = Some (Arr1 bv)) by (by rewrite Hframe).
  assert (HsWx : holds2 s Wx Wxv) by (eapply holds2_agree; [done|by apply Hframe]).
  assert (HsWh : holds2 s Wh Whv) by (eapply holds2_agree; [done|by apply Hframe]).
  assert (Hnh : length r.1.1 = length hv) by (apply shape_length in SSh; lia).
  unfold StoreFwd.lstm_forward_body.
  rewrite (run_bind _ _ _ _ _
             (step_forward_refines s (TimeSlice lx i) (TimeSlice lh i) (Whole lc) Wx Wh lb
                (slice_t xv i) (slice_t hv i) pcv Wxv Whv bv
                (holds2_slice s lx i xv Hsx) (holds2_slice s lh i hv Hh)
                (proj2 (holds2_whole s lc pcv) Hpc) HsWx HsWh Hsb)).
  fold r. set (n := length s) in *.
  set (ext := [Arr2 (c_activation r.2); Arr2 (c_input r.2); Arr2 (c_forget r.2);
               Arr2 (c_output r.2); Arr2 (c_block_input r.2); Arr2 r.1.2; Arr2 r.1.1]).
  assert (Hext : forall j a, ext !! j = Some a -> (s ++ ext) !! (n + j)%nat = Some a).
  { intros j a Hj. rewrite lookup_app_r by (subst n; lia).
    by replace (n + j - length s)%nat with j by (subst n; lia). }
  rewrite (run_read2_whole _ _ _ _ (Hext 6%nat _ eq_refl)).
  rewrite (run_write2_slice _ (s ++ ext) lh (i + 1) hv r.1.1)
    by (by rewrite lookup_app_l).
  set (s' := <[lh := Arr3 (set_slice_t hv (i + 1) r.1.1)]> (s ++ ext)).
  assert (Hnew : forall j a, ext !! j = Some a -> s' !! (n + j)%nat = Some a).
  { intros j a Hj. subst s'. rewrite list_lookup_insert_ne by lia. by apply Hext. }
  assert (Hold : forall (ref0 : ref) v, holds2 s ref0 v ->
            base ref0 <> lh \/ (exists t, ref0 = TimeSlice lh t /\ t <> (i + 1)%nat) ->
            holds2 s' ref0 v).
  { intros ref0 v Hr Hc. by apply holds2_after_write. }
  destruct (step_cache_fields (slice_t xv i) (slice_t hv i) pcv Wxv Whv bv)
    as (F1 & F2 & F3 & F4 & F5 & F6 & F7 & F8).
  fold r in F1, F2, F3, F4, F5, F6, F7, F8.
  eexists _, _. split; [reflexivity|].
  exists (n + 5)%nat. cbn [fst snd].
  split; [done|]. split; [lia|]. split; [by apply (Hnew 5%nat)|].
  split.
  { intros l Hl. subst s'. rewrite list_lookup_insert_ne by lia.
    rewrite lookup_app_l by lia. by apply Hframe. }
  split.
  { subst s'. apply list_lookup_insert_eq. rewrite length_app. lia. }
  intros t. destruct (decide (t = i)) as [->|Hne].
  - rewrite !lookup_insert_eq.
    split; [|split; [done|split; [|lia]]].
    + unfold cache_holds_all, cache_holds.
      cbn [r_x r_prev_h r_prev_c r_next_h r_next_c r_Wx r_Wh r_b r_activation r_input
           r_forget r_output r_block_input].
      rewrite F1, F2, F3, F4, F5, F6, F7, F8.
      repeat split.
      * apply Hold; [by apply holds2_slice|left; cbn [base]; lia].
      * apply Hold; [by apply holds2_slice|right; exists i; split; [done|lia]].
      * apply Hold; [by apply holds2_whole|left; cbn [base]; lia].
      * apply holds2_whole. by apply (Hnew 5%nat).
      * apply Hold; [done|left; lia].
      * apply Hold; [done|left; lia].
      * apply holds2_whole. by apply (Hnew 1%nat).
      * apply holds2_whole. by apply (Hnew 2%nat).
      * apply holds2_whole. by apply (Hnew 3%nat).
      * apply holds2_whole. by apply (Hnew 4%nat).
      * apply holds2_whole. by apply (Hnew 6%nat).
      * subst s'. by apply lookup_after_write; [|lia..].
      * apply holds2_whole. replace n with (n + 0)%nat at 1 by lia.
        by apply (Hnew 0%nat).
    + unfold cache_above.
      cbn [r_x r_prev_h r_prev_c r_next_h r_next_c r_Wx r_Wh r_b r_activation r_input
           r_forget r_output r_block_input].
      eexists _, _, _, _, _, _, _, _. repeat split; lia.
  - rewrite !lookup_insert_ne by done. specialize (Hcaches t).
    destruct (caches !! t) as [c|], (scv !! t) as [v|]; try done.
    destruct Hcaches as (Hall & Hviews & Habove & Hlt).
    split; [|split; [done|split; [done|lia]]].
    destruct Hviews as (V1 & V2 & V3 & V4 & V5).
    destruct Habove as (lpc & lnh & lnc & la & li & lf & lo & lg & A1 & A2 & A3 & A4
                        & A5 & A6 & A7 & A8 & B1 & B2 & B3 & B4 & B5 & B6 & B7 & B8).
    destruct Hall as ((C1 & C2 & C3 & C4 & C5 & C6 & C7 & C8 & C9 & C10) & C11 & C12 & C13).
    unfold cache_holds_all, cache_holds. repeat split.
    + apply Hold; [done|left; rewrite V1; cbn [base]; lia].
    + apply Hold; [done|right; exists t; split; [done|lia]].
    + apply Hold; [done|left; rewrite A1; cbn [base]; lia].
    + apply Hold; [done|left; rewrite A3; cbn [base]; lia].
    + apply Hold; [done|left; rewrite V3; lia].
    + apply Hold; [done|left; rewrite V4; lia].
    + apply Hold; [done|left; rewrite A5; cbn [base]; lia].
    + apply Hold; [done|left; rewrite A6; cbn [base]; lia].
    + apply Hold; [done|left; rewrite A7; cbn [base]; lia].
    + apply Hold; [done|left; rewrite A8; cbn [base]; lia].
    + apply Hold; [done|left; rewrite A2; cbn [base]; lia].
    + subst s'. rewrite V5 in C12 |- *. by apply lookup_after_write; [|lia..].
    + apply Hold; [done|left; rewrite A4; cbn [base]; lia].
Qed.

End forward_store.

Local Ltac lookup_new k :=
  rewrite lookup_app_r by lia;
  match goal with
  | |- context [(?n + k - ?n)%nat] => replace (n + k - n)%nat with k by lia
  | |- context [(?n - ?n)%nat] => replace (n - n)%nat with 0%nat by lia
  end;
  reflexivity.

(** X18.  The effects of one cell step.  Started in a store where its six
    arguments hold arrays of agreeing shapes, the store-level
    [lstm_step_forward] returns, however the arguments share memory;
    [next_h] and [next_c] are two distinct arrays that the call allocates,
    holding the values the step on values computes; every array that existed
    before the call holds what it held; and the cache keeps the six
    arguments by reference, not as copies, next to arrays holding the
    activations. *)
Theorem store_lstm_step_forward_effects
  (N D H : nat) (s : Store.store) (x prev_h prev_c Wx Wh : Store.ref) (b : nat)
  (xv phv pcv Wxv Whv : matrix) (bv : vec) :
  (0 < N)%nat -> (0 < D)%nat -> (0 < H)%nat ->
  has_shape N D xv = true -> has_shape N H phv = true -> has_shape N H pcv = true ->
  has_shape D (4 * H) Wxv = true -> has_shape H (4 * H) Whv = true ->
  has_len (4 * H) bv = true ->
  holds2 s x xv -> holds2 s prev_h phv -> holds2 s prev_c pcv ->
  holds2 s Wx Wxv -> holds2 s Wh Whv -> s !! b = Some (Store.Arr1 bv) ->
  let r := lstm_step_forward xv phv pcv Wxv Whv bv in
  exists s' lnh lnc cache,
    StoreFwd.lstm_step_forward x prev_h prev_c Wx Wh b s
    = (s', Ok (Store.Whole lnh, Store.Whole lnc, cache))
    /\ (length s <= lnh)%nat /\ (length s <= lnc)%nat /\ lnh <> lnc
    /\ s' !! lnh = Some (Store.Arr2 r.1.1) /\ s' !! lnc = Some (Store.Arr2 r.1.2)
    /\ (forall l, (l < length s)%nat -> s' !! l = s !! l)
    /\ (Store.r_x cache = x /\ Store.r_prev_h cache = prev_h
        /\ Store.r_prev_c cache = prev_c /\ Store.r_Wx cache = Wx
        /\ Store.r_Wh cache = Wh /\ Store.r_b cache = b)
    /\ Store.r_next_h cache = Store.Whole lnh /\ Store.r_next_c cache = Store.Whole lnc
    /\ cache_holds_all s' cache r.2.
Proof.
  intros _ _ _ _ _ _ _ _ _ Hx Hph Hpc HWx HWh Hb. cbv zeta.
  pose proof (step_forward_refines s x prev_h prev_c Wx Wh b xv phv pcv Wxv Whv bv
                Hx Hph Hpc HWx HWh Hb) as E. cbv zeta in E.
  pose proof (step_cache_fields xv phv pcv Wxv Whv bv)
    as (F1 & F2 & F3 & F4 & F5 & F6 & F7 & F8).
  eexists _, _, _, _. split; [exact E|].
  split; [lia|]. split; [lia|]. split; [lia|].
  split; [lookup_new 6%nat|]. split; [lookup_new 5%nat|].
  split; [intros l Hl; by apply lookup_app_l|].
  split; [done|]. split; [done|]. split; [done|].
  unfold cache_holds_all, cache_holds. cbn [Store.r_x Store.r_prev_h Store.r_prev_c
    Store.r_next_h Store.r_next_c Store.r_Wx Store.r_Wh Store.r_b Store.r_activation
    Store.r_input Store.r_forget Store.r_output Store.r_block_input].
  rewrite F1, F2, F3, F4, F5, F6, F7, F8.
  repeat split;
    first [ by apply holds2_app
          | by apply lookup_app_l_Some
          | apply holds2_whole;
            first [ lookup_new 6%nat | lookup_new 5%nat | lookup_new 4%nat
                  | lookup_new 3%nat | lookup_new 2%nat | lookup_new 1%nat
                  | lookup_new 0%nat ] ].
Qed.

Lemma store_lstm_step_forward_effects_witness :
  exists s' lnh lnc cache,
    StoreFwd.lstm_step_forward (Store.TimeSlice 0 0) (Store.Whole 1) (Store.Whole 1)
      (Store.Whole 2) (Store.Whole 3) 4 ex_fwd_store
    = (s', Ok (Store.Whole lnh, Store.Whole lnc, cache))
    /\ lnh <> lnc
    /\ s' !! 1%nat = Some (Store.Arr2 ex_h0)
    /\ Store.r_prev_h cache = Store.r_prev_c cache.
Proof.
  destruct (store_lstm_step_forward_effects 1 1 1 ex_fwd_store (Store.TimeSlice 0 0)
              (Store.Whole 1) (Store.Whole 1) (Store.Whole 2) (Store.Whole 3) 4
              [[0]] ex_h0 ex_h0 ex_Wx ex_Wh ex_b)
    as (s' & lnh & lnc & cache & E & _ & _ & Hne & _ & _ & Hframe
        & (_ & Eph & Epc & _) & _); try lia; try reflexivity.
  exists s', lnh, lnc, cache. split; [exact E|]. split; [exact Hne|].
  split; [by rewrite Hframe by (simpl; lia)|]. by rewrite Eph, Epc.
Defined.

(** ** The store-level [lstm_forward] computes the one on values *)

Section forward_refines.
Import Store.

Lemma run_for_each_snoc {A S : Type} (body : S -> A -> M S) (st : S) (l : list A)
  (a : A) (s s1 : store) (st1 : S) :
  for_each body st l s = (s1, Ok st1) ->
  for_each body st (l ++ [a]) s = body st1 a s1.
Proof.
  revert st s. induction l as [|a0 l IH]; intros st s E.
  - cbn in E. injection E as <- <-. cbn [app for_each].
    unfold mbind, M_bind, bind. by destruct (body st a s) as [s2 [st2|e]].
  - cbn [app for_each] in *. unfold mbind, M_bind, bind in *.
    destruct (body st a0 s) as [s2 [st2|e]]; [|done]. by apply IH.
Qed.

Context (N T D H : nat) (xv : tensor3) (h0v Wxv Whv : matrix) (bv : vec).
Context (HN : (0 < N)%nat) (HD : (0 < D)%nat) (HH : (0 < H)%nat).
Context (Sx : has_shape3 N T D xv = true).
Context (Sh0 : has_shape N H h0v = true).
Context (SWx : has_shape D (4 * H) Wxv = true).
Context (SWh : has_shape H (4 * H) Whv = true).
Context (Sb : has_len (4 * H) bv = true).
Context (s0 : store) (lx : nat) (h0 Wx Wh : ref) (lb : nat).
Context (Hx0 : s0 !! lx = Some (Arr3 xv)).
Context (Hh00 : holds2 s0 h0 h0v).
Context (HWx0 : holds2 s0 Wx Wxv).
Context (HWh0 : holds2 s0 Wh Whv).
Context (Hb0 : s0 !! lb = Some (Arr1 bv)).

Local Abbreviation lh := (length s0).
Local Abbreviation h_init := (set_slice_t (zeros3 N (T + 1) H) 0 h0v).
Local Abbreviation loopv := (fun i =>
  foldl (lstm_forward_body xv Wxv Whv bv) (h_init, zeros N H, ∅) (seq 0 i)).
Local Abbreviation s_init :=
  (<[lh := Arr3 h_init]> (s0 ++ [Arr3 (zeros3 N (T + 1) H)]) ++ [Arr2 (zeros N H)]).

Lemma forward_loop_refines (i : nat) :
  (i <= T)%nat ->
  exists s st,
    for_each (StoreFwd.lstm_forward_body lx lh Wx Wh lb) (Whole (lh + 1), ∅) (seq 0 i)
             s_init
    = (s, Ok st)
    /\ fwd_inv s0 lx lh Wx Wh lb i (loopv i) s st.
Proof using All.
  induction i as [|i IH]; intros Hi.
  - eexists _, _. split; [reflexivity|]. cbn [seq foldl]. unfold fwd_inv.
    exists (lh + 1)%nat. cbn [fst snd].
    split; [done|]. split; [lia|]. split.
    { rewrite lookup_app_r by (rewrite length_insert, length_app; cbn [length]; lia).
      rewrite length_insert, length_app. cbn [length].
      by replace (lh + 1 - (lh + 1))%nat with 0%nat by lia. }
    split.
    { intros l Hl. rewrite lookup_app_l
        by (rewrite length_insert, length_app; cbn [length]; lia).
      rewrite list_lookup_insert_ne by lia. by rewrite lookup_app_l. }
    split.
    { rewrite lookup_app_l by (rewrite length_insert, length_app; cbn [length]; lia).
      apply list_lookup_insert_eq. rewrite length_app. cbn [length]. lia. }
    intros t. by rewrite !lookup_empty.
  - destruct IH as (s & st & E & Hinv); [lia|].
    destruct (forward_body_refines N T D H xv h0v Wxv Whv bv HN HD HH Sx Sh0 SWx SWh Sb
                s0 lx Wx Wh lb Hx0 HWx0 HWh0 Hb0 i s st ltac:(lia) Hinv)
      as (s' & st' & E' & Hinv').
    exists s', st'. split; [|exact Hinv'].
    rewrite seq_S. cbn [Nat.add]. by rewrite (run_for_each_snoc _ _ _ _ _ _ _ E).
Qed.

(** The value [lstm_forward] returns, in terms of the state its loop ends
    in. *)
Lemma lstm_forward_loop :
  lstm_forward xv h0v Wxv Whv bv = (drop_t 1 (loopv T).1.1, (loopv T).2).
Proof using HN Sx Sh0 SWh.
  destruct (shape3_dims N T D xv Sx HN) as [HlN HlT].
  unfold lstm_forward, shape3, nrows. rewrite HlN, HlT.
  rewrite (shape_length _ _ _ SWh), (zeros_like_shape N H h0v Sh0).
  by destruct (foldl _ _ (seq 0 T)) as [[h pc] sc].
Qed.

Lemma store_forward_run :
  exists s' caches,
    StoreFwd.lstm_forward lx h0 Wx Wh lb s0 = (s', Ok (StoreFwd.TimeFrom lh 1, caches))
    /\ (forall l, (l < length s0)%nat -> s' !! l = s0 !! l)
    /\ s' !! lh = Some (Arr3 (loopv T).1.1)
    /\ (forall t,
          match caches !! t, (loopv T).2 !! t with
          | Some c, Some v =>
              cache_holds_all s' c v /\ cache_views lx lh Wx Wh lb t c
              /\ cache_above lh c /\ (t < T)%nat
          | None, None => True
          | _, _ => False
          end).
Proof using All.
  destruct (shape3_dims N T D xv Sx HN) as [HlN HlT].
  destruct (forward_loop_refines T (Nat.le_refl T)) as (s & st & E & Hinv).
  unfold StoreFwd.lstm_forward.
  rewrite (run_read3 _ _ _ _ Hx0). unfold shape3. rewrite HlN, HlT.
  rewrite (run_bind _ _ _ _ _ HWh0). unfold nrows. rewrite (shape_length _ _ _ SWh).
  rewrite run_alloc.
  rewrite (run_bind _ _ _ _ _ (holds2_app _ [Arr3 (zeros3 N (T + 1) H)] _ _ Hh00)).
  rewrite (run_write2_slice _ _ lh 0 (zeros3 N (T + 1) H) h0v)
    by (by apply list_lookup_middle).
  pose proof (holds2_base_lt _ _ _ Hh00) as Lh0.
  erewrite (run_bind (read2 h0) _ _ _ h0v)
    by (apply holds2_insert; [by apply holds2_app|lia]).
  rewrite run_alloc, (zeros_like_shape N H h0v Sh0).
  rewrite length_insert, length_app. cbn [length].
  rewrite (run_bind (for_each _ _ _) _ _ _ _ E). destruct st as [pcref caches].
  unfold fwd_inv in Hinv. cbv beta in Hinv.
  destruct (foldl _ _ (seq 0 T)) as [[hv pcv] scv]. cbn [fst snd] in *.
  destruct Hinv as (lc & _ & _ & _ & Hframe & Hh & Hcaches).
  by exists s, caches.
Qed.

End forward_refines.

Lemma holds2_overwrite3 (s : Store.store) (l t : nat) (X : tensor3) :
  (l < length s)%nat ->
  holds2 (<[l := Store.Arr3 X]> s) (Store.TimeSlice l t) (slice_t X t).
Proof. intros Hl. by apply holds2_slice, list_lookup_insert_eq. Qed.

(** The gradients of the loss, from the caches of the forward pass. *)
Lemma backward_of_forward_gradient
  (N T D H : nat) (x : tensor3) (h0 Wx Wh : matrix) (b : vec) (dh : tensor3) :
  (0 < N)%nat -> (0 < T)%nat -> (0 < D)%nat -> (0 < H)%nat ->
  has_shape3 N T D x = true -> has_shape N H h0 = true ->
  has_shape D (4 * H) Wx = true -> has_shape H (4 * H) Wh = true ->
  has_len (4 * H) b = true -> has_shape3 N T H dh = true ->
  exists g,
    lstm_backward dh (lstm_forward x h0 Wx Wh b).2 = Ok g
    /\ is_seq_gradient N T D H dh x h0 Wx Wh b g.
Proof.
  intros HN HT HD HH Hx Hh0 HWx HWh Hb Hdh.
  set (cs := chain_cache x h0 (zeros N H) Wx Wh b).
  assert (Hcache : forall t, (t < T)%nat ->
            (lstm_forward x h0 Wx Wh b).2 !! t = Some (cs t)).
  { intros t Ht. rewrite (forward_caches_lookup N T D H) by done.
    destruct (decide (t < T)%nat); [done|lia]. }
  assert (Hshape : forall t, (t < T)%nat -> cache_has_shape N D H (cs t) = true).
  { intros t Ht. apply (chain_cache_shape N T D H); try done. apply shape_zeros. }
  destruct (lstm_backward_run N T D H dh _ cs HN HT HD HH Hdh Hcache Hshape)
    as (dx & dh0 & dWx & dWh & db & E & Sdx & Edx & Edh0 & Sdh0 & SWx & EWx
        & SWh & EWh & Sb & Eb).
  exists (dx, dh0, dWx, dWh, db). split; [exact E|]. unfold is_seq_gradient.
  split.
  { intros n t d Hn Ht Hd. rewrite (tget_slice_t N T D dx) by done. rewrite Edx by done.
    by apply (seq_grad_x N T D H). }
  split.
  { intros n j Hn Hj. rewrite Edh0. by apply (seq_grad_h0 N T D H). }
  split.
  { intros d k Hd Hk. rewrite EWx by done. by apply (seq_grad_Wx N T D H). }
  split.
  { intros j k Hj Hk. rewrite EWh by done. by apply (seq_grad_Wh N T D H). }
  intros k Hk. rewrite Eb by done. by apply (seq_grad_b N T D H).
Qed.

(** X15.  Started in a store where [x], [h0], [Wx], [Wh] and [b] hold
    arrays of matching shapes, the store-level [lstm_forward] returns: its
    first result is the view [h[:, 1:, :]] of the array [h] it allocates
    first, and reads as the hidden states that [lstm_forward] on values
    computes; the references of the caches it returns hold the arrays of the
    caches on values; and every array that existed before the call holds
    what it held. *)
Theorem store_lstm_forward_refines
  (N T D H : nat) (xv : tensor3) (h0v Wxv Whv : matrix) (bv : vec)
  (s : Store.store) (lx : nat) (h0 Wx Wh : Store.ref) (lb : nat) :
  (0 < N)%nat -> (0 < D)%nat -> (0 < H)%nat ->
  has_shape3 N T D xv = true -> has_shape N H h0v = true ->
  has_shape D (4 * H) Wxv = true -> has_shape H (4 * H) Whv = true ->
  has_len (4 * H) bv = true ->
  s !! lx = Some (Store.Arr3 xv) -> holds2 s h0 h0v -> holds2 s Wx Wxv ->
  holds2 s Wh Whv -> s !! lb = Some (Store.Arr1 bv) ->
  let r := lstm_forward xv h0v Wxv Whv bv in
  exists s' caches,
    StoreFwd.lstm_forward lx h0 Wx Wh lb s
    = (s', Ok (StoreFwd.TimeFrom (length s) 1, caches))
    /\ StoreFwd.read3v (StoreFwd.TimeFrom (length s) 1) s' = (s', Ok r.1)
    /\ cache_rel s' caches r.2
    /\ (forall l, (l < length s)%nat -> s' !! l = s !! l).
Proof.
  intros HN HD HH Sx Sh0 SWx SWh Sb Hx Hh0 HWx HWh Hb. cbv zeta.
  destruct (store_forward_run N T D H xv h0v Wxv Whv bv HN HD HH Sx Sh0 SWx SWh Sb
              s lx h0 Wx Wh lb Hx Hh0 HWx HWh Hb)
    as (s' & caches & E & Hframe & Hh & Hcaches).
  rewrite (lstm_forward_loop N T D H xv h0v Wxv Whv bv HN Sx Sh0 SWh). cbn [fst snd].
  exists s', caches. split; [exact E|]. split.
  { unfold StoreFwd.read3v. by rewrite (run_read3 _ _ _ _ Hh). }
  split; [|exact Hframe].
  intros t. specialize (Hcaches t).
  destruct (caches !! t) as [c|], (_ !! t) as [v|]; try done.
  by destruct Hcaches as [[Hc _] _].
Qed.

Lemma store_lstm_forward_refines_witness :
  exists s' caches,
    StoreFwd.lstm_forward 0 (Store.Whole 1) (Store.Whole 2) (Store.Whole 3) 4 ex_fwd_store
    = (s', Ok (StoreFwd.TimeFrom 6 1, caches))
    /\ StoreFwd.read3v (StoreFwd.TimeFrom 6 1) s'
       = (s', Ok (lstm_forward ex_x ex_h0 ex_Wx ex_Wh ex_b).1)
    /\ cache_rel s' caches (lstm_forward ex_x ex_h0 ex_Wx ex_Wh ex_b).2
    /\ s' !! 0%nat = Some (Store.Arr3 ex_x).
Proof.
  destruct (store_lstm_forward_refines 1 1 1 1 ex_x ex_h0 ex_Wx ex_Wh ex_b ex_fwd_store
              0 (Store.Whole 1) (Store.Whole 2) (Store.Whole 3) 4)
    as (s' & caches & E & Hh & Hrel & Hframe); try lia; try reflexivity.
  exists s', caches. repeat split; try done. by rewrite Hframe by (simpl; lia).
Defined.

(** X16.  The caches that [lstm_forward] returns copy none of its inputs.
    Under key [t], with [t < T], the cache refers to its input as the view
    [x[:, t, :]] of the caller's [x], so that it reads whatever [x] holds
    later, and to the parameters by the references the call was given.  Its
    previous hidden state is a view of the array [h] behind the returned
    hidden states: when that array is overwritten, the cache under key
    [t + 1] reads time step [t] of what the returned view reads. *)
Theorem lstm_forward_caches_are_views
  (N T D H : nat) (xv : tensor3) (h0v Wxv Whv : matrix) (bv : vec)
  (s : Store.store) (lx : nat) (h0 Wx Wh : Store.ref) (lb : nat) :
  (0 < N)%nat -> (0 < D)%nat -> (0 < H)%nat ->
  has_shape3 N T D xv = true -> has_shape N H h0v = true ->
  has_shape D (4 * H) Wxv = true -> has_shape H (4 * H) Whv = true ->
  has_len (4 * H) bv = true ->
  s !! lx = Some (Store.Arr3 xv) -> holds2 s h0 h0v -> holds2 s Wx Wxv ->
  holds2 s Wh Whv -> s !! lb = Some (Store.Arr1 bv) ->
  exists s' hs caches,
    StoreFwd.lstm_forward lx h0 Wx Wh lb s = (s', Ok (hs, caches))
    /\ (forall t c, caches !! t = Some c ->
          (t < T)%nat
          /\ Store.r_Wx c = Wx /\ Store.r_Wh c = Wh /\ Store.r_b c = lb
          /\ forall x' : tensor3,
               holds2 (<[lx := Store.Arr3 x']> s') (Store.r_x c) (slice_t x' t))
    /\ (forall t c (h' : tensor3), caches !! S t = Some c ->
          let s'' := <[StoreFwd.base3 hs := Store.Arr3 h']> s' in
          exists hv,
            StoreFwd.read3v hs s'' = (s'', Ok hv)
            /\ holds2 s'' (Store.r_prev_h c) (slice_t hv t)).
Proof.
  intros HN HD HH Sx Sh0 SWx SWh Sb Hx Hh0 HWx HWh Hb.
  destruct (store_forward_run N T D H xv h0v Wxv Whv bv HN HD HH Sx Sh0 SWx SWh Sb
              s lx h0 Wx Wh lb Hx Hh0 HWx HWh Hb)
    as (s' & caches & E & Hframe & Hh & Hcaches).
  assert (Llx : (lx < length s')%nat).
  { apply lookup_lt_Some in Hx. apply lookup_lt_Some in Hh. lia. }
  exists s', (StoreFwd.TimeFrom (length s) 1), caches. split; [exact E|]. split.
  - intros t c Ec. specialize (Hcaches t). rewrite Ec in Hcaches.
    destruct (_ !! t) as [v|]; [|done].
    destruct Hcaches as (_ & (Ex & _ & EWx & EWh & Eb) & _ & Ht).
    repeat split; try done. intros x'. rewrite Ex. by apply holds2_overwrite3.
  - intros t c h' Ec. cbv zeta. cbn [StoreFwd.base3].
    specialize (Hcaches (S t)). rewrite Ec in Hcaches.
    destruct (_ !! S t) as [v|]; [|done].
    destruct Hcaches as (_ & (_ & Eh & _) & _ & _).
    apply lookup_lt_Some in Hh.
    exists (drop_t 1 h'). split.
    + unfold StoreFwd.read3v.
      by rewrite (run_read3 _ _ _ h') by (by apply list_lookup_insert_eq).
    + rewrite Eh, slice_drop_t. cbn [Nat.add]. by apply holds2_overwrite3.
Qed.

Lemma lstm_forward_caches_are_views_witness :
  exists s' caches,
    StoreFwd.lstm_forward 0 (Store.Whole 1) (Store.Whole 2) (Store.Whole 3) 4 ex_fwd_store
    = (s', Ok (StoreFwd.TimeFrom 6 1, caches))
    /\ forall c, caches !! 0%nat = Some c ->
         holds2 (<[0%nat := Store.Arr3 [[[1]]]]> s') (Store.r_x c) [[1]].
Proof.
  destruct (lstm_forward_caches_are_views 1 1 1 1 ex_x ex_h0 ex_Wx ex_Wh ex_b
              ex_fwd_store 0 (Store.Whole 1) (Store.Whole 2) (Store.Whole 3) 4)
    as (s' & hs & caches & E & Hx & Hh); try lia; try reflexivity.
  destruct (store_forward_run 1 1 1 1 ex_x ex_h0 ex_Wx ex_Wh ex_b
              ltac:(lia) ltac:(lia) ltac:(lia) eq_refl eq_refl eq_refl eq_refl eq_refl
              ex_fwd_store 0 (Store.Whole 1) (Store.Whole 2) (Store.Whole 3) 4
              eq_refl eq_refl eq_refl eq_refl eq_refl)
    as (s1 & caches1 & E1 & _).
  rewrite E in E1. injection E1 as -> -> ->.
  exists s1, caches1. split; [exact E|].
  intros c Ec. destruct (Hx 0%nat c Ec) as (_ & _ & _ & _ & Hr). exact (Hr [[[1]]]).
Defined.

(** X17.  Forward, then backward, in one store.  With [dh] an array of the
    shape of the hidden states, the store-level [lstm_forward] followed by
    the store-level [lstm_backward] on the caches it returned both return;
    the five results are the first five arrays that [lstm_backward]
    allocates, they hold the partial derivatives of the loss [seq_loss dh]
    with respect to the entries of [x], [h0], [Wx], [Wh] and [b], and every
    array that existed before the two calls holds what it held. *)
Theorem store_forward_backward_gradient
  (N T D H : nat) (xv : tensor3) (h0v Wxv Whv : matrix) (bv : vec) (dhv : tensor3)
  (s : Store.store) (lx : nat) (h0 Wx Wh : Store.ref) (lb ldh : nat) :
  (0 < N)%nat -> (0 < T)%nat -> (0 < D)%nat -> (0 < H)%nat ->
  has_shape3 N T D xv = true -> has_shape N H h0v = true ->
  has_shape D (4 * H) Wxv = true -> has_shape H (4 * H) Whv = true ->
  has_len (4 * H) bv = true -> has_shape3 N T H dhv = true ->
  s !! lx = Some (Store.Arr3 xv) -> holds2 s h0 h0v -> holds2 s Wx Wxv ->
  holds2 s Wh Whv -> s !! lb = Some (Store.Arr1 bv) ->
  s !! ldh = Some (Store.Arr3 dhv) ->
  exists s1 hs caches s2 dx dh0 dWx dWh db,
    StoreFwd.lstm_forward lx h0 Wx Wh lb s = (s1, Ok (hs, caches))
    /\ (let n := length s1 in
        Store.lstm_backward ldh caches s1
        = (s2, Ok (n, Store.Whole (n + 1), Store.Whole (n + 2), Store.Whole (n + 3),
                   (n + 4)%nat))
        /\ s2 !! n = Some (Store.Arr3 dx)
        /\ s2 !! (n + 1)%nat = Some (Store.Arr2 dh0)
        /\ s2 !! (n + 2)%nat = Some (Store.Arr2 dWx)
        /\ s2 !! (n + 3)%nat = Some (Store.Arr2 dWh)
        /\ s2 !! (n + 4)%nat = Some (Store.Arr1 db))
    /\ is_seq_gradient N T D H dhv xv h0v Wxv Whv bv (dx, dh0, dWx, dWh, db)
    /\ (forall l, (l < length s)%nat -> s2 !! l = s !! l).
Proof.
  intros HN HT HD HH Sx Sh0 SWx SWh Sb Sdh Hx Hh0 HWx HWh Hb Hdh.
  destruct (store_forward_run N T D H xv h0v Wxv Whv bv HN HD HH Sx Sh0 SWx SWh Sb
              s lx h0 Wx Wh lb Hx Hh0 HWx HWh Hb)
    as (s1 & caches & E & Hframe & Hh & Hcaches).
  assert (Hrel : cache_rel s1 caches (lstm_forward xv h0v Wxv Whv bv).2).
  { rewrite (lstm_forward_loop N T D H xv h0v Wxv Whv bv HN Sx Sh0 SWh). cbn [snd].
    intros t. specialize (Hcaches t).
    destruct (caches !! t) as [c|], (_ !! t) as [v|]; try done.
    by destruct Hcaches as [[Hc _] _]. }
  assert (Hdh1 : s1 !! ldh = Some (Store.Arr3 dhv)).
  { rewrite Hframe; [done|]. by eapply lookup_lt_Some. }
  destruct (backward_of_forward_gradient N T D H xv h0v Wxv Whv bv dhv)
    as ([[[[dx dh0] dWx] dWh] db] & Ev & Hgrad); try done.
  pose proof (store_lstm_backward_refines s1 ldh dhv caches _ Hdh1 Hrel) as Href.
  rewrite Ev in Href.
  destruct Href as (s2 & ldx & ldh0 & lWx & lWh & ldb & E2 & H1 & H2 & H3 & H4 & H5 & H6).
  pose proof (lstm_backward_result_locations ldh caches s1 s2 _ E2) as Eloc.
  injection Eloc as -> -> -> -> ->.
  exists s1, (StoreFwd.TimeFrom (length s) 1), caches, s2, dx, dh0, dWx, dWh, db.
  split; [exact E|]. split; [done|]. split; [exact Hgrad|].
  intros l Hl. rewrite <- (Hframe l Hl). apply H6.
  apply lookup_lt_Some in Hh. lia.
Qed.

Lemma store_forward_backward_gradient_witness :
  exists s1 hs caches s2 r,
    StoreFwd.lstm_forward 0 (Store.Whole 1) (Store.Whole 2) (Store.Whole 3) 4 ex_fwd_store
    = (s1, Ok (hs, caches))
    /\ Store.lstm_backward 5 caches s1 = (s2, Ok r)
    /\ s2 !! 5%nat = Some (Store.Arr3 ex_dh).
Proof.
  destruct (store_forward_backward_gradient 1 1 1 1 ex_x ex_h0 ex_Wx ex_Wh ex_b ex_dh
              ex_fwd_store 0 (Store.Whole 1) (Store.Whole 2) (Store.Whole 3) 4 5)
    as (s1 & hs & caches & s2 & dx & dh0 & dWx & dWh & db & E & (E2 & _) & _ & Hframe);
    try lia; try reflexivity.
  exists s1, hs, caches, s2. eexists. split; [exact E|]. split; [exact E2|].
  by rewrite Hframe by (simpl; lia).
Defined.

(** ** sigmoid: the two branches, and integer arrays *)

Lemma sigmoid_flat_with_exp (x : vec) : sigmoid_flat_with exp x = sigmoid_flat x.
Proof. reflexivity. Qed.

Lemma sigmoid_flat_with_cons (e : R -> R) (v : R) (x : vec) :
  sigmoid_flat_with e (v :: x)
  = (if Rge_dec v 0 then 1 / (1 + e (- v)) else e v / (1 + e v))
    :: sigmoid_flat_with e x.
Proof.
  assert (He : (if Rge_dec v 0 then 1 / (1 + e (- v)) else e v / (1 + e v))
               = if ge0 v then 1 / (1 + e (- v)) else e v / (1 + e v)).
  { unfold ge0. by destruct (Rge_dec v 0). }
  rewrite He. unfold sigmoid_flat_with.
  cbn [map zeros_like_flat ones_like_flat].
  rewrite lt0_ge0. destruct (ge0 v); reflexivity.
Qed.

Lemma sigmoid_flat_with_map (e : R -> R) (x : vec) :
  sigmoid_flat_with e x
  = map (fun v => if Rge_dec v 0 then 1 / (1 + e (- v)) else e v / (1 + e v)) x.
Proof.
  induction x as [|v x IH]; [reflexivity|].
  rewrite sigmoid_flat_with_cons, IH. reflexivity.
Qed.

Lemma sigmoid_flat_with_agree (e e' : R -> R) (x : vec) :
  (forall a, a <= 0 -> e a = e' a) ->
  sigmoid_flat_with e x = sigmoid_flat_with e' x.
Proof.
  intros Hag. rewrite !sigmoid_flat_with_map. apply map_ext. intros v.
  destruct (Rge_dec v 0).
  - by rewrite (Hag (- v)) by lra.
  - by rewrite (Hag v) by lra.
Qed.

Section int_dtype.
Import IntDtype.

Lemma wrap64_id (n : Z) : in_int64 n -> wrap64 n = n.
Proof. unfold in_int64, wrap64. intros Hn. rewrite Z.mod_small; lia. Qed.

Lemma trunc_unit_interval (r : R) : 0 <= r < 1 -> trunc r = 0%Z.
Proof.
  intros Hr. unfold trunc. destruct (Rle_dec 0 r) as [_|Hn]; [|lra].
  symmetry. apply Int_part_spec. simpl. lra.
Qed.

Lemma trunc_one : trunc 1 = 1%Z.
Proof.
  unfold trunc. destruct (Rle_dec 0 1) as [_|Hn]; [|lra].
  symmetry. apply Int_part_spec. simpl. lra.
Qed.

Lemma trunc_exp_neg (a : R) : a < 0 -> trunc (exp a) = 0%Z.
Proof.
  intros Ha. apply trunc_unit_interval. split; [left; apply exp_pos|].
  rewrite <- exp_0. by apply exp_increasing.
Qed.

Lemma sigmoid_int_cons (v : Z) (x : list Z) :
  in_int64 v -> sigmoid (v :: x) = sigmoid_entry v :: sigmoid x.
Proof.
  intros Hv. unfold sigmoid, sigmoid_entry, np_exp. cbn [map].
  destruct (Z.ltb_spec v 0) as [Hneg|Hpos].
  - rewrite (proj2 (Z.leb_gt 0 v)) by lia.
    cbn [select scatter map zip_with]. f_equal.
    rewrite trunc_exp_neg by (by apply IZR_lt).
    rewrite wrap64_id by (unfold in_int64; lia).
    replace (1 + 0)%Z with 1%Z by lia. lra.
  - rewrite (proj2 (Z.leb_le 0 v)) by lia.
    cbn [select scatter map zip_with]. f_equal.
    rewrite (wrap64_id (- v)) by (unfold in_int64 in *; lia).
    destruct (Z.eqb_spec v 0) as [->|Hne].
    + replace (- 0)%Z with 0%Z by lia.
      rewrite exp_0, trunc_one, wrap64_id by (unfold in_int64; lia).
      replace (1 + 1)%Z with 2%Z by lia. lra.
    + rewrite trunc_exp_neg by (apply (IZR_lt (- v) 0); lia).
      rewrite wrap64_id by (unfold in_int64; lia).
      replace (1 + 0)%Z with 1%Z by lia. lra.
Qed.

(** On an [int64] buffer [sigmoid] is the step function of the sign. *)
Lemma sigmoid_int_step (x : list Z) :
  Forall in_int64 x -> sigmoid x = map sigmoid_entry x.
Proof.
  induction 1 as [|v x Hv Hx IH]; [reflexivity|].
  rewrite sigmoid_int_cons by done. cbn [map]. by rewrite IH.
Qed.

End int_dtype.

Lemma logistic_lt_1 (v : R) : logistic v < 1.
Proof.
  unfold logistic. pose proof (exp_pos (- v)) as He.
  apply (Rmult_lt_reg_r (1 + exp (- v))); [lra|]. field_simplify; lra.
Qed.

(** C3.  The integer array [[-1, 0, 1]]: [sigmoid] returns [[0, 0.5, 1]],
    the step function of the sign, where the logistic function it documents
    gives [1/(1+e)], [1/2] and [1/(1+e^-1)]; the first and the last entry
    differ from the logistic values. *)
Theorem sigmoid_int_array_not_logistic :
  IntDtype.sigmoid [(-1)%Z; 0%Z; 1%Z] = [0; 1 / 2; 1]
  /\ IntDtype.sigmoid [(-1)%Z; 0%Z; 1%Z] <> map logistic [IZR (-1); IZR 0; IZR 1]
  /\ logistic (IZR (-1)) <> 0 /\ logistic (IZR 1) <> 1.
Proof.
  assert (E : IntDtype.sigmoid [(-1)%Z; 0%Z; 1%Z] = [0; 1 / 2; 1]).
  { rewrite sigmoid_int_step; [reflexivity|].
    repeat constructor; unfold IntDtype.in_int64; lia. }
  assert (H1 : logistic (IZR 1) <> 1).
  { pose proof (logistic_lt_1 (IZR 1)). lra. }
  split; [exact E|]. split.
  - rewrite E. cbn [map]. intros Heq. injection Heq as _ _ Heq. by apply H1.
  - split; [|exact H1]. unfold logistic. pose proof (exp_pos (- IZR (-1))) as He.
    intros Heq. apply (Rmult_eq_compat_r (1 + exp (- IZR (-1)))) in Heq.
    field_simplify in Heq; lra.
Qed.

(** X19.  On a float buffer [x], with [np.exp] read as any elementwise
    function [e]: [sigmoid] leaves [1/(1+e(-v))] at an entry [v >= 0] and
    [e(v)/(1+e(v))] at an entry [v < 0], so its result is the same for two
    functions that agree on the arguments [<= 0], the only ones it hands to
    [np.exp]; with the exponential for [e] both forms are the logistic
    function, on a buffer and on a rank-2 array. *)
Theorem sigmoid_stable_branches (x : vec) :
  sigmoid_flat x = sigmoid_flat_with exp x
  /\ (forall e : R -> R,
        sigmoid_flat_with e x
        = map (fun v => if Rge_dec v 0 then 1 / (1 + e (- v)) else e v / (1 + e v)) x)
  /\ (forall e e' : R -> R,
        (forall a, a <= 0 -> e a = e' a) ->
        sigmoid_flat_with e x = sigmoid_flat_with e' x)
  /\ sigmoid_flat x = map logistic x
  /\ (forall M : matrix, sigmoid M = map (map logistic) M).
Proof.
  split; [reflexivity|].
  split; [intros e; apply sigmoid_flat_with_map|].
  split; [intros e e'; apply sigmoid_flat_with_agree|].
  split; [|apply sigmoid_map].
  rewrite sigmoid_flat_map. apply map_ext, sigmoid_entry_logistic.
Qed.

Lemma sigmoid_stable_branches_witness :
  sigmoid_flat [1; -1] = sigmoid_flat_with exp_nonpos_only [1; -1].
Proof.
  destruct (sigmoid_stable_branches [1; -1]) as (E & _ & Hag & _).
  rewrite E. apply Hag. intros a Ha. unfold exp_nonpos_only.
  destruct (Rle_dec a 0); [reflexivity|lra].
Defined.
